(** * Maintenance scripts of the cold-email dashboard: a shallow embedding

    The scripts under [scripts/] are batch text transforms.  This file embeds
    - [convert-database-types.py]: the flattening of circular [Insert] and
      [Update] type declarations and the [Relationships: []] normaliser,
    - [fix-database-types.py]: [generate_insert_type], [generate_update_type],
    - [replace-cred-ids.py]: the per-file credential-ID replacement loop,
    and proves the properties their specification states.

    Text.  A Python [str] is modelled as a list of characters, a character
    being a code point below 256 (Stdlib's [ascii]); the classes [\s] and
    [\w] of [re], [str.strip] and [str.lower] are the ones Python 3 uses on
    that range.

    Regular expressions.  [re] is modelled by a backtracking matcher
    (greedy, leftmost, first alternative first) over the constructs the
    scripts' patterns use; every pattern is written as a term that follows
    its string in the source. *)

From Stdlib Require Import Ascii String DecimalString.
From Stdlib Require Import List Arith Lia Bool.
Import ListNotations.

Set Default Goal Selector "!".

Open Scope char_scope.
Open Scope nat_scope.
Open Scope list_scope.

(* ===================================================================== *)
(** * Python strings *)
(* ===================================================================== *)

Module Text.

(** A [str]: the sequence of its characters. *)
Definition text := list ascii.

(** A string literal of the source. *)
Definition t (s : string) : text := list_ascii_of_string s.
Arguments t s%_string.

(** The newline character, written [\n] in the source. *)
Definition nl : ascii := "010".

Definition code (c : ascii) : nat := nat_of_ascii c.

Definition between (lo hi : nat) (c : ascii) : bool :=
  (lo <=? code c) && (code c <=? hi).

(** [str.isspace] on one character; also the class [\s] of [re] and the
    characters [str.strip()] removes. *)
Definition is_space (c : ascii) : bool :=
  between 9 13 c || between 28 32 c || (code c =? 133) || (code c =? 160).

(** The class [\w] of [re] on [str] patterns: alphanumeric or underscore. *)
Definition is_word (c : ascii) : bool :=
  between 48 57 c || between 65 90 c || (code c =? 95) || between 97 122 c
  || (code c =? 170) || between 178 179 c || (code c =? 181)
  || between 185 186 c || between 188 190 c || between 192 214 c
  || between 216 246 c || between 248 255 c.

(** [str.lower] on one character. *)
Definition lower_char (c : ascii) : ascii :=
  if between 65 90 c || between 192 214 c || between 216 222 c
  then ascii_of_nat (code c + 32) else c.

(** [s.lower()] *)
Definition lower (s : text) : text := map lower_char s.

(** [a == b] on characters and on strings. *)
Definition ceqb : ascii -> ascii -> bool := Ascii.eqb.

Fixpoint eqb (a b : text) : bool :=
  match a, b with
  | [], [] => true
  | x :: a', y :: b' => ceqb x y && eqb a' b'
  | _, _ => false
  end.

(** [s.startswith(p)], returning what follows the prefix. *)
Fixpoint strip_prefix (p s : text) : option text :=
  match p with
  | [] => Some s
  | x :: p' =>
      match s with
      | y :: s' => if ceqb x y then strip_prefix p' s' else None
      | [] => None
      end
  end.

Definition startswith (p s : text) : bool :=
  match strip_prefix p s with Some _ => true | None => false end.

(** [needle in s]: substring test. *)
Fixpoint contains (needle s : text) : bool :=
  startswith needle s ||
  match s with
  | [] => false
  | _ :: s' => contains needle s'
  end.

(** [c in s] for a single character. *)
Definition has_char (c : ascii) (s : text) : bool := existsb (ceqb c) s.

(** Longest prefix of characters satisfying [p], and what follows it. *)
Fixpoint take_while (p : ascii -> bool) (s : text) : text :=
  match s with
  | c :: s' => if p c then c :: take_while p s' else []
  | [] => []
  end.

Fixpoint drop_while (p : ascii -> bool) (s : text) : text :=
  match s with
  | c :: s' => if p c then drop_while p s' else s
  | [] => []
  end.

(** [s.lstrip()], [s.rstrip()], [s.strip()] and [s.rstrip(c)]. *)
Definition lstrip (s : text) : text := drop_while is_space s.

Definition rstrip_by (p : ascii -> bool) (s : text) : text :=
  rev (drop_while p (rev s)).

Definition rstrip (s : text) : text := rstrip_by is_space s.

Definition strip (s : text) : text := rstrip (lstrip s).

Definition rstrip_char (c : ascii) (s : text) : text := rstrip_by (ceqb c) s.

(** [s.split(sep)] for a one-character separator: always at least one part. *)
Fixpoint split (sep : ascii) (s : text) : list text :=
  match s with
  | [] => [[]]
  | c :: s' =>
      if ceqb sep c then [] :: split sep s'
      else match split sep s' with
           | p :: ps => (c :: p) :: ps
           | [] => [[c]]
           end
  end.

(** [s.split(sep, 1)] when [sep in s]: the text before the first separator
    and the text after it. *)
Fixpoint split1 (sep : ascii) (s : text) : text * text :=
  match s with
  | [] => ([], [])
  | c :: s' =>
      if ceqb sep c then ([], s')
      else let '(a, b) := split1 sep s' in (c :: a, b)
  end.

(** [sep.join(parts)] *)
Fixpoint join (sep : text) (parts : list text) : text :=
  match parts with
  | [] => []
  | [p] => p
  | p :: ps => p ++ sep ++ join sep ps
  end.

(** [s.count(needle)] and [s.replace(needle, by)]: occurrences are taken
    left to right and do not overlap.  [skip] is the number of characters
    of the current occurrence still to pass.  The needles of the scripts
    are not empty. *)
Fixpoint count_from (needle : text) (skip : nat) (s : text) : nat :=
  match s with
  | [] => 0
  | _ :: s' =>
      match skip with
      | S k => count_from needle k s'
      | 0 => if startswith needle s
             then S (count_from needle (length needle - 1) s')
             else count_from needle 0 s'
      end
  end.

Definition count (needle s : text) : nat := count_from needle 0 s.

Fixpoint replace_from (needle by_ : text) (skip : nat) (s : text) : text :=
  match s with
  | [] => []
  | c :: s' =>
      match skip with
      | S k => replace_from needle by_ k s'
      | 0 => if startswith needle s
             then by_ ++ replace_from needle by_ (length needle - 1) s'
             else c :: replace_from needle by_ 0 s'
      end
  end.

Definition replace (needle by_ s : text) : text := replace_from needle by_ 0 s.

(** [s.endswith(p)] *)
Definition endswith (p s : text) : bool := startswith (rev p) (rev s).

(** [str(n)] for a natural number, as the f-strings use it. *)
Definition str_of_nat (n : nat) : text :=
  t (DecimalString.NilZero.string_of_uint (Nat.to_uint n)).

(** [a < b] and [sorted(xs)] on strings: code points, lexicographically. *)
Fixpoint ltb (a b : text) : bool :=
  match a, b with
  | _, [] => false
  | [], _ :: _ => true
  | x :: a', y :: b' =>
      if code x <? code y then true
      else if code y <? code x then false
      else ltb a' b'
  end.

Fixpoint insert_sorted (x : text) (xs : list text) : list text :=
  match xs with
  | [] => [x]
  | y :: ys => if ltb y x then y :: insert_sorted x ys else x :: xs
  end.

Definition sorted (xs : list text) : list text :=
  fold_right insert_sorted [] xs.

(** A [dict] with string keys: the items in insertion order.  Assigning to
    a key that is present keeps its position and replaces its value. *)
Section Dict.
Context {V : Type}.

Definition dict := list (text * V).

Fixpoint dict_get (d : dict) (k : text) : option V :=
  match d with
  | [] => None
  | (k', v) :: d' => if eqb k' k then Some v else dict_get d' k
  end.

Definition dict_mem (d : dict) (k : text) : bool :=
  match dict_get d k with Some _ => true | None => false end.

Fixpoint dict_set (d : dict) (k : text) (v : V) : dict :=
  match d with
  | [] => [(k, v)]
  | (k', v') :: d' =>
      if eqb k' k then (k', v) :: d' else (k', v') :: dict_set d' k v
  end.
End Dict.
Arguments dict V : clear implicits.

(** [x in s] for a [set] of strings, kept as the list it was built from. *)
Definition set_mem (x : text) (s : list text) : bool := existsb (eqb x) s.

End Text.

(* ===================================================================== *)
(** * Printed output *)
(* ===================================================================== *)

(** A computation that may [print]: its value and the lines printed, in
    order. *)
Module Out.
Import Text.

Definition W (A : Type) : Type := (A * list text)%type.

Definition ret {A} (x : A) : W A := (x, []).

Definition bind {A B} (m : W A) (f : A -> W B) : W B :=
  let '(x, l1) := m in let '(y, l2) := f x in (y, l1 ++ l2).

Definition print (line : text) : W unit := (tt, [line]).

Definition value {A} (m : W A) : A := fst m.
Definition printed {A} (m : W A) : list text := snd m.

Declare Scope out_scope.
Delimit Scope out_scope with out.
Notation "x <- m ;; k" := (bind m (fun x => k))
  (at level 61, m at next level, right associativity) : out_scope.
Notation "m ;; k" := (bind m (fun _ => k))
  (at level 61, right associativity) : out_scope.
Local Open Scope out_scope.

(** [for x in xs: state = body(state, x)] *)
Fixpoint for_each {A S : Type} (xs : list A) (body : S -> A -> W S) (st : S)
  : W S :=
  match xs with
  | [] => ret st
  | x :: xs' => st' <- body st x ;; for_each xs' body st'
  end.

End Out.

(* ===================================================================== *)
(** * The [re] module *)
(* ===================================================================== *)

Module Re.
Import Text Out.

(** The constructs the patterns of the scripts are made of.  Repetition
    is only ever applied to a character class. *)
Inductive regex : Type :=
| Lit (l : text)              (* a run of literal characters *)
| Seq (r1 r2 : regex)         (* r1 followed by r2 *)
| Alt (r1 r2 : regex)         (* r1|r2 *)
| Star (p : ascii -> bool)    (* C*, greedy *)
| Plus (p : ascii -> bool)    (* C+, greedy *)
| Grp (n : nat) (r : regex).  (* the capturing group number n *)

(** The pieces of a pattern, left to right. *)
Fixpoint cat (rs : list regex) : regex :=
  match rs with
  | [] => Lit []
  | [r] => r
  | r :: rs' => Seq r (cat rs')
  end.

(** The class [[^c]]. *)
Definition other_than (c : ascii) (x : ascii) : bool := negb (ceqb c x).

(** The class [[^ab]]. *)
Definition other_than2 (a b : ascii) (x : ascii) : bool :=
  negb (ceqb a x) && negb (ceqb b x).

(** Whether every match of [r] has at least one character. *)
Fixpoint nonempty (r : regex) : bool :=
  match r with
  | Lit l => match l with [] => false | _ :: _ => true end
  | Seq r1 r2 => nonempty r1 || nonempty r2
  | Alt r1 r2 => nonempty r1 && nonempty r2
  | Star _ => false
  | Plus _ => true
  | Grp _ r1 => nonempty r1
  end.

(** Group number and captured text, most recent first. *)
Definition captures := list (nat * text).

(** The text between a position [s] and a later position [s'], both given
    as what remains of the subject. *)
Definition consumed (s s' : text) : text := firstn (length s - length s') s.

Section Matcher.
Context {R : Type}.

(** What is still to be matched after a piece. *)
Definition cont := text -> captures -> option R.

(** Greedy repetition: the longest run first, then shorter ones. *)
Fixpoint star (p : ascii -> bool) (s : text) (caps : captures) (k : cont)
  : option R :=
  match s with
  | c :: s' =>
      if p c
      then match star p s' caps k with
           | Some r => Some r
           | None => k s caps
           end
      else k s caps
  | [] => k [] caps
  end.

Fixpoint run (r : regex) (s : text) (caps : captures) (k : cont) : option R :=
  match r with
  | Lit l =>
      match strip_prefix l s with
      | Some s' => k s' caps
      | None => None
      end
  | Seq r1 r2 => run r1 s caps (fun s' caps' => run r2 s' caps' k)
  | Alt r1 r2 =>
      match run r1 s caps k with
      | Some x => Some x
      | None => run r2 s caps k
      end
  | Star p => star p s caps k
  | Plus p =>
      match s with
      | c :: s' => if p c then star p s' caps k else None
      | [] => None
      end
  | Grp n r1 =>
      run r1 s caps (fun s' caps' => k s' ((n, consumed s s') :: caps'))
  end.
End Matcher.

(** A match object: [group(0)], the groups, and the subject after the
    match. *)
Record Match : Type := mkMatch {
  whole : text;
  groups : captures;
  rest : text
}.

Fixpoint lookup (n : nat) (caps : captures) : text :=
  match caps with
  | [] => []
  | (n', x) :: caps' => if n' =? n then x else lookup n caps'
  end.

(** [m.group(n)]; every group of the scripts' patterns takes part in every
    match. *)
Definition group (m : Match) (n : nat) : text :=
  match n with
  | 0 => whole m
  | _ => lookup n (groups m)
  end.

(** A match of [r] starting exactly at the beginning of [s]. *)
Definition match_at (r : regex) (s : text) : option Match :=
  run r s [] (fun s' caps => Some (mkMatch (consumed s s') caps s')).

(** [r.finditer(s)]: the leftmost match, then the leftmost one after it,
    and so on.  [skip] counts the characters of the current match still to
    pass.  Each pattern of the scripts contains a literal character, so a
    match is never empty; an empty match is treated as no match. *)
Fixpoint finditer_from (r : regex) (skip : nat) (s : text) : list Match :=
  match s with
  | [] => []
  | _ :: s' =>
      match skip with
      | S k => finditer_from r k s'
      | 0 =>
          match match_at r s with
          | Some m =>
              match whole m with
              | _ :: w => m :: finditer_from r (length w) s'
              | [] => finditer_from r 0 s'
              end
          | None => finditer_from r 0 s'
          end
      end
  end.

Definition finditer (r : regex) (s : text) : list Match := finditer_from r 0 s.

(** [re.findall(r, s)] for a pattern with one group. *)
Definition findall (r : regex) (s : text) : list text :=
  map (fun m => group m 1) (finditer r s).

(** [r.sub(repl, s)] with a function [repl], which may print. *)
Fixpoint sub_from (r : regex) (repl : Match -> W text) (skip : nat) (s : text)
  : W text :=
  match s with
  | [] => ret []
  | c :: s' =>
      match skip with
      | S k => sub_from r repl k s'
      | 0 =>
          match match_at r s with
          | Some m =>
              match whole m with
              | _ :: w =>
                  (x <- repl m ;;
                   y <- sub_from r repl (length w) s' ;;
                   ret (x ++ y))%out
              | [] => (y <- sub_from r repl 0 s' ;; ret (c :: y))%out
              end
          | None => (y <- sub_from r repl 0 s' ;; ret (c :: y))%out
          end
      end
  end.

Definition sub (r : regex) (repl : Match -> W text) (s : text) : W text :=
  sub_from r repl 0 s.

End Re.

(* ===================================================================== *)
(** * convert-database-types.py *)
(* ===================================================================== *)

Module Convert.
Import Text Out Re.
Local Open Scope out_scope.

(** ** The patterns

    Each is preceded by its string in the source, where a space is put
    between a star and the closing parenthesis of a group. *)

(** [(public|genesis)] *)
Definition schema : regex := Alt (Lit (t "public")) (Lit (t "genesis")).

(** [Insert: Omit<Database\['(public|genesis)'\]\['Tables'\]\['(\w+)'\]\['Row'\], ([^>]+)> & \{\s*([^}]* )\}] *)
Definition insert_pattern : regex :=
  cat [ Lit (t "Insert: Omit<Database['"); Grp 1 schema;
        Lit (t "']['Tables']['"); Grp 2 (Plus is_word);
        Lit (t "']['Row'], "); Grp 3 (Plus (other_than ">"));
        Lit (t "> & {"); Star is_space; Grp 4 (Star (other_than "}"));
        Lit (t "}") ].

(** [Update: Partial<Database\['(public|genesis)'\]\['Tables'\]\['(\w+)'\]\['Insert'\]>] *)
Definition update_pattern : regex :=
  cat [ Lit (t "Update: Partial<Database['"); Grp 1 schema;
        Lit (t "']['Tables']['"); Grp 2 (Plus is_word);
        Lit (t "']['Insert']>") ].

(** [(\w+): \{\s*Row: \{([^}]+)\}\s*Insert:] *)
Definition row_pattern : regex :=
  cat [ Grp 1 (Plus is_word); Lit (t ": {"); Star is_space;
        Lit (t "Row: {"); Grp 2 (Plus (other_than "}")); Lit (t "}");
        Star is_space; Lit (t "Insert:") ].

(** [(\w+):\s*([^\n;]+)] *)
Definition field_pattern : regex :=
  cat [ Grp 1 (Plus is_word); Lit (t ":"); Star is_space;
        Grp 2 (Plus (other_than2 nl ";")) ].

(** ['(\w+)'] *)
Definition quoted_pattern : regex :=
  cat [ Lit (t "'"); Grp 1 (Plus is_word); Lit (t "'") ].

(** [Update: \{[^}]+\}], the first group of the two patterns below. *)
Definition block_piece : regex :=
  cat [ Lit (t "Update: {"); Plus (other_than "}"); Lit (t "}") ].

(** [\s*\}] *)
Definition close_piece : regex := cat [ Star is_space; Lit (t "}") ].

(** [(Update: \{[^}]+\})\n(\s*\})\n(\s* )(\w+):] *)
Definition relationships_pattern : regex :=
  cat [ Grp 1 block_piece; Lit [nl]; Grp 2 close_piece;
        Lit [nl]; Grp 3 (Star is_space); Grp 4 (Plus is_word); Lit (t ":") ].

(** [(Update: \{[^}]+\})\n(\s*\})\n(\s*\})\n(\s* )(Functions:|Views:)] *)
Definition last_table_pattern : regex :=
  cat [ Grp 1 block_piece; Lit [nl]; Grp 2 close_piece;
        Lit [nl]; Grp 3 close_piece;
        Lit [nl]; Grp 4 (Star is_space);
        Grp 5 (Alt (Lit (t "Functions:")) (Lit (t "Views:"))) ].

(** ** First pass: the Row fields of every table *)

(** The body of the inner loop: one match of [field_pattern]. *)
Definition add_field (fields : dict text) (field_match : Match) : dict text :=
  let name := strip (group field_match 1) in
  let typ := strip (group field_match 2) in
  let typ := strip (rstrip_char ";" typ) in
  match name, typ with
  | _ :: _, _ :: _ => dict_set fields name typ
  | _, _ => fields
  end.

Definition parse_fields (fields_str : text) : dict text :=
  fold_left add_field (finditer field_pattern fields_str) [].

(** The body of the outer loop: one match of [row_pattern]. *)
Definition add_table (row_fields : dict (dict text)) (m : Match)
  : W (dict (dict text)) :=
  let table_name := group m 1 in
  let fields_str := group m 2 in
  let fields := parse_fields fields_str in
  print (t "Parsed " ++ table_name ++ t ": " ++ str_of_nat (length fields)
           ++ t " fields") ;;
  ret (dict_set row_fields table_name fields).

Definition collect_rows (content : text) : W (dict (dict text)) :=
  row_fields <- for_each (finditer row_pattern content) add_table [] ;;
  print (nl :: t "Parsed " ++ str_of_nat (length row_fields) ++ t " tables") ;;
  ret row_fields.

(** ** Second pass: the Insert declarations *)

(** The exclusion list ['id' | 'created_at' | ...] as a set. *)
Definition parse_omit (omit_fields_str : text) : list text :=
  findall quoted_pattern omit_fields_str.

(** One line of the [& { ... }] part. *)
Definition add_override (overrides : dict text) (line : text) : dict text :=
  let line := strip line in
  if has_char ":" line
  then let '(before, after) := split1 ":" line in
       let field_name := rstrip_char "?" (strip before) in
       let field_type := rstrip_char "," (rstrip_char ";" (strip after)) in
       dict_set overrides field_name field_type
  else overrides.

Definition parse_overrides (optional_fields_str : text) : dict text :=
  match strip optional_fields_str with
  | [] => []
  | stripped => fold_left add_override (split nl stripped) []
  end.

Definition indent : text := t "          ".

(** The four branches of the loop body of [replace_insert]. *)
Definition insert_line (omit_fields : list text) (optional_overrides : dict text)
    (field : text * text) : text :=
  let '(name, typ) := field in
  if set_mem name omit_fields
  then indent ++ name ++ t "?: " ++ typ
  else match dict_get optional_overrides name with
       | Some override => indent ++ name ++ t "?: " ++ override
       | None =>
           if contains (t "null") (lower typ)
           then indent ++ name ++ t "?: " ++ typ
           else indent ++ name ++ t ": " ++ typ
       end.

(** [insert_lines = []; for name, typ in fields.items(): insert_lines.append(...)] *)
Definition insert_lines (omit_fields : list text) (optional_overrides : dict text)
    (fields : dict text) : list text :=
  fold_left
    (fun lines field => lines ++ [insert_line omit_fields optional_overrides field])
    fields [].

Definition closing : text := nl :: t "        }".

Definition replace_insert (row_fields : dict (dict text)) (m : Match) : W text :=
  let table_name := group m 2 in
  let omit_fields_str := group m 3 in
  let optional_fields_str := group m 4 in
  let omit_fields := parse_omit omit_fields_str in
  let optional_overrides := parse_overrides optional_fields_str in
  match dict_get row_fields table_name with
  | None =>
      print (t "  WARNING: No Row fields found for " ++ table_name) ;;
      ret (group m 0)
  | Some fields =>
      let result :=
        t "Insert: {" ++ nl
          :: join [nl] (insert_lines omit_fields optional_overrides fields)
          ++ closing in
      print (t "  Fixed Insert for " ++ table_name) ;;
      ret result
  end.

(** ** Third pass: the Update declarations *)

Definition update_line (field : text * text) : text :=
  let '(name, typ) := field in indent ++ name ++ t "?: " ++ typ.

Definition update_lines (fields : dict text) : list text :=
  fold_left (fun lines field => lines ++ [update_line field]) fields [].

Definition replace_update (row_fields : dict (dict text)) (m : Match) : W text :=
  let table_name := group m 2 in
  match dict_get row_fields table_name with
  | None =>
      print (t "  WARNING: No Row fields found for " ++ table_name) ;;
      ret (group m 0)
  | Some fields =>
      let result :=
        t "Update: {" ++ nl :: join [nl] (update_lines fields) ++ closing in
      print (t "  Fixed Update for " ++ table_name) ;;
      ret result
  end.

(** ** The relationships normaliser *)

(** The text put after an Update block. *)
Definition marker : text := nl :: t "        Relationships: []".

Definition add_relationships (m : Match) : W text :=
  let update_block := group m 1 in
  let close_brace := group m 2 in
  let indent := group m 3 in
  let next_table := group m 4 in
  ret (update_block ++ marker ++ nl :: close_brace ++ nl :: indent
         ++ next_table ++ t ":").

Definition add_relationships_last (m : Match) : W text :=
  let update_block := group m 1 in
  let table_close := group m 2 in
  let tables_close := group m 3 in
  let indent := group m 4 in
  let next_section := group m 5 in
  ret (update_block ++ marker ++ nl :: table_close ++ nl :: tables_close
         ++ nl :: indent ++ next_section).

(** One turn of the loop body:
    [content = relationships_pattern.sub(add_relationships, content)]. *)
Definition relationships_pass (content : text) : text :=
  value (sub relationships_pattern add_relationships content).

(** [while prev_content != content: prev_content = content; content = ...].
    The source loop has no bound; [fuel] bounds the number of tests of the
    loop condition and [None] stands for a loop still running. *)
Fixpoint relationships_loop (fuel : nat) (prev_content content : text)
  : option text :=
  match fuel with
  | 0 => None
  | S fuel' =>
      if eqb prev_content content then Some content
      else relationships_loop fuel' content (relationships_pass content)
  end.

Definition last_table_pass (content : text) : text :=
  value (sub last_table_pattern add_relationships_last content).

(** Step 3 of [main]: the loop, then the last table of each schema. *)
Definition normalize (fuel : nat) (content : text) : option text :=
  match relationships_loop fuel [] content with
  | Some content' => Some (last_table_pass content')
  | None => None
  end.

(** ** [main] *)

(** Steps 1 and 2: collect the Row fields, rewrite Insert, rewrite Update. *)
Definition flatten (content : text) : W text :=
  row_fields <- collect_rows content ;;
  content <- sub insert_pattern (replace_insert row_fields) content ;;
  sub update_pattern (replace_update row_fields) content.

(** The text [main] computes from the text it read, and what it prints on
    the way. *)
Definition transform (fuel : nat) (content : text) : option (W text) :=
  let '(flat, out) := flatten content in
  match normalize fuel flat with
  | Some content' =>
      Some (content', out ++ [t "  Added Relationships: [] to all tables"])
  | None => None
  end.

Definition path : text := t "lib/database.types.ts".

(** The UTF-8 bytes of the two signs the final messages start with. *)
Definition check_mark : text := map ascii_of_nat [226; 156; 133].
Definition warning_sign : text := map ascii_of_nat [226; 154; 160; 239; 184; 143].

(** How a run ends: the files, the paths opened for writing (in order) and
    the printed lines; or an uncaught exception. *)
Inductive outcome : Type :=
| Finished (files : dict text) (writes : list text) (out : list text)
| Raised (exception : text).

Definition main (fuel : nat) (files : dict text) : option outcome :=
  match dict_get files path with
  | None => Some (Raised (t "FileNotFoundError"))
  | Some original_content =>
      match transform fuel original_content with
      | None => None
      | Some (content, out) =>
          if negb (eqb content original_content)
          then Some (Finished (dict_set files path content) [path]
                       (out ++ [nl :: check_mark ++ t " Successfully converted database.types.ts";
                                t "All circular type references have been replaced with flat explicit types."]))
          else Some (Finished files []
                       (out ++ [nl :: warning_sign ++ t " No changes made - file may already be fixed or pattern not matched"]))
      end
  end.

End Convert.

(* ===================================================================== *)
(** * fix-database-types.py *)
(* ===================================================================== *)

Module Fix.
Import Text.

Definition indent : text := t "          ".

Definition closing : text := nl :: t "        }".

(** The loop body of [generate_insert_type]. *)
Definition insert_line (omit_fields : list text) (field : text * text) : text :=
  let '(name, type_str) := field in
  if set_mem name omit_fields
  then indent ++ name ++ t "?: " ++ type_str
  else if contains (t "null") (lower type_str)
       then indent ++ name ++ t "?: " ++ type_str
       else indent ++ name ++ t ": " ++ type_str.

Definition generate_insert_type (fields : dict text) (omit_fields : list text)
  : text :=
  let lines :=
    fold_left (fun lines field => lines ++ [insert_line omit_fields field])
      fields [] in
  t "{" ++ nl :: join [nl] lines ++ closing.

Definition update_line (field : text * text) : text :=
  let '(name, type_str) := field in indent ++ name ++ t "?: " ++ type_str.

Definition generate_update_type (fields : dict text) : text :=
  let lines :=
    fold_left (fun lines field => lines ++ [update_line field]) fields [] in
  t "{" ++ nl :: join [nl] lines ++ closing.

End Fix.

(* ===================================================================== *)
(** * replace-cred-ids.py *)
(* ===================================================================== *)

Module Creds.
Import Text Out.
Local Open Scope out_scope.

Definition CREDENTIAL_ID_MAP : list (text * text) :=
  [ (t "kThf5Npwf1zJFn9l", t "YOUR_CREDENTIAL_GMAIL_ID");
    (t "tUD6GQ7CnHfvUM7k", t "YOUR_CREDENTIAL_GMAIL_ID");
    (t "zfHBUnz62UkbN9cm", t "YOUR_CREDENTIAL_GMAIL_ID");
    (t "QKb5WqKXZ29v15Qk", t "YOUR_CREDENTIAL_POSTGRES_ID");
    (t "2EUpgH0WFkM3Lr6E", t "YOUR_CREDENTIAL_GOOGLE_SHEETS_ID");
    (t "p8ESE0UMGdJsRvZv", t "YOUR_CREDENTIAL_GOOGLE_SHEETS_ID");
    (t "EzDErZcUtMKUzyRO", t "YOUR_CREDENTIAL_OPENAI_ID");
    (t "aoWKHXiRqhK3nMDW", t "YOUR_CREDENTIAL_ANTHROPIC_ID");
    (t "9z6Laho4Xwr3N9sS", t "YOUR_CREDENTIAL_GOOGLE_CSE_QUERY_ID");
    (t "6DunH8n5TZY3tjwT", t "YOUR_CREDENTIAL_GOOGLE_CSE_QUERY_ID");
    (t "uNNf74d1EVpcGBgo", t "YOUR_CREDENTIAL_GOOGLE_CSE_HEADER_ID") ].

(** [os.path.join(a, b)] on POSIX paths. *)
Definition path_join (a b : text) : text :=
  if startswith (t "/") b then b
  else match a with
       | [] => b
       | _ => if endswith (t "/") a then a ++ b else a ++ t "/" ++ b
       end.

(** [os.path.basename(p)]: what follows the last slash. *)
Definition basename (p : text) : text := last (split "/" p) [].

(** The UTF-8 bytes of the arrow and of the check mark in the messages. *)
Definition arrow : text := map ascii_of_nat [226; 134; 146].
Definition check_mark : text := map ascii_of_nat [226; 156; 133].

(** The directories of the file system: path of a directory, then name and
    content of each file in it. *)
Definition filesystem := dict (dict text).

(** What the script has done so far: the files, the files opened for
    writing (directory and name, most recent last) and
    [total_replacements]. *)
Record state : Type := mkState {
  fs : filesystem;
  writes : list (text * text);
  total_replacements : nat
}.

Section Script.
(** [os.path.dirname(os.path.abspath(__file__))] *)
Variable BASE_DIR : text.

(** [json.loads(content)]: the message of the [JSONDecodeError] it
    raises, or [None] when the text parses. *)
Variable json_error : text -> option text.

Definition PROJECT_ROOT : text := path_join BASE_DIR (t "..").

Definition TEMPLATE_DIRS : list text :=
  [ path_join PROJECT_ROOT (t "base-cold-email");
    path_join PROJECT_ROOT (t "cold-email-system") ].

(** The body of the loop over [CREDENTIAL_ID_MAP.items()]; the state is
    [content] and [file_replacements]. *)
Definition replace_id (template_dir filename : text) (st : text * nat)
    (entry : text * text) : W (text * nat) :=
  let '(content, file_replacements) := st in
  let '(old_id, placeholder) := entry in
  let n := count old_id content in
  match n with
  | 0 => ret (content, file_replacements)
  | _ =>
      print (t "  [" ++ basename template_dir ++ t "] " ++ filename ++ t ": "
               ++ old_id ++ t " " ++ arrow ++ t " " ++ placeholder ++ t " ("
               ++ str_of_nat n ++ t "x)") ;;
      ret (replace old_id placeholder content, file_replacements + n)
  end.

Definition replace_ids (template_dir filename content : text) : W (text * nat) :=
  for_each CREDENTIAL_ID_MAP (replace_id template_dir filename) (content, 0).

(** The files of a directory; an absent directory has none. *)
Definition files_of (f : filesystem) (dir : text) : dict text :=
  match dict_get f dir with Some files => files | None => [] end.

Definition write_file (f : filesystem) (dir filename content : text)
  : filesystem :=
  dict_set f dir (dict_set (files_of f dir) filename content).

(** The body of the loop over [sorted(os.listdir(template_dir))]. *)
Definition process_file (template_dir : text) (st : state) (filename : text)
  : W state :=
  if negb (endswith (t ".json") filename) then ret st
  else
    match dict_get (files_of (fs st) template_dir) filename with
    | None => ret st  (* the name comes from the listing of the directory *)
    | Some content =>
        r <- replace_ids template_dir filename content ;;
        let '(content', file_replacements) := r in
        match file_replacements with
        | 0 => ret st
        | _ =>
            match json_error content' with
            | Some e =>
                print (t "  ERROR: JSON invalid after replacement in "
                         ++ filename ++ t ": " ++ e) ;;
                ret st
            | None =>
                ret (mkState
                       (write_file (fs st) template_dir filename content')
                       (writes st ++ [(template_dir, filename)])
                       (total_replacements st + file_replacements))
            end
        end
    end.

(** The body of the loop over [TEMPLATE_DIRS]. *)
Definition process_dir (st : state) (template_dir : text) : W state :=
  match dict_get (fs st) template_dir with
  | None => print (t "  SKIP (not found): " ++ template_dir) ;; ret st
  | Some files =>
      for_each (sorted (map fst files)) (process_file template_dir) st
  end.

Definition script (f : filesystem) : W state :=
  st <- for_each TEMPLATE_DIRS process_dir (mkState f [] 0) ;;
  print (nl :: check_mark ++ t " Total replacements: "
           ++ str_of_nat (total_replacements st)) ;;
  print (check_mark ++ t " All files validated as valid JSON") ;;
  ret st.
End Script.

End Creds.

(* ===================================================================== *)
(** * The two boundary shapes, read deterministically *)
(* ===================================================================== *)

(** In [relationships_pattern] and [last_table_pattern] every repetition
    is followed by a character outside its class, so a match, when there
    is one, is found without backtracking.  The functions below read the
    same shapes left to right; [Normalizer.relationships_match] and
    [Normalizer.last_table_match] prove them equal to the matcher on the
    patterns. *)
Module Boundary.
Import Text Out Re Convert.

Definition not_brace : ascii -> bool := other_than "}".

(** The text [Update: {] opening an Update block. *)
Definition opener : text := t "Update: {".

(** An Update block [Update: {body}] at the start of the text: its body
    and what follows its closing brace. *)
Definition update_block (s : text) : option (text * text) :=
  match strip_prefix opener s with
  | Some s1 =>
      match take_while not_brace s1 with
      | [] => None
      | body =>
          match strip_prefix (t "}") (drop_while not_brace s1) with
          | Some s2 => Some (body, s2)
          | None => None
          end
      end
  | None => None
  end.

(** A newline, white space and a closing brace: the white space and what
    follows the brace. *)
Definition closer (s : text) : option (text * text) :=
  match strip_prefix [nl] s with
  | Some s1 =>
      match strip_prefix (t "}") (drop_while is_space s1) with
      | Some s2 => Some (take_while is_space s1, s2)
      | None => None
      end
  | None => None
  end.

(** A newline, white space, a name and a colon: the white space, the name
    and what follows the colon. *)
Definition next_name (s : text) : option (text * text * text) :=
  match strip_prefix [nl] s with
  | Some s1 =>
      let s2 := drop_while is_space s1 in
      match take_while is_word s2 with
      | [] => None
      | name =>
          match strip_prefix (t ":") (drop_while is_word s2) with
          | Some rest => Some (take_while is_space s1, name, rest)
          | None => None
          end
      end
  | None => None
  end.

(** [Functions:] or [Views:], in that order. *)
Definition section_name (s : text) : option (text * text) :=
  match strip_prefix (t "Functions:") s with
  | Some rest => Some (t "Functions:", rest)
  | None =>
      match strip_prefix (t "Views:") s with
      | Some rest => Some (t "Views:", rest)
      | None => None
      end
  end.

(** A newline, white space and a section name. *)
Definition next_section (s : text) : option (text * text * text) :=
  match strip_prefix [nl] s with
  | Some s1 =>
      match section_name (drop_while is_space s1) with
      | Some (name, rest) => Some (take_while is_space s1, name, rest)
      | None => None
      end
  | None => None
  end.

(** The match object of [relationships_pattern] at the start of [s]. *)
Definition relationships_parse (s : text) : option Match :=
  match update_block s with
  | Some (body, s1) =>
      match closer s1 with
      | Some (ws1, s2) =>
          match next_name s2 with
          | Some (ws2, name, rest) =>
              Some (mkMatch (consumed s rest)
                      [ (4, name); (3, ws2); (2, ws1 ++ t "}");
                        (1, opener ++ body ++ t "}") ]
                      rest)
          | None => None
          end
      | None => None
      end
  | None => None
  end.

(** The match object of [last_table_pattern] at the start of [s]. *)
Definition last_table_parse (s : text) : option Match :=
  match update_block s with
  | Some (body, s1) =>
      match closer s1 with
      | Some (ws1, s2) =>
          match closer s2 with
          | Some (ws2, s3) =>
              match next_section s3 with
              | Some (ws3, name, rest) =>
                  Some (mkMatch (consumed s rest)
                          [ (5, name); (4, ws3); (3, ws2 ++ t "}");
                            (2, ws1 ++ t "}"); (1, opener ++ body ++ t "}") ]
                          rest)
              | None => None
              end
          | None => None
          end
      | None => None
      end
  | None => None
  end.

(** The next-table boundary after an Update block: the text of the
    boundary and what follows it. *)
Definition next_table_boundary (s : text) : option (text * text) :=
  match closer s with
  | Some (ws1, s1) =>
      match next_name s1 with
      | Some (ws2, name, rest) =>
          Some (nl :: ws1 ++ t "}" ++ nl :: ws2 ++ name ++ t ":", rest)
      | None => None
      end
  | None => None
  end.

(** The end-of-Tables boundary after an Update block. *)
Definition end_of_tables_boundary (s : text) : option (text * text) :=
  match closer s with
  | Some (ws1, s1) =>
      match closer s1 with
      | Some (ws2, s2) =>
          match next_section s2 with
          | Some (ws3, name, rest) =>
              Some (nl :: ws1 ++ t "}" ++ nl :: ws2 ++ t "}" ++ nl :: ws3 ++ name,
                    rest)
          | None => None
          end
      | None => None
      end
  | None => None
  end.

(** An Update block followed by a boundary starts here. *)
Definition boundary_here (boundary : text -> option (text * text)) (s : text)
  : bool :=
  match update_block s with
  | Some (_, s1) =>
      match boundary s1 with
      | Some _ => true
      | None => false
      end
  | None => false
  end.

(** A closing brace followed by a newline, white space and another closing
    brace; and the number of places of a text where one starts.  Every
    insertion of the marker removes one and none appears: the measure that
    bounds the loop. *)
Definition double_close (s : text) : bool :=
  match strip_prefix (t "}") s with
  | Some s1 =>
      match closer s1 with
      | Some _ => true
      | None => false
      end
  | None => false
  end.

Fixpoint count_double_close (s : text) : nat :=
  match s with
  | [] => 0
  | _ :: s' => (if double_close s then 1 else 0) + count_double_close s'
  end.

(** [inserted s o]: the text [o] is the text [s] with markers put after
    some of its closing braces, and nothing else changed. *)
Inductive inserted : text -> text -> Prop :=
| inserted_nil : inserted [] []
| inserted_keep (c : ascii) (s o : text) :
    inserted s o -> inserted (c :: s) (c :: o)
| inserted_mark (s o : text) :
    inserted (t "}" ++ s) (t "}" ++ o) ->
    inserted (t "}" ++ s) (t "}" ++ marker ++ o).

(** The places where a pattern may match: the text and what is left of it
    after each character; and whether the pattern matches at none. *)
Fixpoint suffixes (s : text) : list text :=
  s :: match s with
       | [] => []
       | _ :: s' => suffixes s'
       end.

Definition matches_nowhere (r : regex) (s : text) : bool :=
  forallb (fun b => match match_at r b with
                    | Some _ => false
                    | None => true
                    end)
    (suffixes s).

(** No character of the text is [c]. *)
Definition free_of (c : ascii) (s : text) : bool :=
  forallb (fun x => negb (ceqb c x)) s.

End Boundary.

(* ===================================================================== *)
(** * Vocabulary of the specification and sample inputs *)
(* ===================================================================== *)

Module Spec.
Import Text Re.

(** A field emitted as optional, and one emitted as required: the line of
    the synthesized type that declares it. *)
Definition optional_decl (name typ : text) : text :=
  t "          " ++ name ++ t "?: " ++ typ.

Definition required_decl (name typ : text) : text :=
  t "          " ++ name ++ t ": " ++ typ.

(** The table of the specification's scenario. *)
Definition campaigns_fields : dict text :=
  [ (t "id", t "string"); (t "name", t "string");
    (t "created_at", t "string | null") ].

Definition sample_rows : dict (dict text) := [ (t "campaigns", campaigns_fields) ].

(** A circular Insert declaration of that table and the text after it. *)
Definition campaigns_insert : text :=
  t "Insert: Omit<Database['public']['Tables']['campaigns']['Row'], 'id'> & { name?: Name }".

Definition campaigns_insert_match : Match :=
  mkMatch campaigns_insert
    [ (4, t "name?: Name "); (3, t "'id'"); (2, t "campaigns"); (1, t "public") ]
    [nl].

(** A circular Update declaration of that table. *)
Definition campaigns_update : text :=
  t "Update: Partial<Database['public']['Tables']['campaigns']['Insert']>".

Definition campaigns_update_match : Match :=
  mkMatch campaigns_update [ (2, t "campaigns"); (1, t "public") ] [nl].

(** Declarations that refer to a table without a Row block. *)
Definition orphans_insert : text :=
  t "Insert: Omit<Database['genesis']['Tables']['orphans']['Row'], 'id'> & { id?: string }".

Definition orphans_insert_match : Match :=
  mkMatch orphans_insert
    [ (4, t "id?: string "); (3, t "'id'"); (2, t "orphans"); (1, t "genesis") ]
    [nl].

Definition orphans_update : text :=
  t "Update: Partial<Database['genesis']['Tables']['orphans']['Insert']>".

Definition orphans_update_match : Match :=
  mkMatch orphans_update [ (2, t "orphans"); (1, t "genesis") ] [nl].

(** An Insert declaration whose exclusion list names [ghost], which is not
    a field of the Row block. *)
Definition ghost_insert : text :=
  t "Insert: Omit<Database['public']['Tables']['campaigns']['Row'], 'id' | 'ghost'> & { }".

Definition ghost_insert_match : Match :=
  mkMatch ghost_insert
    [ (4, []); (3, t "'id' | 'ghost'"); (2, t "campaigns"); (1, t "public") ]
    [nl].

(** A document whose only table is [campaigns], with that declaration. *)
Definition ghost_document : text :=
  t "campaigns: {
  Row: {
    id: string
    name: string
    created_at: string | null
  }
  Insert: Omit<Database['public']['Tables']['campaigns']['Row'], 'id' | 'ghost'> & { }
  Update: Partial<Database['public']['Tables']['campaigns']['Insert']>
}
".

(** What the credential script writes to a file with the given content,
    if it writes it: the text after all replacements, when the name ends in
    [.json], at least one identifier was replaced and the text parses. *)
Definition rewritten_text (json_error : text -> option text)
    (template_dir filename content : text) : option text :=
  if endswith (t ".json") filename
  then let '(content', file_replacements) :=
         Out.value (Creds.replace_ids template_dir filename content) in
       match file_replacements with
       | 0 => None
       | _ => match json_error content' with
              | Some _ => None
              | None => Some content'
              end
       end
  else None.

(** A document with one table, and the text [main] turns it into. *)
Definition sample_document : text :=
  t "campaigns: {
  Row: {
    id: string
    note: string | null
  }
  Insert: Omit<Database['public']['Tables']['campaigns']['Row'], 'id'> & { }
  Update: Partial<Database['public']['Tables']['campaigns']['Insert']>
}
leads: {}
".

Definition sample_flattened : text :=
  t "campaigns: {
  Row: {
    id: string
    note: string | null
  }
  Insert: {
          id?: string
          note?: string | null
        }
  Update: {
          id?: string
          note?: string | null
        }
        Relationships: []
}
leads: {}
".

(** A document with two Update blocks: a next-table boundary follows the
    first; three closing braces follow the second, which is neither shape. *)
Definition sample_before : text :=
  t "Update: {a}
}
next: {
".

Definition sample_after : text :=
  t "
}
}
}
Functions:".

Definition sample_blocks : text :=
  sample_before ++ Boundary.opener ++ t "b" ++ t "}" ++ sample_after.

(** A stand-in for [json.loads] that accepts the texts starting with an
    opening brace, and a file system with one template directory holding a
    file that passes it after replacement and one that does not. *)
Definition sample_json_error (content : text) : option text :=
  if startswith (t "{") content then None else Some (t "Expecting value").

Definition sample_dir : text := t "/repo/scripts/../base-cold-email".

Definition sample_files : dict text :=
  [ (t "good.json", t "{'id': 'kThf5Npwf1zJFn9l'}");
    (t "bad.json", t "kThf5Npwf1zJFn9l") ].

Definition sample_fs : Creds.filesystem := [ (sample_dir, sample_files) ].

End Spec.

(* ===================================================================== *)
(** * fix-database-types.py: [parse_row_fields] *)
(* ===================================================================== *)

Module FixRows.
Import Text Re.

(** [re.search(r, s)]: the match at the leftmost position that has one. *)
Fixpoint search (r : regex) (s : text) : option Match :=
  match match_at r s with
  | Some m => Some m
  | None =>
      match s with
      | [] => None
      | _ :: s' => search r s'
      end
  end.

(** [rf"{table_name}: \{{\s*Row: \{{([^}}]+)\}}"], that is
    [NAME: \{\s*Row: \{([^}]+)\}] with the name put in as it is.  [main]
    passes names matched by [\w+], which stand for themselves in a
    pattern. *)
Definition row_block_pattern (table_name : text) : regex :=
  cat [ Lit table_name; Lit (t ": {"); Star is_space; Lit (t "Row: {");
        Grp 1 (Plus (other_than "}")); Lit (t "}") ].

(** [(\w+):\s*([^;\n]+)] *)
Definition field_pattern : regex :=
  cat [ Grp 1 (Plus is_word); Lit (t ":"); Star is_space;
        Grp 2 (Plus (other_than2 ";" nl)) ].

(** The body of the loop of [parse_row_fields]. *)
Definition add_field (fields : dict text) (field_match : Match) : dict text :=
  let field_name := strip (group field_match 1) in
  let field_type := strip (group field_match 2) in
  dict_set fields field_name field_type.

Definition parse_row_fields (content table_name : text) : dict text :=
  match search (row_block_pattern table_name) content with
  | None => []
  | Some m =>
      let row_content := group m 1 in
      fold_left add_field (finditer field_pattern row_content) []
  end.

End FixRows.

(* ===================================================================== *)
(** * strip_code_blocks.py *)
(* ===================================================================== *)

Module StripBlocks.
Import Text.

Definition remove_langs : list text :=
  [ t "typescript"; t "sql"; t "bash"; t "json"; t "env"; t "javascript";
    t "tsx"; t "ts"; t "js"; t "sh" ].

Definition fence : text := t "```".

(** The variables of the loop. *)
Record state : Type := mkState {
  result : list text;
  in_code_block : bool;
  skip_block : bool;
  code_buffer : list text
}.

(** The body of the loop over [lines]. *)
Definition step (st : state) (line : text) : state :=
  let stripped := strip line in
  if negb (in_code_block st) && startswith fence stripped then
    let lang := lower (strip (skipn 3 stripped)) in
    mkState (result st) true (set_mem lang remove_langs) [line]
  else if in_code_block st && eqb stripped fence then
    let code_buffer := code_buffer st ++ [line] in
    mkState (if negb (skip_block st) then result st ++ code_buffer
             else result st)
      false false []
  else if in_code_block st then
    mkState (result st) (in_code_block st) (skip_block st)
      (code_buffer st ++ [line])
  else
    mkState (result st ++ [line]) (in_code_block st) (skip_block st)
      (code_buffer st).

Definition start : state := mkState [] false false [].

(** The list written back, from the list [f.readlines()] returned. *)
Definition strip_code_blocks (lines : list text) : list text :=
  result (fold_left step lines start).

End StripBlocks.

Module Fences.
Import Text StripBlocks.

(** A line that opens a block outside one, a line that closes one, and the
    language of an opening line. *)
Definition opens (line : text) : bool := startswith fence (strip line).

Definition closes (line : text) : bool := eqb (strip line) fence.

Definition language (line : text) : text :=
  lower (strip (skipn 3 (strip line))).

(** [subsequence a b]: the list [a] is [b] with some elements left out. *)
Inductive subsequence {A : Type} : list A -> list A -> Prop :=
| subsequence_nil : subsequence [] []
| subsequence_skip (x : A) (a b : list A) :
    subsequence a b -> subsequence a (x :: b)
| subsequence_keep (x : A) (a b : list A) :
    subsequence a b -> subsequence (x :: a) (x :: b).

(** A document made of lines outside blocks and of whole blocks whose
    language is not one of [remove_langs]. *)
Inductive settled : list text -> Prop :=
| settled_nil : settled []
| settled_line (line : text) (rest : list text) :
    opens line = false -> settled rest -> settled (line :: rest)
| settled_block (open : text) (body : list text) (close : text)
    (rest : list text) :
    opens open = true ->
    set_mem (language open) remove_langs = false ->
    forallb (fun l => negb (closes l)) body = true ->
    closes close = true ->
    settled rest ->
    settled (open :: body ++ close :: rest).

End Fences.

(* ===================================================================== *)
(** * Vocabulary of the further properties

    Decidable tests on strings used to state what the scripts leave
    behind. *)
(* ===================================================================== *)

Module Occurrence.
Import Text.

(** One of the two strings is a prefix of the other. *)
Definition compatible (x y : text) : bool := startswith x y || startswith y x.

(** No occurrence of [m] in a text can overlap a copy of [by_] put into
    it: no suffix of [m] and no proper suffix of [by_] is compatible with
    the other string. *)
Definition apart (m by_ : text) : bool :=
  forallb (fun k => negb (compatible (skipn k m) by_)) (seq 0 (length m))
  && forallb (fun j => negb (compatible (skipn j by_) m))
       (seq 1 (length by_ - 1)).

(** Every key of the table is apart from every value of the table, and
    no key is empty. *)
Definition keys_apart (entries : list (text * text)) : bool :=
  forallb (fun e => negb (eqb (fst e) []) &&
                    forallb (fun e' => apart (fst e) (snd e')) entries)
          entries.

End Occurrence.

Module Frame.
Import Text Creds.

(** What a run of the credential script over the directories [dirs] keeps
    of a state: the directories and the names of their files, the
    directories outside [dirs], the files whose name does not end in
    [.json]; and it opens only [.json] files of [dirs] that were there. *)
Definition kept (dirs : list text) (st st' : state) : Prop :=
  map fst (fs st') = map fst (fs st)
  /\ (forall d, map fst (files_of (fs st') d) = map fst (files_of (fs st) d))
  /\ (forall d, ~ In d dirs -> dict_get (fs st') d = dict_get (fs st) d)
  /\ (forall d n, endswith (t ".json") n = false ->
        dict_get (files_of (fs st') d) n = dict_get (files_of (fs st) d) n)
  /\ (forall d n, In (d, n) (writes st') ->
        In (d, n) (writes st)
        \/ (In d dirs /\ endswith (t ".json") n = true
            /\ In n (map fst (files_of (fs st) d)))).

End Frame.

Module Shapes.
Import Text Re Convert Boundary.

(** What the first pass can store for a field: a name made of word
    characters and a type that is one stripped line without a
    semicolon. *)
Definition well_formed (field : text * text) : bool :=
  let '(name, typ) := field in
  negb (eqb name []) && forallb is_word name
  && negb (eqb typ []) && free_of nl typ && free_of ";" typ
  && eqb (strip typ) typ.

(** A name between single quotes, and an exclusion list as the type file
    writes it: ['id' | 'created_at']. *)
Definition quoted (name : text) : text := t "'" ++ name ++ t "'".

Definition omit_list (names : list text) : text :=
  join (t " | ") (map quoted names).

(** The declaration of a field in a Row block, and the declarations of a
    table one per line. *)
Definition row_line (field : text * text) : text :=
  t "          " ++ fst field ++ t ": " ++ snd field.

Definition row_text (fields : dict text) : text :=
  join [nl] (map row_line fields).

End Shapes.

Module Tables.
Import Text Re Convert Boundary Shapes.

(** A table of the type file as the doc string of
    convert-database-types.py shows it: the Row block, a circular Insert
    declaration with its exclusion list [omit] and its overrides [ov], and
    a circular Update declaration. *)
Definition row_block (fields : dict text) : text :=
  t "Row: {" ++ nl :: row_text fields ++ nl :: t "        }".

Definition circular_insert (schema table omit ov : text) : text :=
  t "Insert: Omit<Database['" ++ schema ++ t "']['Tables']['" ++ table
    ++ t "']['Row'], " ++ omit ++ t "> & {" ++ ov ++ t "}".

Definition circular_update (schema table : text) : text :=
  t "Update: Partial<Database['" ++ schema ++ t "']['Tables']['" ++ table
    ++ t "']['Insert']>".

Definition table_declaration (table row insert update : text) : text :=
  table ++ t ": {" ++ nl :: t "        " ++ row
    ++ nl :: t "        " ++ insert
    ++ nl :: t "        " ++ update
    ++ nl :: t "      }".

(** The text of a table before its Insert declaration and after it. *)
Definition before_insert (table : text) (fields : dict text) : text :=
  table ++ t ": {" ++ nl :: t "        " ++ row_block fields
    ++ nl :: t "        ".

Definition after_insert (update : text) : text :=
  nl :: t "        " ++ update ++ nl :: t "      }".

(** The flat declarations that replace them. *)
Definition flat_insert (omit ov : text) (fields : dict text) : text :=
  t "Insert: {" ++ nl
    :: join [nl] (insert_lines (parse_omit omit) (parse_overrides ov) fields)
    ++ closing.

Definition flat_update (fields : dict text) : text :=
  t "Update: {" ++ nl :: join [nl] (update_lines fields) ++ closing.

(** The conditions on the pieces of a table: a schema of the file, a
    name, well-formed fields with distinct names whose types hold none of
    the characters the patterns stop at. *)
Definition plain_type (typ : text) : bool :=
  free_of "}" typ && free_of "<" typ.

Definition plain_table (schema table : text) (fields : dict text) : bool :=
  (eqb schema (t "public") || eqb schema (t "genesis"))
  && negb (eqb table []) && forallb is_word table
  && forallb well_formed fields
  && forallb (fun f => plain_type (snd f)) fields.

Definition plain_omit (omit : text) : bool :=
  negb (eqb omit []) && free_of ">" omit && free_of "{" omit.

Definition plain_overrides (ov : text) : bool :=
  free_of "}" ov && free_of "{" ov && free_of "<" ov.

End Tables.

Module TablesSection.
Import Text Re Convert Boundary Shapes Tables.

(** A table of a Tables section: schema, name, Row fields, exclusion list
    and overrides of its Insert declaration. *)
Record table : Type := mkTable {
  table_schema : text;
  table_name : text;
  table_fields : dict text;
  table_omit : text;
  table_overrides : text
}.

Definition plain (T : table) : bool :=
  plain_table (table_schema T) (table_name T) (table_fields T)
  && plain_omit (table_omit T) && plain_overrides (table_overrides T).

(** The table with circular declarations, with flat ones, and with flat
    ones and the marker after the Update block. *)
Definition circular_declaration (T : table) : text :=
  table_declaration (table_name T) (row_block (table_fields T))
    (circular_insert (table_schema T) (table_name T) (table_omit T)
       (table_overrides T))
    (circular_update (table_schema T) (table_name T)).

Definition flat_declaration (T : table) : text :=
  table_declaration (table_name T) (row_block (table_fields T))
    (flat_insert (table_omit T) (table_overrides T) (table_fields T))
    (flat_update (table_fields T)).

Definition marked_declaration (T : table) : text :=
  table_declaration (table_name T) (row_block (table_fields T))
    (flat_insert (table_omit T) (table_overrides T) (table_fields T))
    (flat_update (table_fields T) ++ marker).

(** The table after the second pass: a flat Insert block and the circular
    Update declaration. *)
Definition half_declaration (T : table) : text :=
  table_declaration (table_name T) (row_block (table_fields T))
    (flat_insert (table_omit T) (table_overrides T) (table_fields T))
    (circular_update (table_schema T) (table_name T)).

(** The mapping the first pass builds from the tables. *)
Definition rows_of (tables : list table) : dict (dict text) :=
  map (fun T => (table_name T, table_fields T)) tables.

(** The assignment [row_fields[table_name] = fields] for a table, the
    mapping after the assignments for all tables in the order of the file,
    and the fields of the last table with a given name. *)
Definition add_row (rows : dict (dict text)) (T : table) : dict (dict text) :=
  dict_set rows (table_name T) (table_fields T).

Definition rows_built (tables : list table) : dict (dict text) :=
  fold_left add_row tables [].

Fixpoint last_fields (name : text) (tables : list table)
  : option (dict text) :=
  match tables with
  | [] => None
  | T :: tables' =>
      match last_fields name tables' with
      | Some fields => Some fields
      | None => if eqb (table_name T) name then Some (table_fields T) else None
      end
  end.

(** The tables of a section, one after the other, each on lines of its
    own. *)
Fixpoint tables_text (render : table -> text) (tables : list table) : text :=
  match tables with
  | [] => []
  | T :: tables' =>
      t "      " ++ render T ++ nl :: tables_text render tables'
  end.

(** The same with the marker in every table but the last: what the loop
    of the normaliser leaves. *)
Fixpoint marked_but_last (tables : list table) : text :=
  match tables with
  | [] => []
  | T :: tables' =>
      t "      "
        ++ match tables' with
           | [] => flat_declaration T
           | _ :: _ => marked_declaration T
           end
        ++ nl :: marked_but_last tables'
  end.

(** The pieces of a flat table of a section: its line up to the colon,
    what follows up to the Update declaration, and its last line. *)
Definition table_head (T : table) : text :=
  t "      " ++ table_name T ++ t ":".

Definition table_body (T : table) : text :=
  t " {" ++ nl :: t "        " ++ row_block (table_fields T)
    ++ nl :: t "        "
    ++ flat_insert (table_omit T) (table_overrides T) (table_fields T)
    ++ nl :: t "        ".

Definition table_end : text := nl :: t "      }" ++ [nl].

(** The end of the Tables block and the name of the next section. *)
Definition section_end (section : text) : text :=
  t "    }" ++ nl :: t "    " ++ section.

(** No Update block followed by a boundary starts inside [X] when [R]
    follows it. *)
Definition quiet (boundary : text -> option (text * text)) (X R : text)
  : Prop :=
  forall a c, X = a ++ c -> c <> [] -> boundary_here boundary (c ++ R) = false.

End TablesSection.

(* ===================================================================== *)
(** * Properties *)
(* ===================================================================== *)

(** ** Strings *)

Module TextFacts.
Import Text.

Lemma ceqb_eq (a b : ascii) : ceqb a b = true <-> a = b.
Proof. apply Ascii.eqb_eq. Qed.

Lemma ceqb_refl (a : ascii) : ceqb a a = true.
Proof. apply Ascii.eqb_refl. Qed.

Lemma ceqb_neq (a b : ascii) : ceqb a b = false <-> a <> b.
Proof. apply Ascii.eqb_neq. Qed.

Lemma eqb_eq (a b : text) : eqb a b = true <-> a = b.
Proof.
  revert b; induction a as [|x a IH]; intros [|y b]; simpl; split;
    try congruence; try reflexivity.
  - intros H. apply andb_true_iff in H as [Hx Ha].
    apply ceqb_eq in Hx. apply IH in Ha. now subst.
  - intros H. injection H as -> ->. now rewrite ceqb_refl, (proj2 (IH b)).
Qed.

Lemma eqb_refl (a : text) : eqb a a = true.
Proof. now apply eqb_eq. Qed.

Lemma eqb_neq (a b : text) : eqb a b = false <-> a <> b.
Proof.
  destruct (eqb a b) eqn:E.
  - apply eqb_eq in E. split; [discriminate | contradiction].
  - split; [|reflexivity]. intros _ H. apply eqb_eq in H. congruence.
Qed.

Lemma strip_prefix_app (p s : text) : strip_prefix p (p ++ s) = Some s.
Proof. induction p as [|x p IH]; simpl; [reflexivity|]. now rewrite ceqb_refl. Qed.

Lemma strip_prefix_Some (p s s' : text) :
  strip_prefix p s = Some s' <-> s = p ++ s'.
Proof.
  split.
  - revert s; induction p as [|x p IH]; simpl; intros s H.
    + congruence.
    + destruct s as [|y s]; [discriminate|].
      destruct (ceqb x y) eqn:E; [|discriminate].
      apply ceqb_eq in E. subst y. f_equal. now apply IH.
  - intros ->. apply strip_prefix_app.
Qed.

Lemma startswith_true (p s : text) :
  startswith p s = true <-> exists s', s = p ++ s'.
Proof.
  unfold startswith. destruct (strip_prefix p s) as [s'|] eqn:E.
  - apply strip_prefix_Some in E. split; [eauto | reflexivity].
  - split; [discriminate|]. intros [s' ->]. now rewrite strip_prefix_app in E.
Qed.

Lemma contains_true (needle s : text) :
  contains needle s = true <-> exists a b, s = a ++ needle ++ b.
Proof.
  split.
  - induction s as [|c s IH]; simpl; intros H.
    + rewrite orb_false_r in H. apply startswith_true in H as [b ->].
      now exists [], b.
    + apply orb_true_iff in H as [H|H].
      * apply startswith_true in H as [b ->]. now exists [], b.
      * destruct (IH H) as (a & b & ->). now exists (c :: a), b.
  - intros (a & b & ->). induction a as [|c a IH]; simpl.
    + assert (H : startswith needle (needle ++ b) = true)
        by (apply startswith_true; eauto).
      destruct (needle ++ b); simpl; now rewrite H.
    + rewrite IH. apply orb_true_r.
Qed.

Lemma set_mem_true (x : text) (s : list text) : set_mem x s = true <-> In x s.
Proof.
  unfold set_mem. rewrite existsb_exists. split.
  - intros (y & Hy & E). apply eqb_eq in E. now subst.
  - intros H. exists x. split; [assumption | apply eqb_refl].
Qed.

Lemma fold_left_snoc {A B} (f : A -> B) (xs : list A) (acc : list B) :
  fold_left (fun lines x => lines ++ [f x]) xs acc = acc ++ map f xs.
Proof.
  revert acc; induction xs as [|x xs IH]; intros acc; simpl.
  - now rewrite app_nil_r.
  - rewrite IH, <- app_assoc. reflexivity.
Qed.

End TextFacts.

(** ** The matcher *)

Module ReFacts.
Import Text Out Re TextFacts.

Lemma consumed_app (a s' : text) : consumed (a ++ s') s' = a.
Proof.
  unfold consumed. rewrite length_app.
  replace (length a + length s' - length s') with (length a) by lia.
  rewrite firstn_app, firstn_all, Nat.sub_diag. simpl. apply app_nil_r.
Qed.

Section Run.
Context {R : Type}.

(** A successful repetition hands some suffix over to what follows. *)
Lemma star_sound (p : ascii -> bool) (s : text) (caps : captures)
    (k : @cont R) (x : R) :
  star p s caps k = Some x ->
  exists a s', s = a ++ s' /\ k s' caps = Some x /\ forallb p a = true.
Proof.
  induction s as [|c s IH]; simpl; intros H.
  - now exists [], [].
  - destruct (p c) eqn:Hc.
    + destruct (star p s caps k) as [y|] eqn:E.
      * injection H as ->. destruct (IH eq_refl) as (a & s' & -> & Hk & Ha).
        exists (c :: a), s'. simpl. now rewrite Hc.
      * now exists [], (c :: s).
    + now exists [], (c :: s).
Qed.

(** A successful match of a piece consumes a prefix of the subject, not
    empty when the piece cannot match the empty string, and the rest of
    the pattern succeeds on what is left. *)
Lemma run_sound (r : regex) :
  forall (s : text) (caps : captures) (k : @cont R) (x : R),
    run r s caps k = Some x ->
    exists a s' caps',
      s = a ++ s' /\ k s' caps' = Some x /\ (nonempty r = true -> a <> []).
Proof.
  induction r as [l|r1 IH1 r2 IH2|r1 IH1 r2 IH2|p|p|n r1 IH1];
    intros s caps k x H; simpl in H.
  - destruct (strip_prefix l s) as [s'|] eqn:E; [|discriminate].
    apply strip_prefix_Some in E. exists l, s', caps. repeat split; trivial.
    simpl. destruct l; [discriminate | intros _; discriminate].
  - apply IH1 in H as (a1 & s1 & caps1 & -> & H & N1).
    apply IH2 in H as (a2 & s2 & caps2 & -> & H & N2).
    exists (a1 ++ a2), s2, caps2. rewrite app_assoc. repeat split; trivial.
    simpl. intros N. apply orb_true_iff in N as [N|N].
    + intros E. apply app_eq_nil in E as [E _]. now apply N1.
    + intros E. apply app_eq_nil in E as [_ E]. now apply N2.
  - simpl. destruct (run r1 s caps k) as [y|] eqn:E.
    + injection H as ->. apply IH1 in E as (a & s' & caps' & -> & H & N).
      exists a, s', caps'. repeat split; trivial.
      intros M. apply andb_true_iff in M as [M _]. auto.
    + apply IH2 in H as (a & s' & caps' & -> & H & N).
      exists a, s', caps'. repeat split; trivial.
      intros M. apply andb_true_iff in M as [_ M]. auto.
  - apply star_sound in H as (a & s' & -> & H & _).
    exists a, s', caps. repeat split; trivial. discriminate.
  - destruct s as [|c s]; [discriminate|].
    destruct (p c); [|discriminate].
    apply star_sound in H as (a & s' & -> & H & _).
    exists (c :: a), s', caps. repeat split; trivial. discriminate.
  - apply IH1 in H as (a & s' & caps' & -> & H & N).
    exists a, s', ((n, consumed (a ++ s') s') :: caps').
    repeat split; trivial.
Qed.
End Run.

(** A match object splits the subject into the matched text and the rest. *)
Lemma match_at_sound (r : regex) (s : text) (m : Match) :
  match_at r s = Some m ->
  s = whole m ++ rest m /\ (nonempty r = true -> whole m <> []).
Proof.
  unfold match_at. intros H.
  apply run_sound in H as (a & s' & caps' & -> & H & N).
  injection H as <-. simpl. now rewrite consumed_app.
Qed.

Lemma bind_ret_value {A B} (m : W A) (f : A -> B) :
  value (bind m (fun x => ret (f x))) = f (value m).
Proof. destruct m as [x l]. reflexivity. Qed.

Lemma sub_from_skip (r : regex) (repl : Match -> W text) (a s : text) :
  sub_from r repl (length a) (a ++ s) = sub_from r repl 0 s.
Proof. induction a as [|c a IH]; simpl; [reflexivity | exact IH]. Qed.

(** The three equations of [sub] for a pattern without empty matches. *)
Lemma sub_nil (r : regex) (repl : Match -> W text) : sub r repl [] = ret [].
Proof. reflexivity. Qed.

Lemma sub_no_match (r : regex) (repl : Match -> W text) (c : ascii) (s : text) :
  match_at r (c :: s) = None ->
  sub r repl (c :: s) = bind (sub r repl s) (fun y => ret (c :: y)).
Proof. unfold sub. simpl. now intros ->. Qed.

Lemma sub_match (r : regex) (repl : Match -> W text) (s : text) (m : Match) :
  nonempty r = true ->
  match_at r s = Some m ->
  sub r repl s =
  bind (repl m) (fun x => bind (sub r repl (rest m)) (fun y => ret (x ++ y))).
Proof.
  intros N H. destruct (match_at_sound _ _ _ H) as [E Hw].
  specialize (Hw N). unfold sub.
  destruct s as [|c s].
  - destruct (whole m); [congruence | discriminate].
  - simpl. rewrite H. destruct (whole m) as [|c' w] eqn:Ew; [congruence|].
    simpl in E. injection E as _ ->. now rewrite sub_from_skip.
Qed.

(** Where the pattern matches nowhere, [sub] returns its subject and the
    function is never called. *)
Lemma sub_unchanged (r : regex) (repl : Match -> W text) (s : text) :
  (forall a b, s = a ++ b -> match_at r b = None) ->
  sub r repl s = ret s.
Proof.
  induction s as [|c s IH]; intros H; [reflexivity|].
  rewrite sub_no_match by (apply (H []); reflexivity).
  rewrite IH; [reflexivity|].
  intros a b ->. apply (H (c :: a)). reflexivity.
Qed.

End ReFacts.

(** ** The synthesized Insert and Update types *)

Module Synthesis.
Import Text Out Re Convert Spec TextFacts ReFacts.

Lemma insert_lines_map (omit : list text) (ov fields : dict text) :
  insert_lines omit ov fields = map (insert_line omit ov) fields.
Proof. unfold insert_lines. now rewrite fold_left_snoc. Qed.

Lemma update_lines_map (fields : dict text) :
  update_lines fields = map update_line fields.
Proof. unfold update_lines. now rewrite fold_left_snoc. Qed.

Lemma fix_insert_line (omit : list text) (field : text * text) :
  Fix.insert_line omit field = insert_line omit [] field.
Proof. destruct field as [name typ]. reflexivity. Qed.

(** The sample declarations are what the patterns capture in their text. *)
Lemma sample_matches :
  match_at insert_pattern (campaigns_insert ++ [nl]) = Some campaigns_insert_match /\
  match_at update_pattern (campaigns_update ++ [nl]) = Some campaigns_update_match /\
  match_at insert_pattern (orphans_insert ++ [nl]) = Some orphans_insert_match /\
  match_at update_pattern (orphans_update ++ [nl]) = Some orphans_update_match /\
  match_at insert_pattern (ghost_insert ++ [nl]) = Some ghost_insert_match.
Proof. repeat split; vm_compute; reflexivity. Qed.

(** An optional and a required declaration of the same field differ. *)
Lemma optional_not_required (name typ typ' : text) :
  optional_decl name typ <> required_decl name typ'.
Proof.
  unfold optional_decl, required_decl. intros H.
  apply app_inv_head in H. apply app_inv_head in H. discriminate.
Qed.

(** C1.  For a table with a Row mapping, [replace_insert] emits one line
    per Row field, in the order of the mapping; the line of a field is
    optional with the Row type when the name is in the OmitSet, else
    optional with the override type when the name is in the OverrideMap,
    else optional with the Row type when the lowered Row type contains
    [null], else required with the Row type.  [generate_insert_type] of
    fix-database-types.py emits the same lines for an empty OverrideMap. *)
Theorem insert_type_fields_in_priority_order
    (row_fields : dict (dict text)) (m : Match) (fields : dict text) :
  dict_get row_fields (group m 2) = Some fields ->
  let omit := parse_omit (group m 3) in
  let overrides := parse_overrides (group m 4) in
  let lines := insert_lines omit overrides fields in
  value (replace_insert row_fields m)
    = t "Insert: {" ++ nl :: join [nl] lines ++ closing
  /\ length lines = length fields
  /\ (forall i name typ,
        nth_error fields i = Some (name, typ) ->
        exists line,
          nth_error lines i = Some line
          /\ (set_mem name omit = true -> line = optional_decl name typ)
          /\ (set_mem name omit = false ->
              forall override, dict_get overrides name = Some override ->
                line = optional_decl name override)
          /\ (set_mem name omit = false -> dict_get overrides name = None ->
              contains (t "null") (lower typ) = true ->
              line = optional_decl name typ)
          /\ (set_mem name omit = false -> dict_get overrides name = None ->
              contains (t "null") (lower typ) = false ->
              line = required_decl name typ))
  /\ (forall omit_fields,
        Fix.generate_insert_type fields omit_fields
          = t "{" ++ nl :: join [nl] (insert_lines omit_fields [] fields)
              ++ closing).
Proof.
  intros Hrow omit overrides lines. split; [|split; [|split]].
  - unfold replace_insert. rewrite Hrow. reflexivity.
  - unfold lines. now rewrite insert_lines_map, length_map.
  - intros i name typ Hi. exists (insert_line omit overrides (name, typ)).
    split.
    + unfold lines. rewrite insert_lines_map. now apply map_nth_error.
    + unfold insert_line. split; [|split; [|split]].
      * now intros ->.
      * intros -> override ->. reflexivity.
      * now intros -> -> ->.
      * now intros -> -> ->.
  - intros omit_fields. unfold Fix.generate_insert_type.
    rewrite insert_lines_map, fold_left_snoc. simpl.
    rewrite (map_ext _ _ (fix_insert_line omit_fields)). reflexivity.
Qed.

Lemma insert_type_fields_in_priority_order_witness :
  dict_get sample_rows (group campaigns_insert_match 2) = Some campaigns_fields
  /\ value (replace_insert sample_rows campaigns_insert_match)
     = t "Insert: {" ++ nl
         :: join [nl] [ optional_decl (t "id") (t "string");
                        optional_decl (t "name") (t "Name");
                        optional_decl (t "created_at") (t "string | null") ]
         ++ closing.
Proof.
  split; [reflexivity|].
  exact (proj1 (insert_type_fields_in_priority_order
                  sample_rows campaigns_insert_match campaigns_fields eq_refl)).
Defined.

(** C2.  For a table with a Row mapping, [replace_update] emits as many
    lines as the mapping has fields, in the order of the mapping, every
    one optional with the Row type; so does [generate_update_type]. *)
Theorem update_type_all_optional
    (row_fields : dict (dict text)) (m : Match) (fields : dict text) :
  dict_get row_fields (group m 2) = Some fields ->
  let lines := update_lines fields in
  value (replace_update row_fields m)
    = t "Update: {" ++ nl :: join [nl] lines ++ closing
  /\ length lines = length fields
  /\ (forall i name typ,
        nth_error fields i = Some (name, typ) ->
        nth_error lines i = Some (optional_decl name typ))
  /\ Fix.generate_update_type fields
       = t "{" ++ nl :: join [nl] lines ++ closing.
Proof.
  intros Hrow lines. split; [|split; [|split]].
  - unfold replace_update. rewrite Hrow. reflexivity.
  - unfold lines. now rewrite update_lines_map, length_map.
  - intros i name typ Hi. unfold lines. rewrite update_lines_map.
    now apply (map_nth_error update_line) in Hi.
  - unfold Fix.generate_update_type, lines.
    rewrite update_lines_map, fold_left_snoc. simpl.
    rewrite (map_ext Fix.update_line update_line); [reflexivity|].
    now intros [name typ].
Qed.

Lemma update_type_all_optional_witness :
  dict_get sample_rows (group campaigns_update_match 2) = Some campaigns_fields
  /\ value (replace_update sample_rows campaigns_update_match)
     = t "Update: {" ++ nl
         :: join [nl] [ optional_decl (t "id") (t "string");
                        optional_decl (t "name") (t "string");
                        optional_decl (t "created_at") (t "string | null") ]
         ++ closing.
Proof.
  split; [reflexivity|].
  exact (proj1 (update_type_all_optional
                  sample_rows campaigns_update_match campaigns_fields eq_refl)).
Defined.

Lemma value_bind_app (x : W text) (y : W text) :
  value (bind x (fun a => bind y (fun b => ret (a ++ b)))) = value x ++ value y.
Proof. destruct x as [a l1], y as [b l2]. reflexivity. Qed.

Lemma value_bind_cons (c : ascii) (y : W text) :
  value (bind y (fun b => ret (c :: b))) = c :: value y.
Proof. destruct y as [b l]. reflexivity. Qed.

(** Where the function gives back the matched text at every match, the
    substitution gives back the document. *)
Lemma sub_keeps (r : regex) (repl : Match -> W text) (n : nat) :
  nonempty r = true ->
  forall s : text,
    length s <= n ->
    (forall a b m, s = a ++ b -> match_at r b = Some m ->
                   value (repl m) = whole m) ->
    value (sub r repl s) = s.
Proof.
  intros N. induction n as [|n IH]; intros s Hn H.
  - destruct s; [reflexivity | simpl in Hn; lia].
  - destruct s as [|c s]; [reflexivity|].
    destruct (match_at r (c :: s)) as [m|] eqn:E.
    + rewrite (sub_match _ _ _ _ N E), value_bind_app.
      destruct (match_at_sound _ _ _ E) as [Es Hw]. specialize (Hw N).
      rewrite (H [] (c :: s) m eq_refl E).
      rewrite IH.
      * now rewrite <- Es.
      * apply (f_equal (@length ascii)) in Es. rewrite length_app in Es.
        destruct (whole m); [congruence|]. simpl in Es, Hn. lia.
      * intros a b m' Eab. apply (H (whole m ++ a)).
        now rewrite <- app_assoc, <- Eab.
    + rewrite (sub_no_match _ _ _ _ E), value_bind_cons. f_equal.
      apply IH; [simpl in Hn; lia|].
      intros a b m' ->. apply (H (c :: a)). reflexivity.
Qed.

(** C3.  For a circular Insert or Update declaration whose table has no
    entry in the Row-field mapping, the replacement function returns the
    matched text [group 0] itself and prints one warning line; in the
    substituted document the matched text stands unchanged in front of the
    substitution of what follows it, and a document all of whose circular
    declarations lack a Row entry comes back unchanged. *)
Theorem missing_row_keeps_declaration
    (row_fields : dict (dict text)) (m : Match) :
  dict_get row_fields (group m 2) = None ->
  let warning := t "  WARNING: No Row fields found for " ++ group m 2 in
  replace_insert row_fields m = (group m 0, [warning])
  /\ replace_update row_fields m = (group m 0, [warning])
  /\ (forall s, match_at insert_pattern s = Some m ->
        s = group m 0 ++ rest m
        /\ value (sub insert_pattern (replace_insert row_fields) s)
           = group m 0
               ++ value (sub insert_pattern (replace_insert row_fields) (rest m)))
  /\ (forall s, match_at update_pattern s = Some m ->
        s = group m 0 ++ rest m
        /\ value (sub update_pattern (replace_update row_fields) s)
           = group m 0
               ++ value (sub update_pattern (replace_update row_fields) (rest m)))
  /\ (forall s,
        (forall a b m', s = a ++ b ->
           match_at insert_pattern b = Some m' \/ match_at update_pattern b = Some m' ->
           dict_get row_fields (group m' 2) = None) ->
        value (sub insert_pattern (replace_insert row_fields) s) = s
        /\ value (sub update_pattern (replace_update row_fields) s) = s).
Proof.
  intros Hrow warning.
  assert (Hi : replace_insert row_fields m = (group m 0, [warning])).
  { unfold replace_insert. rewrite Hrow. reflexivity. }
  assert (Hu : replace_update row_fields m = (group m 0, [warning])).
  { unfold replace_update. rewrite Hrow. reflexivity. }
  split; [exact Hi|]. split; [exact Hu|]. split; [|split].
  - intros s E. split; [apply (match_at_sound _ _ _ E)|].
    rewrite (sub_match insert_pattern _ _ _ eq_refl E), value_bind_app.
    now rewrite Hi.
  - intros s E. split; [apply (match_at_sound _ _ _ E)|].
    rewrite (sub_match update_pattern _ _ _ eq_refl E), value_bind_app.
    now rewrite Hu.
  - intros s H. split.
    + apply (sub_keeps _ _ (length s)); [reflexivity | lia |].
      intros a b m' Eab E. unfold replace_insert.
      now rewrite (H a b m' Eab (or_introl E)).
    + apply (sub_keeps _ _ (length s)); [reflexivity | lia |].
      intros a b m' Eab E. unfold replace_update.
      now rewrite (H a b m' Eab (or_intror E)).
Qed.

Lemma missing_row_keeps_declaration_witness :
  dict_get sample_rows (group orphans_insert_match 2) = None
  /\ replace_insert sample_rows orphans_insert_match
     = (orphans_insert, [t "  WARNING: No Row fields found for orphans"]).
Proof.
  split; [reflexivity|].
  exact (proj1 (missing_row_keeps_declaration
                  sample_rows orphans_insert_match eq_refl)).
Defined.

(** C5 as stated fails: [ghost] is in the OmitSet parsed from the
    declaration, the table has a Row mapping, and no line of the
    synthesized Insert type declares [ghost]; the text [main] computes
    from the whole document does not contain [ghost] at all. *)
Lemma omit_name_outside_row_not_emitted :
  match_at insert_pattern (ghost_insert ++ [nl]) = Some ghost_insert_match
  /\ value (collect_rows ghost_document) = sample_rows
  /\ dict_get sample_rows (group ghost_insert_match 2) = Some campaigns_fields
  /\ In (t "ghost") (parse_omit (group ghost_insert_match 3))
  /\ value (replace_insert sample_rows ghost_insert_match)
     = t "Insert: {" ++ nl
         :: join [nl] [ optional_decl (t "id") (t "string");
                        required_decl (t "name") (t "string");
                        optional_decl (t "created_at") (t "string | null") ]
         ++ closing
  /\ ~ (exists typ,
          In (optional_decl (t "ghost") typ)
            (insert_lines (parse_omit (group ghost_insert_match 3))
               (parse_overrides (group ghost_insert_match 4)) campaigns_fields))
  /\ contains (t "ghost") (value (replace_insert sample_rows ghost_insert_match))
     = false
  /\ contains (t "ghost") ghost_document = true
  /\ match transform 3 ghost_document with
     | Some (content, _) => contains (t "ghost") content
     | None => true
     end = false.
Proof.
  split; [vm_compute; reflexivity|]. split; [vm_compute; reflexivity|].
  split; [reflexivity|].
  split; [vm_compute; auto|]. split; [vm_compute; reflexivity|].
  split; [|split; [|split]]; try (vm_compute; reflexivity).
  intros [typ H]. vm_compute in H.
  destruct H as [H|[H|[H|[]]]]; discriminate H.
Qed.

Lemma lower_app (a b : text) : lower (a ++ b) = lower a ++ lower b.
Proof. apply map_app. Qed.

(** C9.  For a field that is neither in the OmitSet nor in the OverrideMap
    the Insert line is the optional one exactly when the lowered Row type
    has [null] as a substring, wherever it stands, and the required one
    exactly when it has not; a type that has [null] inside a longer token
    is emitted optional.  The same holds in [generate_insert_type]. *)
Theorem nullable_is_substring_test
    (omit : list text) (overrides : dict text) (name typ : text) :
  set_mem name omit = false ->
  dict_get overrides name = None ->
  let has_null := exists a b, lower typ = a ++ t "null" ++ b in
  (insert_line omit overrides (name, typ) = optional_decl name typ <-> has_null)
  /\ (insert_line omit overrides (name, typ) = required_decl name typ
      <-> ~ has_null)
  /\ (Fix.insert_line omit (name, typ) = optional_decl name typ <-> has_null)
  /\ (forall a b, typ = a ++ t "null" ++ b ->
        insert_line omit overrides (name, typ) = optional_decl name typ).
Proof.
  intros Ho Hv has_null.
  assert (Hc : contains (t "null") (lower typ) = true <-> has_null)
    by apply contains_true.
  assert (Hl : forall ov, dict_get ov name = None ->
               insert_line omit ov (name, typ)
               = if contains (t "null") (lower typ)
                 then optional_decl name typ else required_decl name typ).
  { intros ov Hov. unfold insert_line. now rewrite Ho, Hov. }
  assert (Hopt : forall ov, dict_get ov name = None ->
                 (insert_line omit ov (name, typ) = optional_decl name typ
                  <-> has_null)).
  { intros ov Hov. rewrite (Hl ov Hov), <- Hc.
    destruct (contains (t "null") (lower typ)).
    - tauto.
    - split; [|discriminate]. intros E. symmetry in E.
      now apply optional_not_required in E. }
  split; [exact (Hopt overrides Hv)|]. split; [|split].
  - rewrite (Hl overrides Hv), <- Hc.
    destruct (contains (t "null") (lower typ)).
    + split; [|intros H; now elim H]. intros E.
      now apply optional_not_required in E.
    + split; [intros _; discriminate | reflexivity].
  - rewrite fix_insert_line. now apply Hopt.
  - intros a b ->. apply (Hopt overrides Hv). exists (lower a), (lower b).
    now rewrite !lower_app.
Qed.

Lemma nullable_is_substring_test_witness :
  set_mem (t "meta") [t "id"] = false
  /\ dict_get (@nil (text * text)) (t "meta") = None
  /\ insert_line [t "id"] [] (t "meta", t "'NonNullable'")
     = optional_decl (t "meta") (t "'NonNullable'").
Proof.
  split; [reflexivity|]. split; [reflexivity|].
  apply (proj1 (nullable_is_substring_test
                  [t "id"] [] (t "meta") (t "'NonNullable'") eq_refl eq_refl)).
  exists (t "'non"), (t "able'"). reflexivity.
Defined.

End Synthesis.

(** ** The credential-ID replacement *)

Module CredsFacts.
Import Text Out Creds Spec TextFacts.

Lemma dict_get_set_same {V} (d : dict V) (k : text) (v : V) :
  dict_get (dict_set d k v) k = Some v.
Proof.
  induction d as [|[k' v'] d IH]; simpl.
  - now rewrite eqb_refl.
  - destruct (eqb k' k) eqn:E; simpl; now rewrite E.
Qed.

Lemma dict_get_set_other {V} (d : dict V) (k k' : text) (v : V) :
  k <> k' -> dict_get (dict_set d k v) k' = dict_get d k'.
Proof.
  intros N. induction d as [|[k0 v0] d IH]; simpl.
  - now rewrite (proj2 (eqb_neq k k') N).
  - destruct (eqb k0 k) eqn:E; simpl.
    + apply eqb_eq in E. subst k0. now rewrite (proj2 (eqb_neq k k') N).
    + now rewrite IH.
Qed.

Lemma in_insert_sorted (x y : text) (l : list text) :
  In x (insert_sorted y l) <-> x = y \/ In x l.
Proof.
  induction l as [|z l IH]; simpl.
  - intuition congruence.
  - destruct (ltb z y); simpl; [rewrite IH|]; intuition congruence.
Qed.

Lemma in_sorted (x : text) (l : list text) : In x (sorted l) <-> In x l.
Proof.
  induction l as [|y l IH]; simpl; [tauto|].
  rewrite in_insert_sorted, IH. intuition congruence.
Qed.

Lemma nodup_insert_sorted (y : text) (l : list text) :
  ~ In y l -> NoDup l -> NoDup (insert_sorted y l).
Proof.
  induction l as [|z l IH]; simpl; intros Hy Hl.
  - constructor; [tauto | constructor].
  - destruct (ltb z y).
    + inversion Hl as [|? ? Hz Hl']; subst. constructor.
      * rewrite in_insert_sorted. intuition congruence.
      * apply IH; tauto.
    + constructor; [simpl; tauto | assumption].
Qed.

Lemma nodup_sorted (l : list text) : NoDup l -> NoDup (sorted l).
Proof.
  induction l as [|y l IH]; simpl; intros H; [constructor|].
  inversion H; subst. apply nodup_insert_sorted; [|auto].
  now rewrite in_sorted.
Qed.

Lemma value_bind {A B} (m : W A) (f : A -> W B) :
  value (bind m f) = value (f (value m)).
Proof. destruct m as [x l]. unfold bind, value. simpl. now destruct (f x). Qed.

Lemma value_for_each_cons {A S} (x : A) (xs : list A) (body : S -> A -> W S)
    (st : S) :
  value (for_each (x :: xs) body st) = value (for_each xs body (value (body st x))).
Proof. simpl. apply value_bind. Qed.

Lemma dict_get_In {V} (d : dict V) (k : text) (v : V) :
  dict_get d k = Some v -> In k (map fst d).
Proof.
  induction d as [|[k' v'] d IH]; simpl; [discriminate|].
  destruct (eqb k' k) eqn:E.
  - apply eqb_eq in E. auto.
  - auto.
Qed.

Lemma In_dict_get {V} (d : dict V) (k : text) :
  In k (map fst d) -> exists v, dict_get d k = Some v.
Proof.
  induction d as [|[k' v'] d IH]; simpl; [tauto|].
  intros [->|H].
  - rewrite eqb_refl. eauto.
  - destruct (eqb k' k); eauto.
Qed.

Section Script.
Variable BASE_DIR : text.
Variable json_error : text -> option text.

Lemma files_of_write_same (f : filesystem) (dir name content : text) :
  dict_get (files_of (write_file f dir name content) dir) name = Some content.
Proof.
  unfold write_file, files_of at 1. rewrite dict_get_set_same.
  apply dict_get_set_same.
Qed.

Lemma files_of_write_other (f : filesystem) (dir name name' content : text) :
  name <> name' ->
  dict_get (files_of (write_file f dir name content) dir) name'
  = dict_get (files_of f dir) name'.
Proof.
  intros N. unfold write_file, files_of at 1. rewrite dict_get_set_same.
  now apply dict_get_set_other.
Qed.

Lemma write_other_dir (f : filesystem) (dir d name content : text) :
  d <> dir -> dict_get (write_file f dir name content) d = dict_get f d.
Proof. intros N. unfold write_file. apply dict_get_set_other. congruence. Qed.

(** What [process_file] does to a file that is there. *)
Lemma process_file_value (dir : text) (st : state) (name content : text) :
  dict_get (files_of (fs st) dir) name = Some content ->
  value (process_file json_error dir st name)
  = match rewritten_text json_error dir name content with
    | Some content' =>
        mkState (write_file (fs st) dir name content')
          (writes st ++ [(dir, name)])
          (total_replacements st + snd (value (replace_ids dir name content)))
    | None => st
    end.
Proof.
  intros H. unfold process_file, rewritten_text.
  destruct (endswith (t ".json") name); simpl; [|reflexivity].
  rewrite H, value_bind.
  destruct (value (replace_ids dir name content)) as [content' n]. simpl.
  destruct n as [|n]; [reflexivity|].
  destruct (json_error content') as [e|]; reflexivity.
Qed.

Lemma process_file_absent (dir : text) (st : state) (name : text) :
  dict_get (files_of (fs st) dir) name = None ->
  value (process_file json_error dir st name) = st.
Proof.
  intros H. unfold process_file.
  destruct (endswith (t ".json") name); simpl; [|reflexivity].
  now rewrite H.
Qed.

(** The loop over the files of one directory leaves the other directories
    and their writes alone. *)
Lemma files_loop_other (dir : text) (names : list text) :
  forall st : state,
    let st' := value (for_each names (process_file json_error dir) st) in
    (forall d, d <> dir -> dict_get (fs st') d = dict_get (fs st) d)
    /\ (forall d n, d <> dir -> (In (d, n) (writes st') <-> In (d, n) (writes st))).
Proof.
  induction names as [|x xs IH]; intros st; [simpl; tauto|].
  cbv zeta. rewrite value_for_each_cons.
  destruct (IH (value (process_file json_error dir st x))) as [IH1 IH2].
  destruct (dict_get (files_of (fs st) dir) x) as [content|] eqn:E.
  - rewrite (process_file_value _ _ _ _ E) in *.
    destruct (rewritten_text json_error dir x content) as [content'|].
    + split.
      * intros d N. rewrite (IH1 d N). simpl. now apply write_other_dir.
      * intros d n N. rewrite (IH2 d n N). simpl. rewrite in_app_iff. simpl.
        intuition congruence.
    + split; auto.
  - rewrite (process_file_absent _ _ _ E) in *. split; auto.
Qed.

(** The loop over the files of one directory, each name once. *)
Lemma files_loop_same (dir : text) (names : list text) :
  forall st : state,
    NoDup names ->
    let st' := value (for_each names (process_file json_error dir) st) in
    (forall n c, In n names -> dict_get (files_of (fs st) dir) n = Some c ->
       dict_get (files_of (fs st') dir) n
       = Some (match rewritten_text json_error dir n c with
               | Some c' => c'
               | None => c
               end))
    /\ (forall n, ~ In n names ->
          dict_get (files_of (fs st') dir) n = dict_get (files_of (fs st) dir) n)
    /\ (forall n,
          In (dir, n) (writes st') <->
          In (dir, n) (writes st)
          \/ (In n names /\
              exists c, dict_get (files_of (fs st) dir) n = Some c
                        /\ rewritten_text json_error dir n c <> None)).
Proof.
  induction names as [|x xs IH]; intros st ND.
  - simpl. split; [tauto|]. split; [tauto|]. intros n. tauto.
  - cbv zeta. rewrite value_for_each_cons.
    inversion ND as [|? ? Hx ND']; subst.
    destruct (IH (value (process_file json_error dir st x)) ND')
      as (IHa & IHb & IHc).
    destruct (dict_get (files_of (fs st) dir) x) as [content|] eqn:E.
    + rewrite (process_file_value _ _ _ _ E) in *.
      destruct (rewritten_text json_error dir x content) as [content'|] eqn:R.
      * simpl in IHa, IHb, IHc. split; [|split].
        -- intros n c [->|Hn] Hc.
           ++ rewrite (IHb _ Hx), files_of_write_same.
              rewrite E in Hc. injection Hc as <-. now rewrite R.
           ++ apply IHa; [assumption|].
              rewrite files_of_write_other; [assumption|].
              intros ->. contradiction.
        -- intros n Hn. simpl in Hn. rewrite IHb by tauto.
           apply files_of_write_other. tauto.
        -- intros n. rewrite IHc, in_app_iff. simpl. split.
           ++ intros [[H|[H|[]]]|(Hn & c & Hc & Hr)].
              ** now left.
              ** injection H as <-. right. split; [now left|].
                 exists content. split; [assumption|]. now rewrite R.
              ** right. split; [now right|]. exists c. split; [|assumption].
                 rewrite files_of_write_other in Hc; [assumption|].
                 intros ->. contradiction.
           ++ intros [H|([->|Hn] & c & Hc & Hr)].
              ** left. now left.
              ** left. right. now left.
              ** right. split; [assumption|]. exists c. split; [|assumption].
                 rewrite files_of_write_other; [assumption|].
                 intros ->. contradiction.
      * split; [|split].
        -- intros n c [->|Hn] Hc.
           ++ rewrite (IHb _ Hx). rewrite E in Hc. injection Hc as <-.
              now rewrite R, E.
           ++ now apply IHa.
        -- intros n Hn. simpl in Hn. apply IHb. tauto.
        -- intros n. rewrite IHc. split.
           ++ intros [H|(Hn & c & Hc & Hr)]; [now left|].
              right. split; [now right|]. eauto.
           ++ intros [H|([->|Hn] & c & Hc & Hr)]; [now left| |].
              ** rewrite E in Hc. injection Hc as <-. contradiction.
              ** right. split; [assumption|]. eauto.
    + rewrite (process_file_absent _ _ _ E) in *. split; [|split].
      * intros n c [->|Hn] Hc; [congruence|]. now apply IHa.
      * intros n Hn. simpl in Hn. apply IHb. tauto.
      * intros n. rewrite IHc. split.
        -- intros [H|(Hn & c & Hc & Hr)]; [now left|].
           right. split; [now right|]. eauto.
        -- intros [H|([->|Hn] & c & Hc & Hr)]; [now left| |].
           ++ congruence.
           ++ right. split; [assumption|]. eauto.
Qed.

Lemma process_dir_other (dir : text) (st : state) :
  let st' := value (process_dir json_error st dir) in
  (forall d, d <> dir -> dict_get (fs st') d = dict_get (fs st) d)
  /\ (forall d n, d <> dir -> (In (d, n) (writes st') <-> In (d, n) (writes st))).
Proof.
  unfold process_dir. destruct (dict_get (fs st) dir) as [files|].
  - apply files_loop_other.
  - simpl. tauto.
Qed.

Lemma process_dir_same (dir : text) (st : state) (files : dict text) :
  dict_get (fs st) dir = Some files ->
  NoDup (map fst files) ->
  let st' := value (process_dir json_error st dir) in
  forall n c,
    dict_get files n = Some c ->
    dict_get (files_of (fs st') dir) n
    = Some (match rewritten_text json_error dir n c with
            | Some c' => c'
            | None => c
            end)
    /\ (In (dir, n) (writes st') <->
        In (dir, n) (writes st) \/ rewritten_text json_error dir n c <> None).
Proof.
  intros Hd ND st' n c Hc. unfold st', process_dir. rewrite Hd.
  destruct (files_loop_same dir (sorted (map fst files)) st
              (nodup_sorted _ ND)) as (Ha & _ & Hw).
  assert (Hf : files_of (fs st) dir = files) by (unfold files_of; now rewrite Hd).
  assert (Hn : In n (sorted (map fst files)))
    by (apply in_sorted; eapply dict_get_In; eassumption).
  rewrite Hf in *. split.
  - now apply Ha.
  - rewrite Hw. split.
    + intros [H|(_ & c' & Hc' & Hr)]; [now left|].
      right. congruence.
    + intros [H|H]; [now left|]. right. eauto.
Qed.

Lemma template_dirs_distinct :
  path_join (PROJECT_ROOT BASE_DIR) (t "base-cold-email")
  <> path_join (PROJECT_ROOT BASE_DIR) (t "cold-email-system").
Proof.
  generalize (PROJECT_ROOT BASE_DIR). intros r. unfold path_join. simpl.
  destruct r as [|c r]; [discriminate|].
  destruct (endswith _ (c :: r)); intros H;
    apply (app_inv_head (c :: r)) in H; discriminate H.
Qed.

Lemma rewritten_text_Some (dir name content : text) :
  rewritten_text json_error dir name content <> None <->
  endswith (t ".json") name = true
  /\ snd (value (replace_ids dir name content)) <> 0
  /\ json_error (fst (value (replace_ids dir name content))) = None.
Proof.
  unfold rewritten_text. destruct (endswith (t ".json") name).
  - destruct (value (replace_ids dir name content)) as [content' n]. simpl.
    destruct n as [|n].
    + intuition congruence.
    + destruct (json_error content'); intuition congruence.
  - intuition congruence.
Qed.

Lemma rewritten_text_value (dir name content content' : text) :
  rewritten_text json_error dir name content = Some content' ->
  content' = fst (value (replace_ids dir name content)).
Proof.
  unfold rewritten_text. destruct (endswith (t ".json") name); [|discriminate].
  destruct (value (replace_ids dir name content)) as [c n]. simpl.
  destruct n; [discriminate|]. destruct (json_error c); congruence.
Qed.

(** C10.  For every file of a template directory, the script opens it for
    writing exactly when its name ends in [.json], at least one credential
    ID was replaced in its content and the text after replacement parses
    as JSON; then the file holds the replaced text.  In every other case,
    a parse failure included, the file holds the content it had, whatever
    happened to the files before and after it. *)
Theorem rewrite_only_valid_json
    (f : filesystem) (dir : text) (files : dict text) (name content : text) :
  In dir (TEMPLATE_DIRS BASE_DIR) ->
  dict_get f dir = Some files ->
  NoDup (map fst files) ->
  dict_get files name = Some content ->
  let st := value (script BASE_DIR json_error f) in
  let replaced := fst (value (replace_ids dir name content)) in
  let file_replacements := snd (value (replace_ids dir name content)) in
  (In (dir, name) (writes st) <->
   endswith (t ".json") name = true
   /\ file_replacements <> 0
   /\ json_error replaced = None)
  /\ (In (dir, name) (writes st) ->
      dict_get (files_of (fs st) dir) name = Some replaced)
  /\ (~ In (dir, name) (writes st) ->
      dict_get (files_of (fs st) dir) name = Some content).
Proof.
  intros Hdir Hf ND Hc st replaced file_replacements.
  set (d1 := path_join (PROJECT_ROOT BASE_DIR) (t "base-cold-email")) in *.
  set (d2 := path_join (PROJECT_ROOT BASE_DIR) (t "cold-email-system")) in *.
  assert (Hne : d1 <> d2) by apply template_dirs_distinct.
  set (st0 := mkState f [] 0).
  set (st1 := value (process_dir json_error st0 d1)).
  set (st2 := value (process_dir json_error st1 d2)).
  assert (Est : st = st2).
  { unfold st, script, TEMPLATE_DIRS. fold d1 d2.
    rewrite !value_bind, !value_for_each_cons. reflexivity. }
  assert (Hkey :
    dict_get (files_of (fs st) dir) name
    = Some (match rewritten_text json_error dir name content with
            | Some c' => c'
            | None => content
            end)
    /\ (In (dir, name) (writes st) <->
        rewritten_text json_error dir name content <> None)).
  { rewrite Est. change (In dir [d1; d2]) in Hdir.
    destruct Hdir as [<-|[<-|[]]].
    - destruct (process_dir_same d1 st0 files Hf ND name content Hc)
        as [H1 H2].
      destruct (process_dir_other d2 st1) as [O1 O2].
      fold st1 in H1, H2. fold st2 in O1, O2. split.
      + unfold files_of. rewrite (O1 d1 Hne). exact H1.
      + rewrite (O2 d1 name Hne), H2. simpl. tauto.
    - destruct (process_dir_other d1 st0) as [O1 O2].
      fold st1 in O1, O2.
      assert (Hf1 : dict_get (fs st1) d2 = Some files).
      { rewrite O1 by congruence. exact Hf. }
      destruct (process_dir_same d2 st1 files Hf1 ND name content Hc)
        as [H1 H2].
      fold st2 in H1, H2. split; [exact H1|].
      rewrite H2, (O2 d2 name) by congruence. simpl. tauto. }
  destruct Hkey as [Hget Hw]. split; [|split].
  - rewrite Hw. apply rewritten_text_Some.
  - intros H. apply Hw in H. rewrite Hget.
    destruct (rewritten_text json_error dir name content) as [c'|] eqn:R;
      [|congruence].
    now rewrite (rewritten_text_value _ _ _ _ R).
  - intros H. rewrite Hget.
    destruct (rewritten_text json_error dir name content) as [c'|] eqn:R;
      [|reflexivity].
    elim H. apply Hw. congruence.
Qed.

End Script.

Lemma rewrite_only_valid_json_witness :
  let st := value (script (t "/repo/scripts") sample_json_error sample_fs) in
  dict_get (files_of (fs st) sample_dir) (t "bad.json")
  = Some (t "kThf5Npwf1zJFn9l").
Proof.
  assert (H1 : In sample_dir (TEMPLATE_DIRS (t "/repo/scripts")))
    by (left; reflexivity).
  assert (H3 : NoDup (map fst sample_files)).
  { repeat constructor; simpl; intuition discriminate. }
  destruct (rewrite_only_valid_json (t "/repo/scripts") sample_json_error
              sample_fs sample_dir sample_files (t "bad.json")
              (t "kThf5Npwf1zJFn9l") H1 eq_refl H3 eq_refl)
    as (Hiff & _ & Hkeep).
  apply Hkeep. intros Hin. apply Hiff in Hin as (_ & _ & E).
  vm_compute in E. discriminate E.
Defined.

End CredsFacts.

(** ** Character classes and greedy repetition *)

Module Greedy.
Import Text Out Re TextFacts ReFacts.

Ltac by_cases c :=
  destruct c as [[] [] [] [] [] [] [] []]; vm_compute; try reflexivity;
  try discriminate; try (intros; discriminate).

Lemma space_not_word (c : ascii) : is_space c = true -> is_word c = false.
Proof. by_cases c. Qed.

Lemma space_not_brace (c : ascii) : is_space c = true -> ceqb "}" c = false.
Proof. by_cases c. Qed.

Lemma word_not_colon (c : ascii) : is_word c = true -> ceqb ":" c = false.
Proof. by_cases c. Qed.

Lemma word_not_brace (c : ascii) : is_word c = true -> ceqb "}" c = false.
Proof. by_cases c. Qed.

Lemma word_not_space (c : ascii) : is_word c = true -> is_space c = false.
Proof. by_cases c. Qed.

Lemma take_drop_while (p : ascii -> bool) (s : text) :
  take_while p s ++ drop_while p s = s.
Proof.
  induction s as [|c s IH]; simpl; [reflexivity|].
  destruct (p c); simpl; [now rewrite IH | reflexivity].
Qed.

Lemma take_while_all (p : ascii -> bool) (s : text) :
  forallb p (take_while p s) = true.
Proof.
  induction s as [|c s IH]; simpl; [reflexivity|].
  destruct (p c) eqn:E; simpl; [now rewrite E | reflexivity].
Qed.

Lemma drop_while_head (p : ascii -> bool) (s : text) (c : ascii) (s' : text) :
  drop_while p s = c :: s' -> p c = false.
Proof.
  induction s as [|x s IH]; simpl; [discriminate|].
  destruct (p x) eqn:E; [exact IH|]. intros H. injection H as <- _. exact E.
Qed.

Lemma take_while_app (p : ascii -> bool) (a s : text) :
  forallb p a = true ->
  match s with [] => True | c :: _ => p c = false end ->
  take_while p (a ++ s) = a /\ drop_while p (a ++ s) = s.
Proof.
  induction a as [|x a IH]; simpl; intros Ha Hs.
  - destruct s as [|c s]; simpl; [auto|]. now rewrite Hs.
  - apply andb_true_iff in Ha as [Hx Ha]. rewrite Hx.
    destruct (IH Ha Hs) as [-> ->]. auto.
Qed.

Section Star.
Context {R : Type}.

(** When what follows a repetition cannot start with a character of the
    class, only the longest run can succeed. *)
Lemma star_greedy (p : ascii -> bool) (s : text) (caps : captures)
    (k : @cont R) :
  (forall c s', p c = true -> k (c :: s') caps = None) ->
  star p s caps k = k (drop_while p s) caps.
Proof.
  intros H. induction s as [|c s IH]; simpl; [reflexivity|].
  destruct (p c) eqn:E; [|reflexivity].
  rewrite IH. destruct (k (drop_while p s) caps) eqn:K; [reflexivity|].
  now apply H.
Qed.

Lemma plus_greedy (p : ascii -> bool) (s : text) (caps : captures)
    (k : @cont R) :
  (forall c s', p c = true -> k (c :: s') caps = None) ->
  run (Plus p) s caps k
  = match take_while p s with
    | [] => None
    | _ :: _ => k (drop_while p s) caps
    end.
Proof.
  intros H. destruct s as [|c s]; simpl; [reflexivity|].
  destruct (p c); [|reflexivity]. now apply star_greedy.
Qed.
End Star.

End Greedy.

(** ** The relationships normaliser *)

Module Normalizer.
Import Text Out Re Convert Boundary TextFacts ReFacts Greedy.

Section Pieces.
Context {R : Type}.

Lemma run_Seq (r1 r2 : regex) (s : text) (caps : captures) (k : @cont R) :
  run (Seq r1 r2) s caps k = run r1 s caps (fun s' caps' => run r2 s' caps' k).
Proof. reflexivity. Qed.

Lemma run_Grp (n : nat) (r : regex) (s : text) (caps : captures) (k : @cont R) :
  run (Grp n r) s caps k
  = run r s caps (fun s' caps' => k s' ((n, consumed s s') :: caps')).
Proof. reflexivity. Qed.

Lemma run_Lit (l : text) (s : text) (caps : captures) (k : @cont R) :
  run (Lit l) s caps k
  = match strip_prefix l s with Some s' => k s' caps | None => None end.
Proof. reflexivity. Qed.

Lemma run_Star (p : ascii -> bool) (s : text) (caps : captures) (k : @cont R) :
  run (Star p) s caps k = star p s caps k.
Proof. reflexivity. Qed.

Lemma strip_prefix_neq (x : ascii) (p : text) (c : ascii) (s : text) :
  ceqb x c = false -> strip_prefix (x :: p) (c :: s) = None.
Proof. intros H. cbn [strip_prefix]. now rewrite H. Qed.

Lemma strip_prefix_one (x c : ascii) (s : text) :
  strip_prefix [x] (c :: s) = if ceqb x c then Some s else None.
Proof. reflexivity. Qed.

Lemma not_brace_false (c : ascii) : not_brace c = false <-> c = "}".
Proof.
  unfold not_brace, other_than. rewrite negb_false_iff, ceqb_eq.
  split; congruence.
Qed.

Lemma not_brace_true (c : ascii) : not_brace c = true <-> ceqb "}" c = false.
Proof. unfold not_brace, other_than. apply negb_true_iff. Qed.

(** [Update: \{[^}]+\}] *)
Lemma run_update_block (s : text) (caps : captures) (k : @cont R) :
  run block_piece s caps k
  = match update_block s with
    | Some (_, s2) => k s2 caps
    | None => None
    end.
Proof.
  unfold block_piece. cbn [cat]. rewrite run_Seq, run_Lit.
  unfold update_block, opener.
  destruct (strip_prefix (t "Update: {") s) as [s1|]; [|reflexivity].
  rewrite run_Seq, plus_greedy.
  - fold not_brace.
    destruct (take_while not_brace s1) as [|x body]; [reflexivity|].
    rewrite run_Lit.
    now destruct (strip_prefix (t "}") (drop_while not_brace s1)).
  - intros c s' Hc. rewrite run_Lit. change (t "}") with ["}"].
    now rewrite strip_prefix_neq by now apply not_brace_true.
Qed.

(** [\s*\}] *)
Lemma run_close_piece (s : text) (caps : captures) (k : @cont R) :
  run close_piece s caps k
  = match strip_prefix (t "}") (drop_while is_space s) with
    | Some s2 => k s2 caps
    | None => None
    end.
Proof.
  unfold close_piece. cbn [cat]. rewrite run_Seq, run_Star, star_greedy.
  - now rewrite run_Lit.
  - intros c s' Hc. rewrite run_Lit. change (t "}") with ["}"].
    now rewrite strip_prefix_neq by now apply space_not_brace.
Qed.
End Pieces.

Lemma consumed_prefix (l s s' : text) :
  strip_prefix l s = Some s' -> consumed s s' = l.
Proof. intros H. apply strip_prefix_Some in H. subst s. apply consumed_app. Qed.

Lemma consumed_take_while (p : ascii -> bool) (s : text) :
  consumed s (drop_while p s) = take_while p s.
Proof.
  rewrite <- (take_drop_while p s) at 1. apply consumed_app.
Qed.

(** What the readers return, as equations on the text. *)
Lemma update_block_spec (s body s1 : text) :
  update_block s = Some (body, s1) <->
  s = opener ++ body ++ t "}" ++ s1 /\ body <> []
  /\ forallb not_brace body = true.
Proof.
  unfold update_block. split.
  - destruct (strip_prefix opener s) as [s0|] eqn:E0; [|discriminate].
    apply strip_prefix_Some in E0. subst s.
    destruct (take_while not_brace s0) as [|x b] eqn:Et; [discriminate|].
    destruct (strip_prefix (t "}") (drop_while not_brace s0)) as [s2|] eqn:E2;
      [|discriminate].
    intros H. injection H as <- <-. apply strip_prefix_Some in E2.
    split; [|split; [discriminate|]].
    + rewrite <- E2, <- Et. now rewrite take_drop_while.
    + rewrite <- Et. apply take_while_all.
  - intros (-> & Hne & Hall). rewrite strip_prefix_app.
    destruct (take_while_app not_brace body (t "}" ++ s1) Hall eq_refl)
      as [-> ->].
    destruct body; [congruence|]. now rewrite strip_prefix_app.
Qed.

Lemma closer_spec (s ws s1 : text) :
  closer s = Some (ws, s1) <->
  s = nl :: ws ++ t "}" ++ s1 /\ forallb is_space ws = true.
Proof.
  unfold closer. split.
  - destruct (strip_prefix [nl] s) as [s0|] eqn:E0; [|discriminate].
    apply strip_prefix_Some in E0. subst s.
    destruct (strip_prefix (t "}") (drop_while is_space s0)) as [s2|] eqn:E2;
      [|discriminate].
    intros H. injection H as <- <-. apply strip_prefix_Some in E2. split.
    + rewrite <- E2, take_drop_while. reflexivity.
    + apply take_while_all.
  - intros (-> & Hall). rewrite strip_prefix_one, ceqb_refl.
    destruct (take_while_app is_space ws (t "}" ++ s1) Hall eq_refl)
      as [-> ->].
    now rewrite strip_prefix_app.
Qed.

Lemma next_name_spec (s ws name rest : text) :
  next_name s = Some (ws, name, rest) <->
  s = nl :: ws ++ name ++ t ":" ++ rest /\ forallb is_space ws = true
  /\ name <> [] /\ forallb is_word name = true.
Proof.
  unfold next_name. split.
  - destruct (strip_prefix [nl] s) as [s0|] eqn:E0; [|discriminate].
    apply strip_prefix_Some in E0. subst s. cbv zeta.
    destruct (take_while is_word (drop_while is_space s0)) as [|x n] eqn:Et;
      [discriminate|].
    destruct (strip_prefix (t ":") (drop_while is_word (drop_while is_space s0)))
      as [r|] eqn:E2; [|discriminate].
    intros H. injection H as <- <- <-. apply strip_prefix_Some in E2.
    split; [|split; [|split; [discriminate|]]].
    + rewrite <- E2, <- Et, !take_drop_while. reflexivity.
    + apply take_while_all.
    + rewrite <- Et. apply take_while_all.
  - intros (-> & Hws & Hne & Hn). rewrite strip_prefix_one, ceqb_refl. cbv zeta.
    destruct name as [|x n]; [congruence|].
    assert (Hx : is_space x = false).
    { simpl in Hn. apply andb_true_iff in Hn as [Hx _].
      now apply word_not_space. }
    destruct (take_while_app is_space ws ((x :: n) ++ t ":" ++ rest) Hws Hx)
      as [-> ->].
    destruct (take_while_app is_word (x :: n) (t ":" ++ rest) Hn eq_refl)
      as [-> ->].
    now rewrite strip_prefix_app.
Qed.

Lemma section_name_spec (s name rest : text) :
  section_name s = Some (name, rest) <->
  s = name ++ rest /\ (name = t "Functions:" \/ name = t "Views:").
Proof.
  unfold section_name. split.
  - destruct (strip_prefix (t "Functions:") s) as [r|] eqn:E1.
    + intros H. injection H as <- <-. apply strip_prefix_Some in E1. auto.
    + destruct (strip_prefix (t "Views:") s) as [r|] eqn:E2; [|discriminate].
      intros H. injection H as <- <-. apply strip_prefix_Some in E2. auto.
  - intros (-> & [->| ->]).
    + now rewrite strip_prefix_app.
    + now rewrite strip_prefix_app.
Qed.

Lemma next_section_spec (s ws name rest : text) :
  next_section s = Some (ws, name, rest) <->
  s = nl :: ws ++ name ++ rest /\ forallb is_space ws = true
  /\ (name = t "Functions:" \/ name = t "Views:").
Proof.
  unfold next_section. split.
  - destruct (strip_prefix [nl] s) as [s0|] eqn:E0; [|discriminate].
    apply strip_prefix_Some in E0. subst s.
    destruct (section_name (drop_while is_space s0)) as [[n r]|] eqn:E2;
      [|discriminate].
    intros H. injection H as <- <- <-. apply section_name_spec in E2 as [E2 Hn].
    split; [|split; [apply take_while_all | exact Hn]].
    rewrite <- E2, take_drop_while. reflexivity.
  - intros (-> & Hws & Hn). rewrite strip_prefix_one, ceqb_refl.
    assert (Hx : match name ++ rest with [] => True | c :: _ => is_space c = false end)
      by (destruct Hn as [->| ->]; reflexivity).
    destruct (take_while_app is_space ws (name ++ rest) Hws Hx) as [-> ->].
    now rewrite (proj2 (section_name_spec (name ++ rest) name rest)).
Qed.

(** The matcher on [relationships_pattern] is [relationships_parse]. *)
Lemma relationships_match (s : text) :
  match_at relationships_pattern s = relationships_parse s.
Proof.
  unfold match_at, relationships_pattern, relationships_parse. cbn [cat].
  rewrite run_Seq, run_Grp, run_update_block.
  destruct (update_block s) as [[body s1]|] eqn:Eb; [|reflexivity].
  rewrite run_Seq, run_Lit. unfold closer.
  destruct (strip_prefix [nl] s1) as [s1'|] eqn:E1; [|reflexivity].
  rewrite run_Seq, run_Grp, run_close_piece.
  destruct (strip_prefix (t "}") (drop_while is_space s1')) as [s2|] eqn:E2;
    [|reflexivity].
  rewrite run_Seq, run_Lit. unfold next_name.
  destruct (strip_prefix [nl] s2) as [s2'|] eqn:E3; [|reflexivity].
  rewrite run_Seq, run_Grp, run_Star, star_greedy.
  - rewrite run_Seq, run_Grp, plus_greedy.
    + cbv zeta.
      destruct (take_while is_word (drop_while is_space s2')) as [|x n] eqn:Et;
        [reflexivity|].
      rewrite run_Lit.
      destruct (strip_prefix (t ":") (drop_while is_word (drop_while is_space s2')))
        as [rest|] eqn:E4; [|reflexivity].
      rewrite !consumed_take_while, Et.
      apply update_block_spec in Eb as (Es & _ & _).
      apply strip_prefix_Some in E2.
      replace (consumed s s1) with (opener ++ body ++ t "}")
        by (rewrite Es, !app_assoc; symmetry; apply consumed_app).
      replace (consumed s1' s2) with (take_while is_space s1' ++ t "}").
      * reflexivity.
      * rewrite <- (take_drop_while is_space s1') at 2. rewrite E2, app_assoc.
        symmetry. apply consumed_app.
    + intros c s' Hc. rewrite run_Lit. change (t ":") with [":"].
      now rewrite strip_prefix_neq by now apply word_not_colon.
  - intros c s' Hc. cbn [run]. now rewrite (space_not_word c Hc).
Qed.

Lemma space_not_section (c : ascii) (s : text) :
  is_space c = true -> section_name (c :: s) = None.
Proof.
  intros H. unfold section_name.
  change (t "Functions:") with ("F" :: t "unctions:").
  change (t "Views:") with ("V" :: t "iews:").
  rewrite !strip_prefix_neq; [reflexivity| |];
    destruct c as [[] [] [] [] [] [] [] []]; try reflexivity; discriminate H.
Qed.

(** The matcher on [last_table_pattern] is [last_table_parse]. *)
Lemma last_table_match (s : text) :
  match_at last_table_pattern s = last_table_parse s.
Proof.
  unfold match_at, last_table_pattern, last_table_parse. cbn [cat].
  rewrite run_Seq, run_Grp, run_update_block.
  destruct (update_block s) as [[body s1]|] eqn:Eb; [|reflexivity].
  rewrite run_Seq, run_Lit. unfold closer at 1.
  destruct (strip_prefix [nl] s1) as [s1'|] eqn:E1; [|reflexivity].
  rewrite run_Seq, run_Grp, run_close_piece.
  destruct (strip_prefix (t "}") (drop_while is_space s1')) as [s2|] eqn:E2;
    [|reflexivity].
  rewrite run_Seq, run_Lit. unfold closer.
  destruct (strip_prefix [nl] s2) as [s2'|] eqn:E3; [|reflexivity].
  rewrite run_Seq, run_Grp, run_close_piece.
  destruct (strip_prefix (t "}") (drop_while is_space s2')) as [s3|] eqn:E4;
    [|reflexivity].
  rewrite run_Seq, run_Lit. unfold next_section.
  destruct (strip_prefix [nl] s3) as [s3'|] eqn:E5; [|reflexivity].
  rewrite run_Seq, run_Grp, run_Star, star_greedy.
  - rewrite run_Grp. cbn [run]. unfold section_name.
    apply update_block_spec in Eb as (Es & _ & _).
    apply strip_prefix_Some in E2, E4.
    assert (G1 : consumed s s1 = opener ++ body ++ t "}")
      by (rewrite Es, !app_assoc; apply consumed_app).
    assert (G2 : consumed s1' s2 = take_while is_space s1' ++ t "}").
    { rewrite <- (take_drop_while is_space s1') at 1. rewrite E2, app_assoc.
      apply consumed_app. }
    assert (G3 : consumed s2' s3 = take_while is_space s2' ++ t "}").
    { rewrite <- (take_drop_while is_space s2') at 1. rewrite E4, app_assoc.
      apply consumed_app. }
    rewrite G1, G2, G3, consumed_take_while.
    destruct (strip_prefix (t "Functions:") (drop_while is_space s3'))
      as [rest|] eqn:E6.
    + now rewrite (consumed_prefix _ _ _ E6).
    + destruct (strip_prefix (t "Views:") (drop_while is_space s3'))
        as [rest|] eqn:E7; [|reflexivity].
      now rewrite (consumed_prefix _ _ _ E7).
  - intros c s' Hc. rewrite run_Grp. cbn [run].
    pose proof (space_not_section c s' Hc) as N. unfold section_name in N.
    destruct (strip_prefix (t "Functions:") (c :: s')); [discriminate|].
    destruct (strip_prefix (t "Views:") (c :: s')); [discriminate|].
    reflexivity.
Qed.

Ltac norm_app :=
  repeat (rewrite <- ?app_assoc, <- ?app_comm_cons); cbn [app].

Lemma boundary_here_rel (s : text) :
  boundary_here next_table_boundary s = true <-> relationships_parse s <> None.
Proof.
  unfold boundary_here, next_table_boundary, relationships_parse.
  destruct (update_block s) as [[body s1]|]; [|intuition congruence].
  destruct (closer s1) as [[ws1 s2]|]; [|intuition congruence].
  destruct (next_name s2) as [[[ws2 name] rest]|]; intuition congruence.
Qed.

Lemma boundary_here_last (s : text) :
  boundary_here end_of_tables_boundary s = true <-> last_table_parse s <> None.
Proof.
  unfold boundary_here, end_of_tables_boundary, last_table_parse.
  destruct (update_block s) as [[body s1]|]; [|intuition congruence].
  destruct (closer s1) as [[ws1 s2]|]; [|intuition congruence].
  destruct (closer s2) as [[ws2 s3]|]; [|intuition congruence].
  destruct (next_section s3) as [[[ws3 name] rest]|]; intuition congruence.
Qed.

(** One turn of the loop, read left to right: at an Update block followed
    by a next-table boundary the marker goes between the two and the pass
    goes on after the boundary; any other character is copied. *)
Lemma relationships_pass_eq (s : text) :
  relationships_pass s
  = match s with
    | [] => []
    | c :: s' =>
        match update_block s with
        | Some (body, s1) =>
            match next_table_boundary s1 with
            | Some (b, rest) =>
                opener ++ body ++ t "}" ++ marker ++ b ++ relationships_pass rest
            | None => c :: relationships_pass s'
            end
        | None => c :: relationships_pass s'
        end
    end.
Proof.
  destruct s as [|c s]; [reflexivity|]. unfold relationships_pass.
  pose proof (relationships_match (c :: s)) as M.
  unfold relationships_parse in M. unfold next_table_boundary.
  destruct (update_block (c :: s)) as [[body s1]|].
  - destruct (closer s1) as [[ws1 s2]|].
    + destruct (next_name s2) as [[[ws2 name] rest]|].
      * rewrite (sub_match relationships_pattern _ _ _ eq_refl M).
        rewrite Synthesis.value_bind_app. cbn. norm_app. reflexivity.
      * now rewrite (sub_no_match _ _ _ _ M), Synthesis.value_bind_cons.
    + now rewrite (sub_no_match _ _ _ _ M), Synthesis.value_bind_cons.
  - now rewrite (sub_no_match _ _ _ _ M), Synthesis.value_bind_cons.
Qed.

(** The pass for the last table of a schema, read left to right. *)
Lemma last_table_pass_eq (s : text) :
  last_table_pass s
  = match s with
    | [] => []
    | c :: s' =>
        match update_block s with
        | Some (body, s1) =>
            match end_of_tables_boundary s1 with
            | Some (b, rest) =>
                opener ++ body ++ t "}" ++ marker ++ b ++ last_table_pass rest
            | None => c :: last_table_pass s'
            end
        | None => c :: last_table_pass s'
        end
    end.
Proof.
  destruct s as [|c s]; [reflexivity|]. unfold last_table_pass.
  pose proof (last_table_match (c :: s)) as M.
  unfold last_table_parse in M. unfold end_of_tables_boundary.
  destruct (update_block (c :: s)) as [[body s1]|].
  - destruct (closer s1) as [[ws1 s2]|].
    + destruct (closer s2) as [[ws2 s3]|].
      * destruct (next_section s3) as [[[ws3 name] rest]|].
        -- rewrite (sub_match last_table_pattern _ _ _ eq_refl M).
           rewrite Synthesis.value_bind_app. cbn. norm_app. reflexivity.
        -- now rewrite (sub_no_match _ _ _ _ M), Synthesis.value_bind_cons.
      * now rewrite (sub_no_match _ _ _ _ M), Synthesis.value_bind_cons.
    + now rewrite (sub_no_match _ _ _ _ M), Synthesis.value_bind_cons.
  - now rewrite (sub_no_match _ _ _ _ M), Synthesis.value_bind_cons.
Qed.

Lemma unique_split (p : ascii -> bool) (c : ascii) (a1 a2 b1 b2 : text) :
  forallb p a1 = true -> forallb p a2 = true -> p c = false ->
  a1 ++ c :: b1 = a2 ++ c :: b2 -> a1 = a2 /\ b1 = b2.
Proof.
  intros H1 H2 Hc. revert a2 H2.
  induction a1 as [|x a1 IH]; intros [|y a2] H2 E; simpl in *.
  - injection E as <-. auto.
  - injection E as <- _. apply andb_true_iff in H2 as [H2 _]. congruence.
  - injection E as -> _. apply andb_true_iff in H1 as [H1 _]. congruence.
  - injection E as <- E. apply andb_true_iff in H1 as [_ H1].
    apply andb_true_iff in H2 as [_ H2].
    destruct (IH H1 a2 H2 E) as [-> ->]. auto.
Qed.

Lemma cons_eq_inv {A : Type} (x y : A) (a b : list A) :
  x :: a = y :: b -> x = y /\ a = b.
Proof. intros H. now injection H. Qed.

Lemma free_of_app (c : ascii) (a b : text) :
  free_of c (a ++ b) = free_of c a && free_of c b.
Proof. apply forallb_app. Qed.

Lemma free_of_cons (c x : ascii) (s : text) :
  free_of c (x :: s) = negb (ceqb c x) && free_of c s.
Proof. reflexivity. Qed.

Lemma spaces_free_of_U (ws : text) :
  forallb is_space ws = true -> free_of "U" ws = true.
Proof.
  induction ws as [|c ws IH]; simpl; [reflexivity|]. intros H.
  apply andb_true_iff in H as [Hc H]. rewrite (IH H), andb_true_r.
  destruct c as [[] [] [] [] [] [] [] []]; try reflexivity; discriminate Hc.
Qed.

Lemma spaces_not_brace (ws : text) :
  forallb is_space ws = true -> forallb not_brace ws = true.
Proof.
  induction ws as [|c ws IH]; simpl; [reflexivity|]. intros H.
  apply andb_true_iff in H as [Hc H]. rewrite (IH H), andb_true_r.
  apply not_brace_true. now apply space_not_brace.
Qed.

Lemma word_chars_not_brace (name : text) :
  forallb is_word name = true -> forallb not_brace name = true.
Proof.
  induction name as [|c n IH]; simpl; [reflexivity|]. intros H.
  apply andb_true_iff in H as [Hc H]. rewrite (IH H), andb_true_r.
  apply not_brace_true. now apply word_not_brace.
Qed.

Lemma word_chars_free_of_colon (name : text) :
  forallb is_word name = true -> free_of ":" name = true.
Proof.
  induction name as [|c n IH]; [reflexivity|]. cbn [forallb free_of].
  intros H. apply andb_true_iff in H as [Hc H].
  rewrite (word_not_colon c Hc). exact (IH H).
Qed.

(** The marker does not begin like a boundary. *)
Lemma closer_marker (x : text) : closer (marker ++ x) = None.
Proof. reflexivity. Qed.

(** Facts on [inserted]. *)
Lemma inserted_refl (s : text) : inserted s s.
Proof. induction s; constructor; assumption. Qed.

Lemma inserted_one (s o : text) :
  inserted s o -> inserted (t "}" ++ s) (t "}" ++ marker ++ o).
Proof. intros H. apply inserted_mark. now apply inserted_keep. Qed.

Lemma inserted_app (a a' b b' : text) :
  inserted a a' -> inserted b b' -> inserted (a ++ b) (a' ++ b').
Proof.
  intros Ha Hb. induction Ha as [|c s o _ IH|s o _ IH].
  - exact Hb.
  - simpl. now constructor.
  - change ((t "}" ++ marker ++ o) ++ b') with (t "}" ++ marker ++ o ++ b').
    now apply inserted_mark.
Qed.

Lemma inserted_plain (w : text) :
  forall o z : text,
    free_of "}" w = true -> inserted (w ++ o) z ->
    exists z', z = w ++ z' /\ inserted o z'.
Proof.
  induction w as [|y w IH]; intros o z Hw Hz; [now exists z|].
  rewrite free_of_cons in Hw. apply andb_true_iff in Hw as [Hy Hw].
  apply negb_true_iff in Hy.
  inversion Hz as [|? ? z1 Hz1|? z1 Hz1]; subst.
  - destruct (IH o z1 Hw Hz1) as (z' & -> & Hz'). now exists z'.
  - now rewrite ceqb_refl in Hy.
Qed.

Lemma inserted_trans (a b : text) :
  inserted a b -> forall c, inserted b c -> inserted a c.
Proof.
  induction 1 as [|x s o Hso IH|s o Hso IH]; intros c Hc.
  - exact Hc.
  - remember (x :: o) as b eqn:Eb. revert Eb.
    induction Hc as [|y s1 o1 H1 _|s1 o1 H1 IH1]; intros Eb.
    + discriminate Eb.
    + injection Eb as -> ->. constructor. now apply IH.
    + injection Eb as <- ->. apply inserted_mark. now apply IH1.
  - remember (t "}" ++ marker ++ o) as b eqn:Eb. revert Eb.
    induction Hc as [|y s1 o1 H1 _|s1 o1 H1 IH1]; intros Eb.
    + discriminate Eb.
    + injection Eb as -> ->.
      destruct (inserted_plain marker o o1 eq_refl H1) as (z' & -> & Hz').
      apply inserted_mark. apply IH. now constructor.
    + injection Eb as ->. apply inserted_mark. now apply IH1.
Qed.

Section Pass.
Variable boundary : text -> option (text * text).
Variable pass : text -> text.

Hypothesis pass_eq :
  forall s,
    pass s
    = match s with
      | [] => []
      | c :: s' =>
          match update_block s with
          | Some (body, s1) =>
              match boundary s1 with
              | Some (b, rest) =>
                  opener ++ body ++ t "}" ++ marker ++ b ++ pass rest
              | None => c :: pass s'
              end
          | None => c :: pass s'
          end
      end.

Hypothesis boundary_split :
  forall s b rest, boundary s = Some (b, rest) -> s = b ++ rest.

Lemma pass_nil : pass [] = [].
Proof. now rewrite pass_eq. Qed.

(** The two ways a pass goes on at a character. *)
Lemma pass_cases (c : ascii) (s' : text) :
  (boundary_here boundary (c :: s') = false /\ pass (c :: s') = c :: pass s')
  \/ (exists body s1 b rest,
        update_block (c :: s') = Some (body, s1)
        /\ boundary s1 = Some (b, rest)
        /\ pass (c :: s') = opener ++ body ++ t "}" ++ marker ++ b ++ pass rest).
Proof.
  rewrite (pass_eq (c :: s')). unfold boundary_here.
  destruct (update_block (c :: s')) as [[body s1]|]; [|now left].
  destruct (boundary s1) as [[b rest]|] eqn:E; [|now left].
  right. now exists body, s1, b, rest.
Qed.

(** A character of the output other than [U] was copied from the input. *)
Lemma pull_char (s : text) (c : ascii) (o : text) :
  pass s = c :: o -> ceqb "U" c = false ->
  exists s', s = c :: s' /\ pass s' = o.
Proof.
  intros E Hc. destruct s as [|x s']; [now rewrite pass_nil in E|].
  destruct (pass_cases x s') as [[_ H]|(body & s1 & b & rest & _ & _ & H)];
    rewrite H in E.
  - injection E as -> <-. eauto.
  - injection E as <- _. discriminate Hc.
Qed.

Lemma pull_plain (w : text) :
  forall (s o : text),
    free_of "U" w = true -> pass s = w ++ o ->
    exists s', s = w ++ s' /\ pass s' = o.
Proof.
  induction w as [|c w IH]; intros s o Hw E; [now exists s|].
  simpl in Hw. apply andb_true_iff in Hw as [Hc Hw].
  apply negb_true_iff in Hc.
  destruct (pull_char s c (w ++ o) E Hc) as (s1 & -> & E1).
  destruct (IH s1 o Hw E1) as (s' & -> & E'). now exists s'.
Qed.

(** The body of a block in the output, up to its closing brace: either it
    was copied, or a marker follows the brace. *)
Lemma pull_body (body : text) :
  forall (s o : text),
    forallb not_brace body = true -> pass s = body ++ "}" :: o ->
    (exists s', s = body ++ "}" :: s' /\ pass s' = o)
    \/ (exists x, o = marker ++ x).
Proof.
  induction body as [|x body IH]; intros s o Hb E.
  - left. now apply pull_char.
  - destruct s as [|c s']; [now rewrite pass_nil in E|].
    simpl in Hb. apply andb_true_iff in Hb as [Hx Hb].
    destruct (pass_cases c s') as [[_ H]|(bd & s1 & b & rest & Hu & _ & H)];
      rewrite H in E.
    + injection E as -> E. destruct (IH s' o Hb E) as [(s2 & -> & E2)|R].
      * left. now exists s2.
      * now right.
    + right. apply update_block_spec in Hu as (_ & _ & Hbd).
      change (opener ++ bd ++ t "}" ++ marker ++ b ++ pass rest)
        with ((opener ++ bd) ++ "}" :: marker ++ b ++ pass rest) in E.
      rewrite app_assoc in E.
      apply (unique_split not_brace "}") in E as [_ E].
      * exists (b ++ pass rest). now rewrite <- E, app_assoc.
      * rewrite forallb_app. now rewrite Hbd.
      * simpl. now rewrite Hx, Hb.
      * reflexivity.
Qed.

(** A name and its colon in the output were there in the input. *)
Lemma pull_name (name : text) :
  forall (s o : text),
    forallb is_word name = true -> pass s = name ++ ":" :: o ->
    exists s', s = name ++ ":" :: s'.
Proof.
  induction name as [|x name IH]; intros s o Hn E.
  - destruct (pull_char s ":" o E eq_refl) as (s' & -> & _). now exists s'.
  - destruct s as [|c s']; [now rewrite pass_nil in E|].
    simpl in Hn. apply andb_true_iff in Hn as [Hx Hn].
    destruct (pass_cases c s') as [[_ H]|(bd & s1 & b & rest & Hu & _ & H)];
      rewrite H in E.
    + injection E as -> E. destruct (IH s' o Hn E) as (s2 & ->).
      now exists s2.
    + apply update_block_spec in Hu as (Hs & _ & _). rewrite Hs.
      change (opener ++ bd ++ t "}" ++ marker ++ b ++ pass rest)
        with (t "Update" ++ ":" :: t " {" ++ bd ++ t "}" ++ marker ++ b ++ pass rest)
        in E.
      apply (unique_split (fun c => negb (ceqb ":" c)) ":") in E as [<- _].
      * now exists (t " {" ++ bd ++ t "}" ++ s1).
      * reflexivity.
      * apply (word_chars_free_of_colon (x :: name)).
        cbn [forallb]. now rewrite Hx, Hn.
      * reflexivity.
Qed.

Lemma pull_closer (s ws o : text) :
  closer (pass s) = Some (ws, o) ->
  exists s', closer s = Some (ws, s') /\ pass s' = o.
Proof.
  intros H. apply closer_spec in H as [E Hws].
  destruct (pull_plain (nl :: ws ++ t "}") s o) as (s' & -> & E').
  - now rewrite free_of_cons, free_of_app, (spaces_free_of_U ws Hws).
  - rewrite E. norm_app. reflexivity.
  - exists s'. split; [|assumption]. apply closer_spec. split; [|assumption].
    norm_app. reflexivity.
Qed.

Lemma pull_next_name (s ws name o : text) :
  next_name (pass s) = Some (ws, name, o) ->
  exists s', next_name s = Some (ws, name, s').
Proof.
  intros H. apply next_name_spec in H as (E & Hws & Hne & Hn).
  destruct (pull_plain (nl :: ws) s (name ++ ":" :: o)) as (s1 & -> & E1).
  - now rewrite free_of_cons, (spaces_free_of_U ws Hws).
  - rewrite E. norm_app. reflexivity.
  - destruct (pull_name name s1 o Hn E1) as (s' & ->).
    exists s'. apply next_name_spec.
    split; [norm_app; reflexivity | repeat split; assumption].
Qed.

Lemma pull_next_section (s ws name o : text) :
  next_section (pass s) = Some (ws, name, o) ->
  exists s', next_section s = Some (ws, name, s') /\ pass s' = o.
Proof.
  intros H. apply next_section_spec in H as (E & Hws & Hn).
  destruct (pull_plain (nl :: ws ++ name) s o) as (s' & -> & E').
  - rewrite free_of_cons, free_of_app, (spaces_free_of_U ws Hws).
    now destruct Hn as [-> | ->].
  - rewrite E. norm_app. reflexivity.
  - exists s'. split; [|assumption]. apply next_section_spec.
    split; [norm_app; reflexivity | split; assumption].
Qed.

(** An Update block at a copied character of the output: it was in the
    input, or a marker follows it. *)
Lemma pull_block (c : ascii) (s' body o1 : text) :
  update_block (c :: pass s') = Some (body, o1) ->
  (exists s1, update_block (c :: s') = Some (body, s1) /\ pass s1 = o1)
  \/ (exists x, o1 = marker ++ x).
Proof.
  intros H. apply update_block_spec in H as (E & Hne & Hb).
  change (opener ++ body ++ t "}" ++ o1)
    with ("U" :: t "pdate: {" ++ body ++ "}" :: o1) in E.
  injection E as -> E.
  destruct (pull_plain (t "pdate: {") s' (body ++ "}" :: o1) eq_refl E)
    as (s2 & -> & E2).
  destruct (pull_body body s2 o1 Hb E2) as [(s3 & -> & E3)|R]; [|now right].
  left. exists s3. split; [|assumption]. apply update_block_spec.
  split; [reflexivity | split; assumption].
Qed.

Lemma pull_next_table (s : text) :
  next_table_boundary (pass s) <> None -> next_table_boundary s <> None.
Proof.
  unfold next_table_boundary.
  destruct (closer (pass s)) as [[ws1 o1]|] eqn:E1; [|congruence].
  destruct (pull_closer s ws1 o1 E1) as (s1 & -> & <-).
  destruct (next_name (pass s1)) as [[[ws2 name] o2]|] eqn:E2; [|congruence].
  destruct (pull_next_name s1 ws2 name o2 E2) as (s2 & ->). discriminate.
Qed.

Lemma pull_end_of_tables (s : text) :
  end_of_tables_boundary (pass s) <> None -> end_of_tables_boundary s <> None.
Proof.
  unfold end_of_tables_boundary.
  destruct (closer (pass s)) as [[ws1 o1]|] eqn:E1; [|congruence].
  destruct (pull_closer s ws1 o1 E1) as (s1 & -> & <-).
  destruct (closer (pass s1)) as [[ws2 o2]|] eqn:E2; [|congruence].
  destruct (pull_closer s1 ws2 o2 E2) as (s2 & -> & <-).
  destruct (next_section (pass s2)) as [[[ws3 name] o3]|] eqn:E3; [|congruence].
  destruct (pull_next_section s2 ws3 name o3 E3) as (s3 & -> & _).
  discriminate.
Qed.

Section Other.
Variable other : text -> option (text * text).
Hypothesis other_closer : forall s, other s <> None -> closer s <> None.
Hypothesis other_pull : forall s, other (pass s) <> None -> other s <> None.

(** A block with its boundary that starts at a copied character of the
    output starts at that character of the input. *)
Lemma boundary_here_pull (c : ascii) (s' : text) :
  boundary_here other (c :: pass s') = true ->
  boundary_here other (c :: s') = true.
Proof.
  unfold boundary_here.
  destruct (update_block (c :: pass s')) as [[body o1]|] eqn:E; [|discriminate].
  destruct (other o1) as [r|] eqn:Eo; [|discriminate]. intros _.
  destruct (pull_block c s' body o1 E) as [(s1 & -> & <-)|(x & ->)].
  - destruct (other s1) eqn:E1; [reflexivity|].
    elim (other_pull s1); congruence.
  - elim (other_closer (marker ++ x)); [congruence | apply closer_marker].
Qed.

Hypothesis boundary_free :
  forall s b rest, boundary s = Some (b, rest) -> free_of "U" b = true.

Lemma update_block_head (c : ascii) (s : text) :
  ceqb "U" c = false -> update_block (c :: s) = None.
Proof.
  intros H. unfold update_block, opener.
  change (t "Update: {") with ("U" :: t "pdate: {").
  now rewrite strip_prefix_neq.
Qed.

Lemma free_of_mid (c y : ascii) (a b : text) :
  free_of c (a ++ y :: b) = true -> ceqb c y = false.
Proof.
  rewrite free_of_app, free_of_cons. intros H.
  apply andb_true_iff in H as [_ H]. apply andb_true_iff in H as [H _].
  now apply negb_true_iff.
Qed.

(** After a pass whose boundaries have no [U], a block with a boundary of
    the other kind starts nowhere in the output, provided that in the
    input it only started where the pass put its marker. *)
Lemma no_boundary_left (n : nat) :
  forall s : text,
    length s <= n ->
    (forall a b, s = a ++ b -> boundary_here other b = true ->
                 boundary_here boundary b = true) ->
    forall a' b', pass s = a' ++ b' -> boundary_here other b' = false.
Proof.
  induction n as [|n IH]; intros s Hn Hyp a' b' E.
  - destruct s; [|simpl in Hn; lia]. rewrite pass_nil in E.
    symmetry in E. apply app_eq_nil in E as [_ ->]. reflexivity.
  - destruct s as [|c s'].
    { rewrite pass_nil in E. symmetry in E.
      apply app_eq_nil in E as [_ ->]. reflexivity. }
    destruct (pass_cases c s')
      as [[Hown H]|(body & s1 & b & rest & Hu & Hb & H)]; rewrite H in E.
    + destruct a' as [|x a'].
      * simpl in E. subst b'.
        destruct (boundary_here other (c :: pass s')) eqn:B; [|reflexivity].
        apply boundary_here_pull in B. apply (Hyp [] (c :: s') eq_refl) in B.
        congruence.
      * injection E as _ E. apply (IH s') with (a' := a');
          [simpl in Hn; lia | | exact E].
        intros a b0 ->. apply (Hyp (c :: a)). reflexivity.
    + pose proof (boundary_split _ _ _ Hb) as Es1.
      apply update_block_spec in Hu as (Es & Hne & Hbody).
      assert (Hlen : length rest <= n).
      { apply (f_equal (@length ascii)) in Es. subst s1.
        rewrite !length_app in Es. simpl in Es, Hn. lia. }
      assert (Hrest : forall a b0, rest = a ++ b0 ->
                boundary_here other b0 = true ->
                boundary_here boundary b0 = true).
      { intros a b0 ->. apply (Hyp (opener ++ body ++ t "}" ++ b ++ a)).
        rewrite Es, Es1. norm_app. reflexivity. }
      destruct (boundary_here other b') eqn:B; [exfalso|reflexivity].
      unfold boundary_here in B.
      destruct (update_block b') as [[body' o1]|] eqn:Eu'; [|discriminate].
      assert (Hc : closer o1 <> None).
      { apply other_closer. destruct (other o1); congruence. }
      change (opener ++ body ++ t "}" ++ marker ++ b ++ pass rest)
        with (opener ++ body ++ "}" :: marker ++ b ++ pass rest) in E.
      rewrite app_assoc in E.
      apply app_eq_app in E as [l [[E1 E2]|[E1 E2]]].
      * pose proof Eu' as Eu''.
        apply update_block_spec in Eu'' as (Eb' & _ & Hbody').
        rewrite Eb' in E2.
        change (opener ++ body' ++ t "}" ++ o1)
          with (opener ++ body' ++ "}" :: o1) in E2.
        rewrite app_assoc in E2.
        apply (unique_split not_brace "}") in E2 as [_ E2]; try reflexivity.
        -- apply Hc. rewrite E2. apply closer_marker.
        -- rewrite forallb_app. now rewrite Hbody'.
        -- assert (Hall : forallb not_brace (opener ++ body) = true)
             by (rewrite forallb_app; now rewrite Hbody).
           rewrite E1, forallb_app in Hall.
           now apply andb_true_iff in Hall as [_ Hall].
      * destruct l as [|x l].
        { simpl in E2. subst b'. discriminate Eu'. }
        change ((x :: l) ++ b') with (x :: l ++ b') in E2.
        apply cons_eq_inv in E2 as [_ E2]. rewrite app_assoc in E2.
        apply app_eq_app in E2 as [l2 [[E3 E4]|[E3 E4]]].
        -- destruct l2 as [|y l2].
           ++ simpl in E4. subst b'.
              pose proof (IH rest Hlen Hrest [] (pass rest) eq_refl) as N.
              unfold boundary_here in N. rewrite Eu' in N.
              destruct (other o1); congruence.
           ++ subst b'.
              change ((y :: l2) ++ pass rest) with (y :: l2 ++ pass rest) in Eu'.
              rewrite update_block_head in Eu'; [discriminate|].
              apply (free_of_mid "U" y l l2). rewrite <- E3, free_of_app.
              now rewrite (boundary_free _ _ _ Hb).
        -- pose proof (IH rest Hlen Hrest l2 b' E4) as N.
           unfold boundary_here in N. rewrite Eu' in N.
           destruct (other o1); congruence.
Qed.
End Other.

(** A pass never shortens the text, and lengthens it when a block with
    its boundary starts somewhere. *)
Lemma pass_grows (n : nat) :
  forall s : text,
    length s <= n ->
    length s <= length (pass s)
    /\ ((exists a b, s = a ++ b /\ boundary_here boundary b = true) ->
        length s < length (pass s)).
Proof.
  induction n as [|n IH]; intros s Hn.
  - destruct s; [|simpl in Hn; lia]. rewrite pass_nil. split; [lia|].
    intros (a & b & E & B). symmetry in E. apply app_eq_nil in E as [_ ->].
    discriminate B.
  - destruct s as [|c s'].
    { rewrite pass_nil. split; [lia|].
      intros (a & b & E & B). symmetry in E. apply app_eq_nil in E as [_ ->].
      discriminate B. }
    destruct (pass_cases c s')
      as [[Hown H]|(body & s1 & b & rest & Hu & Hb & H)]; rewrite H.
    + destruct (IH s') as [L1 L2]; [simpl in Hn; lia|]. simpl. split; [lia|].
      intros (a & b & E & B). destruct a as [|x a].
      * simpl in E. subst b. congruence.
      * injection E as _ E. assert (length s' < length (pass s')); [|lia].
        apply L2. eauto.
    + pose proof (boundary_split _ _ _ Hb) as Es1.
      apply update_block_spec in Hu as (Es & _ & _). subst s1.
      destruct (IH rest) as [L1 _].
      { apply (f_equal (@length ascii)) in Es.
        rewrite !length_app in Es. simpl in Es, Hn. lia. }
      rewrite Es. repeat rewrite length_app. simpl.
      repeat rewrite length_app. split; [lia|]. intros _. lia.
Qed.

(** The pass only puts markers after closing braces. *)
Lemma pass_inserted (n : nat) :
  forall s : text, length s <= n -> inserted s (pass s).
Proof.
  induction n as [|n IH]; intros s Hn.
  - destruct s; [|simpl in Hn; lia]. rewrite pass_nil. constructor.
  - destruct s as [|c s']; [rewrite pass_nil; constructor|].
    destruct (pass_cases c s')
      as [[_ H]|(body & s1 & b & rest & Hu & Hb & H)]; rewrite H.
    + constructor. apply IH. simpl in Hn. lia.
    + pose proof (boundary_split _ _ _ Hb) as Es1.
      apply update_block_spec in Hu as (Es & _ & _). subst s1. rewrite Es.
      rewrite !(app_assoc opener body).
      apply inserted_app; [apply inserted_refl|].
      apply inserted_one. apply inserted_app; [apply inserted_refl|].
      apply IH. apply (f_equal (@length ascii)) in Es.
      rewrite !length_app in Es. simpl in Es, Hn. lia.
Qed.

Lemma split_last (a b w : text) (z : ascii) :
  a ++ b = w ++ [z] -> b <> [] -> exists x, b = x ++ [z] /\ a ++ x = w.
Proof.
  intros E Hb. destruct (exists_last Hb) as (x & y & ->).
  rewrite app_assoc in E. apply app_inj_tail in E as [E ->]. eauto.
Qed.

(** Inside an Update block that no boundary follows, the pass copies. *)
Lemma pass_inside_block (body post : text) :
  forallb not_brace body = true ->
  boundary post = None ->
  forall blk2 blk1 : text,
    blk1 ++ blk2 = (opener ++ body) ++ t "}" ->
    pass (blk2 ++ post) = blk2 ++ pass post.
Proof.
  intros Hbody Hpost. induction blk2 as [|c blk2 IH]; intros blk1 E;
    [reflexivity|].
  cbn [app].
  destruct (pass_cases c (blk2 ++ post))
    as [[_ H]|(body2 & s1 & b & rest & Hu & Hb & H)].
  - rewrite H. f_equal. apply (IH (blk1 ++ [c])).
    now rewrite <- app_assoc.
  - exfalso. apply update_block_spec in Hu as (Es & _ & Hbody2).
    destruct (split_last blk1 (c :: blk2) (opener ++ body) "}" E)
      as (x & Ex & Ew); [discriminate|].
    assert (Es' : x ++ "}" :: post = (opener ++ body2) ++ "}" :: s1).
    { transitivity ((c :: blk2) ++ post).
      - rewrite Ex, <- app_assoc. reflexivity.
      - rewrite <- app_assoc. exact Es. }
    apply (unique_split not_brace "}") in Es' as [_ Es']; try reflexivity.
    + congruence.
    + assert (Hall : forallb not_brace (opener ++ body) = true)
        by (rewrite forallb_app; now rewrite Hbody).
      rewrite <- Ew, forallb_app in Hall.
      now apply andb_true_iff in Hall as [_ Hall].
    + rewrite forallb_app. now rewrite Hbody2.
Qed.

Hypothesis boundary_no_open :
  forall s b rest, boundary s = Some (b, rest) -> free_of "{" b = true.

(** Around an Update block that no boundary follows: the block is copied,
    what precedes it only receives markers, and the pass goes on with what
    follows it. *)
Lemma pass_around_block (body post : text) :
  forallb not_brace body = true ->
  boundary post = None ->
  forall (n : nat) (pre : text),
    length pre <= n ->
    exists pre',
      pass (pre ++ ((opener ++ body) ++ t "}") ++ post)
      = pre' ++ ((opener ++ body) ++ t "}") ++ pass post
      /\ inserted pre pre'.
Proof.
  intros Hbody Hpost.
  assert (Hin : forall blk2 blk1, blk1 ++ blk2 = (opener ++ body) ++ t "}" ->
            pass (blk2 ++ post) = blk2 ++ pass post)
    by (apply pass_inside_block; assumption).
  assert (Hall : forallb not_brace (opener ++ body) = true)
    by (rewrite forallb_app; now rewrite Hbody).
  induction n as [|n IH]; intros pre Hn.
  - destruct pre; [|simpl in Hn; lia]. exists []. split; [|constructor].
    apply (Hin _ []). reflexivity.
  - destruct pre as [|c pre1].
    { exists []. split; [|constructor]. apply (Hin _ []). reflexivity. }
    cbn [app].
    destruct (pass_cases c (pre1 ++ ((opener ++ body) ++ t "}") ++ post))
      as [[_ H]|(body0 & s1 & b & rest & Hu & Hb & H)]; rewrite H.
    + destruct (IH pre1) as (pre' & -> & Hp); [simpl in Hn; lia|].
      exists (c :: pre'). split; [reflexivity | now constructor].
    + pose proof (boundary_split _ _ _ Hb) as Es1.
      pose proof (boundary_no_open _ _ _ Hb) as Hopen.
      apply update_block_spec in Hu as (Es & _ & Hbody0). subst s1.
      assert (E : (opener ++ body0) ++ "}" :: b ++ rest
                  = (c :: pre1) ++ (opener ++ body) ++ "}" :: post).
      { rewrite <- (app_assoc opener body0). symmetry.
        rewrite <- (app_assoc (opener ++ body) (t "}") post) in Es.
        exact Es. }
      apply app_eq_app in E as [l [[E1 E2]|[E1 E2]]].
      * exfalso. apply (unique_split not_brace "}") in E2 as [_ E2];
          try reflexivity; [congruence | assumption |].
        assert (Hall0 : forallb not_brace (opener ++ body0) = true)
          by (rewrite forallb_app; now rewrite Hbody0).
        rewrite E1, forallb_app in Hall0.
        now apply andb_true_iff in Hall0 as [_ Hall0].
      * destruct l as [|x l]; [discriminate E2|].
        change ((x :: l) ++ (opener ++ body) ++ "}" :: post)
          with (x :: l ++ (opener ++ body) ++ "}" :: post) in E2.
        apply cons_eq_inv in E2 as [<- E2].
        apply app_eq_app in E2 as [l2 [[E3 E4]|[E3 E4]]].
        -- assert (E4' : ((opener ++ body) ++ t "}") ++ post = l2 ++ rest)
             by (rewrite <- app_assoc; exact E4).
           apply app_eq_app in E4' as [l3 [[E5 E6]|[E5 E6]]].
           ++ exists ((opener ++ body0) ++ t "}" ++ marker ++ l). split.
              ** rewrite E6, (Hin l3 l2) by (symmetry; exact E5).
                 rewrite E3, E5. norm_app. reflexivity.
              ** rewrite E1. apply inserted_app; [apply inserted_refl|].
                 apply inserted_one, inserted_refl.
           ++ exfalso. rewrite E3, E5, !free_of_app in Hopen.
              apply andb_true_iff in Hopen as [_ Hopen].
              apply andb_true_iff in Hopen as [Hopen _].
              apply andb_true_iff in Hopen as [Hopen _].
              apply andb_true_iff in Hopen as [Hopen _].
              discriminate Hopen.
        -- destruct (IH l2) as (l2' & El2 & Hl2).
           { apply (f_equal (@length ascii)) in E1. rewrite E3 in E1.
             simpl in E1, Hn. rewrite !length_app in E1. simpl in E1.
             rewrite !length_app in E1. lia. }
           exists ((opener ++ body0) ++ t "}" ++ marker ++ b ++ l2'). split.
           ++ rewrite E4.
              replace ((opener ++ body) ++ "}" :: post)
                with (((opener ++ body) ++ t "}") ++ post)
                by (rewrite <- app_assoc; reflexivity).
              rewrite El2. norm_app. reflexivity.
           ++ rewrite E1, E3. apply inserted_app; [apply inserted_refl|].
              apply inserted_one. apply inserted_app; [apply inserted_refl|].
              exact Hl2.
Qed.

Lemma fixed_point_no_boundary (s : text) :
  pass s = s -> forall a b, s = a ++ b -> boundary_here boundary b = false.
Proof.
  intros F a b E. destruct (boundary_here boundary b) eqn:B; [|reflexivity].
  destruct (pass_grows (length s) s (le_n _)) as [_ L].
  rewrite F in L. assert (length s < length s); [|lia]. apply L. eauto.
Qed.

Lemma no_boundary_fixed_point (n : nat) :
  forall s : text,
    length s <= n ->
    (forall a b, s = a ++ b -> boundary_here boundary b = false) ->
    pass s = s.
Proof.
  induction n as [|n IH]; intros s Hn H.
  - destruct s; [apply pass_nil | simpl in Hn; lia].
  - destruct s as [|c s']; [apply pass_nil|].
    destruct (pass_cases c s')
      as [[Hown E]|(body & s1 & b & rest & Hu & Hb & E)].
    + rewrite E. f_equal. apply IH; [simpl in Hn; lia|].
      intros a b0 ->. apply (H (c :: a)). reflexivity.
    + pose proof (H [] (c :: s') eq_refl) as N. unfold boundary_here in N.
      rewrite Hu, Hb in N. discriminate N.
Qed.

End Pass.

(** ** The two passes as instances *)

Lemma next_table_boundary_spec (s b rest : text) :
  next_table_boundary s = Some (b, rest) ->
  exists ws1 ws2 name,
    b = nl :: ws1 ++ t "}" ++ nl :: ws2 ++ name ++ t ":"
    /\ s = b ++ rest
    /\ forallb is_space ws1 = true /\ forallb is_space ws2 = true
    /\ name <> [] /\ forallb is_word name = true.
Proof.
  unfold next_table_boundary.
  destruct (closer s) as [[ws1 s1]|] eqn:E1; [|discriminate].
  destruct (next_name s1) as [[[ws2 name] r]|] eqn:E2; [|discriminate].
  intros H. injection H as <- <-.
  apply closer_spec in E1 as [-> H1].
  apply next_name_spec in E2 as (-> & H2 & Hne & Hn).
  exists ws1, ws2, name. split; [reflexivity|].
  split; [norm_app; reflexivity | auto].
Qed.

Lemma end_of_tables_boundary_spec (s b rest : text) :
  end_of_tables_boundary s = Some (b, rest) ->
  exists ws1 ws2 ws3 name,
    b = nl :: ws1 ++ t "}" ++ nl :: ws2 ++ t "}" ++ nl :: ws3 ++ name
    /\ s = b ++ rest
    /\ forallb is_space ws1 = true /\ forallb is_space ws2 = true
    /\ forallb is_space ws3 = true
    /\ (name = t "Functions:" \/ name = t "Views:").
Proof.
  unfold end_of_tables_boundary.
  destruct (closer s) as [[ws1 s1]|] eqn:E1; [|discriminate].
  destruct (closer s1) as [[ws2 s2]|] eqn:E2; [|discriminate].
  destruct (next_section s2) as [[[ws3 name] r]|] eqn:E3; [|discriminate].
  intros H. injection H as <- <-.
  apply closer_spec in E1 as [-> H1]. apply closer_spec in E2 as [-> H2].
  apply next_section_spec in E3 as (-> & H3 & Hn).
  exists ws1, ws2, ws3, name. split; [reflexivity|].
  split; [norm_app; reflexivity | auto].
Qed.

Lemma next_table_split (s b rest : text) :
  next_table_boundary s = Some (b, rest) -> s = b ++ rest.
Proof.
  intros H. now destruct (next_table_boundary_spec _ _ _ H)
    as (? & ? & ? & _ & E & _).
Qed.

Lemma end_of_tables_split (s b rest : text) :
  end_of_tables_boundary s = Some (b, rest) -> s = b ++ rest.
Proof.
  intros H. now destruct (end_of_tables_boundary_spec _ _ _ H)
    as (? & ? & ? & ? & _ & E & _).
Qed.

Lemma end_of_tables_free (s b rest : text) :
  end_of_tables_boundary s = Some (b, rest) -> free_of "U" b = true.
Proof.
  intros H. destruct (end_of_tables_boundary_spec _ _ _ H)
    as (ws1 & ws2 & ws3 & name & -> & _ & H1 & H2 & H3 & Hn).
  rewrite !free_of_cons, !free_of_app, !free_of_cons, !free_of_app,
    !free_of_cons, !free_of_app.
  rewrite (spaces_free_of_U _ H1), (spaces_free_of_U _ H2),
    (spaces_free_of_U _ H3).
  now destruct Hn as [-> | ->].
Qed.

Lemma next_table_closer (s : text) :
  next_table_boundary s <> None -> closer s <> None.
Proof. unfold next_table_boundary. destruct (closer s); congruence. Qed.

Lemma end_of_tables_closer (s : text) :
  end_of_tables_boundary s <> None -> closer s <> None.
Proof. unfold end_of_tables_boundary. destruct (closer s); congruence. Qed.

Lemma no_match_rel (s : text) :
  match_at relationships_pattern s = None
  <-> boundary_here next_table_boundary s = false.
Proof.
  rewrite relationships_match.
  destruct (boundary_here next_table_boundary s) eqn:B.
  - apply boundary_here_rel in B. intuition congruence.
  - split; [reflexivity|]. intros _.
    destruct (relationships_parse s) eqn:P; [|reflexivity].
    assert (boundary_here next_table_boundary s = true)
      by (apply boundary_here_rel; congruence).
    congruence.
Qed.

Lemma no_match_last (s : text) :
  match_at last_table_pattern s = None
  <-> boundary_here end_of_tables_boundary s = false.
Proof.
  rewrite last_table_match.
  destruct (boundary_here end_of_tables_boundary s) eqn:B.
  - apply boundary_here_last in B. intuition congruence.
  - split; [reflexivity|]. intros _.
    destruct (last_table_parse s) eqn:P; [|reflexivity].
    assert (boundary_here end_of_tables_boundary s = true)
      by (apply boundary_here_last; congruence).
    congruence.
Qed.

(** ** The loop stops *)

Lemma double_close_cons (c : ascii) (x : text) :
  double_close (c :: x)
  = ceqb "}" c && match closer x with Some _ => true | None => false end.
Proof.
  unfold double_close. change (t "}") with ["}"]. rewrite strip_prefix_one.
  now destruct (ceqb "}" c).
Qed.

Lemma count_nobrace (a b : text) :
  forallb not_brace a = true ->
  count_double_close (a ++ b) = count_double_close b.
Proof.
  induction a as [|x a IH]; [reflexivity|]. cbn [forallb]. intros H.
  apply andb_true_iff in H as [Hx H]. cbn [app count_double_close].
  rewrite double_close_cons, (proj1 (not_brace_true x) Hx), (IH H).
  reflexivity.
Qed.

Lemma closer_name (ws name z : text) :
  forallb is_space ws = true -> name <> [] -> forallb is_word name = true ->
  closer (nl :: ws ++ name ++ z) = None.
Proof.
  intros Hws Hne Hn. unfold closer. rewrite strip_prefix_one, ceqb_refl.
  destruct name as [|x n]; [congruence|]. cbn [forallb] in Hn.
  apply andb_true_iff in Hn as [Hx _].
  destruct (take_while_app is_space ws ((x :: n) ++ z) Hws
              (word_not_space x Hx)) as [_ ->].
  change (t "}") with ["}"]. cbn [app].
  now rewrite strip_prefix_neq by now apply word_not_brace.
Qed.

(** A next-table boundary holds no double close. *)
Lemma count_next_table (ws1 ws2 name z : text) :
  forallb is_space ws1 = true -> forallb is_space ws2 = true ->
  name <> [] -> forallb is_word name = true ->
  count_double_close
    ((nl :: ws1 ++ t "}" ++ nl :: ws2 ++ name ++ t ":") ++ z)
  = count_double_close z.
Proof.
  intros H1 H2 Hne Hn.
  replace ((nl :: ws1 ++ t "}" ++ nl :: ws2 ++ name ++ t ":") ++ z)
    with ((nl :: ws1) ++ "}" :: (nl :: ws2 ++ name ++ t ":") ++ z)
    by (norm_app; reflexivity).
  rewrite count_nobrace
    by (cbn [forallb]; now rewrite (spaces_not_brace _ H1)).
  cbn [count_double_close]. rewrite double_close_cons, ceqb_refl.
  replace ((nl :: ws2 ++ name ++ t ":") ++ z)
    with (nl :: ws2 ++ name ++ (t ":" ++ z)) at 1 by (norm_app; reflexivity).
  rewrite (closer_name ws2 name _ H2 Hne Hn). cbn [andb Nat.add].
  apply count_nobrace. cbn [forallb]. rewrite !forallb_app.
  now rewrite (spaces_not_brace _ H2), (word_chars_not_brace _ Hn).
Qed.

Lemma double_close_pull (c : ascii) (s' : text) :
  double_close (c :: relationships_pass s') = true ->
  double_close (c :: s') = true.
Proof.
  rewrite !double_close_cons. destruct (ceqb "}" c); [|discriminate].
  cbn [andb].
  destruct (closer (relationships_pass s')) as [[ws o]|] eqn:E; [|discriminate].
  destruct (pull_closer next_table_boundary relationships_pass
              relationships_pass_eq s' ws o E) as (s1 & -> & _).
  reflexivity.
Qed.

(** One turn of the loop never adds a double close, and removes one when
    it changes the text. *)
Lemma relationships_pass_count (n : nat) :
  forall s : text,
    length s <= n ->
    count_double_close (relationships_pass s) <= count_double_close s
    /\ (relationships_pass s <> s ->
        count_double_close (relationships_pass s) < count_double_close s).
Proof.
  induction n as [|n IH]; intros s Hn.
  - destruct s; [|simpl in Hn; lia]. rewrite relationships_pass_eq.
    split; [lia | congruence].
  - destruct s as [|c s'].
    { rewrite relationships_pass_eq. split; [lia | congruence]. }
    destruct (pass_cases next_table_boundary relationships_pass
                relationships_pass_eq c s')
      as [[_ H]|(body & s1 & b & rest & Hu & Hb & H)]; rewrite H.
    + destruct (IH s') as [L1 L2]; [simpl in Hn; lia|].
      cbn [count_double_close].
      assert (D : (if double_close (c :: relationships_pass s') then 1 else 0)
                  <= (if double_close (c :: s') then 1 else 0)).
      { destruct (double_close (c :: relationships_pass s')) eqn:D1; [|lia].
        now rewrite (double_close_pull c s' D1). }
      split; [lia|]. intros N.
      assert (relationships_pass s' <> s') by congruence.
      specialize (L2 H0). lia.
    + destruct (next_table_boundary_spec _ _ _ Hb)
        as (ws1 & ws2 & name & Eb & Es1 & H1 & H2 & Hne & Hn').
      apply update_block_spec in Hu as (Es & _ & Hbody).
      destruct (IH rest) as [L1 _].
      { apply (f_equal (@length ascii)) in Es. subst s1.
        rewrite !length_app in Es. simpl in Es, Hn. lia. }
      assert (Hnew : count_double_close
                (opener ++ body ++ t "}" ++ marker ++ b ++ relationships_pass rest)
              = count_double_close (relationships_pass rest)).
      { rewrite app_assoc, count_nobrace
          by (rewrite forallb_app; now rewrite Hbody).
        change (t "}" ++ marker ++ b ++ relationships_pass rest)
          with ("}" :: marker ++ b ++ relationships_pass rest).
        cbn [count_double_close].
        rewrite double_close_cons, closer_marker, andb_false_r.
        cbn [Nat.add]. rewrite count_nobrace by reflexivity.
        rewrite Eb. now apply count_next_table. }
      assert (Hold : count_double_close (c :: s')
                     = S (count_double_close rest)).
      { rewrite Es, app_assoc, count_nobrace
          by (rewrite forallb_app; now rewrite Hbody).
        change (t "}" ++ s1) with ("}" :: s1). cbn [count_double_close].
        rewrite double_close_cons, ceqb_refl.
        assert (Hc : closer s1 <> None)
          by (apply next_table_closer; congruence).
        destruct (closer s1); [|congruence]. cbn [andb Nat.add].
        rewrite Es1, Eb. f_equal. now apply count_next_table. }
      rewrite Hnew, Hold. split; [lia|]. intros _. lia.
Qed.

Lemma relationships_loop_fixed (fuel : nat) :
  forall prev content result : text,
    prev = [] \/ content = relationships_pass prev ->
    relationships_loop fuel prev content = Some result ->
    relationships_pass result = result.
Proof.
  induction fuel as [|fuel IH]; intros prev content result Inv H;
    [discriminate|].
  cbn [relationships_loop] in H. destruct (eqb prev content) eqn:E.
  - injection H as <-. apply eqb_eq in E. subst content.
    destruct Inv as [-> | Inv]; [now rewrite relationships_pass_eq | congruence].
  - apply (IH content (relationships_pass content)); auto.
Qed.

Lemma relationships_loop_more (fuel : nat) :
  forall prev content result : text,
    relationships_loop fuel prev content = Some result ->
    relationships_loop (S fuel) prev content = Some result.
Proof.
  induction fuel as [|fuel IH]; intros prev content result H; [discriminate|].
  cbn [relationships_loop] in H |- *. destruct (eqb prev content); [exact H|].
  now apply IH.
Qed.

Lemma relationships_loop_mono (fuel fuel' : nat) (prev content result : text) :
  fuel <= fuel' ->
  relationships_loop fuel prev content = Some result ->
  relationships_loop fuel' prev content = Some result.
Proof.
  induction 1 as [|fuel' _ IH]; [trivial|]. intros H.
  apply relationships_loop_more. auto.
Qed.

Lemma relationships_loop_bound (m : nat) :
  forall prev content : text,
    count_double_close content <= m ->
    exists result,
      relationships_loop (m + 2) prev content = Some result.
Proof.
  induction m as [|m IH]; intros prev content Hm.
  - cbn [Nat.add relationships_loop]. destruct (eqb prev content); [eauto|].
    destruct (eqb content (relationships_pass content)) eqn:E; [eauto|].
    apply eqb_neq in E.
    destruct (relationships_pass_count (length content) content (le_n _))
      as [_ L].
    assert (relationships_pass content <> content) by congruence.
    specialize (L H). lia.
  - change (S m + 2) with (S (m + 2)). cbn [relationships_loop].
    destruct (eqb prev content); [eauto|].
    destruct (eqb content (relationships_pass content)) eqn:E.
    + apply eqb_eq in E. rewrite <- E. exists content.
      replace (m + 2) with (S (m + 1)) by lia. cbn [relationships_loop].
      now rewrite eqb_refl.
    + apply eqb_neq in E. apply IH.
      destruct (relationships_pass_count (length content) content (le_n _))
        as [_ L].
      assert (relationships_pass content <> content) by congruence.
      specialize (L H). lia.
Qed.

(** Enough fuel: the loop returns, the same text for any larger fuel, and
    that text is a fixed point of the pass. *)
Lemma relationships_loop_result (content : text) :
  exists result : text,
    relationships_loop (count_double_close content + 2) [] content
    = Some result
    /\ (forall fuel, count_double_close content + 2 <= fuel ->
          relationships_loop fuel [] content = Some result)
    /\ relationships_pass result = result.
Proof.
  destruct (relationships_loop_bound (count_double_close content) []
              content (le_n _)) as [result H].
  exists result. split; [exact H|]. split.
  - intros fuel Hf. now apply (relationships_loop_mono _ fuel) in H.
  - apply (relationships_loop_fixed (count_double_close content + 2) []
             content); auto.
Qed.

(** C6.  For every document the loop of the relationships normaliser
    stops: within as many turns as the document has double closes (plus
    the two tests that notice the end) it returns a text on which the
    boundary substitution changes nothing and whose every position fails
    to match [relationships_pattern]; more fuel gives the same text. *)
Theorem relationships_loop_terminates (content : text) :
  exists result : text,
    relationships_loop (count_double_close content + 2) [] content
    = Some result
    /\ (forall fuel, count_double_close content + 2 <= fuel ->
          relationships_loop fuel [] content = Some result)
    /\ relationships_pass result = result
    /\ (forall a b, result = a ++ b ->
          match_at relationships_pattern b = None).
Proof.
  destruct (relationships_loop_result content) as (result & H & Hmore & F).
  exists result. split; [exact H|]. split; [exact Hmore|].
  split; [exact F|].
  intros a b E. apply no_match_rel.
  now apply (fixed_point_no_boundary next_table_boundary relationships_pass
               relationships_pass_eq next_table_split result F a b).
Qed.

End Normalizer.

(** ** A second run *)

Module Rerun.
Import Text Out Re Convert Boundary Spec TextFacts ReFacts Greedy Normalizer.

Lemma normalize_result (fuel : nat) (content result : text) :
  normalize fuel content = Some result ->
  exists looped,
    relationships_loop fuel [] content = Some looped
    /\ relationships_pass looped = looped
    /\ result = last_table_pass looped.
Proof.
  unfold normalize.
  destruct (relationships_loop fuel [] content) as [looped|] eqn:E;
    [|discriminate].
  intros H. injection H as <-. exists looped. split; [reflexivity|].
  split; [|reflexivity].
  apply (relationships_loop_fixed fuel [] content); auto.
Qed.

(** Given fuel for the loop, the normaliser returns a text. *)
Lemma normalize_total (content : text) :
  exists result,
    normalize (count_double_close content + 2) content = Some result
    /\ forall fuel, count_double_close content + 2 <= fuel ->
         normalize fuel content = Some result.
Proof.
  destruct (relationships_loop_result content) as (looped & H & Hmore & _).
  exists (last_table_pass looped). unfold normalize. rewrite H.
  split; [reflexivity|]. intros fuel Hfuel. now rewrite (Hmore fuel Hfuel).
Qed.

Lemma transform_total (content : text) :
  exists fuel0, forall fuel, fuel0 <= fuel ->
    exists content' out, transform fuel content = Some (content', out).
Proof.
  unfold transform. destruct (flatten content) as [flat o].
  destruct (normalize_total flat) as (result & _ & H).
  exists (count_double_close flat + 2). intros fuel Hfuel.
  rewrite (H fuel Hfuel). eauto.
Qed.

(** After the normaliser neither boundary pattern matches anywhere. *)
Lemma normalize_no_match (fuel : nat) (content result : text) :
  normalize fuel content = Some result ->
  forall a b, result = a ++ b ->
    match_at relationships_pattern b = None
    /\ match_at last_table_pattern b = None.
Proof.
  intros H a b E.
  destruct (normalize_result _ _ _ H) as (looped & _ & F & ->).
  split.
  - apply no_match_rel.
    apply (no_boundary_left end_of_tables_boundary last_table_pass
             last_table_pass_eq end_of_tables_split next_table_boundary
             next_table_closer
             (pull_next_table end_of_tables_boundary last_table_pass
                last_table_pass_eq)
             end_of_tables_free (length looped) looped (le_n _))
      with (a' := a); [|exact E].
    intros a0 b0 E0 B.
    rewrite (fixed_point_no_boundary next_table_boundary relationships_pass
               relationships_pass_eq next_table_split looped F a0 b0 E0) in B.
    discriminate B.
  - apply no_match_last.
    apply (no_boundary_left end_of_tables_boundary last_table_pass
             last_table_pass_eq end_of_tables_split end_of_tables_boundary
             end_of_tables_closer
             (pull_end_of_tables end_of_tables_boundary last_table_pass
                last_table_pass_eq)
             end_of_tables_free (length looped) looped (le_n _))
      with (a' := a); [|exact E].
    auto.
Qed.

(** Where neither boundary pattern matches, the normaliser returns its
    input. *)
Lemma normalize_unchanged (fuel : nat) (content : text) :
  2 <= fuel ->
  (forall a b, content = a ++ b ->
     match_at relationships_pattern b = None
     /\ match_at last_table_pattern b = None) ->
  normalize fuel content = Some content.
Proof.
  intros Hf H.
  assert (F1 : relationships_pass content = content).
  { apply (no_boundary_fixed_point next_table_boundary relationships_pass
             relationships_pass_eq (length content) content (le_n _)).
    intros a b E. apply no_match_rel. now apply (H a b). }
  assert (F2 : last_table_pass content = content).
  { apply (no_boundary_fixed_point end_of_tables_boundary last_table_pass
             last_table_pass_eq (length content) content (le_n _)).
    intros a b E. apply no_match_last. now apply (H a b). }
  destruct fuel as [|[|fuel]]; [lia | lia |].
  unfold normalize. cbn [relationships_loop].
  destruct (eqb [] content) eqn:E.
  - now rewrite F2.
  - now rewrite F1, eqb_refl, F2.
Qed.

Lemma flatten_unchanged (content : text) :
  (forall a b, content = a ++ b ->
     match_at insert_pattern b = None /\ match_at update_pattern b = None) ->
  value (flatten content) = content.
Proof.
  intros H. unfold flatten. rewrite !CredsFacts.value_bind.
  rewrite (sub_unchanged insert_pattern _ content)
    by (intros a b E; now apply (H a b)).
  cbn [value ret fst].
  rewrite (sub_unchanged update_pattern _ content)
    by (intros a b E; now apply (H a b)).
  reflexivity.
Qed.

Lemma matches_nowhere_spec (r : regex) (s : text) :
  matches_nowhere r s = true <->
  (forall a b, s = a ++ b -> match_at r b = None).
Proof.
  unfold matches_nowhere. split.
  - intros H a. revert s H. induction a as [|x a IH]; intros s H b E.
    + simpl in E. subst b. destruct s; simpl in H;
        apply andb_true_iff in H as [H _]; now destruct (match_at r _).
    + subst s. simpl in H. apply andb_true_iff in H as [_ H].
      now apply (IH (a ++ b)).
  - induction s as [|x s IH]; intros H.
    + simpl. now rewrite (H [] [] eq_refl).
    + cbn [suffixes forallb]. rewrite (H [] (x :: s) eq_refl). cbn [andb].
      apply IH. intros a b ->. apply (H (x :: a)). reflexivity.
Qed.

(** C4.  Let a run of the transform return [content'], and let no circular
    Insert or Update declaration be left in [content'] (the two patterns
    match at no position of it, see [matches_nowhere_spec]).  Then the
    boundary patterns match nowhere in [content'] either, a second run on
    [content'] returns [content'] itself, and [main] does not write the
    file. *)
Theorem transform_idempotent
    (fuel fuel' : nat) (content content' : text) (out : list text) :
  transform fuel content = Some (content', out) ->
  matches_nowhere insert_pattern content' = true ->
  matches_nowhere update_pattern content' = true ->
  2 <= fuel' ->
  matches_nowhere relationships_pattern content' = true
  /\ matches_nowhere last_table_pattern content' = true
  /\ (exists out', transform fuel' content' = Some (content', out'))
  /\ (forall files, dict_get files path = Some content' ->
        exists out', main fuel' files = Some (Finished files [] out')).
Proof.
  intros Hrun Hins Hupd Hf.
  assert (Hflat : forall a b, content' = a ++ b ->
            match_at insert_pattern b = None /\ match_at update_pattern b = None).
  { intros a b E. split.
    - now apply (proj1 (matches_nowhere_spec insert_pattern content') Hins a b).
    - now apply (proj1 (matches_nowhere_spec update_pattern content') Hupd a b). }
  assert (Hnorm : forall a b, content' = a ++ b ->
            match_at relationships_pattern b = None
            /\ match_at last_table_pattern b = None).
  { unfold transform in Hrun. destruct (flatten content) as [flat o].
    destruct (normalize fuel flat) as [r|] eqn:N; [|discriminate].
    injection Hrun as <- _. now apply (normalize_no_match fuel flat r). }
  assert (Hagain : exists out', transform fuel' content' = Some (content', out')).
  { unfold transform. pose proof (flatten_unchanged content' Hflat) as Fl.
    destruct (flatten content') as [flat o]. cbn [value fst] in Fl. subst flat.
    rewrite (normalize_unchanged fuel' content' Hf Hnorm). eauto. }
  split; [|split; [|split; [exact Hagain|]]].
  - apply matches_nowhere_spec. intros a b E. now apply (Hnorm a b).
  - apply matches_nowhere_spec. intros a b E. now apply (Hnorm a b).
  - intros files Hfile. destruct Hagain as [out' Hagain].
    unfold main. rewrite Hfile, Hagain, eqb_refl. cbn [negb]. eauto.
Qed.

Lemma transform_idempotent_witness :
  exists out', transform 2 sample_flattened = Some (sample_flattened, out').
Proof.
  refine (proj1 (proj2 (proj2
            (transform_idempotent 3 2 sample_document sample_flattened _
               _ _ _ (le_n 2))))).
  - vm_compute. reflexivity.
  - vm_compute. reflexivity.
  - vm_compute. reflexivity.
Defined.

Lemma class_free_of (p : ascii -> bool) (c : ascii) (s : text) :
  p c = false -> forallb p s = true -> free_of c s = true.
Proof.
  intros Hc. induction s as [|x s IH]; [reflexivity|]. cbn [forallb].
  intros H. apply andb_true_iff in H as [Hx H].
  rewrite free_of_cons, (IH H), andb_true_r. apply negb_true_iff.
  apply ceqb_neq. congruence.
Qed.

Lemma next_table_no_open (s b rest : text) :
  next_table_boundary s = Some (b, rest) -> free_of "{" b = true.
Proof.
  intros H. destruct (next_table_boundary_spec _ _ _ H)
    as (ws1 & ws2 & name & -> & _ & H1 & H2 & _ & Hn).
  rewrite !free_of_cons, !free_of_app, !free_of_cons, !free_of_app.
  rewrite (class_free_of is_space "{" ws1 eq_refl H1).
  rewrite (class_free_of is_space "{" ws2 eq_refl H2).
  rewrite (class_free_of is_word "{" name eq_refl Hn).
  reflexivity.
Qed.

Lemma end_of_tables_no_open (s b rest : text) :
  end_of_tables_boundary s = Some (b, rest) -> free_of "{" b = true.
Proof.
  intros H. destruct (end_of_tables_boundary_spec _ _ _ H)
    as (ws1 & ws2 & ws3 & name & -> & _ & H1 & H2 & H3 & Hn).
  rewrite !free_of_cons, !free_of_app, !free_of_cons, !free_of_app,
    !free_of_cons, !free_of_app.
  rewrite (class_free_of is_space "{" ws1 eq_refl H1).
  rewrite (class_free_of is_space "{" ws2 eq_refl H2).
  rewrite (class_free_of is_space "{" ws3 eq_refl H3).
  now destruct Hn as [-> | ->].
Qed.

Lemma not_None {A : Type} (x : option A) : ~ x <> None -> x = None.
Proof. destruct x; [intros H; elim H; discriminate | reflexivity]. Qed.

(** Neither pass makes a boundary appear after a block. *)
Lemma boundaries_stay_absent (boundary : text -> option (text * text))
    (pass : text -> text) (post : text) :
  (forall s,
     pass s
     = match s with
       | [] => []
       | c :: s' =>
           match update_block s with
           | Some (body, s1) =>
               match boundary s1 with
               | Some (b, rest) =>
                   opener ++ body ++ t "}" ++ marker ++ b ++ pass rest
               | None => c :: pass s'
               end
           | None => c :: pass s'
           end
       end) ->
  next_table_boundary post = None ->
  end_of_tables_boundary post = None ->
  next_table_boundary (pass post) = None
  /\ end_of_tables_boundary (pass post) = None.
Proof.
  intros Heq H1 H2. split; apply not_None; intros N.
  - now apply (pull_next_table boundary pass Heq) in N.
  - now apply (pull_end_of_tables boundary pass Heq) in N.
Qed.

(** The loop around an Update block that no boundary follows. *)
Lemma loop_around_block (body : text) :
  forallb not_brace body = true ->
  forall (fuel : nat) (prev pre post result : text),
    next_table_boundary post = None ->
    end_of_tables_boundary post = None ->
    relationships_loop fuel prev (pre ++ ((opener ++ body) ++ t "}") ++ post)
    = Some result ->
    exists pre' post',
      result = pre' ++ ((opener ++ body) ++ t "}") ++ post'
      /\ inserted pre pre' /\ inserted post post'
      /\ next_table_boundary post' = None
      /\ end_of_tables_boundary post' = None.
Proof.
  intros Hbody. induction fuel as [|fuel IH];
    intros prev pre post result H1 H2 H; [discriminate|].
  cbn [relationships_loop] in H.
  destruct (eqb prev (pre ++ ((opener ++ body) ++ t "}") ++ post)).
  - injection H as <-. exists pre, post.
    repeat split; auto using inserted_refl.
  - destruct (pass_around_block next_table_boundary relationships_pass
                relationships_pass_eq next_table_split next_table_no_open
                body post Hbody H1 (length pre) pre (le_n _))
      as (pre1 & E & Hpre).
    fold (relationships_pass (pre ++ ((opener ++ body) ++ t "}") ++ post)) in H.
    rewrite E in H.
    destruct (boundaries_stay_absent next_table_boundary relationships_pass
                post relationships_pass_eq H1 H2) as [H1' H2'].
    destruct (IH _ pre1 (relationships_pass post) result H1' H2' H)
      as (pre' & post' & -> & Hp & Hq & H1'' & H2'').
    exists pre', post'. repeat split; auto.
    + now apply (inserted_trans pre pre1).
    + apply (inserted_trans post (relationships_pass post)); [|assumption].
      apply (pass_inserted next_table_boundary relationships_pass
               relationships_pass_eq next_table_split (length post) post).
      apply le_n.
Qed.

(** C7.  The normaliser always returns a text, given fuel for the loop.
    For every Update block of the document at which neither
    [relationships_pattern] nor [last_table_pattern] matches, the result
    is the block itself, unchanged, between the text before it and the
    text after it, each changed at most by markers put after closing
    braces of its own: no marker is put after the block.  A document in
    which the two patterns match nowhere comes back as it is. *)
Theorem normalize_marks_only_boundaries (content : text) :
  (exists result,
     normalize (count_double_close content + 2) content = Some result
     /\ forall fuel, count_double_close content + 2 <= fuel ->
          normalize fuel content = Some result)
  /\ (forall fuel result pre body post,
        normalize fuel content = Some result ->
        content = pre ++ opener ++ body ++ t "}" ++ post ->
        body <> [] -> forallb not_brace body = true ->
        match_at relationships_pattern (opener ++ body ++ t "}" ++ post) = None ->
        match_at last_table_pattern (opener ++ body ++ t "}" ++ post) = None ->
        exists pre' post',
          result = pre' ++ opener ++ body ++ t "}" ++ post'
          /\ inserted pre pre' /\ inserted post post')
  /\ ((forall a b, content = a ++ b ->
         match_at relationships_pattern b = None
         /\ match_at last_table_pattern b = None) ->
      forall fuel, 2 <= fuel -> normalize fuel content = Some content).
Proof.
  split; [|split].
  - apply normalize_total.
  - intros fuel result pre body post Hrun -> Hne Hbody Mrel Mlast.
    assert (Hu : update_block (opener ++ body ++ t "}" ++ post)
                 = Some (body, post)).
    { apply update_block_spec. auto. }
    assert (H1 : next_table_boundary post = None).
    { apply no_match_rel in Mrel. unfold boundary_here in Mrel.
      rewrite Hu in Mrel. now destruct (next_table_boundary post). }
    assert (H2 : end_of_tables_boundary post = None).
    { apply no_match_last in Mlast. unfold boundary_here in Mlast.
      rewrite Hu in Mlast. now destruct (end_of_tables_boundary post). }
    unfold normalize in Hrun.
    replace (pre ++ opener ++ body ++ t "}" ++ post)
      with (pre ++ ((opener ++ body) ++ t "}") ++ post) in Hrun
      by (norm_app; reflexivity).
    destruct (relationships_loop fuel []
                (pre ++ ((opener ++ body) ++ t "}") ++ post))
      as [looped|] eqn:L; [|discriminate].
    injection Hrun as <-.
    destruct (loop_around_block body Hbody fuel [] pre post looped H1 H2 L)
      as (pre1 & post1 & -> & Hp & Hq & H1' & H2').
    destruct (pass_around_block end_of_tables_boundary last_table_pass
                last_table_pass_eq end_of_tables_split end_of_tables_no_open
                body post1 Hbody H2' (length pre1) pre1 (le_n _))
      as (pre2 & E & Hpre).
    exists pre2, (last_table_pass post1). split; [|split].
    + rewrite E. norm_app. reflexivity.
    + now apply (inserted_trans pre pre1).
    + apply (inserted_trans post post1); [assumption|].
      apply (pass_inserted end_of_tables_boundary last_table_pass
               last_table_pass_eq end_of_tables_split (length post1) post1).
      apply le_n.
  - intros H fuel Hfuel. now apply normalize_unchanged.
Qed.

Lemma normalize_marks_only_boundaries_witness :
  exists pre' post',
    last_table_pass (relationships_pass sample_blocks)
    = pre' ++ opener ++ t "b" ++ t "}" ++ post'
    /\ inserted sample_before pre' /\ inserted sample_after post'.
Proof.
  refine (proj1 (proj2 (normalize_marks_only_boundaries sample_blocks))
            3 _ sample_before (t "b") sample_after _ eq_refl _ eq_refl _ _).
  - vm_compute. reflexivity.
  - discriminate.
  - vm_compute. reflexivity.
  - vm_compute. reflexivity.
Defined.

End Rerun.

(** ** Writing the result *)

Module Writing.
Import Text Out Re Convert Spec TextFacts ReFacts Rerun.

(** C8.  [main] opens the file for writing only when the transformed text
    differs from the text it read: if they are equal the run ends with the
    files as they were and no write; otherwise it writes the transformed
    text to that one path.  With enough fuel for the loop the transform
    does return a text. *)
Theorem write_only_when_changed
    (fuel : nat) (files : dict text) (original content : text)
    (out : list text) :
  dict_get files path = Some original ->
  transform fuel original = Some (content, out) ->
  (content = original ->
     exists out', main fuel files = Some (Finished files [] out'))
  /\ (content <> original ->
        exists out',
          main fuel files
          = Some (Finished (dict_set files path content) [path] out'))
  /\ (exists fuel0, forall fuel1, fuel0 <= fuel1 ->
        exists content1 out1, transform fuel1 original = Some (content1, out1)).
Proof.
  intros Hfile Ht. unfold main. rewrite Hfile, Ht.
  split; [|split; [|apply transform_total]]; intros H.
  - apply eqb_eq in H. rewrite H. simpl. eauto.
  - apply eqb_neq in H. rewrite H. simpl. eauto.
Qed.

Lemma write_only_when_changed_witness :
  exists out',
    main 2 [(path, t "export type Json = string")]
    = Some (Finished [(path, t "export type Json = string")] [] out').
Proof.
  refine (proj1 (write_only_when_changed 2
                   [(path, t "export type Json = string")]
                   (t "export type Json = string")
                   (t "export type Json = string") _ eq_refl _) eq_refl).
  vm_compute. reflexivity.
Defined.

End Writing.

(** ** Dictionaries *)

Module DictFacts.
Import Text TextFacts.

Lemma dict_set_keys {V} (d : dict V) (k : text) (v : V) :
  In k (map fst d) -> map fst (dict_set d k v) = map fst d.
Proof.
  induction d as [|[k' v'] d IH]; simpl; [tauto|].
  destruct (eqb k' k) eqn:E; [reflexivity|].
  intros [H|H].
  - apply eqb_neq in E. contradiction.
  - simpl. f_equal. auto.
Qed.

Lemma dict_set_keys_new {V} (d : dict V) (k : text) (v : V) :
  ~ In k (map fst d) -> map fst (dict_set d k v) = map fst d ++ [k].
Proof.
  induction d as [|[k' v'] d IH]; simpl; [reflexivity|].
  intros H. destruct (eqb k' k) eqn:E.
  - apply eqb_eq in E. tauto.
  - simpl. f_equal. apply IH. tauto.
Qed.

Lemma text_eq_dec (a b : text) : {a = b} + {a <> b}.
Proof. apply list_eq_dec, ascii_dec. Qed.

Lemma dict_set_nodup {V} (d : dict V) (k : text) (v : V) :
  NoDup (map fst d) -> NoDup (map fst (dict_set d k v)).
Proof.
  intros H. destruct (in_dec text_eq_dec k (map fst d)) as [I|I].
  - now rewrite dict_set_keys.
  - rewrite dict_set_keys_new by assumption.
    apply NoDup_app; [assumption|repeat constructor; intros []|].
    intros x Hx [<-|[]]. contradiction.
Qed.

Lemma dict_set_In {V} (d : dict V) (k k0 : text) (v v0 : V) :
  In (k, v) (dict_set d k0 v0) -> (k, v) = (k0, v0) \/ In (k, v) d.
Proof.
  induction d as [|[k' v'] d IH]; simpl.
  - intros [H|[]]. now left.
  - destruct (eqb k' k0) eqn:E; simpl.
    + apply eqb_eq in E. subst k'. intros [H|H]; auto.
    + intros [H|H]; [auto|]. destruct (IH H); auto.
Qed.

Lemma dict_set_length {V} (d : dict V) (k : text) (v : V) :
  length (dict_set d k v) <= S (length d).
Proof.
  induction d as [|[k' v'] d IH]; simpl; [lia|].
  destruct (eqb k' k); simpl; lia.
Qed.

End DictFacts.

(** ** Stripping *)

Module StripFacts.
Import Text TextFacts Greedy.

Lemma drop_while_noop (p : ascii -> bool) (s : text) :
  match s with [] => True | c :: _ => p c = false end -> drop_while p s = s.
Proof. destruct s as [|c s]; simpl; [reflexivity|]. now intros ->. Qed.

Lemma drop_while_idem (p : ascii -> bool) (s : text) :
  drop_while p (drop_while p s) = drop_while p s.
Proof.
  apply drop_while_noop. destruct (drop_while p s) as [|c r] eqn:E; [exact I|].
  now apply drop_while_head in E.
Qed.

Lemma forallb_rev (p : ascii -> bool) (s : text) :
  forallb p (rev s) = forallb p s.
Proof.
  induction s as [|c s IH]; simpl; [reflexivity|].
  rewrite forallb_app, IH. simpl. rewrite andb_true_r. apply andb_comm.
Qed.

Lemma forallb_drop_while (p q : ascii -> bool) (s : text) :
  forallb q s = true -> forallb q (drop_while p s) = true.
Proof.
  induction s as [|c s IH]; simpl; [reflexivity|]. intros H.
  destruct (p c); [|exact H]. apply andb_true_iff in H as [_ H]. auto.
Qed.

Lemma forallb_rstrip_by (p q : ascii -> bool) (s : text) :
  forallb q s = true -> forallb q (rstrip_by p s) = true.
Proof.
  intros H. unfold rstrip_by. rewrite forallb_rev.
  apply forallb_drop_while. now rewrite forallb_rev.
Qed.

(** What [strip] returns consists of characters of the string. *)
Lemma forallb_strip (q : ascii -> bool) (s : text) :
  forallb q s = true -> forallb q (strip s) = true.
Proof.
  intros H. unfold strip, rstrip, lstrip.
  now apply forallb_rstrip_by, forallb_drop_while.
Qed.

Lemma rstrip_by_idem (p : ascii -> bool) (s : text) :
  rstrip_by p (rstrip_by p s) = rstrip_by p s.
Proof. unfold rstrip_by. now rewrite rev_involutive, drop_while_idem. Qed.

(** [rstrip] returns a prefix. *)
Lemma rstrip_by_prefix (p : ascii -> bool) (s : text) :
  exists b, s = rstrip_by p s ++ b /\ forallb p b = true.
Proof.
  unfold rstrip_by. exists (rev (take_while p (rev s))). split.
  - rewrite <- rev_app_distr, take_drop_while. now rewrite rev_involutive.
  - rewrite forallb_rev. apply take_while_all.
Qed.

Lemma rstrip_by_head (p : ascii -> bool) (s : text) (c : ascii) (r : text) :
  rstrip_by p s = c :: r -> exists r', s = c :: r'.
Proof.
  intros H. destruct (rstrip_by_prefix p s) as (b & E & _).
  rewrite H in E. simpl in E. eauto.
Qed.

(** A string without a character of the class at its end is kept. *)
Lemma rstrip_by_noop (p : ascii -> bool) (s : text) :
  forallb (fun c => negb (p c)) s = true -> rstrip_by p s = s.
Proof.
  intros H. unfold rstrip_by. rewrite drop_while_noop.
  - apply rev_involutive.
  - rewrite <- forallb_rev in H. destruct (rev s) as [|c r]; [exact I|].
    simpl in H. apply andb_true_iff in H as [H _].
    now apply negb_true_iff in H.
Qed.

Lemma strip_noop (s : text) :
  forallb (fun c => negb (is_space c)) s = true -> strip s = s.
Proof.
  intros H. unfold strip, rstrip, lstrip. rewrite drop_while_noop.
  - now apply rstrip_by_noop.
  - destruct s as [|c s]; [exact I|]. simpl in H.
    apply andb_true_iff in H as [H _]. now apply negb_true_iff in H.
Qed.

(** [s.strip().strip()] is [s.strip()]. *)
Lemma strip_idem (s : text) : strip (strip s) = strip s.
Proof.
  unfold strip, rstrip, lstrip.
  set (x := drop_while is_space s).
  assert (L : drop_while is_space (rstrip_by is_space x) = rstrip_by is_space x).
  { apply drop_while_noop.
    destruct (rstrip_by is_space x) as [|c r] eqn:E; [exact I|].
    apply rstrip_by_head in E as [r' E]. unfold x in E.
    now apply drop_while_head in E. }
  rewrite L. apply rstrip_by_idem.
Qed.

Lemma word_chars_strip (s : text) : forallb is_word s = true -> strip s = s.
Proof.
  intros H. apply strip_noop. rewrite forallb_forall in *.
  intros c Hc. apply negb_true_iff. apply word_not_space. auto.
Qed.

End StripFacts.

(** ** Matches and their groups *)

Module GroupFacts.
Import Text Out Re Convert TextFacts ReFacts Greedy Normalizer.

Section Run.
Context {R : Type}.

(** A successful group over a repeated class captures a non-empty run of
    characters of the class. *)
Lemma run_Grp_Plus (n : nat) (p : ascii -> bool) (s : text) (caps : captures)
    (k : @cont R) (x : R) :
  run (Grp n (Plus p)) s caps k = Some x ->
  exists a s', s = a ++ s' /\ a <> [] /\ forallb p a = true
               /\ k s' ((n, a) :: caps) = Some x.
Proof.
  rewrite run_Grp. simpl. destruct s as [|c s]; [discriminate|].
  destruct (p c) eqn:Hc; [|discriminate]. intros H.
  apply star_sound in H as (a & s' & -> & H & Ha).
  exists (c :: a), s'. split; [reflexivity|]. split; [discriminate|].
  split; [simpl; now rewrite Hc|].
  change (c :: a ++ s') with ((c :: a) ++ s') in H.
  now rewrite consumed_app in H.
Qed.
End Run.

(** The matches [finditer] yields are matches at some position. *)
Lemma finditer_from_In (r : regex) (m : Match) (s : text) :
  forall k, In m (finditer_from r k s) ->
            exists a b, s = a ++ b /\ match_at r b = Some m.
Proof.
  induction s as [|c s IH]; intros k H; [destruct H|].
  assert (Hrec : forall k', In m (finditer_from r k' s) ->
                 exists a b, c :: s = a ++ b /\ match_at r b = Some m).
  { intros k' H'. destruct (IH k' H') as (a & b & -> & Hm).
    now exists (c :: a), b. }
  simpl in H. destruct k as [|k]; [|eauto].
  destruct (match_at r (c :: s)) as [m'|] eqn:E; [|eauto].
  destruct (whole m') as [|x w]; [eauto|].
  destruct H as [<-|H]; [|eauto]. now exists [], (c :: s).
Qed.

Lemma finditer_In (r : regex) (m : Match) (s : text) :
  In m (finditer r s) -> exists a b, s = a ++ b /\ match_at r b = Some m.
Proof. apply finditer_from_In. Qed.

(** The groups of a match of [field_pattern]. *)
Lemma field_match_groups (s : text) (m : Match) :
  match_at field_pattern s = Some m ->
  group m 1 <> [] /\ forallb is_word (group m 1) = true
  /\ group m 2 <> [] /\ forallb (other_than2 nl ";") (group m 2) = true.
Proof.
  unfold match_at, field_pattern. cbn [cat]. rewrite run_Seq. intros H.
  apply run_Grp_Plus in H as (name & s1 & -> & Nn & Wn & H).
  rewrite run_Seq, run_Lit in H.
  destruct (strip_prefix (t ":") s1) as [s2|]; [|discriminate].
  rewrite run_Seq, run_Star in H.
  apply star_sound in H as (ws & s3 & -> & H & _).
  apply run_Grp_Plus in H as (typ & s4 & -> & Nt & Wt & H).
  injection H as <-. cbn [group groups lookup Nat.eqb]. auto.
Qed.

(** The groups of a match of [row_pattern]. *)
Lemma row_match_groups (s : text) (m : Match) :
  match_at row_pattern s = Some m ->
  group m 1 <> [] /\ forallb is_word (group m 1) = true.
Proof.
  unfold match_at, row_pattern. cbn [cat]. rewrite run_Seq. intros H.
  apply run_Grp_Plus in H as (name & s1 & -> & Nn & Wn & H).
  rewrite run_Seq, run_Lit in H.
  destruct (strip_prefix (t ": {") s1) as [s2|]; [|discriminate].
  rewrite run_Seq, run_Star in H.
  apply star_sound in H as (ws & s3 & -> & H & _).
  rewrite run_Seq, run_Lit in H.
  destruct (strip_prefix (t "Row: {") s3) as [s4|]; [|discriminate].
  rewrite run_Seq in H.
  apply run_Grp_Plus in H as (body & s5 & -> & Nb & Wb & H).
  rewrite run_Seq, run_Lit in H.
  destruct (strip_prefix (t "}") s5) as [s6|]; [|discriminate].
  rewrite run_Seq, run_Star in H.
  apply star_sound in H as (ws2 & s7 & -> & H & _).
  rewrite run_Lit in H.
  destruct (strip_prefix (t "Insert:") s7) as [s8|]; [|discriminate].
  injection H as <-. cbn [group groups lookup Nat.eqb]. auto.
Qed.

End GroupFacts.

(** ** The first pass *)

Module FirstPass.
Import Text Out Re Convert Boundary Spec Shapes.
Import TextFacts ReFacts CredsFacts Greedy Normalizer.
Import DictFacts StripFacts GroupFacts.

Lemma well_formed_spec (name typ : text) :
  well_formed (name, typ) = true <->
  name <> [] /\ forallb is_word name = true
  /\ typ <> [] /\ free_of nl typ = true /\ free_of ";" typ = true
  /\ strip typ = typ.
Proof.
  unfold well_formed. rewrite !andb_true_iff, !negb_true_iff, !eqb_neq, eqb_eq.
  tauto.
Qed.

Lemma other_than2_free (a b : ascii) (s : text) :
  forallb (other_than2 a b) s = true ->
  free_of a s = true /\ free_of b s = true.
Proof.
  unfold free_of. induction s as [|c s IH]; simpl; [auto|].
  intros H. apply andb_true_iff in H as [H1 H2].
  unfold other_than2 in H1. apply andb_true_iff in H1 as [-> ->].
  simpl. auto.
Qed.

Lemma add_field_invariant (fields : dict text) (s : text) (m : Match) :
  match_at field_pattern s = Some m ->
  (forall f, In f fields -> well_formed f = true) ->
  forall f, In f (add_field fields m) -> well_formed f = true.
Proof.
  intros Hm Hf f. apply field_match_groups in Hm as (N1 & W1 & N2 & W2).
  unfold add_field.
  rewrite (word_chars_strip _ W1).
  destruct (group m 1) as [|c name] eqn:E1; [contradiction|].
  assert (F : free_of nl (strip (group m 2)) = true
              /\ free_of ";" (strip (group m 2)) = true).
  { apply other_than2_free. now apply forallb_strip. }
  destruct F as [F1 F2].
  assert (Er : rstrip_char ";" (strip (group m 2)) = strip (group m 2)).
  { apply rstrip_by_noop. exact F2. }
  rewrite Er, strip_idem.
  destruct (strip (group m 2)) as [|x typ] eqn:E2; [auto|].
  intros H. destruct f as [k v].
  apply dict_set_In in H as [H|H]; [|auto].
  injection H as -> ->. apply well_formed_spec.
  rewrite <- E2 at 4. rewrite <- E2 at 4. rewrite strip_idem.
  repeat split; try assumption; discriminate.
Qed.

Lemma add_field_nodup (fields : dict text) (m : Match) :
  NoDup (map fst fields) -> NoDup (map fst (add_field fields m)).
Proof.
  intros H. unfold add_field.
  destruct (strip (group m 1)); [assumption|].
  destruct (strip (rstrip_char ";" (strip (group m 2)))); [assumption|].
  now apply dict_set_nodup.
Qed.

Lemma fields_loop_invariant (s : text) (ms : list Match) :
  (forall m, In m ms ->
     exists a b, s = a ++ b /\ match_at field_pattern b = Some m) ->
  forall fields,
    (forall f, In f fields -> well_formed f = true) ->
    NoDup (map fst fields) ->
    (forall f, In f (fold_left add_field ms fields) -> well_formed f = true)
    /\ NoDup (map fst (fold_left add_field ms fields)).
Proof.
  induction ms as [|m ms IH]; intros Hms fields Hf ND; [auto|].
  simpl. apply IH.
  - intros m' Hm'. apply Hms. now right.
  - destruct (Hms m (or_introl eq_refl)) as (a & b & _ & Hm).
    now apply (add_field_invariant fields b m).
  - now apply add_field_nodup.
Qed.

Lemma parse_fields_invariant (fields_str : text) :
  (forall f, In f (parse_fields fields_str) -> well_formed f = true)
  /\ NoDup (map fst (parse_fields fields_str)).
Proof.
  unfold parse_fields. apply (fields_loop_invariant fields_str).
  - intros m. apply finditer_In.
  - intros f [].
  - constructor.
Qed.

Lemma add_table_value (rows : dict (dict text)) (m : Match) :
  value (add_table rows m)
  = dict_set rows (group m 1) (parse_fields (group m 2)).
Proof. reflexivity. Qed.

Lemma rows_loop_invariant (s : text) (ms : list Match) :
  (forall m, In m ms ->
     exists a b, s = a ++ b /\ match_at row_pattern b = Some m) ->
  forall rows : dict (dict text),
    (forall table fields, In (table, fields) rows ->
       table <> [] /\ forallb is_word table = true
       /\ exists str, fields = parse_fields str) ->
    NoDup (map fst rows) ->
    let rows' := value (for_each ms add_table rows) in
    (forall table fields, In (table, fields) rows' ->
       table <> [] /\ forallb is_word table = true
       /\ exists str, fields = parse_fields str)
    /\ NoDup (map fst rows').
Proof.
  induction ms as [|m ms IH]; intros Hms rows Hr ND; [simpl; auto|].
  cbv zeta. rewrite value_for_each_cons, add_table_value. apply IH.
  - intros m' Hm'. apply Hms. now right.
  - intros table fields H. apply dict_set_In in H as [H|H]; [|eauto].
    injection H as -> ->.
    destruct (Hms m (or_introl eq_refl)) as (a & b & _ & Hm).
    apply row_match_groups in Hm as [N W]. eauto.
  - now apply dict_set_nodup.
Qed.

(** X5.  The Row mapping the first pass builds is well formed, whatever
    the file holds: table names are distinct, non-empty and made of word
    characters; within a table the field names are distinct, non-empty
    and made of word characters; every recorded type is a non-empty
    single line without a semicolon and without white space at either
    end. *)
Theorem row_mapping_well_formed (content : text) :
  let row_fields := value (collect_rows content) in
  NoDup (map fst row_fields)
  /\ forall table fields,
       In (table, fields) row_fields ->
       table <> [] /\ forallb is_word table = true
       /\ NoDup (map fst fields)
       /\ forall name typ,
            In (name, typ) fields ->
            name <> [] /\ forallb is_word name = true
            /\ typ <> [] /\ free_of nl typ = true /\ free_of ";" typ = true
            /\ strip typ = typ.
Proof.
  cbv zeta. unfold collect_rows. rewrite value_bind.
  destruct (rows_loop_invariant content (finditer row_pattern content)
              (fun m => finditer_In row_pattern m content) []) as [H ND].
  - intros ? ? [].
  - constructor.
  - cbv zeta in H, ND. split; [exact ND|].
    intros table fields Hin.
    destruct (H table fields Hin) as (N & W & str & ->).
    destruct (parse_fields_invariant str) as [Hw Hd].
    split; [assumption|]. split; [assumption|]. split; [assumption|].
    intros name typ Hf. apply well_formed_spec. auto.
Qed.

Lemma dict_set_new {V} (d : dict V) (k : text) (v : V) :
  ~ In k (map fst d) -> dict_set d k v = d ++ [(k, v)].
Proof.
  induction d as [|[k' v'] d IH]; simpl; [reflexivity|].
  intros H. destruct (eqb k' k) eqn:E.
  - apply eqb_eq in E. tauto.
  - f_equal. apply IH. tauto.
Qed.

(** Assigning distinct new keys one after the other appends them. *)
Lemma dict_build {V} (fs : dict V) :
  forall d : dict V,
    NoDup (map fst fs) ->
    (forall k, In k (map fst fs) -> ~ In k (map fst d)) ->
    fold_left (fun d f => dict_set d (fst f) (snd f)) fs d = d ++ fs.
Proof.
  induction fs as [|[k v] fs IH]; intros d ND Hd; simpl.
  - now rewrite app_nil_r.
  - inversion ND as [|? ? Hk ND']; subst.
    rewrite dict_set_new by (apply Hd; now left).
    rewrite IH; [now rewrite <- app_assoc| assumption|].
    intros k' Hk'. rewrite map_app, in_app_iff. simpl.
    intros [H|[<-|[]]]; [|contradiction].
    apply (Hd k'); [now right | assumption].
Qed.

Lemma strip_fixed_head (c : ascii) (s : text) :
  strip (c :: s) = c :: s -> is_space c = false.
Proof.
  intros H. unfold strip, rstrip, lstrip in H.
  destruct (rstrip_by_prefix is_space (drop_while is_space (c :: s)))
    as (b & E & _).
  rewrite H in E.
  pose proof (take_drop_while is_space (c :: s)) as T.
  rewrite E in T at 1.
  apply (f_equal (@length ascii)) in T. rewrite !length_app in T.
  assert (L : length (take_while is_space (c :: s)) = 0) by lia.
  simpl in L. destruct (is_space c); [discriminate | reflexivity].
Qed.

Lemma finditer_from_skip (r : regex) (a s : text) :
  finditer_from r (length a) (a ++ s) = finditer r s.
Proof. induction a as [|c a IH]; simpl; [reflexivity | exact IH]. Qed.

(** The equations of [finditer] for a pattern without empty matches. *)
Lemma finditer_match (r : regex) (s : text) (m : Match) :
  nonempty r = true -> match_at r s = Some m ->
  finditer r s = m :: finditer r (rest m).
Proof.
  intros N H. destruct (match_at_sound _ _ _ H) as [E Hw].
  specialize (Hw N). unfold finditer.
  destruct s as [|c s].
  - destruct (whole m); [congruence | discriminate].
  - simpl. rewrite H. destruct (whole m) as [|c' w] eqn:Ew; [congruence|].
    simpl in E. injection E as _ ->. now rewrite finditer_from_skip.
Qed.

Lemma finditer_no_match (r : regex) (c : ascii) (s : text) :
  match_at r (c :: s) = None -> finditer r (c :: s) = finditer r s.
Proof. unfold finditer. simpl. now intros ->. Qed.

Section First.
Context {R : Type}.

(** Greedy repetition takes the longest run when what follows succeeds
    after it. *)
Lemma star_first (p : ascii -> bool) (s : text) (caps : captures)
    (k : @cont R) (x : R) :
  k (drop_while p s) caps = Some x -> star p s caps k = Some x.
Proof.
  induction s as [|c s IH]; simpl; [trivial|].
  destruct (p c); [|trivial]. intros H. now rewrite (IH H).
Qed.

Lemma plus_first (p : ascii -> bool) (s : text) (caps : captures)
    (k : @cont R) (x : R) :
  take_while p s <> [] -> k (drop_while p s) caps = Some x ->
  run (Plus p) s caps k = Some x.
Proof.
  destruct s as [|c s]; simpl; [congruence|].
  destruct (p c); [|congruence]. intros _. apply star_first.
Qed.
End First.

Lemma word_not_quote (c : ascii) : is_word c = true -> ceqb "'" c = false.
Proof. by_cases c. Qed.

Lemma field_no_match (c : ascii) (s : text) :
  is_word c = false -> match_at field_pattern (c :: s) = None.
Proof.
  intros H. unfold match_at, field_pattern. cbn [cat].
  rewrite run_Seq, run_Grp. simpl. now rewrite H.
Qed.

Lemma finditer_field_skip (a s : text) :
  forallb (fun c => negb (is_word c)) a = true ->
  finditer field_pattern (a ++ s) = finditer field_pattern s.
Proof.
  induction a as [|c a IH]; simpl; [reflexivity|]. intros H.
  apply andb_true_iff in H as [Hc Ha]. apply negb_true_iff in Hc.
  rewrite finditer_no_match by now apply field_no_match. auto.
Qed.

Lemma finditer_field_nonword (a : text) :
  forallb (fun c => negb (is_word c)) a = true ->
  finditer field_pattern a = [].
Proof.
  intros H. rewrite <- (app_nil_r a). now rewrite finditer_field_skip.
Qed.

Lemma spaces_nonword (ws : text) :
  forallb is_space ws = true ->
  forallb (fun c => negb (is_word c)) ws = true.
Proof.
  rewrite !forallb_forall. intros H c Hc. apply negb_true_iff.
  apply space_not_word. auto.
Qed.

(** A declaration [name: type] up to the end of its line is one match. *)
Lemma field_line_match (name typ rest : text) :
  well_formed (name, typ) = true ->
  match_at field_pattern (name ++ t ": " ++ typ ++ nl :: rest)
  = Some (mkMatch (name ++ t ": " ++ typ) [(2, typ); (1, name)] (nl :: rest)).
Proof.
  intros W. apply well_formed_spec in W as (Nn & Wn & Nt & F1 & F2 & St).
  unfold match_at, field_pattern. cbn [cat].
  rewrite run_Seq, run_Grp, plus_greedy.
  2: intros c s' Hc; rewrite run_Seq, run_Lit; change (t ":") with [":"];
    now rewrite strip_prefix_neq by now apply word_not_colon.
  destruct (take_while_app is_word name (t ": " ++ typ ++ nl :: rest) Wn)
    as [E1 E2]; [reflexivity|].
  rewrite E1, E2. destruct name as [|n0 name']; [contradiction|].
  set (name := n0 :: name') in *.
  rewrite run_Seq, run_Lit.
  change (strip_prefix (t ":") (t ": " ++ typ ++ nl :: rest))
    with (Some (" " :: typ ++ nl :: rest)).
  cbv beta iota. rewrite run_Seq, run_Star.
  destruct typ as [|t0 typ']; [contradiction|].
  set (typ := t0 :: typ') in *.
  assert (Ht0 : is_space t0 = false) by now apply (strip_fixed_head t0 typ').
  assert (Q : forallb (other_than2 nl ";") typ = true).
  { unfold free_of in F1, F2. rewrite forallb_forall in *.
    intros c Hc. unfold other_than2. now rewrite (F1 c Hc), (F2 c Hc). }
  destruct (take_while_app (other_than2 nl ";") typ (nl :: rest) Q)
    as [E3 E4]; [reflexivity|].
  apply star_first.
  change (drop_while is_space (" " :: typ ++ nl :: rest))
    with (drop_while is_space (typ ++ nl :: rest)).
  rewrite drop_while_noop by (unfold typ; simpl; exact Ht0).
  rewrite run_Grp. apply plus_first.
  - rewrite E3. discriminate.
  - rewrite E4. f_equal.
    rewrite consumed_app.
    replace (name ++ t ": " ++ typ ++ nl :: rest)
      with ((name ++ t ": " ++ typ) ++ nl :: rest)
      by (now rewrite <- !app_assoc).
    rewrite !consumed_app.
    replace ((name ++ t ": " ++ typ) ++ nl :: rest)
      with (name ++ (t ": " ++ typ ++ nl :: rest))
      by (now rewrite <- !app_assoc).
    now rewrite consumed_app.
Qed.

Lemma add_field_line (d : dict text) (name typ w rest : text) :
  well_formed (name, typ) = true ->
  add_field d (mkMatch w [(2, typ); (1, name)] rest) = dict_set d name typ.
Proof.
  intros W. apply well_formed_spec in W as (Nn & Wn & Nt & F1 & F2 & St).
  unfold add_field. cbn [group groups lookup Nat.eqb].
  rewrite (word_chars_strip _ Wn), St.
  unfold rstrip_char. rewrite (rstrip_by_noop (ceqb ";") typ F2), St.
  destruct name; [contradiction|]. destruct typ; [contradiction|]. reflexivity.
Qed.

Lemma fields_loop_lines (ws : text) (fs : dict text) :
  forallb is_space ws = true ->
  forallb well_formed fs = true ->
  forall d : dict text,
    fold_left add_field
      (finditer field_pattern (row_text fs ++ nl :: ws)) d
    = fold_left (fun d f => dict_set d (fst f) (snd f)) fs d.
Proof.
  intros Hws. induction fs as [|[name typ] fs IH]; intros W d.
  - simpl. rewrite finditer_field_nonword; [reflexivity|].
    apply (spaces_nonword (nl :: ws)). simpl. exact Hws.
  - simpl in W. apply andb_true_iff in W as [Wf W].
    assert (E : row_text ((name, typ) :: fs) ++ nl :: ws
                = t "          " ++ name ++ t ": " ++ typ
                    ++ nl :: match fs with
                             | [] => ws
                             | _ => row_text fs ++ nl :: ws
                             end).
    { unfold row_text, row_line. destruct fs as [|f fs]; cbn [map join fst snd].
      - now rewrite <- !app_assoc.
      - rewrite <- !app_assoc. reflexivity. }
    rewrite E, finditer_field_skip by reflexivity.
    rewrite (finditer_match field_pattern _ _ eq_refl
               (field_line_match name typ _ Wf)).
    cbn [rest fold_left]. rewrite (add_field_line _ _ _ _ _ Wf).
    destruct fs as [|f fs].
    + rewrite finditer_field_nonword; [reflexivity|].
      apply (spaces_nonword (nl :: ws)). simpl. exact Hws.
    + rewrite finditer_no_match by (now apply field_no_match).
      now rewrite (IH W).
Qed.

Lemma parse_fields_lines (ws1 ws2 : text) (fields : dict text) :
  forallb is_space ws1 = true ->
  forallb is_space ws2 = true ->
  forallb well_formed fields = true ->
  NoDup (map fst fields) ->
  parse_fields (ws1 ++ row_text fields ++ nl :: ws2) = fields.
Proof.
  intros H1 H2 W ND. unfold parse_fields.
  rewrite finditer_field_skip by now apply spaces_nonword.
  rewrite (fields_loop_lines ws2 fields H2 W).
  now apply (dict_build fields []).
Qed.

(** X6.  The first pass reads back a Row block written one well-formed
    declaration [name: type] per line, with distinct names: the mapping
    it builds is the list of the declarations, in their order. *)
Theorem parse_fields_reads_row_block (ws1 ws2 : text) (fields : dict text) :
  forallb is_space ws1 = true ->
  forallb is_space ws2 = true ->
  forallb well_formed fields = true ->
  NoDup (map fst fields) ->
  parse_fields (ws1 ++ row_text fields ++ nl :: ws2) = fields.
Proof. apply parse_fields_lines. Qed.

Lemma parse_fields_reads_row_block_witness :
  parse_fields (t "
          id: string
          name: string
          created_at: string | null
        ")
  = campaigns_fields.
Proof.
  apply (parse_fields_reads_row_block [nl] (t "        ") campaigns_fields);
    try reflexivity.
  repeat constructor; simpl; intuition discriminate.
Defined.

End FirstPass.

(** ** The exclusion list and the overrides *)

Module Declarations.
Import Text Out Re Convert Boundary Spec Shapes.
Import TextFacts ReFacts CredsFacts Greedy DictFacts StripFacts GroupFacts.
Import Normalizer FirstPass.

Lemma quoted_no_match (c : ascii) (s : text) :
  ceqb "'" c = false -> match_at quoted_pattern (c :: s) = None.
Proof.
  intros H. unfold match_at, quoted_pattern. cbn [cat].
  rewrite run_Seq, run_Lit. change (t "'") with ["'"].
  now rewrite strip_prefix_neq.
Qed.

Lemma quoted_match (name rest : text) :
  name <> [] -> forallb is_word name = true ->
  match_at quoted_pattern (quoted name ++ rest)
  = Some (mkMatch (quoted name) [(1, name)] rest).
Proof.
  intros N W. unfold match_at, quoted_pattern, quoted. cbn [cat].
  rewrite run_Seq, run_Lit.
  change (strip_prefix (t "'") ((t "'" ++ name ++ t "'") ++ rest))
    with (Some ((name ++ t "'") ++ rest)).
  cbv beta iota. rewrite <- app_assoc.
  rewrite run_Seq, run_Grp, plus_greedy.
  2: intros c s' Hc; rewrite run_Lit; change (t "'") with ["'"];
    now rewrite strip_prefix_neq by now apply word_not_quote.
  destruct (take_while_app is_word name (t "'" ++ rest) W) as [E1 E2];
    [reflexivity|].
  rewrite E1, E2. destruct name as [|n0 name']; [contradiction|].
  set (name := n0 :: name') in *.
  rewrite run_Lit.
  change (strip_prefix (t "'") (t "'" ++ rest)) with (Some rest).
  cbv beta iota. f_equal. rewrite consumed_app.
  replace (t "'" ++ name ++ t "'" ++ rest) with ((t "'" ++ name ++ t "'") ++ rest)
    by (now rewrite <- !app_assoc).
  now rewrite consumed_app.
Qed.

Lemma findall_quoted (names : list text) :
  (forall n, In n names -> n <> [] /\ forallb is_word n = true) ->
  findall quoted_pattern (omit_list names) = names.
Proof.
  unfold findall, omit_list.
  induction names as [|n names IH]; intros H; [reflexivity|].
  destruct (H n (or_introl eq_refl)) as [N W].
  assert (IH' : map (fun m => group m 1)
                  (finditer quoted_pattern (join (t " | ") (map quoted names)))
                = names) by (apply IH; intros; apply H; now right).
  destruct names as [|n' names].
  - cbn [map join]. rewrite <- (app_nil_r (quoted n)).
    rewrite (finditer_match quoted_pattern _ _ eq_refl (quoted_match n [] N W)).
    reflexivity.
  - cbn [map join] in *.
    rewrite (finditer_match quoted_pattern _ _ eq_refl
               (quoted_match n _ N W)).
    cbn [rest map group groups lookup Nat.eqb]. f_equal.
    change (t " | " ++ ?x) with (" " :: "|" :: " " :: x).
    rewrite !finditer_no_match by (now apply quoted_no_match).
    exact IH'.
Qed.

(** X7.  The exclusion list is read back as written: from the names
    between single quotes, separated by [ | ], [replace_insert] gets the
    names, in their order. *)
Theorem parse_omit_reads_exclusion_list (names : list text) :
  (forall n, In n names -> n <> [] /\ forallb is_word n = true) ->
  parse_omit (omit_list names) = names.
Proof. apply findall_quoted. Qed.

Lemma parse_omit_reads_exclusion_list_witness :
  parse_omit (t "'id' | 'created_at' | 'updated_at'")
  = [t "id"; t "created_at"; t "updated_at"].
Proof.
  apply (parse_omit_reads_exclusion_list
           [t "id"; t "created_at"; t "updated_at"]).
  intros n [<-|[<-|[<-|[]]]]; split; (discriminate || reflexivity).
Defined.

(** *** The overrides *)

Lemma has_char_false (c : ascii) (s : text) :
  has_char c s = false <-> free_of c s = true.
Proof.
  unfold has_char, free_of. induction s as [|x s IH]; simpl; [tauto|].
  rewrite orb_false_iff, andb_true_iff, negb_true_iff, IH. tauto.
Qed.

Lemma split1_before (c : ascii) (s : text) :
  free_of c (fst (split1 c s)) = true.
Proof.
  induction s as [|x s IH]; simpl; [reflexivity|].
  destruct (ceqb c x) eqn:E; [reflexivity|].
  destruct (split1 c s) as [a b]. simpl in *. now rewrite E.
Qed.

Lemma add_override_invariant (P : text * text -> Prop) (d : dict text)
    (line : text) :
  (forall k v, free_of ":" k = true -> rstrip_char "?" k = k ->
               rstrip_char "," v = v -> P (k, v)) ->
  (forall f, In f d -> P f) ->
  forall f, In f (add_override d line) -> P f.
Proof.
  intros HP Hd f. unfold add_override.
  destruct (has_char ":" (strip line)); [|auto].
  pose proof (split1_before ":" (strip line)) as B.
  destruct (split1 ":" (strip line)) as [before after]. simpl in B.
  intros H. destruct f as [k v]. apply dict_set_In in H as [H|H]; [|auto].
  injection H as -> ->. apply HP.
  - apply forallb_rstrip_by. now apply forallb_strip.
  - apply rstrip_by_idem.
  - apply rstrip_by_idem.
Qed.

Lemma add_override_length (d : dict text) (line : text) :
  length (add_override d line) <= S (length d).
Proof.
  unfold add_override. destruct (has_char ":" (strip line)); [|lia].
  destruct (split1 ":" (strip line)). apply dict_set_length.
Qed.

Lemma overrides_loop (lines : list text) :
  forall d : dict text,
    length (fold_left add_override lines d) <= length d + length lines
    /\ forall P : text * text -> Prop,
         (forall k v, free_of ":" k = true -> rstrip_char "?" k = k ->
                      rstrip_char "," v = v -> P (k, v)) ->
         (forall f, In f d -> P f) ->
         forall f, In f (fold_left add_override lines d) -> P f.
Proof.
  induction lines as [|l lines IH]; intros d; simpl.
  - split; [lia | auto].
  - destruct (IH (add_override d l)) as [L I]. split.
    + pose proof (add_override_length d l). lia.
    + intros P HP Hd. apply I; [exact HP|].
      now apply add_override_invariant.
Qed.

(** X8.  The override map has at most one entry per line of the text
    between the braces, however many declarations a line holds, and none
    for a blank text; a key holds no colon and does not end in a question
    mark, a type does not end in a comma. *)
Theorem overrides_one_per_line (optional_fields_str : text) :
  let overrides := parse_overrides optional_fields_str in
  length overrides <= length (split nl (strip optional_fields_str))
  /\ (strip optional_fields_str = [] -> overrides = [])
  /\ forall name typ,
       In (name, typ) overrides ->
       free_of ":" name = true /\ rstrip_char "?" name = name
       /\ rstrip_char "," typ = typ.
Proof.
  cbv zeta. unfold parse_overrides.
  destruct (strip optional_fields_str) as [|c s] eqn:E.
  - split; [simpl; lia|]. split; [reflexivity|]. intros name typ [].
  - destruct (overrides_loop (split nl (c :: s)) []) as [L I].
    split; [exact L|]. split; [discriminate|].
    intros name typ H.
    apply (I (fun f => free_of ":" (fst f) = true
                       /\ rstrip_char "?" (fst f) = fst f
                       /\ rstrip_char "," (snd f) = snd f)
             (fun k v H1 H2 H3 => conj H1 (conj H2 H3))
             (fun f (F : In f []) => match F with end) (name, typ) H).
Qed.

(** *** The normaliser as a whole *)

Lemma inserted_length (s o : text) :
  inserted s o -> exists k, length o = length s + k * length marker.
Proof.
  induction 1 as [|c s o _ [k IH]|s o _ [k IH]].
  - now exists 0.
  - exists k. simpl. now rewrite IH.
  - exists (S k). rewrite !length_app in *. lia.
Qed.

Lemma loop_inserted (fuel : nat) :
  forall prev content result : text,
    relationships_loop fuel prev content = Some result ->
    inserted content result.
Proof.
  induction fuel as [|fuel IH]; intros prev content result H; [discriminate|].
  cbn [relationships_loop] in H. destruct (eqb prev content).
  - injection H as <-. apply inserted_refl.
  - apply (inserted_trans content (relationships_pass content)).
    + apply (pass_inserted next_table_boundary relationships_pass
               relationships_pass_eq next_table_split (length content)).
      apply le_n.
    + now apply (IH content).
Qed.

(** X9.  The normaliser deletes and changes nothing: the text it returns
    is the text it was given with copies of the marker put after closing
    braces, so its length is that of the text plus a number of markers. *)
Theorem normalize_only_adds_markers (fuel : nat) (content result : text) :
  normalize fuel content = Some result ->
  inserted content result
  /\ exists k, length result = length content + k * length marker.
Proof.
  unfold normalize.
  destruct (relationships_loop fuel [] content) as [looped|] eqn:L;
    [|discriminate].
  intros H. injection H as <-.
  assert (I : inserted content (last_table_pass looped)).
  { apply (inserted_trans content looped).
    - now apply (loop_inserted fuel [] content).
    - apply (pass_inserted end_of_tables_boundary last_table_pass
               last_table_pass_eq end_of_tables_split (length looped)).
      apply le_n. }
  split; [exact I | now apply inserted_length].
Qed.

Lemma normalize_only_adds_markers_witness :
  inserted sample_blocks (last_table_pass (relationships_pass sample_blocks)).
Proof.
  apply (normalize_only_adds_markers 3 sample_blocks).
  vm_compute. reflexivity.
Defined.

End Declarations.
(** ** The names of the exclusion list and the lines of the Insert type *)

Module OmitSet.
Import Text Out Re Convert Boundary Spec Shapes.
Import TextFacts ReFacts CredsFacts Greedy Normalizer Synthesis.
Import DictFacts StripFacts GroupFacts FirstPass Declarations.

(** The group of a match of [quoted_pattern]. *)
Lemma quoted_match_groups (s : text) (m : Match) :
  match_at quoted_pattern s = Some m ->
  group m 1 <> [] /\ forallb is_word (group m 1) = true.
Proof.
  unfold match_at, quoted_pattern. cbn [cat]. rewrite run_Seq, run_Lit.
  destruct (strip_prefix (t "'") s) as [s1|]; [|discriminate].
  rewrite run_Seq. intros H.
  apply run_Grp_Plus in H as (name & s2 & -> & Nn & Wn & H).
  rewrite run_Lit in H.
  destruct (strip_prefix (t "'") s2) as [s3|]; [|discriminate].
  injection H as <-. cbn [group groups lookup Nat.eqb]. auto.
Qed.

(** The names of the OmitSet are made of word characters. *)
Lemma parse_omit_words (omit_fields_str name : text) :
  In name (parse_omit omit_fields_str) ->
  name <> [] /\ forallb is_word name = true.
Proof.
  unfold parse_omit, findall. intros H.
  apply in_map_iff in H as (m & <- & Hm).
  apply finditer_In in Hm as (a & b & _ & Hm).
  exact (quoted_match_groups b m Hm).
Qed.

(** So are the field names of the Row mapping the first pass builds. *)
Lemma row_mapping_names (content table : text) (fields : dict text) :
  In (table, fields) (value (collect_rows content)) ->
  forall f, In f fields -> forallb is_word (fst f) = true.
Proof.
  unfold collect_rows. rewrite value_bind.
  destruct (rows_loop_invariant content (finditer row_pattern content)
              (fun m => finditer_In row_pattern m content) []) as [H _].
  - intros ? ? [].
  - constructor.
  - cbv zeta in H. intros Hin [name typ] Hf.
    destruct (H table fields Hin) as (_ & _ & str & ->).
    destruct (parse_fields_invariant str) as [Hw _].
    apply Hw, well_formed_spec in Hf. cbn [fst]. tauto.
Qed.

Lemma dict_get_entry {V} (d : dict V) (k : text) (v : V) :
  dict_get d k = Some v -> In (k, v) d.
Proof.
  induction d as [|[k' v'] d IH]; simpl; [discriminate|].
  destruct (eqb k' k) eqn:E.
  - apply eqb_eq in E. subst k'. intros H. injection H as ->. now left.
  - auto.
Qed.

(** A line that starts with a name and a character outside names starts
    with no other name. *)
Lemma line_name (n name a b : text) (c d : ascii) :
  forallb is_word n = true -> forallb is_word name = true ->
  is_word c = false -> is_word d = false ->
  n ++ c :: a = name ++ d :: b -> n = name.
Proof.
  intros Wn Wname Hc Hd E.
  destruct (take_while_app is_word n (c :: a) Wn Hc) as [E1 _].
  destruct (take_while_app is_word name (d :: b) Wname Hd) as [E2 _].
  rewrite E in E1. congruence.
Qed.

(** The line emitted for a field declares that field and no other
    name. *)
Lemma insert_line_declares
    (omit : list text) (ov : dict text) (f : text * text) (name typ : text) :
  forallb is_word (fst f) = true -> forallb is_word name = true ->
  insert_line omit ov f = optional_decl name typ
  \/ insert_line omit ov f = required_decl name typ ->
  fst f = name.
Proof.
  destruct f as [n ty]. cbn [fst]. intros Wn Wname H.
  assert (K : forall sep x sep' y,
            (sep = "?" \/ sep = ":") -> (sep' = "?" \/ sep' = ":") ->
            t "          " ++ n ++ sep :: x = t "          " ++ name ++ sep' :: y ->
            n = name).
  { intros sep x sep' y Hs Hs' E. apply app_inv_head in E.
    apply (line_name n name x y sep sep' Wn Wname); trivial.
    - now destruct Hs as [-> | ->].
    - now destruct Hs' as [-> | ->]. }
  unfold insert_line, indent, optional_decl, required_decl in H.
  destruct (set_mem n omit);
    [|destruct (dict_get ov n);
      [|destruct (contains (t "null") (lower ty))]];
    destruct H as [H|H];
    first
      [ exact (K "?" _ "?" _ (or_introl eq_refl) (or_introl eq_refl) H)
      | exact (K "?" _ ":" _ (or_introl eq_refl) (or_intror eq_refl) H)
      | exact (K ":" _ "?" _ (or_intror eq_refl) (or_introl eq_refl) H)
      | exact (K ":" _ ":" _ (or_intror eq_refl) (or_intror eq_refl) H) ].
Qed.

(** C5, as the code has it.  Every name of the OmitSet that is a field of
    the table's Row mapping appears in the synthesized Insert type, marked
    optional, with its Row type.  A name of the OmitSet that is not a field
    of the Row mapping the first pass built gets no declaration: no line
    of the synthesized type declares it, as optional or as required, with
    any type. *)
Theorem omitted_row_fields_optional
    (row_fields : dict (dict text)) (m : Match) (fields : dict text)
    (name : text) :
  dict_get row_fields (group m 2) = Some fields ->
  In name (parse_omit (group m 3)) ->
  let lines :=
    insert_lines (parse_omit (group m 3)) (parse_overrides (group m 4)) fields in
  value (replace_insert row_fields m)
  = t "Insert: {" ++ nl :: join [nl] lines ++ closing
  /\ (forall typ, In (name, typ) fields -> In (optional_decl name typ) lines)
  /\ ((exists content, row_fields = value (collect_rows content)) ->
      ~ In name (map fst fields) ->
      forall line typ,
        In line lines ->
        line <> optional_decl name typ /\ line <> required_decl name typ).
Proof.
  intros Hrow Homit lines. split; [|split].
  - unfold replace_insert. now rewrite Hrow.
  - intros typ Hin. unfold lines. rewrite insert_lines_map. apply in_map_iff.
    exists (name, typ). split; [|assumption].
    unfold insert_line. now rewrite (proj2 (set_mem_true _ _) Homit).
  - intros [content ->] Hout line typ Hline.
    destruct (parse_omit_words _ _ Homit) as [_ Wname].
    unfold lines in Hline. rewrite insert_lines_map in Hline.
    apply in_map_iff in Hline as (f & <- & Hf).
    pose proof (row_mapping_names content _ fields
                  (dict_get_entry _ _ _ Hrow) f Hf) as Wf.
    assert (N : fst f <> name).
    { intros E. apply Hout. rewrite <- E. now apply in_map. }
    split; intros E; apply N;
      apply (insert_line_declares (parse_omit (group m 3))
               (parse_overrides (group m 4)) f name typ Wf Wname); auto.
Qed.

Lemma omitted_row_fields_optional_witness :
  In (t "id") (parse_omit (group ghost_insert_match 3))
  /\ In (t "id", t "string") campaigns_fields
  /\ In (optional_decl (t "id") (t "string"))
       (insert_lines (parse_omit (group ghost_insert_match 3))
          (parse_overrides (group ghost_insert_match 4)) campaigns_fields)
  /\ In (t "ghost") (parse_omit (group ghost_insert_match 3))
  /\ ~ In (t "ghost") (map fst campaigns_fields)
  /\ forall line typ,
       In line
         (insert_lines (parse_omit (group ghost_insert_match 3))
            (parse_overrides (group ghost_insert_match 4)) campaigns_fields) ->
       line <> optional_decl (t "ghost") typ
       /\ line <> required_decl (t "ghost") typ.
Proof.
  assert (H1 : In (t "id") (parse_omit (group ghost_insert_match 3)))
    by (vm_compute; auto).
  assert (H2 : In (t "id", t "string") campaigns_fields) by (simpl; auto).
  assert (H3 : In (t "ghost") (parse_omit (group ghost_insert_match 3)))
    by (vm_compute; auto).
  assert (H4 : ~ In (t "ghost") (map fst campaigns_fields))
    by (simpl; intuition discriminate).
  split; [exact H1|]. split; [exact H2|]. split; [|split; [exact H3|]].
  - exact (proj1 (proj2 (omitted_row_fields_optional sample_rows
                           ghost_insert_match campaigns_fields (t "id")
                           eq_refl H1))
             (t "string") H2).
  - split; [exact H4|].
    apply (proj2 (proj2 (omitted_row_fields_optional sample_rows
                           ghost_insert_match campaigns_fields (t "ghost")
                           eq_refl H3))); [|exact H4].
    exists ghost_document. vm_compute. reflexivity.
Defined.

(** The spelling of such a name can still occur in the synthesized type,
    inside the type of a Row field: [string] is in this OmitSet, is no
    field of the Row mapping, and is the type of [id]. *)
Lemma omit_name_text_occurs :
  let m :=
    mkMatch
      (t "Insert: Omit<Database['public']['Tables']['campaigns']['Row'], 'id' | 'string'> & { }")
      [ (4, []); (3, t "'id' | 'string'"); (2, t "campaigns"); (1, t "public") ]
      [nl] in
  In (t "string") (parse_omit (group m 3))
  /\ ~ In (t "string") (map fst campaigns_fields)
  /\ contains (t "string") (value (replace_insert sample_rows m)) = true.
Proof.
  cbv zeta. split; [vm_compute; auto|]. split; [|vm_compute; reflexivity].
  simpl. intuition discriminate.
Qed.

End OmitSet.
(** ** A table of the documented shape, end to end *)

Module EndToEnd.
Import Text Out Re Convert Boundary Spec Shapes Tables.
Import TextFacts ReFacts CredsFacts Greedy Normalizer.
Import DictFacts StripFacts GroupFacts FirstPass Declarations.

(** *** Where a pattern cannot match *)

Lemma free_of_not (c : ascii) (s : text) :
  free_of c s = true -> forallb (fun x => negb (ceqb c x)) s = true.
Proof. trivial. Qed.

(** A literal holding the character [c] matches only where the subject
    has its first [c] at the same place. *)
Lemma literal_anchor (c : ascii) (u v b0 b1 : text) :
  free_of c u = true -> free_of c b0 = true ->
  strip_prefix (u ++ c :: v) (b0 ++ c :: b1) <> None -> b0 = u.
Proof.
  intros Hu Hb H.
  destruct (strip_prefix (u ++ c :: v) (b0 ++ c :: b1)) as [s'|] eqn:E;
    [|congruence].
  apply strip_prefix_Some in E. rewrite <- app_assoc in E. simpl in E.
  apply (unique_split (fun x => negb (ceqb c x))) in E as [E _]; auto.
  now rewrite ceqb_refl.
Qed.

Lemma literal_no_anchor (c : ascii) (u v b : text) :
  free_of c b = true -> strip_prefix (u ++ c :: v) b = None.
Proof.
  intros Hb. destruct (strip_prefix (u ++ c :: v) b) as [s'|] eqn:E;
    [|reflexivity].
  apply strip_prefix_Some in E. subst b.
  rewrite <- app_assoc, free_of_app in Hb.
  apply andb_true_iff in Hb as [_ Hb].
  change ((c :: v) ++ s') with (c :: v ++ s') in Hb.
  rewrite free_of_cons, ceqb_refl in Hb. discriminate Hb.
Qed.

(** Before the first [c] of the subject, the literal matches only at the
    place [u] characters before it. *)
Lemma literal_before_anchor (c : ascii) (u v P rest : text) :
  free_of c u = true -> free_of c P = true ->
  forall p1 p2, P = p1 ++ p2 -> p2 <> [] ->
    strip_prefix (u ++ c :: v) (p2 ++ u ++ c :: rest) = None.
Proof.
  intros Hu HP p1 p2 -> N.
  destruct (strip_prefix (u ++ c :: v) (p2 ++ u ++ c :: rest)) eqn:E;
    [|reflexivity].
  exfalso. rewrite free_of_app in HP. apply andb_true_iff in HP as [_ H2].
  assert (K : p2 ++ u = u).
  { apply (literal_anchor c u v (p2 ++ u) rest); auto.
    - rewrite free_of_app, H2, Hu. reflexivity.
    - rewrite <- app_assoc. congruence. }
  apply (f_equal (@length ascii)) in K. rewrite length_app in K.
  destruct p2; [contradiction | simpl in K; lia].
Qed.

Lemma app_cons_last (a : text) (x : ascii) (b : text) (y : ascii) :
  a ++ [x] = b ++ [y] -> x = y.
Proof. intros H. now apply app_inj_tail in H. Qed.

(** In a text with one [c], after [S0], the literal matches nowhere when
    [S0] does not end with [u]. *)
Lemma literal_nowhere (c : ascii) (u v S0 S1 : text) :
  u <> [] -> free_of c u = true -> free_of c S0 = true ->
  free_of c S1 = true ->
  (forall a, S0 <> a ++ u) ->
  forall a b, S0 ++ c :: S1 = a ++ b -> strip_prefix (u ++ c :: v) b = None.
Proof.
  intros Nu Hu H0 H1 Hend a b E.
  apply app_eq_app in E as [l [[E1 E2]|[E1 E2]]].
  - (* the suffix starts before the anchor *)
    subst b. destruct (strip_prefix (u ++ c :: v) (l ++ c :: S1)) eqn:E;
      [|reflexivity].
    exfalso. rewrite E1, free_of_app in H0.
    apply andb_true_iff in H0 as [_ Hl].
    assert (K : l = u) by (apply (literal_anchor c u v l S1); auto; congruence).
    subst l. now apply (Hend a).
  - (* the suffix starts at the anchor or after it *)
    destruct l as [|x l].
    + simpl in E2. subst b. destruct u as [|y u]; [contradiction|].
      simpl. rewrite free_of_cons in Hu. apply andb_true_iff in Hu as [Hy _].
      apply negb_true_iff in Hy.
      destruct (ceqb y c) eqn:Y; [|reflexivity].
      apply ceqb_eq in Y. subst y. now rewrite ceqb_refl in Hy.
    + simpl in E2. injection E2 as _ E2. apply literal_no_anchor.
      rewrite E2, free_of_app in H1. now apply andb_true_iff in H1 as [_ H1].
Qed.

(** A pattern that starts with a literal fails where the literal does. *)
Lemma literal_first (l : text) (r : regex) (s : text) :
  strip_prefix l s = None -> match_at (Seq (Lit l) r) s = None.
Proof. intros H. unfold match_at. rewrite run_Seq, run_Lit. now rewrite H. Qed.

(** *** Substitution and search past a prefix without matches *)

Lemma sub_past (r : regex) (repl : Match -> W text) (P s : text) :
  (forall p1 p2, P = p1 ++ p2 -> p2 <> [] -> match_at r (p2 ++ s) = None) ->
  value (sub r repl (P ++ s)) = P ++ value (sub r repl s).
Proof.
  induction P as [|c P IH]; intros H; [reflexivity|].
  simpl. rewrite sub_no_match by (apply (H [] (c :: P)); [reflexivity | discriminate]).
  rewrite Synthesis.value_bind_cons. f_equal. apply IH.
  intros p1 p2 -> N. now apply (H (c :: p1)).
Qed.

Lemma finditer_past (r : regex) (P s : text) :
  (forall p1 p2, P = p1 ++ p2 -> p2 <> [] -> match_at r (p2 ++ s) = None) ->
  finditer r (P ++ s) = finditer r s.
Proof.
  induction P as [|c P IH]; intros H; [reflexivity|].
  simpl. rewrite finditer_no_match
    by (apply (H [] (c :: P)); [reflexivity | discriminate]).
  apply IH. intros p1 p2 -> N. now apply (H (c :: p1)).
Qed.

Lemma finditer_none (r : regex) (s : text) :
  (forall a b, s = a ++ b -> match_at r b = None) -> finditer r s = [].
Proof.
  induction s as [|c s IH]; intros H; [reflexivity|].
  rewrite finditer_no_match by (apply (H []); reflexivity).
  apply IH. intros a b ->. now apply (H (c :: a)).
Qed.

Lemma value_sub_match (r : regex) (repl : Match -> W text) (s : text)
    (m : Match) :
  nonempty r = true -> match_at r s = Some m ->
  value (sub r repl s) = value (repl m) ++ value (sub r repl (rest m)).
Proof.
  intros N H. rewrite (sub_match r repl s m N H).
  apply Synthesis.value_bind_app.
Qed.

Lemma value_sub_none (r : regex) (repl : Match -> W text) (s : text) :
  (forall a b, s = a ++ b -> match_at r b = None) ->
  value (sub r repl s) = s.
Proof. intros H. now rewrite sub_unchanged. Qed.


(** *** Reading a pattern piece by piece *)

Section Steps.
Context {R : Type}.

Lemma step_lit (l : text) (r : regex) (s : text) (caps : captures)
    (k : @cont R) :
  run (Seq (Lit l) r) (l ++ s) caps k = run r s caps k.
Proof. rewrite run_Seq, run_Lit. now rewrite strip_prefix_app. Qed.

Lemma step_lit_last (l : text) (s : text) (caps : captures) (k : @cont R) :
  run (Lit l) (l ++ s) caps k = k s caps.
Proof. rewrite run_Lit. now rewrite strip_prefix_app. Qed.

Lemma lit_fails (x : ascii) (l : text) (c : ascii) (s : text)
    (caps : captures) (k : @cont R) :
  ceqb x c = false -> run (Lit (x :: l)) (c :: s) caps k = None.
Proof. intros H. rewrite run_Lit. now rewrite strip_prefix_neq. Qed.

Lemma seq_lit_fails (x : ascii) (l : text) (r : regex) (c : ascii) (s : text)
    (caps : captures) (k : @cont R) :
  ceqb x c = false -> run (Seq (Lit (x :: l)) r) (c :: s) caps k = None.
Proof. intros H. rewrite run_Seq. now apply lit_fails. Qed.

(** A group over a repeated class takes the whole run when what follows
    cannot start inside it. *)
Lemma step_group_plus (n : nat) (p : ascii -> bool) (r : regex) (a s : text)
    (caps : captures) (k : @cont R) :
  a <> [] -> forallb p a = true -> match s with [] => True | c :: _ => p c = false end ->
  (forall c s' caps', p c = true -> run r (c :: s') caps' k = None) ->
  run (Seq (Grp n (Plus p)) r) (a ++ s) caps k = run r s ((n, a) :: caps) k.
Proof.
  intros Na Ha Hs Hr. rewrite run_Seq, run_Grp, plus_greedy; auto.
  destruct (take_while_app p a s Ha Hs) as [E1 E2]. rewrite E1, E2.
  destruct a; [contradiction|]. now rewrite consumed_app.
Qed.

Lemma step_group_star (n : nat) (p : ascii -> bool) (r : regex) (a s : text)
    (caps : captures) (k : @cont R) :
  forallb p a = true -> match s with [] => True | c :: _ => p c = false end ->
  (forall c s' caps', p c = true -> run r (c :: s') caps' k = None) ->
  run (Seq (Grp n (Star p)) r) (a ++ s) caps k = run r s ((n, a) :: caps) k.
Proof.
  intros Ha Hs Hr. rewrite run_Seq, run_Grp, run_Star, star_greedy; auto.
  destruct (take_while_app p a s Ha Hs) as [E1 E2]. rewrite E2.
  now rewrite consumed_app.
Qed.

Lemma step_star (p : ascii -> bool) (r : regex) (a s : text)
    (caps : captures) (k : @cont R) :
  forallb p a = true -> match s with [] => True | c :: _ => p c = false end ->
  (forall c s' caps', p c = true -> run r (c :: s') caps' k = None) ->
  run (Seq (Star p) r) (a ++ s) caps k = run r s caps k.
Proof.
  intros Ha Hs Hr. rewrite run_Seq, run_Star, star_greedy; auto.
  destruct (take_while_app p a s Ha Hs) as [E1 E2]. now rewrite E2.
Qed.

(** The same when what follows succeeds after the whole run. *)
Lemma step_star_first (p : ascii -> bool) (r : regex) (a s : text)
    (caps : captures) (k : @cont R) (x : R) :
  forallb p a = true -> match s with [] => True | c :: _ => p c = false end ->
  run r s caps k = Some x ->
  run (Seq (Star p) r) (a ++ s) caps k = Some x.
Proof.
  intros Ha Hs Hr. rewrite run_Seq, run_Star. apply star_first.
  destruct (take_while_app p a s Ha Hs) as [E1 E2]. now rewrite E2.
Qed.
End Steps.

Lemma consumed_eq (a s s' : text) : s = a ++ s' -> consumed s s' = a.
Proof. intros ->. apply consumed_app. Qed.

Lemma space_not_R (c : ascii) : is_space c = true -> ceqb "R" c = false.
Proof. by_cases c. Qed.

Lemma space_not_I (c : ascii) : is_space c = true -> ceqb "I" c = false.
Proof. by_cases c. Qed.

Ltac side lemma :=
  first [ assumption | reflexivity
        | let c := fresh "c" in
          let H := fresh "H" in
          intros c ? ? H;
          first [apply seq_lit_fails | apply lit_fails]; now apply lemma ].

(** *** The first pass on the table *)

Lemma row_pattern_match (table ws1 body ws2 rest : text) :
  table <> [] -> forallb is_word table = true ->
  forallb is_space ws1 = true ->
  body <> [] -> forallb not_brace body = true ->
  forallb is_space ws2 = true ->
  match_at row_pattern
    (table ++ t ": {" ++ ws1 ++ t "Row: {" ++ body ++ t "}" ++ ws2
       ++ t "Insert:" ++ rest)
  = Some (mkMatch
            (table ++ t ": {" ++ ws1 ++ t "Row: {" ++ body ++ t "}" ++ ws2
               ++ t "Insert:")
            [(2, body); (1, table)] rest).
Proof.
  intros Nt Wt W1 Nb Wb W2. unfold match_at, row_pattern. cbn [cat].
  rewrite step_group_plus by side word_not_colon.
  rewrite step_lit, step_star by side space_not_R.
  rewrite step_lit, step_group_plus by side not_brace_true.
  rewrite step_lit, step_star by side space_not_I.
  rewrite step_lit_last. f_equal. f_equal.
  apply consumed_eq. now rewrite <- !app_assoc.
Qed.


Lemma word_chars_free_of (c : ascii) (w : text) :
  is_word c = false -> forallb is_word w = true -> free_of c w = true.
Proof.
  intros Hc. induction w as [|x w IH]; [reflexivity|]. cbn [forallb].
  intros H. apply andb_true_iff in H as [Hx H]. rewrite free_of_cons, (IH H).
  destruct (ceqb c x) eqn:E; [|reflexivity].
  apply ceqb_eq in E. congruence.
Qed.

Lemma row_needs_open (b : text) (m : Match) :
  match_at row_pattern b = Some m ->
  exists w y, w <> [] /\ forallb is_word w = true /\ b = w ++ t ": {" ++ y.
Proof.
  unfold match_at, row_pattern. cbn [cat]. rewrite run_Seq. intros H.
  apply run_Grp_Plus in H as (w & s1 & -> & Nw & Ww & H).
  rewrite run_Seq, run_Lit in H.
  destruct (strip_prefix (t ": {") s1) as [s2|] eqn:E; [|discriminate].
  apply strip_prefix_Some in E. subst s1. eauto.
Qed.

(** In a text whose only opening brace does not follow a colon and a
    space, [row_pattern] matches nowhere. *)
Lemma row_nowhere (A B : text) :
  free_of "{" A = true -> free_of "{" B = true ->
  (forall a, A <> a ++ t ": ") ->
  forall a b, A ++ "{" :: B = a ++ b -> match_at row_pattern b = None.
Proof.
  intros HA HB Hend a b E.
  destruct (match_at row_pattern b) as [m|] eqn:M; [exfalso|reflexivity].
  apply row_needs_open in M as (w & y & Nw & Ww & ->).
  assert (Fw : free_of "{" (w ++ t ": ") = true).
  { rewrite free_of_app, (word_chars_free_of "{" w eq_refl Ww). reflexivity. }
  replace (w ++ t ": {" ++ y) with ((w ++ t ": ") ++ "{" :: y) in E
    by (now rewrite <- app_assoc).
  apply app_eq_app in E as [l [[E1 E2]|[E1 E2]]].
  - assert (Fl : free_of "{" l = true).
    { rewrite E1, free_of_app in HA. now apply andb_true_iff in HA as [_ HA]. }
    apply (unique_split (fun x => negb (ceqb "{" x))) in E2 as [E2 _];
      trivial.
    apply (Hend (a ++ w)). rewrite E1, <- E2. now rewrite <- app_assoc.
  - destruct l as [|x l].
    + simpl in E2. destruct w as [|w0 w]; [contradiction|].
      simpl in E2. injection E2 as <- _. discriminate Ww.
    + simpl in E2. injection E2 as _ E2. rewrite E2, free_of_app in HB.
      apply andb_true_iff in HB as [_ HB].
      rewrite free_of_app in HB. apply andb_true_iff in HB as [_ HB].
      discriminate HB.
Qed.

(** *** The groups of the circular declarations *)

Section Schema.
Context {R : Type}.

Lemma step_schema (name : text) (r : regex) (s : text) (caps : captures)
    (k : @cont R) :
  name = t "public" \/ name = t "genesis" ->
  run (Seq (Grp 1 schema) r) (name ++ s) caps k
  = run r s ((1, name) :: caps) k.
Proof.
  intros [->| ->]; rewrite run_Seq, run_Grp; unfold schema; cbn [run].
  - rewrite strip_prefix_app, consumed_app.
    destruct (run r s ((1, t "public") :: caps) k); [reflexivity|].
    reflexivity.
  - change (strip_prefix (t "public") (t "genesis" ++ s)) with (@None text).
    now rewrite strip_prefix_app, consumed_app.
Qed.
End Schema.

Lemma other_than_stops (x c : ascii) :
  other_than x c = true -> ceqb x c = false.
Proof. unfold other_than. apply negb_true_iff. Qed.

Lemma free_of_other_than (c : ascii) (s : text) :
  free_of c s = forallb (other_than c) s.
Proof. reflexivity. Qed.

Lemma drop_while_stops (p : ascii -> bool) (a : text) (x : ascii) (s : text) :
  p x = false ->
  match drop_while p a ++ x :: s with [] => True | c :: _ => p c = false end.
Proof.
  intros Hx. destruct (drop_while p a) as [|c r] eqn:E; [exact Hx|].
  simpl. now apply drop_while_head in E.
Qed.

Lemma insert_pattern_match (schema table omit ov rest : text) :
  schema = t "public" \/ schema = t "genesis" ->
  table <> [] -> forallb is_word table = true ->
  omit <> [] -> free_of ">" omit = true ->
  free_of "}" ov = true ->
  match_at insert_pattern (circular_insert schema table omit ov ++ rest)
  = Some (mkMatch (circular_insert schema table omit ov)
            [(4, drop_while is_space ov); (3, omit); (2, table); (1, schema)]
            rest).
Proof.
  intros Hs Nt Wt No Fo Fv. unfold match_at, insert_pattern, circular_insert.
  cbn [cat]. rewrite <- !app_assoc.
  rewrite step_lit, (step_schema schema _ _ _ _ Hs), step_lit.
  rewrite step_group_plus by side word_not_quote.
  rewrite step_lit.
  rewrite step_group_plus by side other_than_stops.
  rewrite step_lit.
  rewrite <- (take_drop_while is_space ov) at 1. rewrite <- app_assoc.
  apply step_star_first.
  - apply take_while_all.
  - apply (drop_while_stops is_space ov "}" rest). reflexivity.
  - rewrite step_group_star.
    + rewrite step_lit_last. f_equal. f_equal. apply consumed_eq.
      now rewrite <- !app_assoc.
    + now apply forallb_drop_while.
    + reflexivity.
    + intros c s' caps' Hc. apply lit_fails. now apply not_brace_true.
Qed.

Lemma update_pattern_match (schema table rest : text) :
  schema = t "public" \/ schema = t "genesis" ->
  table <> [] -> forallb is_word table = true ->
  match_at update_pattern (circular_update schema table ++ rest)
  = Some (mkMatch (circular_update schema table)
            [(2, table); (1, schema)] rest).
Proof.
  intros Hs Nt Wt. unfold match_at, update_pattern, circular_update.
  cbn [cat]. rewrite <- !app_assoc.
  rewrite step_lit, (step_schema schema _ _ _ _ Hs), step_lit.
  rewrite step_group_plus by side word_not_quote.
  rewrite step_lit_last. f_equal. f_equal. apply consumed_eq.
  now rewrite <- !app_assoc.
Qed.


(** *** The characters of the generated lines *)

Lemma split1_chars (q : ascii -> bool) (c : ascii) (s : text) :
  forallb q s = true ->
  forallb q (fst (split1 c s)) = true /\ forallb q (snd (split1 c s)) = true.
Proof.
  induction s as [|x s IH]; simpl; [auto|]. intros H.
  apply andb_true_iff in H as [Hx H]. destruct (ceqb c x); [auto|].
  destruct (split1 c s) as [a b]. simpl in *. rewrite Hx.
  destruct (IH H). auto.
Qed.

Lemma split_chars (q : ascii -> bool) (c : ascii) (s : text) :
  forallb q s = true -> forall p, In p (split c s) -> forallb q p = true.
Proof.
  induction s as [|x s IH]; simpl.
  - intros _ p [<-|[]]. reflexivity.
  - intros H. apply andb_true_iff in H as [Hx H]. specialize (IH H).
    destruct (ceqb c x).
    + intros p [<-|Hp]; [reflexivity | auto].
    + destruct (split c s) as [|p0 ps].
      * intros p [<-|[]]. simpl. now rewrite Hx.
      * intros p [<-|Hp].
        -- simpl. rewrite Hx. apply IH. now left.
        -- apply IH. now right.
Qed.

Lemma add_override_chars (q : ascii -> bool) (d : dict text) (line : text) :
  forallb q line = true ->
  (forall f, In f d -> forallb q (snd f) = true) ->
  forall f, In f (add_override d line) -> forallb q (snd f) = true.
Proof.
  intros Hl Hd f. unfold add_override.
  destruct (has_char ":" (strip line)); [|auto].
  destruct (split1_chars q ":" (strip line) (forallb_strip q line Hl))
    as [_ Ha].
  destruct (split1 ":" (strip line)) as [before after]. simpl in Ha.
  intros H. destruct f as [k v]. apply dict_set_In in H as [H|H]; [|auto].
  injection H as _ ->. simpl.
  now apply forallb_rstrip_by, forallb_rstrip_by, forallb_strip.
Qed.

Lemma overrides_chars (q : ascii -> bool) (ov : text) :
  forallb q ov = true ->
  forall f, In f (parse_overrides ov) -> forallb q (snd f) = true.
Proof.
  intros H. unfold parse_overrides.
  pose proof (forallb_strip q ov H) as Hs.
  destruct (strip ov) as [|c s]; [intros f []|].
  pose proof (split_chars q nl (c :: s) Hs) as Hl.
  generalize (split nl (c :: s)) Hl. intros lines.
  assert (G : forall d : dict text,
            (forall f, In f d -> forallb q (snd f) = true) ->
            (forall p, In p lines -> forallb q p = true) ->
            forall f, In f (fold_left add_override lines d) ->
                      forallb q (snd f) = true).
  { induction lines as [|l lines IH]; intros d Hd Hp; [exact Hd|].
    simpl. apply IH.
    - apply add_override_chars; [apply Hp; now left | exact Hd].
    - intros p Hin. apply Hp. now right. }
  intros Hp. apply G; [intros f [] | exact Hp].
Qed.

Lemma dict_get_pair {V} (d : dict V) (k : text) (v : V) :
  dict_get d k = Some v -> In (k, v) d.
Proof.
  induction d as [|[k' v'] d IH]; simpl; [discriminate|].
  destruct (eqb k' k) eqn:E.
  - apply eqb_eq in E. subst k'. intros H. injection H as ->. now left.
  - auto.
Qed.

Lemma free_of_join (c : ascii) (lines : list text) :
  negb (ceqb c nl) = true ->
  (forall l, In l lines -> free_of c l = true) ->
  free_of c (join [nl] lines) = true.
Proof.
  intros Hc. induction lines as [|l lines IH]; intros H; [reflexivity|].
  destruct lines as [|l' lines].
  - apply H. now left.
  - change (join [nl] (l :: l' :: lines))
      with (l ++ nl :: join [nl] (l' :: lines)).
    rewrite free_of_app, free_of_cons, Hc, (H l (or_introl eq_refl)).
    apply IH. intros x Hx. apply H. now right.
Qed.

Lemma parse_overrides_lstrip (ov : text) :
  parse_overrides (drop_while is_space ov) = parse_overrides ov.
Proof.
  unfold parse_overrides, strip, lstrip. now rewrite drop_while_idem.
Qed.

Lemma plain_table_spec (schema table : text) (fields : dict text) :
  plain_table schema table fields = true ->
  (schema = t "public" \/ schema = t "genesis")
  /\ table <> [] /\ forallb is_word table = true
  /\ forallb well_formed fields = true
  /\ forall f, In f fields ->
       forallb is_word (fst f) = true
       /\ free_of "}" (snd f) = true /\ free_of "<" (snd f) = true.
Proof.
  unfold plain_table. rewrite !andb_true_iff, orb_true_iff, negb_true_iff.
  rewrite !eqb_eq, eqb_neq. intros ((((Hs & Nt) & Wt) & Wf) & Pf).
  repeat (split; [assumption|]).
  intros [name typ] Hin. rewrite forallb_forall in Wf, Pf.
  specialize (Wf _ Hin). specialize (Pf _ Hin).
  apply well_formed_spec in Wf as (_ & Wn & _).
  unfold plain_type in Pf. apply andb_true_iff in Pf as [P1 P2]. auto.
Qed.

Section Lines.
Variable c : ascii.
Hypothesis c_not_word : is_word c = false.
Hypothesis c_not_layout : free_of c (nl :: t " ?:") = true.
Variable fields : dict text.
Hypothesis names_word : forall f, In f fields -> forallb is_word (fst f) = true.
Hypothesis types_free : forall f, In f fields -> free_of c (snd f) = true.

Lemma c_not_nl : negb (ceqb c nl) = true.
Proof.
  rewrite free_of_cons in c_not_layout.
  now apply andb_true_iff in c_not_layout as [H _].
Qed.

Lemma literal_free (l : text) :
  forallb (fun x => existsb (ceqb x) (nl :: t " ?:")) l = true ->
  free_of c l = true.
Proof.
  induction l as [|x l IH]; [reflexivity|]. cbn [forallb]. intros H.
  apply andb_true_iff in H as [Hx H]. rewrite free_of_cons, (IH H), andb_true_r.
  unfold free_of in c_not_layout. rewrite forallb_forall in c_not_layout.
  apply existsb_exists in Hx as (y & Hy & E). apply ceqb_eq in E. subst y.
  now apply c_not_layout.
Qed.

Lemma row_text_free : free_of c (row_text fields) = true.
Proof.
  unfold row_text. apply free_of_join; [apply c_not_nl|].
  intros l Hl. apply in_map_iff in Hl as (f & <- & Hf). unfold row_line.
  rewrite !free_of_app, (types_free f Hf),
    (word_chars_free_of c _ c_not_word (names_word f Hf)).
  now rewrite !literal_free.
Qed.

Lemma update_lines_free : free_of c (join [nl] (update_lines fields)) = true.
Proof.
  rewrite Synthesis.update_lines_map. apply free_of_join; [apply c_not_nl|].
  intros l Hl. apply in_map_iff in Hl as ([name typ] & <- & Hf).
  pose proof (types_free _ Hf) as Ht.
  pose proof (word_chars_free_of c _ c_not_word (names_word _ Hf)) as Hn.
  simpl in Ht, Hn. unfold update_line, indent.
  rewrite !free_of_app, Ht, Hn. now rewrite !literal_free.
Qed.

Lemma insert_lines_free (omit : list text) (overrides : dict text) :
  (forall f, In f overrides -> free_of c (snd f) = true) ->
  free_of c (join [nl] (insert_lines omit overrides fields)) = true.
Proof.
  intros Hov. rewrite Synthesis.insert_lines_map.
  apply free_of_join; [apply c_not_nl|].
  intros l Hl. apply in_map_iff in Hl as ([name typ] & <- & Hf).
  pose proof (types_free _ Hf) as Ht.
  pose proof (word_chars_free_of c _ c_not_word (names_word _ Hf)) as Hn.
  simpl in Ht, Hn. unfold insert_line, indent.
  destruct (set_mem name omit).
  - rewrite !free_of_app, Ht, Hn. now rewrite !literal_free.
  - destruct (dict_get overrides name) as [v|] eqn:E.
    + apply dict_get_pair in E. apply Hov in E. simpl in E.
      rewrite !free_of_app, E, Hn. now rewrite !literal_free.
    + destruct (contains (t "null") (lower typ));
        rewrite !free_of_app, Ht, Hn; now rewrite !literal_free.
Qed.
End Lines.


Ltac free_pieces :=
  repeat (rewrite free_of_app || rewrite free_of_cons).

Lemma collect_rows_value (content : text) :
  value (collect_rows content)
  = value (for_each (finditer row_pattern content) add_table []).
Proof. unfold collect_rows. now rewrite !value_bind. Qed.

(** The text after a closing brace is the text after the first one or
    lies after it. *)
Lemma after_brace (X R Y s1 : text) :
  free_of "}" X = true ->
  Y ++ "}" :: s1 = X ++ "}" :: R ->
  s1 = R \/ exists Y', Y' ++ "}" :: s1 = R.
Proof.
  intros F E. apply app_eq_app in E as [l [[E1 E2]|[E1 E2]]].
  - destruct l as [|x l].
    + injection E2 as ->. now left.
    + injection E2 as _ ->. right. now exists l.
  - destruct l as [|x l].
    + injection E2 as ->. now left.
    + injection E2 as <- _. rewrite E1, free_of_app in F.
      apply andb_true_iff in F as [_ F]. discriminate F.
Qed.

(** *** The three passes on the table *)

Section Table.
Variables schema table omit ov : text.
Variable fields : dict text.
Hypothesis table_ok : plain_table schema table fields = true.
Hypothesis names_distinct : NoDup (map fst fields).
Hypothesis omit_ok : plain_omit omit = true.
Hypothesis ov_ok : plain_overrides ov = true.

Lemma omit_spec :
  omit <> [] /\ free_of ">" omit = true /\ free_of "{" omit = true.
Proof.
  unfold plain_omit in omit_ok.
  rewrite !andb_true_iff, negb_true_iff, eqb_neq in omit_ok. tauto.
Qed.

Lemma overrides_spec :
  free_of "}" ov = true /\ free_of "{" ov = true /\ free_of "<" ov = true.
Proof.
  unfold plain_overrides in ov_ok. rewrite !andb_true_iff in ov_ok. tauto.
Qed.

Lemma schema_free (c : ascii) :
  is_word c = false -> free_of c schema = true.
Proof.
  intros Hc. destruct (plain_table_spec _ _ _ table_ok) as ([->| ->] & _);
    apply word_chars_free_of; trivial.
Qed.

Lemma table_free (c : ascii) : is_word c = false -> free_of c table = true.
Proof.
  intros Hc. destruct (plain_table_spec _ _ _ table_ok) as (_ & _ & W & _).
  now apply word_chars_free_of.
Qed.

Lemma declaration_split (insert update : text) :
  table_declaration table (row_block fields) insert update
  = before_insert table fields ++ insert ++ after_insert update.
Proof.
  unfold table_declaration, before_insert, after_insert. norm_app. reflexivity.
Qed.

Lemma fields_spec :
  forall f, In f fields ->
    forallb is_word (fst f) = true
    /\ free_of "}" (snd f) = true /\ free_of "<" (snd f) = true.
Proof. now destruct (plain_table_spec _ _ _ table_ok) as (_ & _ & _ & _ & H). Qed.

Lemma row_text_no_close : free_of "}" (row_text fields) = true.
Proof.
  apply row_text_free; try reflexivity; intros f Hf;
    now destruct (fields_spec f Hf) as (H1 & H2 & H3).
Qed.

Lemma row_text_no_angle : free_of "<" (row_text fields) = true.
Proof.
  apply row_text_free; try reflexivity; intros f Hf;
    now destruct (fields_spec f Hf) as (H1 & H2 & H3).
Qed.

Lemma before_insert_no_angle : free_of "<" (before_insert table fields) = true.
Proof.
  unfold before_insert, row_block. free_pieces.
  now rewrite (table_free "<" eq_refl), row_text_no_angle.
Qed.

Lemma table_spec :
  (schema = t "public" \/ schema = t "genesis")
  /\ table <> [] /\ forallb is_word table = true
  /\ forallb well_formed fields = true.
Proof.
  destruct (plain_table_spec _ _ _ table_ok) as (H1 & H2 & H3 & H4 & _).
  auto.
Qed.

(** The first pass finds the table and its fields. *)
Lemma collect_rows_table (insert_rest : text) :
  (forall a b, insert_rest = a ++ b -> match_at row_pattern b = None) ->
  value (collect_rows
           (before_insert table fields ++ t "Insert:" ++ insert_rest))
  = [(table, fields)].
Proof.
  intros Hrest. destruct table_spec as (_ & Nt & Wt & Wf).
  rewrite collect_rows_value.
  assert (E : before_insert table fields ++ t "Insert:" ++ insert_rest
              = table ++ t ": {" ++ (nl :: t "        ") ++ t "Row: {"
                  ++ (nl :: row_text fields ++ nl :: t "        ") ++ t "}"
                  ++ (nl :: t "        ") ++ t "Insert:" ++ insert_rest).
  { unfold before_insert, row_block. norm_app. reflexivity. }
  rewrite E.
  rewrite (finditer_match row_pattern _ _ eq_refl
             (row_pattern_match table (nl :: t "        ")
                (nl :: row_text fields ++ nl :: t "        ")
                (nl :: t "        ") insert_rest Nt Wt eq_refl
                ltac:(discriminate)
                ltac:(change (free_of "}" (nl :: row_text fields
                                             ++ nl :: t "        ") = true);
                      free_pieces; now rewrite row_text_no_close)
                eq_refl)).
  cbn [rest]. rewrite (finditer_none row_pattern insert_rest Hrest).
  rewrite value_for_each_cons, add_table_value.
  cbn [for_each ret value fst group groups lookup Nat.eqb dict_set].
  f_equal. f_equal.
  exact (parse_fields_lines [nl] (t "        ") fields eq_refl eq_refl
           Wf names_distinct).
Qed.

(** What follows [Insert:] in the document holds no Row block. *)
Lemma no_row_after_insert :
  forall a b,
    t " Omit<Database['" ++ schema ++ t "']['Tables']['" ++ table
      ++ t "']['Row'], " ++ omit ++ t "> & {" ++ ov ++ t "}"
      ++ after_insert (circular_update schema table) = a ++ b ->
    match_at row_pattern b = None.
Proof.
  destruct omit_spec as (_ & _ & Fo). destruct overrides_spec as (_ & Fv & _).
  intros a b E.
  apply (row_nowhere
           (t " Omit<Database['" ++ schema ++ t "']['Tables']['" ++ table
              ++ t "']['Row'], " ++ omit ++ t "> & ")
           (ov ++ t "}" ++ after_insert (circular_update schema table))
           ) with (a := a).
  - free_pieces. now rewrite (schema_free "{" eq_refl), (table_free "{" eq_refl), Fo.
  - unfold after_insert, circular_update. free_pieces.
    now rewrite (schema_free "{" eq_refl), (table_free "{" eq_refl), Fv.
  - intros x H. rewrite !app_assoc in H.
    change (t "> & ") with (t "> " ++ ["&"] ++ [" "]) in H.
    change (t ": ") with ([":"] ++ [" "]) in H.
    rewrite !app_assoc in H. apply app_inj_tail in H as [H _].
    apply app_inj_tail in H as [_ H]. discriminate H.
  - rewrite <- E. norm_app. reflexivity.
Qed.

Lemma not_suffix (S0 u : text) :
  (if eqb (firstn (length u) (rev S0)) (rev u) then false else true) = true ->
  forall a, S0 <> a ++ u.
Proof.
  intros H a E. subst S0. rewrite rev_app_distr, firstn_app in H.
  rewrite <- length_rev, firstn_all, Nat.sub_diag in H. simpl in H.
  now rewrite app_nil_r, eqb_refl in H.
Qed.

(** The second pass rewrites the Insert declaration and nothing else. *)
Lemma insert_pass_table :
  value (sub insert_pattern (replace_insert [(table, fields)])
           (before_insert table fields
              ++ circular_insert schema table omit ov
              ++ after_insert (circular_update schema table)))
  = before_insert table fields ++ flat_insert omit ov fields
      ++ after_insert (circular_update schema table).
Proof.
  destruct table_spec as (Hs & Nt & Wt & Wf).
  destruct omit_spec as (No & Fo & _). destruct overrides_spec as (Fv & _ & _).
  rewrite sub_past.
  - rewrite (value_sub_match insert_pattern _ _ _ eq_refl
               (insert_pattern_match schema table omit ov _ Hs Nt Wt No Fo Fv)).
    cbn [rest]. rewrite value_sub_none.
    + f_equal. f_equal. unfold replace_insert, flat_insert.
      cbn [group groups lookup Nat.eqb dict_get]. rewrite eqb_refl.
      now rewrite parse_overrides_lstrip.
    + intros a b E. unfold insert_pattern. cbn [cat]. apply literal_first.
      apply (literal_nowhere "<" (t "Insert: Omit") (t "Database['")
               (nl :: t "        Update: Partial")
               (t "Database['" ++ schema ++ t "']['Tables']['" ++ table
                  ++ t "']['Insert']>" ++ nl :: t "      }")) with (a := a).
      * discriminate.
      * reflexivity.
      * reflexivity.
      * free_pieces.
        now rewrite (schema_free "<" eq_refl), (table_free "<" eq_refl).
      * now apply not_suffix.
      * rewrite <- E. unfold after_insert, circular_update. norm_app.
        reflexivity.
  - intros p1 p2 E N. unfold insert_pattern. cbn [cat]. apply literal_first.
    unfold circular_insert. rewrite <- !app_assoc.
    apply (literal_before_anchor "<" (t "Insert: Omit") (t "Database['")
             (before_insert table fields) _ eq_refl before_insert_no_angle
             p1 p2 E N).
Qed.

Lemma flat_insert_no_angle : free_of "<" (flat_insert omit ov fields) = true.
Proof.
  destruct overrides_spec as (_ & _ & Fv).
  unfold flat_insert, closing. free_pieces.
  rewrite (insert_lines_free "<" eq_refl eq_refl fields); try reflexivity.
  - intros f Hf. now destruct (fields_spec f Hf).
  - intros f Hf. now destruct (fields_spec f Hf) as (H1 & H2 & H3).
  - intros f Hf. now apply (overrides_chars (other_than "<") ov Fv).
Qed.

(** The third pass rewrites the Update declaration and nothing else. *)
Lemma update_pass_table :
  value (sub update_pattern (replace_update [(table, fields)])
           (before_insert table fields ++ flat_insert omit ov fields
              ++ after_insert (circular_update schema table)))
  = before_insert table fields ++ flat_insert omit ov fields
      ++ after_insert (flat_update fields).
Proof.
  destruct table_spec as (Hs & Nt & Wt & Wf).
  assert (E0 : before_insert table fields ++ flat_insert omit ov fields
                 ++ after_insert (circular_update schema table)
               = (before_insert table fields ++ flat_insert omit ov fields
                    ++ nl :: t "        ")
                   ++ circular_update schema table ++ nl :: t "      }").
  { unfold after_insert. norm_app. reflexivity. }
  rewrite E0, sub_past.
  - rewrite (value_sub_match update_pattern _ _ _ eq_refl
               (update_pattern_match schema table _ Hs Nt Wt)).
    cbn [rest]. rewrite value_sub_none.
    + unfold replace_update, flat_update, after_insert.
      cbn [group groups lookup Nat.eqb dict_get]. rewrite eqb_refl.
      cbn [bind print ret value fst]. norm_app. reflexivity.
    + intros a b E. unfold update_pattern. cbn [cat]. apply literal_first.
      apply (literal_no_anchor "<" (t "Update: Partial") (t "Database['")).
      assert (F : free_of "<" (a ++ b) = true) by now rewrite <- E.
      rewrite free_of_app in F. now apply andb_true_iff in F as [_ F].
  - intros p1 p2 E N. unfold update_pattern. cbn [cat]. apply literal_first.
    unfold circular_update. rewrite <- !app_assoc.
    apply (literal_before_anchor "<" (t "Update: Partial") (t "Database['")
             (before_insert table fields ++ flat_insert omit ov fields
                ++ nl :: t "        ") _ eq_refl) with (p1 := p1);
      [|exact E|exact N].
    free_pieces.
    now rewrite before_insert_no_angle, flat_insert_no_angle.
Qed.

(** Steps 1 and 2 of [main] on the table. *)
Lemma flatten_table :
  value (flatten
           (table_declaration table (row_block fields)
              (circular_insert schema table omit ov)
              (circular_update schema table)))
  = table_declaration table (row_block fields)
      (flat_insert omit ov fields) (flat_update fields).
Proof.
  unfold flatten. rewrite !value_bind.
  rewrite !declaration_split.
  assert (R : value (collect_rows
                (before_insert table fields
                   ++ circular_insert schema table omit ov
                   ++ after_insert (circular_update schema table)))
              = [(table, fields)]).
  { unfold circular_insert. rewrite <- !app_assoc.
    apply (collect_rows_table
             (t " Omit<Database['" ++ schema ++ t "']['Tables']['" ++ table
                ++ t "']['Row'], " ++ omit ++ t "> & {" ++ ov ++ t "}"
                ++ after_insert (circular_update schema table))).
    apply no_row_after_insert. }
  rewrite R, insert_pass_table. apply update_pass_table.
Qed.

(** *** The normaliser on the flat table *)

Lemma flat_insert_no_close :
  free_of "}" (join [nl] (insert_lines (parse_omit omit) (parse_overrides ov)
                            fields)) = true.
Proof.
  destruct overrides_spec as (Fv & _ & _).
  apply (insert_lines_free "}" eq_refl eq_refl fields).
  - intros f Hf. now destruct (fields_spec f Hf).
  - intros f Hf. now destruct (fields_spec f Hf) as (H1 & H2 & H3).
  - intros f Hf. now apply (overrides_chars (other_than "}") ov Fv).
Qed.

Lemma flat_update_no_close :
  free_of "}" (join [nl] (update_lines fields)) = true.
Proof.
  apply (update_lines_free "}" eq_refl eq_refl fields).
  - intros f Hf. now destruct (fields_spec f Hf).
  - intros f Hf. now destruct (fields_spec f Hf) as (H1 & H2 & H3).
Qed.

(** In the flat table no Update block is followed by a boundary. *)
Lemma flat_table_no_boundary :
  forall a b,
    table_declaration table (row_block fields) (flat_insert omit ov fields)
      (flat_update fields) = a ++ b ->
    match_at relationships_pattern b = None
    /\ match_at last_table_pattern b = None.
Proof.
  intros a b E. rewrite no_match_rel, no_match_last. unfold boundary_here.
  destruct (update_block b) as [[body s1]|] eqn:U; [|auto].
  apply update_block_spec in U as (-> & _ & _).
  set (X1 := table ++ t ": {" ++ nl :: t "        " ++ t "Row: {"
               ++ nl :: row_text fields ++ nl :: t "        ").
  set (X2 := nl :: t "        " ++ t "Insert: {" ++ nl
               :: join [nl] (insert_lines (parse_omit omit)
                               (parse_overrides ov) fields)
               ++ nl :: t "        ").
  set (X3 := nl :: t "        " ++ t "Update: {" ++ nl
               :: join [nl] (update_lines fields) ++ nl :: t "        ").
  set (X4 := nl :: t "      ").
  assert (E' : (a ++ opener ++ body) ++ "}" :: s1
               = X1 ++ "}" :: X2 ++ "}" :: X3 ++ "}" :: X4 ++ "}" :: []).
  { rewrite <- app_assoc, <- app_assoc. change (t "}" ++ s1) with ("}" :: s1) in E.
    rewrite <- E. unfold table_declaration, row_block, flat_insert,
      flat_update, closing, X1, X2, X3, X4. norm_app. reflexivity. }
  clear E.
  assert (F1 : free_of "}" X1 = true).
  { unfold X1. free_pieces.
    now rewrite (table_free "}" eq_refl), row_text_no_close. }
  assert (F2 : free_of "}" X2 = true).
  { unfold X2. free_pieces. now rewrite flat_insert_no_close. }
  assert (F3 : free_of "}" X3 = true).
  { unfold X3. free_pieces. now rewrite flat_update_no_close. }
  assert (F4 : free_of "}" X4 = true) by reflexivity.
  apply (after_brace _ _ _ _ F1) in E' as [->|[Y E']];
    [unfold X2; split; reflexivity|].
  apply (after_brace _ _ _ _ F2) in E' as [->|[Y2 E']];
    [unfold X3; split; reflexivity|].
  apply (after_brace _ _ _ _ F3) in E' as [->|[Y3 E']];
    [split; reflexivity|].
  apply (after_brace _ _ _ _ F4) in E' as [->|[Y4 E']];
    [split; reflexivity|].
  destruct Y4; discriminate E'.
Qed.

End Table.

(** X10.  A table written as the doc string shows it (a Row block of
    well-formed declarations with distinct names, one per line; a circular
    Insert declaration of the same table with any exclusion list and any
    overrides; a circular Update declaration) comes out of [main]'s three
    steps with the Row block as it was, the Insert declaration replaced by
    one line per Row field and the Update declaration by the all-optional
    lines; the normaliser adds nothing to a lone table.  [main] writes
    that text to the file. *)
Theorem table_declaration_flattened
    (schema table omit ov : text) (fields : dict text) (fuel : nat) :
  plain_table schema table fields = true ->
  NoDup (map fst fields) ->
  plain_omit omit = true ->
  plain_overrides ov = true ->
  2 <= fuel ->
  let document :=
    table_declaration table (row_block fields)
      (circular_insert schema table omit ov) (circular_update schema table) in
  let flat :=
    table_declaration table (row_block fields)
      (flat_insert omit ov fields) (flat_update fields) in
  exists out,
    transform fuel document = Some (flat, out)
    /\ forall files,
         dict_get files path = Some document ->
         exists out',
           main fuel files
           = Some (Finished (dict_set files path flat) [path] out').
Proof.
  intros Ht ND Ho Hv Hf document flat.
  pose proof (flatten_table schema table omit ov fields Ht ND Ho Hv) as Fl.
  fold document in Fl. fold flat in Fl.
  assert (Hn : normalize fuel flat = Some flat).
  { apply Rerun.normalize_unchanged; [exact Hf|].
    apply (flat_table_no_boundary schema table omit ov fields Ht Hv). }
  assert (Htr : exists out, transform fuel document = Some (flat, out)).
  { unfold transform. destruct (flatten document) as [x o].
    cbn [value fst] in Fl. subst x. rewrite Hn. eauto. }
  destruct Htr as [out Htr]. exists out. split; [exact Htr|].
  intros files Hfile. unfold main. rewrite Hfile, Htr.
  assert (D : eqb flat document = false).
  { apply eqb_neq. unfold flat, document. rewrite !declaration_split.
    intros H. apply app_inv_head in H.
    unfold flat_insert, circular_insert in H. discriminate H. }
  rewrite D. cbn [negb]. eauto.
Qed.

Lemma table_declaration_flattened_witness :
  exists out,
    transform 2
      (table_declaration (t "campaigns") (row_block campaigns_fields)
         (circular_insert (t "public") (t "campaigns")
            (t "'id' | 'created_at'") (t " name?: Name "))
         (circular_update (t "public") (t "campaigns")))
    = Some (table_declaration (t "campaigns") (row_block campaigns_fields)
              (flat_insert (t "'id' | 'created_at'") (t " name?: Name ")
                 campaigns_fields)
              (flat_update campaigns_fields), out).
Proof.
  destruct (table_declaration_flattened (t "public") (t "campaigns")
              (t "'id' | 'created_at'") (t " name?: Name ") campaigns_fields 2)
    as [out [H _]].
  - reflexivity.
  - repeat constructor; simpl; intuition discriminate.
  - reflexivity.
  - reflexivity.
  - lia.
  - exists out. exact H.
Defined.

End EndToEnd.
(** ** The normaliser on a Tables section *)

Module Marking.
Import Text Out Re Convert Boundary Shapes Tables TablesSection.
Import TextFacts ReFacts Greedy Normalizer EndToEnd.

Section Quiet.
Variable boundary : text -> option (text * text).
Variable pass : text -> text.

Hypothesis pass_eq :
  forall s,
    pass s
    = match s with
      | [] => []
      | c :: s' =>
          match update_block s with
          | Some (body, s1) =>
              match boundary s1 with
              | Some (b, rest) =>
                  opener ++ body ++ t "}" ++ marker ++ b ++ pass rest
              | None => c :: pass s'
              end
          | None => c :: pass s'
          end
      end.

Hypothesis boundary_closer : forall s, boundary s <> None -> closer s <> None.

Lemma no_closer_no_boundary (s : text) : closer s = None -> boundary s = None.
Proof.
  intros H. destruct (boundary s) eqn:B; [|reflexivity].
  elim (boundary_closer s); congruence.
Qed.

Lemma quiet_nil (R : text) : quiet boundary [] R.
Proof. intros a c E N. symmetry in E. apply app_eq_nil in E as [_ ->]. congruence. Qed.

Lemma quiet_tail (x : ascii) (X R : text) :
  quiet boundary (x :: X) R -> quiet boundary X R.
Proof. intros H a c -> N. now apply (H (x :: a)). Qed.

Lemma quiet_app (X Y R : text) :
  quiet boundary X (Y ++ R) -> quiet boundary Y R -> quiet boundary (X ++ Y) R.
Proof.
  intros HX HY a c E N. apply app_eq_app in E as [l [[E1 E2]|[E1 E2]]].
  - subst c. destruct l as [|x l].
    + apply (HY [] Y); [reflexivity | exact N].
    + rewrite <- app_assoc. apply (HX a (x :: l) E1). discriminate.
  - now apply (HY l c).
Qed.

Lemma quiet_left (X Y R : text) :
  quiet boundary (X ++ Y) R -> quiet boundary X (Y ++ R).
Proof.
  intros H a c -> N. rewrite app_assoc. apply (H a (c ++ Y)).
  - now rewrite app_assoc.
  - destruct c; [congruence | discriminate].
Qed.

Lemma quiet_right (X Y R : text) :
  quiet boundary (X ++ Y) R -> quiet boundary Y R.
Proof. intros H a c -> N. apply (H (X ++ a) c); [now rewrite app_assoc | exact N]. Qed.

(** No Update block starts at a character other than [U]. *)
Lemma quiet_free (X R : text) : free_of "U" X = true -> quiet boundary X R.
Proof.
  intros F a c -> N. rewrite free_of_app in F.
  apply andb_true_iff in F as [_ F]. destruct c as [|x c]; [congruence|].
  rewrite free_of_cons in F. apply andb_true_iff in F as [F _].
  apply negb_true_iff in F. unfold boundary_here. cbn [app].
  now rewrite update_block_head.
Qed.

(** An Update block that starts before a closing brace ends there; when
    no boundary follows the brace, none starts before it. *)
Lemma quiet_closed (X0 R : text) :
  free_of "}" X0 = true -> boundary R = None ->
  quiet boundary (X0 ++ t "}") R.
Proof.
  intros F C a c E N. unfold boundary_here.
  destruct (update_block (c ++ R)) as [[body s1]|] eqn:U; [|reflexivity].
  apply update_block_spec in U as (Es & _ & Hb).
  destruct (split_last a c X0 "}" (eq_sym E) N) as (x & -> & Ex).
  assert (Fx : free_of "}" x = true).
  { rewrite <- Ex, free_of_app in F. now apply andb_true_iff in F as [_ F]. }
  assert (E' : x ++ "}" :: R = (opener ++ body) ++ "}" :: s1).
  { rewrite <- app_assoc in Es. rewrite <- app_assoc. exact Es. }
  apply (unique_split not_brace "}") in E' as [_ <-]; try reflexivity.
  - now rewrite C.
  - exact Fx.
  - rewrite forallb_app. now rewrite Hb.
Qed.

(** The pass copies a text in which no block with its boundary starts. *)
Lemma pass_copy (X : text) :
  forall R, quiet boundary X R -> pass (X ++ R) = X ++ pass R.
Proof.
  induction X as [|x X IH]; intros R Q; [reflexivity|]. cbn [app].
  destruct (pass_cases boundary pass pass_eq x (X ++ R))
    as [[_ H]|(body & s1 & b & rest & Hu & Hb & _)].
  - rewrite H. f_equal. apply IH. exact (quiet_tail x X R Q).
  - exfalso. pose proof (Q [] (x :: X) eq_refl ltac:(discriminate)) as N.
    unfold boundary_here in N. cbn [app] in N. rewrite Hu, Hb in N.
    discriminate N.
Qed.

Lemma pass_quiet (X : text) : quiet boundary X [] -> pass X = X.
Proof.
  intros Q. rewrite <- (app_nil_r X) at 1. rewrite (pass_copy X [] Q).
  rewrite (pass_eq []). apply app_nil_r.
Qed.

(** At an Update block followed by a boundary the pass puts the marker. *)
Lemma pass_mark (s body s1 b rest : text) :
  update_block s = Some (body, s1) -> boundary s1 = Some (b, rest) ->
  pass s = opener ++ body ++ t "}" ++ marker ++ b ++ pass rest.
Proof.
  intros Hu Hb. rewrite (pass_eq s). destruct s as [|c s']; [discriminate Hu|].
  now rewrite Hu, Hb.
Qed.

End Quiet.

(** *** The pieces of a table *)

Lemma plain_spec (T : table) :
  plain T = true ->
  plain_table (table_schema T) (table_name T) (table_fields T) = true
  /\ plain_omit (table_omit T) = true
  /\ plain_overrides (table_overrides T) = true.
Proof. unfold plain. rewrite !andb_true_iff. tauto. Qed.

Lemma flat_tables_cons (T : table) (Ts : list table) :
  tables_text flat_declaration (T :: Ts)
  = table_head T ++ table_body T ++ flat_update (table_fields T)
      ++ table_end ++ tables_text flat_declaration Ts.
Proof.
  cbn [tables_text].
  unfold flat_declaration, table_declaration, table_head, table_body, table_end.
  norm_app. reflexivity.
Qed.

Lemma marked_tables_cons (T : table) (Ts : list table) :
  tables_text marked_declaration (T :: Ts)
  = table_head T ++ table_body T ++ flat_update (table_fields T) ++ marker
      ++ table_end ++ tables_text marked_declaration Ts.
Proof.
  cbn [tables_text].
  unfold marked_declaration, table_declaration, table_head, table_body,
    table_end.
  norm_app. reflexivity.
Qed.

Lemma marked_but_last_cons (T : table) (Ts : list table) :
  marked_but_last (T :: Ts)
  = table_head T ++ table_body T ++ flat_update (table_fields T)
      ++ match Ts with [] => [] | _ :: _ => marker end
      ++ table_end ++ marked_but_last Ts.
Proof.
  cbn [marked_but_last]. destruct Ts as [|T2 Ts];
    unfold marked_declaration, flat_declaration, table_declaration, table_head,
      table_body, table_end; norm_app; reflexivity.
Qed.

(** The Update declaration of a flat table is an Update block. *)
Lemma flat_update_block (T : table) (s1 : text) :
  plain T = true ->
  exists body,
    update_block (flat_update (table_fields T) ++ s1) = Some (body, s1)
    /\ flat_update (table_fields T) = opener ++ body ++ t "}"
    /\ free_of "}" (opener ++ body) = true.
Proof.
  intros P. destruct (plain_spec T P) as (Pt & _ & _).
  exists (nl :: join [nl] (update_lines (table_fields T)) ++ nl :: t "        ").
  assert (F : free_of "}" (nl :: join [nl] (update_lines (table_fields T))
                             ++ nl :: t "        ") = true).
  { free_pieces. now rewrite (flat_update_no_close _ _ _ Pt). }
  split; [|split].
  - apply update_block_spec. split; [|split].
    + unfold flat_update, closing, opener. norm_app. reflexivity.
    + discriminate.
    + exact F.
  - unfold flat_update, closing, opener. norm_app. reflexivity.
  - rewrite free_of_app, F. reflexivity.
Qed.

Section Boundaries.
Variable boundary : text -> option (text * text).
Hypothesis boundary_closer : forall s, boundary s <> None -> closer s <> None.

(** Before the Update declaration of a flat table no block with its
    boundary starts: the blocks that start there end at the closing brace
    of the Row block or of the Insert block, and a declaration follows. *)
Lemma quiet_start (T : table) (R : text) :
  plain T = true ->
  quiet boundary (table_head T ++ table_body T)
    (flat_update (table_fields T) ++ R).
Proof.
  intros P. destruct (plain_spec T P) as (Pt & _ & Pv).
  replace (table_head T ++ table_body T)
    with (((t "      " ++ table_name T ++ t ": {" ++ nl :: t "        "
              ++ t "Row: {" ++ nl :: row_text (table_fields T)
              ++ nl :: t "        ") ++ t "}")
          ++ ((nl :: t "        " ++ t "Insert: {" ++ nl
                 :: join [nl] (insert_lines (parse_omit (table_omit T))
                                 (parse_overrides (table_overrides T))
                                 (table_fields T))
                 ++ nl :: t "        ") ++ t "}")
          ++ nl :: t "        ")
    by (unfold table_head, table_body, row_block, flat_insert, closing;
        norm_app; reflexivity).
  apply quiet_app; [|apply quiet_app].
  - apply quiet_closed.
    + free_pieces.
      now rewrite (table_free _ _ _ Pt "}" eq_refl), (row_text_no_close _ _ _ Pt).
    + apply (no_closer_no_boundary boundary boundary_closer). reflexivity.
  - apply quiet_closed.
    + free_pieces. now rewrite (flat_insert_no_close _ _ (table_omit T) _ _ Pt Pv).
    + apply (no_closer_no_boundary boundary boundary_closer). reflexivity.
  - apply quiet_free. reflexivity.
Qed.

(** Nor inside an Update declaration that a marker follows, nor in the
    marker and the last line of the table. *)
Lemma quiet_marked (T : table) (R : text) :
  plain T = true ->
  quiet boundary (flat_update (table_fields T) ++ marker ++ table_end) R.
Proof.
  intros P. destruct (flat_update_block T [] P) as (body & _ & -> & F).
  rewrite (app_assoc opener).
  apply quiet_app; [|apply quiet_free; reflexivity].
  apply quiet_closed; [exact F|].
  apply (no_closer_no_boundary boundary boundary_closer). reflexivity.
Qed.

Lemma quiet_marked_table (T : table) (R : text) :
  plain T = true ->
  quiet boundary
    (table_head T ++ table_body T ++ flat_update (table_fields T) ++ marker
       ++ table_end) R.
Proof.
  intros P. rewrite app_assoc. apply quiet_app.
  - rewrite <- app_assoc. apply quiet_start. exact P.
  - apply quiet_marked. exact P.
Qed.

Lemma quiet_marked_tables (Ts : list table) (R : text) :
  forallb plain Ts = true ->
  quiet boundary (tables_text marked_declaration Ts) R.
Proof.
  induction Ts as [|T Ts IH]; intros P; [apply quiet_nil|].
  cbn [forallb] in P. apply andb_true_iff in P as [P Ps].
  rewrite marked_tables_cons, !(app_assoc _ _ (tables_text _ _)).
  apply quiet_app; [|now apply IH].
  now apply quiet_marked_table.
Qed.

End Boundaries.

(** *** The passes on the section *)

Lemma next_table (T : table) (X : text) :
  plain T = true ->
  next_table_boundary (table_end ++ table_head T ++ X)
  = Some (table_end ++ table_head T, X).
Proof.
  intros P. destruct (plain_spec T P) as (Pt & _ & _).
  destruct (table_spec _ _ _ Pt) as (_ & Nt & Wt & _).
  unfold next_table_boundary.
  assert (C : closer (table_end ++ table_head T ++ X)
              = Some (t "      ", nl :: table_head T ++ X)) by reflexivity.
  rewrite C.
  assert (N : next_name (nl :: table_head T ++ X)
              = Some (t "      ", table_name T, X)).
  { apply next_name_spec. split; [|auto].
    unfold table_head. norm_app. reflexivity. }
  rewrite N. unfold table_end, table_head. norm_app. reflexivity.
Qed.

Lemma loop_settles (fuel : nat) (content : text) :
  content <> [] ->
  relationships_pass (relationships_pass content) = relationships_pass content ->
  3 <= fuel ->
  relationships_loop fuel [] content = Some (relationships_pass content).
Proof.
  intros N F Hf. apply (relationships_loop_mono 3 fuel); [exact Hf|].
  cbn [relationships_loop].
  destruct (eqb [] content) eqn:E0; [apply eqb_eq in E0; congruence|].
  destruct (eqb content (relationships_pass content)); [reflexivity|].
  now rewrite F, eqb_refl.
Qed.

Section Tail.
Variables section rest : text.
Hypothesis section_ok : section = t "Functions:" \/ section = t "Views:".
Hypothesis rest_rel : matches_nowhere relationships_pattern rest = true.
Hypothesis rest_last : matches_nowhere last_table_pattern rest = true.

Lemma rest_quiet_rel : quiet next_table_boundary rest [].
Proof.
  intros a c E N. rewrite app_nil_r. apply no_match_rel.
  exact (proj1 (Rerun.matches_nowhere_spec _ _) rest_rel a c E).
Qed.

Lemma rest_quiet_last : quiet end_of_tables_boundary rest [].
Proof.
  intros a c E N. rewrite app_nil_r. apply no_match_last.
  exact (proj1 (Rerun.matches_nowhere_spec _ _) rest_last a c E).
Qed.

Lemma section_end_quiet (boundary : text -> option (text * text)) :
  quiet boundary (table_end ++ section_end section) rest
  /\ quiet boundary (section_end section) rest.
Proof.
  assert (Q : quiet boundary (table_end ++ section_end section) rest)
    by (apply quiet_free; destruct section_ok as [-> | ->]; reflexivity).
  split; [exact Q | exact (quiet_right boundary _ _ _ Q)].
Qed.

Lemma relationships_pass_tail :
  relationships_pass (table_end ++ section_end section ++ rest)
  = table_end ++ section_end section ++ rest
  /\ relationships_pass (section_end section ++ rest)
     = section_end section ++ rest.
Proof.
  pose proof (pass_quiet next_table_boundary relationships_pass
                relationships_pass_eq rest rest_quiet_rel) as F.
  split.
  - rewrite app_assoc.
    rewrite (pass_copy next_table_boundary relationships_pass
               relationships_pass_eq _ _
               (proj1 (section_end_quiet next_table_boundary))).
    now rewrite F.
  - rewrite (pass_copy next_table_boundary relationships_pass
               relationships_pass_eq _ _
               (proj2 (section_end_quiet next_table_boundary))).
    now rewrite F.
Qed.

Lemma last_table_pass_tail :
  last_table_pass (section_end section ++ rest) = section_end section ++ rest.
Proof.
  rewrite (pass_copy end_of_tables_boundary last_table_pass
             last_table_pass_eq _ _
             (proj2 (section_end_quiet end_of_tables_boundary))).
  now rewrite (pass_quiet end_of_tables_boundary last_table_pass
                 last_table_pass_eq rest rest_quiet_last).
Qed.

(** After the last table comes the end of the Tables block, not a name. *)
Lemma last_of_section :
  next_table_boundary (table_end ++ section_end section ++ rest) = None.
Proof. reflexivity. Qed.

Lemma end_of_section :
  end_of_tables_boundary (table_end ++ section_end section ++ rest)
  = Some (table_end ++ section_end section, rest).
Proof. destruct section_ok as [-> | ->]; reflexivity. Qed.

(** One turn of the loop, from the colon after the name of a table: the
    marker goes into every table that another one follows. *)
Lemma first_pass_from_body (Ts : list table) :
  forall T : table,
    plain T = true -> forallb plain Ts = true ->
    relationships_pass
      (table_body T ++ flat_update (table_fields T) ++ table_end
         ++ tables_text flat_declaration Ts ++ section_end section ++ rest)
    = table_body T ++ flat_update (table_fields T)
        ++ match Ts with [] => [] | _ :: _ => marker end
        ++ table_end ++ marked_but_last Ts ++ section_end section ++ rest.
Proof.
  induction Ts as [|T2 Ts IH]; intros T P Ps.
  - cbn [tables_text marked_but_last app].
    rewrite (pass_copy next_table_boundary relationships_pass
               relationships_pass_eq (table_body T))
      by (apply (quiet_right _ (table_head T));
          apply (quiet_start _ next_table_closer T _ P)).
    f_equal.
    destruct (flat_update_block T [] P) as (body & _ & EU & F).
    rewrite (pass_copy next_table_boundary relationships_pass
               relationships_pass_eq (flat_update (table_fields T))).
    + f_equal. apply relationships_pass_tail.
    + rewrite EU, app_assoc. apply quiet_closed; [exact F|].
      apply last_of_section.
  - cbn [forallb] in Ps. apply andb_true_iff in Ps as [P2 Ps].
    rewrite flat_tables_cons, marked_but_last_cons, <- !app_assoc.
    rewrite (pass_copy next_table_boundary relationships_pass
               relationships_pass_eq (table_body T))
      by (apply (quiet_right _ (table_head T));
          apply (quiet_start _ next_table_closer T _ P)).
    f_equal.
    destruct (flat_update_block T
                (table_end ++ table_head T2 ++ table_body T2
                   ++ flat_update (table_fields T2) ++ table_end
                   ++ tables_text flat_declaration Ts
                   ++ section_end section ++ rest) P)
      as (body & U & EU & _).
    rewrite (pass_mark next_table_boundary relationships_pass
               relationships_pass_eq _ _ _ _ _ U (next_table T2 _ P2)).
    rewrite (IH T2 P2 Ps), EU. norm_app. reflexivity.
Qed.

Lemma quiet_but_last (Ts : list table) :
  forallb plain Ts = true ->
  quiet next_table_boundary (marked_but_last Ts) (section_end section ++ rest).
Proof.
  induction Ts as [|T Ts IH]; intros Ps; [apply quiet_nil|].
  cbn [forallb] in Ps. apply andb_true_iff in Ps as [P Ps].
  rewrite marked_but_last_cons. destruct Ts as [|T2 Ts].
  - cbn [marked_but_last app]. rewrite app_nil_r, app_assoc.
    destruct (flat_update_block T [] P) as (body & _ & EU & F).
    apply quiet_app; [|apply quiet_app].
    + rewrite <- app_assoc. apply (quiet_start _ next_table_closer T _ P).
    + rewrite EU, app_assoc. apply quiet_closed; [exact F|].
      apply last_of_section.
    + apply quiet_free. reflexivity.
  - rewrite !(app_assoc _ _ (marked_but_last _)).
    apply quiet_app; [|exact (IH Ps)].
    apply (quiet_marked_table _ next_table_closer T _ P).
Qed.

Lemma first_pass_section (before : text) (Ts : list table) :
  free_of "U" before = true -> forallb plain Ts = true ->
  relationships_pass
    (before ++ tables_text flat_declaration Ts ++ section_end section ++ rest)
  = before ++ marked_but_last Ts ++ section_end section ++ rest.
Proof.
  intros Fb Ps.
  rewrite (pass_copy next_table_boundary relationships_pass
             relationships_pass_eq before _ (quiet_free _ _ _ Fb)).
  f_equal. destruct Ts as [|T Ts]; [apply relationships_pass_tail|].
  cbn [forallb] in Ps. apply andb_true_iff in Ps as [P Ps].
  rewrite flat_tables_cons, marked_but_last_cons, <- !app_assoc.
  rewrite (pass_copy next_table_boundary relationships_pass
             relationships_pass_eq (table_head T))
    by (apply quiet_left; apply (quiet_start _ next_table_closer T _ P)).
  f_equal. exact (first_pass_from_body Ts T P Ps).
Qed.

Lemma second_pass_section (before : text) (Ts : list table) :
  free_of "U" before = true -> forallb plain Ts = true ->
  relationships_pass
    (before ++ marked_but_last Ts ++ section_end section ++ rest)
  = before ++ marked_but_last Ts ++ section_end section ++ rest.
Proof.
  intros Fb Ps.
  rewrite (pass_copy next_table_boundary relationships_pass
             relationships_pass_eq before _ (quiet_free _ _ _ Fb)).
  rewrite (pass_copy next_table_boundary relationships_pass
             relationships_pass_eq _ _ (quiet_but_last Ts Ps)).
  now rewrite (proj2 relationships_pass_tail).
Qed.

Lemma last_pass_tables (Ts : list table) :
  forallb plain Ts = true ->
  last_table_pass (marked_but_last Ts ++ section_end section ++ rest)
  = tables_text marked_declaration Ts ++ section_end section ++ rest.
Proof.
  induction Ts as [|T Ts IH]; intros Ps; [apply last_table_pass_tail|].
  cbn [forallb] in Ps. apply andb_true_iff in Ps as [P Ps].
  rewrite marked_but_last_cons, marked_tables_cons. destruct Ts as [|T2 Ts].
  - cbn [marked_but_last tables_text app]. rewrite <- !app_assoc.
    cbn [app]. rewrite (app_assoc (table_head T)).
    rewrite (pass_copy end_of_tables_boundary last_table_pass
               last_table_pass_eq (table_head T ++ table_body T))
      by apply (quiet_start _ end_of_tables_closer T _ P).
    destruct (flat_update_block T (table_end ++ section_end section ++ rest) P)
      as (body & U & EU & _).
    rewrite (pass_mark end_of_tables_boundary last_table_pass
               last_table_pass_eq _ _ _ _ _ U end_of_section).
    rewrite (pass_quiet end_of_tables_boundary last_table_pass
               last_table_pass_eq rest rest_quiet_last).
    rewrite EU. norm_app. reflexivity.
  - rewrite <- !app_assoc.
    replace (table_head T ++ table_body T ++ flat_update (table_fields T)
               ++ marker ++ table_end ++ marked_but_last (T2 :: Ts)
               ++ section_end section ++ rest)
      with ((table_head T ++ table_body T ++ flat_update (table_fields T)
               ++ marker ++ table_end)
              ++ marked_but_last (T2 :: Ts) ++ section_end section ++ rest)
      by (rewrite <- !app_assoc; reflexivity).
    rewrite (pass_copy end_of_tables_boundary last_table_pass
               last_table_pass_eq _ _
               (quiet_marked_table _ end_of_tables_closer T _ P)).
    rewrite (IH Ps), <- !app_assoc. reflexivity.
Qed.

Lemma last_pass_section (before : text) (Ts : list table) :
  free_of "U" before = true -> forallb plain Ts = true ->
  last_table_pass
    (before ++ marked_but_last Ts ++ section_end section ++ rest)
  = before ++ tables_text marked_declaration Ts ++ section_end section ++ rest.
Proof.
  intros Fb Ps.
  rewrite (pass_copy end_of_tables_boundary last_table_pass
             last_table_pass_eq before _ (quiet_free _ _ _ Fb)).
  now rewrite (last_pass_tables Ts Ps).
Qed.

Lemma normalize_section (before : text) (Ts : list table) (fuel : nat) :
  free_of "U" before = true -> forallb plain Ts = true -> 3 <= fuel ->
  relationships_loop fuel []
    (before ++ tables_text flat_declaration Ts ++ section_end section ++ rest)
  = Some (before ++ marked_but_last Ts ++ section_end section ++ rest)
  /\ normalize fuel
       (before ++ tables_text flat_declaration Ts ++ section_end section
          ++ rest)
     = Some (before ++ tables_text marked_declaration Ts
               ++ section_end section ++ rest).
Proof.
  intros Fb Ps Hf.
  assert (L : relationships_loop fuel []
                (before ++ tables_text flat_declaration Ts
                   ++ section_end section ++ rest)
              = Some (before ++ marked_but_last Ts ++ section_end section
                        ++ rest)).
  { rewrite <- (first_pass_section before Ts Fb Ps).
    apply loop_settles; [|  | exact Hf].
    - intros E. apply (f_equal (@length ascii)) in E.
      rewrite !length_app in E. unfold section_end in E.
      rewrite !length_app in E. simpl in E. lia.
    - rewrite (first_pass_section before Ts Fb Ps).
      apply (second_pass_section before Ts Fb Ps). }
  split; [exact L|]. unfold normalize. rewrite L.
  now rewrite (last_pass_section before Ts Fb Ps).
Qed.

End Tail.

(** X16.  On a Tables section of flat tables (each a Row block, an Insert
    block and an Update block of well-formed lines) closed by [Functions:]
    or [Views:], the loop of the normaliser changes the text once and
    leaves the marker after the Update block of every table but the last;
    the substitution for the last table then adds the missing one, so that
    every table of the section ends with one marker.  The text before the
    section holds no [U]; in the text after it neither pattern matches. *)
Theorem tables_section_marked
    (before : text) (Ts : list table) (section rest : text) (fuel : nat) :
  free_of "U" before = true ->
  forallb plain Ts = true ->
  section = t "Functions:" \/ section = t "Views:" ->
  matches_nowhere relationships_pattern rest = true ->
  matches_nowhere last_table_pattern rest = true ->
  3 <= fuel ->
  relationships_loop fuel []
    (before ++ tables_text flat_declaration Ts ++ section_end section ++ rest)
  = Some (before ++ marked_but_last Ts ++ section_end section ++ rest)
  /\ normalize fuel
       (before ++ tables_text flat_declaration Ts ++ section_end section
          ++ rest)
     = Some (before ++ tables_text marked_declaration Ts
               ++ section_end section ++ rest).
Proof.
  intros Fb Ps Hs R1 R2 Hf.
  exact (normalize_section section rest Hs R1 R2 before Ts fuel Fb Ps Hf).
Qed.

Lemma tables_section_marked_witness :
  normalize 3
    (t "    Tables: {" ++ nl
       :: tables_text flat_declaration
            [ mkTable (t "public") (t "campaigns") Spec.campaigns_fields
                (t "'id'") (t " name?: Name ");
              mkTable (t "genesis") (t "leads") [(t "email", t "string | null")]
                (t "'email'") [] ]
       ++ section_end (t "Views:") ++ t " {}")
  = Some
      (t "    Tables: {" ++ nl
         :: tables_text marked_declaration
              [ mkTable (t "public") (t "campaigns") Spec.campaigns_fields
                  (t "'id'") (t " name?: Name ");
                mkTable (t "genesis") (t "leads")
                  [(t "email", t "string | null")] (t "'email'") [] ]
         ++ section_end (t "Views:") ++ t " {}").
Proof.
  refine (proj2 (tables_section_marked (t "    Tables: {" ++ [nl]) _
                   (t "Views:") (t " {}") 3 _ _ _ _ _ _)).
  - reflexivity.
  - reflexivity.
  - now right.
  - reflexivity.
  - reflexivity.
  - lia.
Defined.

End Marking.
(** ** The whole run on a Tables section *)

Module WholeSection.
Import Text Out Re Convert Boundary Spec Shapes Tables TablesSection.
Import TextFacts ReFacts CredsFacts Greedy Normalizer.
Import DictFacts StripFacts GroupFacts FirstPass Declarations EndToEnd Marking.

(** *** Where a Row block can start *)

(** A match of [row_pattern] starts with a name, a colon, an opening
    brace, white space and [Row: {]. *)
Lemma row_match_shape (b : text) (m : Match) :
  match_at row_pattern b = Some m ->
  exists w ws y,
    w <> [] /\ forallb is_word w = true /\ forallb is_space ws = true
    /\ b = w ++ t ": {" ++ ws ++ t "Row: {" ++ y.
Proof.
  unfold match_at, row_pattern. cbn [cat]. rewrite run_Seq. intros H.
  apply run_Grp_Plus in H as (w & s1 & -> & Nw & Ww & H).
  rewrite run_Seq, run_Lit in H.
  destruct (strip_prefix (t ": {") s1) as [s2|] eqn:E; [|discriminate].
  apply strip_prefix_Some in E. subst s1.
  rewrite run_Seq, run_Star in H.
  apply star_sound in H as (ws & s3 & -> & H & Hws).
  rewrite run_Seq, run_Lit in H.
  destruct (strip_prefix (t "Row: {") s3) as [s4|] eqn:E; [|discriminate].
  apply strip_prefix_Some in E. subst s3. exists w, ws, s4. auto.
Qed.

Lemma row_nonword (c : ascii) (s : text) :
  is_word c = false -> match_at row_pattern (c :: s) = None.
Proof.
  intros Hc. destruct (match_at row_pattern (c :: s)) as [m|] eqn:M;
    [exfalso|reflexivity].
  apply row_needs_open in M as (w & y & Nw & Ww & E).
  destruct w as [|x w]; [contradiction|]. injection E as -> _.
  cbn [forallb] in Ww. apply andb_true_iff in Ww as [Ww _]. congruence.
Qed.

Lemma row_past_nonword (P s : text) :
  forallb (fun c => negb (is_word c)) P = true ->
  forall p1 p2, P = p1 ++ p2 -> p2 <> [] ->
    match_at row_pattern (p2 ++ s) = None.
Proof.
  intros H p1 p2 -> N. destruct p2 as [|c p2]; [contradiction|].
  rewrite forallb_app in H. apply andb_true_iff in H as [_ H].
  cbn [forallb] in H. apply andb_true_iff in H as [H _].
  apply negb_true_iff in H. now apply row_nonword.
Qed.

Lemma drop_while_all (p : ascii -> bool) (a s : text) :
  forallb p a = true -> drop_while p (a ++ s) = drop_while p s.
Proof.
  induction a as [|c a IH]; [reflexivity|]. cbn [forallb]. intros H.
  apply andb_true_iff in H as [Hc H]. cbn [app drop_while]. rewrite Hc. auto.
Qed.

Lemma drop_while_some (p : ascii -> bool) (a s : text) :
  forallb p a = false ->
  drop_while p (a ++ s) = drop_while p a ++ s
  /\ exists c r, drop_while p a = c :: r.
Proof.
  induction a as [|c a IH]; [discriminate|]. cbn [forallb app drop_while].
  destruct (p c) eqn:Hc; cbn [andb]; [exact IH|]. intros _. split; eauto.
Qed.

(** After a text without [R], and four spaces, no Row block starts unless
    [Row: {] is what follows the white space. *)
Lemma row_before (before S0 : text) :
  free_of "R" before = true ->
  strip_prefix (t "Row: {") (drop_while is_space S0) = None ->
  forall p1 p2, before ++ t "    " = p1 ++ p2 -> p2 <> [] ->
    match_at row_pattern (p2 ++ S0) = None.
Proof.
  intros FR HS p1 p2 E N.
  destruct (match_at row_pattern (p2 ++ S0)) as [m|] eqn:M;
    [exfalso|reflexivity].
  apply app_eq_app in E as [l [[E1 E2]|[E1 E2]]].
  - (* the match starts in [before] *)
    subst p2. apply row_match_shape in M as (w & ws & y & Nw & Ww & Hws & E).
    rewrite E1, free_of_app in FR.
    apply andb_true_iff in FR as [_ Fl]. clear E1 N.
    rewrite <- !app_assoc in E.
    (* the name lies in [before] *)
    assert (Hw : exists q', l = w ++ q').
    { apply app_eq_app in E as [l2 [[E3 E4]|[E3 E4]]]; [eauto|].
      destruct l2 as [|x l2]; [exists []; now rewrite app_nil_r in *|].
      exfalso. cbn in E4. injection E4 as <- _.
      rewrite E3, forallb_app in Ww. apply andb_true_iff in Ww as [_ Ww].
      discriminate Ww. }
    destruct Hw as [q' ->]. rewrite <- app_assoc in E.
    apply app_inv_head in E.
    rewrite free_of_app in Fl. apply andb_true_iff in Fl as [_ Fq].
    (* so do the colon and the brace *)
    destruct q' as [|c1 [|c2 [|c3 q2]]]; try discriminate E.
    change (t ": {" ++ ws ++ t "Row: {" ++ y)
      with (":" :: " " :: "{" :: ws ++ t "Row: {" ++ y) in E.
    cbn [app] in E. injection E as -> -> -> E.
    rewrite !free_of_cons in Fq. cbn [ceqb negb andb] in Fq.
    (* and [Row: {] follows the white space *)
    apply (f_equal (drop_while is_space)) in E.
    pose proof (fun s H => proj2 (take_while_app is_space ws s Hws H)) as Ed.
    rewrite Ed in E by reflexivity. clear Ed.
    destruct (forallb is_space q2) eqn:Sq.
    + rewrite (drop_while_all is_space q2 _ Sq) in E.
      change (drop_while is_space (" " :: " " :: " " :: " " :: S0))
        with (drop_while is_space S0) in E.
      rewrite E in HS. discriminate HS.
    + destruct (drop_while_some is_space q2
                  (" " :: " " :: " " :: " " :: S0) Sq) as [Ed (c & r & Ec)].
      rewrite Ed, Ec in E. cbn in E. injection E as -> _.
      apply andb_true_iff in Fq as [_ Fq]. apply andb_true_iff in Fq as [_ Fq].
      apply andb_true_iff in Fq as [_ Fq].
      pose proof (forallb_drop_while is_space _ q2 Fq) as Fd.
      rewrite Ec in Fd. discriminate Fd.
  - (* the match starts at a space *)
    destruct l as [|x l].
    + rewrite app_nil_r in E1. cbn in E2. subst p2.
      cbn [app] in M. now rewrite (row_nonword " " _ eq_refl) in M.
    + assert (Hsp : forallb (fun c => negb (is_word c)) (t "    ") = true)
        by reflexivity.
      rewrite E2 in Hsp.
      now rewrite (row_past_nonword _ S0 Hsp (x :: l) p2 eq_refl N) in M.
Qed.

(** After a text whose only opening brace does not follow a colon and a
    space, and which ends with white space, no Row block starts unless
    an opening brace follows. *)
Lemma row_between (A B s : text) :
  free_of "{" A = true -> free_of "{" B = true ->
  (forall a, A <> a ++ t ": ") ->
  (exists B' z, B = B' ++ [z] /\ is_space z = true) ->
  strip_prefix (t "{") s = None ->
  forall p1 p2, A ++ "{" :: B = p1 ++ p2 -> p2 <> [] ->
    match_at row_pattern (p2 ++ s) = None.
Proof.
  intros FA FB Hend (B' & z & EB & Hz) Hs p1 p2 E N.
  destruct (match_at row_pattern (p2 ++ s)) as [m|] eqn:M;
    [exfalso|reflexivity].
  apply row_needs_open in M as (w & y & Nw & Ww & Eb).
  assert (Fw : free_of "{" (w ++ t ": ") = true).
  { rewrite free_of_app, (word_chars_free_of "{" w eq_refl Ww). reflexivity. }
  replace (w ++ t ": {" ++ y) with ((w ++ t ": ") ++ "{" :: y) in Eb
    by (now rewrite <- app_assoc).
  apply app_eq_app in E as [l [[E1 E2]|[E1 E2]]].
  - subst p2. rewrite <- app_assoc in Eb. cbn [app] in Eb.
    assert (Fl : free_of "{" l = true).
    { rewrite E1, free_of_app in FA. now apply andb_true_iff in FA as [_ FA]. }
    apply (unique_split (fun x => negb (ceqb "{" x))) in Eb as [Eb _]; trivial.
    apply (Hend (p1 ++ w)). rewrite E1, Eb. now rewrite <- app_assoc.
  - destruct l as [|x l].
    + cbn in E2. subst p2. destruct w as [|w0 w]; [contradiction|].
      cbn in Eb. injection Eb as <- _. discriminate Ww.
    + cbn in E2. injection E2 as _ E2.
      assert (Fp : free_of "{" p2 = true).
      { rewrite E2, free_of_app in FB. now apply andb_true_iff in FB as [_ FB]. }
      rewrite EB in E2.
      destruct (split_last l p2 B' z (eq_sym E2) N) as (p2' & Ep & _).
      apply app_eq_app in Eb as [l2 [[E3 E4]|[E3 E4]]].
      * destruct l2 as [|c l2].
        -- cbn in E4. rewrite <- E4 in Hs. discriminate Hs.
        -- cbn in E4. injection E4 as <- _.
           rewrite E3, free_of_app, free_of_cons in Fp.
           apply andb_true_iff in Fp as [_ Fp]. discriminate Fp.
      * destruct l2 as [|c l2] using rev_ind.
        -- cbn in E4. rewrite E4 in Hs. discriminate Hs.
        -- clear IHl2.
           change (t ": ") with ([":"] ++ [" "]) in E3.
           rewrite !app_assoc in E3. apply app_inj_tail in E3 as [E3 _].
           assert (Hn : forallb (fun c => negb (is_space c)) (w ++ [":"]) = true).
           { rewrite forallb_app. apply andb_true_iff. split; [|reflexivity].
             rewrite forallb_forall in *. intros c0 Hc0.
             apply negb_true_iff, word_not_space. auto. }
           rewrite E3, Ep, !forallb_app in Hn.
           apply andb_true_iff in Hn as [Hn _].
           apply andb_true_iff in Hn as [_ Hn]. cbn in Hn.
           rewrite Hz in Hn. discriminate Hn.
Qed.

(** *** The first pass on the section *)

Lemma circular_tables_cons (T : table) (Ts : list table) (tail : text) :
  tables_text circular_declaration (T :: Ts) ++ tail
  = t "      " ++ circular_declaration T
      ++ nl :: tables_text circular_declaration Ts ++ tail.
Proof. cbn [tables_text]. norm_app. reflexivity. Qed.

Lemma tables_no_brace (render : table -> text) (Ts : list table) (tail : text) :
  strip_prefix (t "{") tail = None ->
  strip_prefix (t "{") (tables_text render Ts ++ tail) = None.
Proof. intros H. destruct Ts; [exact H | reflexivity]. Qed.

(** The first pass finds the Row block of a table and nothing else up to
    the end of its line. *)
Lemma row_step (T : table) (W : text) :
  plain T = true ->
  strip_prefix (t "{") W = None ->
  exists m,
    finditer row_pattern (circular_declaration T ++ nl :: W)
    = m :: finditer row_pattern W
    /\ group m 1 = table_name T
    /\ group m 2 = nl :: row_text (table_fields T) ++ nl :: t "        ".
Proof.
  intros P HW. destruct (plain_spec T P) as (Pt & Po & Pv).
  destruct (table_spec _ _ _ Pt) as (_ & Nt & Wt & _).
  destruct (omit_spec _ Po) as (_ & _ & Fo).
  destruct (overrides_spec _ Pv) as (_ & Fv & _).
  set (A := t " Omit<Database['" ++ table_schema T ++ t "']['Tables']['"
              ++ table_name T ++ t "']['Row'], " ++ table_omit T ++ t "> & ").
  set (B := table_overrides T ++ t "}"
              ++ after_insert (circular_update (table_schema T) (table_name T))
              ++ [nl]).
  assert (E : circular_declaration T ++ nl :: W
              = table_name T ++ t ": {" ++ (nl :: t "        ") ++ t "Row: {"
                  ++ (nl :: row_text (table_fields T) ++ nl :: t "        ")
                  ++ t "}" ++ (nl :: t "        ") ++ t "Insert:"
                  ++ (A ++ "{" :: B) ++ W).
  { unfold A, B, circular_declaration, table_declaration, row_block,
      circular_insert, after_insert.
    norm_app. reflexivity. }
  rewrite E.
  eexists. split; [|split].
  - rewrite (finditer_match row_pattern _ _ eq_refl
               (row_pattern_match (table_name T) (nl :: t "        ")
                  (nl :: row_text (table_fields T) ++ nl :: t "        ")
                  (nl :: t "        ") _ Nt Wt eq_refl
                  ltac:(discriminate)
                  ltac:(change (free_of "}" (nl :: row_text (table_fields T)
                                               ++ nl :: t "        ") = true);
                        free_pieces; now rewrite (row_text_no_close _ _ _ Pt))
                  eq_refl)).
    cbn [rest]. f_equal. apply finditer_past.
    apply (row_between A B W).
    + unfold A. free_pieces.
      now rewrite (schema_free _ _ _ Pt "{" eq_refl),
        (table_free _ _ _ Pt "{" eq_refl), Fo.
    + unfold B, after_insert, circular_update. free_pieces.
      now rewrite (schema_free _ _ _ Pt "{" eq_refl),
        (table_free _ _ _ Pt "{" eq_refl), Fv.
    + intros x H. unfold A in H. rewrite !app_assoc in H.
      change (t "> & ") with (t "> " ++ ["&"] ++ [" "]) in H.
      change (t ": ") with ([":"] ++ [" "]) in H.
      rewrite !app_assoc in H. apply app_inj_tail in H as [H _].
      apply app_inj_tail in H as [_ H]. discriminate H.
    + exists (table_overrides T ++ t "}"
                ++ after_insert (circular_update (table_schema T)
                                   (table_name T))), nl.
      split; [|reflexivity]. unfold B. now rewrite <- !app_assoc.
    + exact HW.
  - reflexivity.
  - reflexivity.
Qed.

Lemma rows_from_tables (tail : text) (Ts : list table) :
  strip_prefix (t "{") tail = None ->
  finditer row_pattern tail = [] ->
  forallb plain Ts = true ->
  Forall (fun T => NoDup (map fst (table_fields T))) Ts ->
  forall acc : dict (dict text),
    value (for_each
             (finditer row_pattern (tables_text circular_declaration Ts ++ tail))
             add_table acc)
    = fold_left add_row Ts acc.
Proof.
  intros Ht Hn. induction Ts as [|T Ts IH]; intros Ps Fs acc.
  - cbn [tables_text app fold_left]. rewrite Hn. reflexivity.
  - cbn [forallb] in Ps. apply andb_true_iff in Ps as [P Ps].
    inversion Fs as [|? ? FT Fs']; subst.
    destruct (plain_spec T P) as (Pt & _ & _).
    destruct (table_spec _ _ _ Pt) as (_ & _ & _ & Wf).
    rewrite circular_tables_cons.
    rewrite finditer_past
      by (apply row_past_nonword; reflexivity).
    destruct (row_step T (tables_text circular_declaration Ts ++ tail) P
                (tables_no_brace _ Ts tail Ht)) as (m & -> & G1 & G2).
    rewrite value_for_each_cons, add_table_value, G1, G2.
    assert (PF : parse_fields
                   (nl :: row_text (table_fields T) ++ nl :: t "        ")
                 = table_fields T)
      by exact (parse_fields_lines [nl] (t "        ") (table_fields T)
                  eq_refl eq_refl Wf FT).
    rewrite PF. cbn [fold_left]. now apply IH.
Qed.

(** With distinct names the assignments append the tables. *)
Lemma rows_distinct (Ts : list table) :
  forall acc : dict (dict text),
    NoDup (map fst acc ++ map table_name Ts) ->
    fold_left add_row Ts acc = acc ++ rows_of Ts.
Proof.
  induction Ts as [|T Ts IH]; intros acc ND.
  - cbn [fold_left rows_of map]. now rewrite app_nil_r.
  - cbn [fold_left map] in *. unfold add_row at 2.
    rewrite dict_set_new
      by (intros Hin; apply (NoDup_remove_2 _ _ _ ND);
          apply in_or_app; now left).
    rewrite IH.
    + cbn [rows_of map]. now rewrite <- app_assoc.
    + rewrite map_app, <- app_assoc. exact ND.
Qed.

(** A later assignment to a name replaces the earlier ones. *)
Lemma rows_lookup (name : text) (Ts : list table) :
  forall acc : dict (dict text),
    dict_get (fold_left add_row Ts acc) name
    = match last_fields name Ts with
      | Some fields => Some fields
      | None => dict_get acc name
      end.
Proof.
  induction Ts as [|T Ts IH]; intros acc; [reflexivity|].
  cbn [fold_left last_fields]. rewrite IH.
  destruct (last_fields name Ts) as [f|]; [reflexivity|].
  unfold add_row. destruct (eqb (table_name T) name) eqn:E.
  - apply eqb_eq in E. subst name. apply dict_get_set_same.
  - apply eqb_neq in E. now apply dict_get_set_other.
Qed.

Lemma not_row_name (name X : text) :
  forallb is_word name = true -> name <> t "Row" ->
  strip_prefix (t "Row: {") (name ++ t ": {" ++ X) = None.
Proof.
  intros W N.
  destruct (strip_prefix (t "Row: {") (name ++ t ": {" ++ X)) as [s'|] eqn:E;
    [exfalso|reflexivity].
  apply strip_prefix_Some in E.
  change (t "Row: {" ++ s') with (t "Row" ++ ":" :: t " {" ++ s') in E.
  change (name ++ t ": {" ++ X) with (name ++ ":" :: t " {" ++ X) in E.
  apply (unique_split (fun x => negb (ceqb ":" x))) in E as [E _];
    [congruence | | reflexivity | reflexivity].
  now apply (word_chars_free_of ":").
Qed.

Section Rows.
Variables before section rest : text.
Variable Ts : list table.
Hypothesis before_ok : free_of "R" before = true.
Hypothesis first_ok : forall T, hd_error Ts = Some T -> table_name T <> t "Row".
Hypothesis tables_ok : forallb plain Ts = true.
Hypothesis fields_distinct :
  Forall (fun T => NoDup (map fst (table_fields T))) Ts.
Hypothesis rest_row : matches_nowhere row_pattern (section ++ rest) = true.

Lemma tail_no_row : finditer row_pattern (section_end section ++ rest) = [].
Proof.
  replace (section_end section ++ rest)
    with ((t "    }" ++ nl :: t "    ") ++ section ++ rest)
    by (unfold section_end; norm_app; reflexivity).
  rewrite finditer_past by (apply row_past_nonword; reflexivity).
  apply finditer_none.
  exact (proj1 (Rerun.matches_nowhere_spec _ _) rest_row).
Qed.

Lemma rows_skip_before :
  finditer row_pattern
    (before ++ tables_text circular_declaration Ts ++ section_end section
       ++ rest)
  = finditer row_pattern
      (tables_text circular_declaration Ts ++ section_end section ++ rest).
Proof.
  destruct Ts as [|T Ts'] eqn:ETs.
  - cbn [tables_text app].
    replace (before ++ section_end section ++ rest)
      with ((before ++ t "    ") ++ t "}" ++ nl :: t "    " ++ section ++ rest)
      by (unfold section_end; norm_app; reflexivity).
    replace (section_end section ++ rest)
      with (t "    " ++ t "}" ++ nl :: t "    " ++ section ++ rest)
      by (unfold section_end; norm_app; reflexivity).
    rewrite finditer_past by (apply (row_before before); trivial).
    symmetry. apply finditer_past. apply row_past_nonword. reflexivity.
  - cbn [forallb] in tables_ok. apply andb_true_iff in tables_ok as [P _].
    destruct (plain_spec T P) as (Pt & _ & _).
    destruct (table_spec _ _ _ Pt) as (_ & Nt & Wt & _).
    rewrite circular_tables_cons.
    set (X := circular_declaration T
                ++ nl :: tables_text circular_declaration Ts'
                ++ section_end section ++ rest).
    replace (before ++ t "      " ++ X)
      with ((before ++ t "    ") ++ t "  " ++ X)
      by (norm_app; reflexivity).
    rewrite finditer_past.
    + rewrite (finditer_past row_pattern (t "  "))
        by (apply row_past_nonword; reflexivity).
      symmetry. apply finditer_past. apply row_past_nonword. reflexivity.
    + apply (row_before before); [exact before_ok|].
      change (drop_while is_space (t "  " ++ X)) with (drop_while is_space X).
      unfold X, circular_declaration, table_declaration.
      rewrite <- !app_assoc.
      destruct (table_name T) as [|c n] eqn:En; [congruence|].
      pose proof Wt as Wc. cbn [forallb] in Wc.
      apply andb_true_iff in Wc as [Wc _].
      cbn [app drop_while]. rewrite (word_not_space c Wc).
      change (c :: n ++ t ": {" ++ ?Y) with ((c :: n) ++ t ": {" ++ Y).
      apply not_row_name; [exact Wt|].
      rewrite <- En. apply first_ok. reflexivity.
Qed.

(** The first pass on the section: one assignment for every table, in the
    order of the file. *)
Lemma collect_rows_built :
  value (collect_rows
           (before ++ tables_text circular_declaration Ts
              ++ section_end section ++ rest))
  = rows_built Ts.
Proof.
  rewrite collect_rows_value, rows_skip_before.
  exact (rows_from_tables (section_end section ++ rest) Ts eq_refl
           tail_no_row tables_ok fields_distinct []).
Qed.

Lemma collect_rows_section :
  NoDup (map table_name Ts) ->
  value (collect_rows
           (before ++ tables_text circular_declaration Ts
              ++ section_end section ++ rest))
  = rows_of Ts.
Proof.
  intros names_distinct. rewrite collect_rows_built.
  exact (rows_distinct Ts [] names_distinct).
Qed.

End Rows.

(** X18.  The first pass keys the Row fields by table name alone: on a
    Tables section of tables as the doc string shows them, after a text
    without [R] (the first table not being called [Row]) and before a text
    without Row block, looking a name up in the mapping gives the Row
    fields of the last table of the section with that name, and nothing
    for a name no table has.  Tables that share a name share one entry. *)
Theorem rows_keyed_by_name
    (before : text) (Ts : list table) (section rest name : text) :
  free_of "R" before = true ->
  (forall T, hd_error Ts = Some T -> table_name T <> t "Row") ->
  forallb plain Ts = true ->
  Forall (fun T => NoDup (map fst (table_fields T))) Ts ->
  matches_nowhere row_pattern (section ++ rest) = true ->
  dict_get
    (value (collect_rows
              (before ++ tables_text circular_declaration Ts
                 ++ section_end section ++ rest))) name
  = last_fields name Ts.
Proof.
  intros Br H1 Ps Fs Rr.
  rewrite (collect_rows_built before section rest Ts Br H1 Ps Fs Rr).
  unfold rows_built. rewrite rows_lookup.
  now destruct (last_fields name Ts).
Qed.

Lemma rows_keyed_by_name_witness :
  dict_get
    (value (collect_rows
              (t "    Tables: {" ++ nl
                 :: tables_text circular_declaration
                      [ mkTable (t "public") (t "leads") campaigns_fields
                          (t "'id'") [];
                        mkTable (t "genesis") (t "leads")
                          [(t "email", t "string | null")] (t "'email'") [] ]
                 ++ section_end (t "Views:") ++ t " {}")))
    (t "leads")
  = Some [(t "email", t "string | null")].
Proof.
  refine (rows_keyed_by_name (t "    Tables: {" ++ [nl]) _ (t "Views:")
            (t " {}") (t "leads") _ _ _ _ _).
  - reflexivity.
  - intros T E. injection E as <-. discriminate.
  - reflexivity.
  - repeat constructor; simpl; intuition discriminate.
  - reflexivity.
Defined.

(** *** The second pass on the section *)

Lemma rows_of_get (Ts : list table) :
  NoDup (map table_name Ts) ->
  forall T, In T Ts ->
    dict_get (rows_of Ts) (table_name T) = Some (table_fields T).
Proof.
  induction Ts as [|T0 Ts IH]; intros ND T HT; [destruct HT|].
  cbn [rows_of map dict_get]. cbn [map] in ND.
  inversion ND as [|? ? Hn ND']; subst.
  destruct HT as [->|HT]; [now rewrite eqb_refl|].
  destruct (eqb (table_name T0) (table_name T)) eqn:E.
  - exfalso. apply eqb_eq in E. apply Hn. rewrite E. now apply in_map.
  - exact (IH ND' T HT).
Qed.

(** The literal an Insert declaration starts with does not begin in a
    text without colon that ends with a newline. *)
Lemma insert_not_in (p2 W : text) :
  free_of ":" p2 = true -> (exists p, p2 = p ++ [nl]) ->
  strip_prefix (t "Insert: Omit<Database['") (p2 ++ W) = None.
Proof.
  intros F (p & Ep).
  destruct (strip_prefix (t "Insert: Omit<Database['") (p2 ++ W)) as [s'|] eqn:E;
    [exfalso|reflexivity].
  apply strip_prefix_Some in E.
  change (t "Insert: Omit<Database['" ++ s')
    with (t "Insert" ++ ":" :: t " Omit<Database['" ++ s') in E.
  apply app_eq_app in E as [l [[E1 E2]|[E1 E2]]].
  - destruct l as [|x l].
    + rewrite app_nil_r in E1. rewrite Ep in E1.
      change (t "Insert") with (t "Inser" ++ ["t"]) in E1.
      apply app_inj_tail in E1 as [_ E1]. discriminate E1.
    + cbn [app] in E2. injection E2 as <- _.
      rewrite E1, free_of_app, free_of_cons in F.
      apply andb_true_iff in F as [_ F]. discriminate F.
  - assert (Fn : free_of nl (t "Insert") = true) by reflexivity.
    rewrite E1, Ep, !free_of_app in Fn.
    apply andb_true_iff in Fn as [Fn _].
    apply andb_true_iff in Fn as [_ Fn]. discriminate Fn.
Qed.

(** No Insert declaration starts in the Update line of a table and the
    line that closes the table, whatever follows. *)
Lemma after_insert_inert (T : table) (W : text) :
  plain T = true ->
  forall p1 p2,
    after_insert (circular_update (table_schema T) (table_name T)) ++ [nl]
    = p1 ++ p2 ->
    p2 <> [] -> match_at insert_pattern (p2 ++ W) = None.
Proof.
  intros P p1 p2 E N. destruct (plain_spec T P) as (Pt & _ & _).
  unfold insert_pattern. cbn [cat]. apply literal_first.
  set (S0 := nl :: t "        Update: Partial").
  set (S1 := t "Database['" ++ table_schema T ++ t "']['Tables']['"
               ++ table_name T ++ t "']['Insert']>" ++ nl :: t "      }"
               ++ [nl]).
  assert (E' : S0 ++ "<" :: S1 = p1 ++ p2).
  { rewrite <- E. unfold S0, S1, after_insert, circular_update.
    norm_app. reflexivity. }
  clear E. apply app_eq_app in E' as [l [[E1 E2]|[E1 E2]]].
  - subst p2. rewrite <- app_assoc. cbn [app].
    destruct (strip_prefix (t "Insert: Omit<Database['")
                (l ++ "<" :: S1 ++ W)) eqn:E; [exfalso|reflexivity].
    assert (Fl : free_of "<" l = true).
    { assert (F0 : free_of "<" S0 = true) by reflexivity.
      rewrite E1, free_of_app in F0. now apply andb_true_iff in F0 as [_ F0]. }
    assert (K : l = t "Insert: Omit").
    { apply (literal_anchor "<" (t "Insert: Omit") (t "Database['") l
               (S1 ++ W)); [reflexivity | exact Fl |].
      change (t "Insert: Omit" ++ "<" :: t "Database['")
        with (t "Insert: Omit<Database['").
      congruence. }
    subst l. revert E1. now apply not_suffix.
  - destruct l as [|x l].
    + cbn [app] in E2. subst p2. reflexivity.
    + cbn [app] in E2. injection E2 as _ E2. apply insert_not_in.
      * assert (F1 : free_of ":" S1 = true).
        { unfold S1. free_pieces.
          now rewrite (schema_free _ _ _ Pt ":" eq_refl),
            (table_free _ _ _ Pt ":" eq_refl). }
        rewrite E2, free_of_app in F1. now apply andb_true_iff in F1 as [_ F1].
      * assert (E3 : l ++ p2
                     = (t "Database['" ++ table_schema T ++ t "']['Tables']['"
                          ++ table_name T ++ t "']['Insert']>"
                          ++ nl :: t "      }") ++ [nl]).
        { rewrite <- E2. unfold S1. now rewrite <- !app_assoc. }
        destruct (split_last l p2 _ nl E3 N) as (p & Ep & _). eauto.
Qed.

Lemma replace_insert_value (rf : dict (dict text)) (T : table) (whole rest : text) :
  dict_get rf (table_name T) = Some (table_fields T) ->
  value (replace_insert rf
           (mkMatch whole
              [(4, drop_while is_space (table_overrides T));
               (3, table_omit T); (2, table_name T); (1, table_schema T)]
              rest))
  = flat_insert (table_omit T) (table_overrides T) (table_fields T).
Proof.
  intros H. unfold replace_insert, flat_insert.
  cbn [group groups lookup Nat.eqb]. rewrite H.
  now rewrite parse_overrides_lstrip.
Qed.

Lemma replace_update_value (rf : dict (dict text)) (T : table) (whole rest : text) :
  dict_get rf (table_name T) = Some (table_fields T) ->
  value (replace_update rf
           (mkMatch whole [(2, table_name T); (1, table_schema T)] rest))
  = flat_update (table_fields T).
Proof.
  intros H. unfold replace_update, flat_update.
  cbn [group groups lookup Nat.eqb]. now rewrite H.
Qed.

(** The second pass at a table: its Insert declaration is replaced and
    the pass goes on after its last line. *)
Lemma insert_step (rf : dict (dict text)) (T : table) (F W : text) :
  plain T = true ->
  dict_get rf (table_name T) = Some (table_fields T) ->
  free_of "<" F = true ->
  value (sub insert_pattern (replace_insert rf)
           (F ++ circular_insert (table_schema T) (table_name T) (table_omit T)
                   (table_overrides T)
              ++ after_insert (circular_update (table_schema T) (table_name T))
              ++ nl :: W))
  = F ++ flat_insert (table_omit T) (table_overrides T) (table_fields T)
      ++ after_insert (circular_update (table_schema T) (table_name T))
      ++ nl :: value (sub insert_pattern (replace_insert rf) W).
Proof.
  intros P Hget HF. destruct (plain_spec T P) as (Pt & Po & Pv).
  destruct (table_spec _ _ _ Pt) as (Hs & Nt & Wt & _).
  destruct (omit_spec _ Po) as (No & Fo & _).
  destruct (overrides_spec _ Pv) as (Fv & _ & _).
  rewrite sub_past.
  - rewrite (value_sub_match insert_pattern _ _ _ eq_refl
               (insert_pattern_match _ _ _ _ _ Hs Nt Wt No Fo Fv)).
    cbn [Re.rest]. rewrite (replace_insert_value rf T _ _ Hget).
    f_equal. f_equal.
    replace (after_insert (circular_update (table_schema T) (table_name T))
               ++ nl :: W)
      with ((after_insert (circular_update (table_schema T) (table_name T))
               ++ [nl]) ++ W)
      by (now rewrite <- app_assoc).
    rewrite sub_past by (apply after_insert_inert; exact P).
    now rewrite <- app_assoc.
  - intros p1 p2 E N. unfold insert_pattern. cbn [cat]. apply literal_first.
    unfold circular_insert. rewrite <- !app_assoc.
    apply (literal_before_anchor "<" (t "Insert: Omit") (t "Database['")
             F _ eq_refl HF p1 p2 E N).
Qed.

Lemma no_angle_no_insert (s : text) :
  free_of "<" s = true ->
  forall a b, s = a ++ b -> match_at insert_pattern b = None.
Proof.
  intros F a b ->. unfold insert_pattern. cbn [cat]. apply literal_first.
  apply (literal_no_anchor "<" (t "Insert: Omit") (t "Database['")).
  rewrite free_of_app in F. now apply andb_true_iff in F as [_ F].
Qed.

Lemma no_angle_no_update (s : text) :
  free_of "<" s = true ->
  forall a b, s = a ++ b -> match_at update_pattern b = None.
Proof.
  intros F a b ->. unfold update_pattern. cbn [cat]. apply literal_first.
  apply (literal_no_anchor "<" (t "Update: Partial") (t "Database['")).
  rewrite free_of_app in F. now apply andb_true_iff in F as [_ F].
Qed.

Lemma half_tables_cons (T : table) (Ts : list table) (tail : text) :
  tables_text half_declaration (T :: Ts) ++ tail
  = t "      " ++ half_declaration T
      ++ nl :: tables_text half_declaration Ts ++ tail.
Proof. cbn [tables_text]. norm_app. reflexivity. Qed.

Lemma insert_pass_tables (rf : dict (dict text)) (tail : text) (Ts : list table) :
  free_of "<" tail = true ->
  forallb plain Ts = true ->
  (forall T, In T Ts -> dict_get rf (table_name T) = Some (table_fields T)) ->
  forall F, free_of "<" F = true ->
    value (sub insert_pattern (replace_insert rf)
             (F ++ tables_text circular_declaration Ts ++ tail))
    = F ++ tables_text half_declaration Ts ++ tail.
Proof.
  intros Ft. induction Ts as [|T Ts IH]; intros Ps Hget F HF.
  - cbn [tables_text app]. apply value_sub_none. apply no_angle_no_insert.
    now rewrite free_of_app, HF, Ft.
  - cbn [forallb] in Ps. apply andb_true_iff in Ps as [P Ps].
    destruct (plain_spec T P) as (Pt & _ & _).
    rewrite circular_tables_cons, half_tables_cons.
    unfold circular_declaration, half_declaration.
    rewrite !declaration_split.
    replace (F ++ t "      "
               ++ (before_insert (table_name T) (table_fields T)
                     ++ circular_insert (table_schema T) (table_name T)
                          (table_omit T) (table_overrides T)
                     ++ after_insert (circular_update (table_schema T)
                                        (table_name T)))
               ++ nl :: tables_text
                          (fun T0 => table_declaration (table_name T0)
                                       (row_block (table_fields T0))
                                       (circular_insert (table_schema T0)
                                          (table_name T0) (table_omit T0)
                                          (table_overrides T0))
                                       (circular_update (table_schema T0)
                                          (table_name T0))) Ts ++ tail)
      with ((F ++ t "      " ++ before_insert (table_name T) (table_fields T))
              ++ circular_insert (table_schema T) (table_name T)
                   (table_omit T) (table_overrides T)
              ++ after_insert (circular_update (table_schema T) (table_name T))
              ++ nl :: [] ++ tables_text circular_declaration Ts ++ tail)
      by (rewrite <- !app_assoc; reflexivity).
    rewrite (insert_step rf T _ _ P (Hget T (or_introl eq_refl))).
    + rewrite (IH Ps (fun T0 H0 => Hget T0 (or_intror H0)) [] eq_refl).
      rewrite <- !app_assoc. reflexivity.
    + free_pieces.
      now rewrite HF, (before_insert_no_angle _ _ _ Pt).
Qed.

(** *** The third pass on the section *)

Lemma update_step (rf : dict (dict text)) (T : table) (F W : text) :
  plain T = true ->
  dict_get rf (table_name T) = Some (table_fields T) ->
  free_of "<" F = true ->
  value (sub update_pattern (replace_update rf)
           (F ++ circular_update (table_schema T) (table_name T) ++ W))
  = F ++ flat_update (table_fields T)
      ++ value (sub update_pattern (replace_update rf) W).
Proof.
  intros P Hget HF. destruct (plain_spec T P) as (Pt & _ & _).
  destruct (table_spec _ _ _ Pt) as (Hs & Nt & Wt & _).
  rewrite sub_past.
  - rewrite (value_sub_match update_pattern _ _ _ eq_refl
               (update_pattern_match _ _ _ Hs Nt Wt)).
    cbn [Re.rest]. now rewrite (replace_update_value rf T _ _ Hget).
  - intros p1 p2 E N. unfold update_pattern. cbn [cat]. apply literal_first.
    unfold circular_update. rewrite <- !app_assoc.
    apply (literal_before_anchor "<" (t "Update: Partial") (t "Database['")
             F _ eq_refl HF p1 p2 E N).
Qed.

Lemma flat_tables_app (T : table) (Ts : list table) (tail : text) :
  tables_text flat_declaration (T :: Ts) ++ tail
  = t "      " ++ flat_declaration T
      ++ nl :: tables_text flat_declaration Ts ++ tail.
Proof. cbn [tables_text]. norm_app. reflexivity. Qed.

Lemma update_pass_tables (rf : dict (dict text)) (tail : text) (Ts : list table) :
  free_of "<" tail = true ->
  forallb plain Ts = true ->
  (forall T, In T Ts -> dict_get rf (table_name T) = Some (table_fields T)) ->
  forall F, free_of "<" F = true ->
    value (sub update_pattern (replace_update rf)
             (F ++ tables_text half_declaration Ts ++ tail))
    = F ++ tables_text flat_declaration Ts ++ tail.
Proof.
  intros Ft. induction Ts as [|T Ts IH]; intros Ps Hget F HF.
  - cbn [tables_text app]. apply value_sub_none. apply no_angle_no_update.
    now rewrite free_of_app, HF, Ft.
  - cbn [forallb] in Ps. apply andb_true_iff in Ps as [P Ps].
    destruct (plain_spec T P) as (Pt & Po & Pv).
    rewrite half_tables_cons, flat_tables_app.
    assert (E : F ++ t "      " ++ half_declaration T
                  ++ nl :: tables_text half_declaration Ts ++ tail
                = (F ++ t "      "
                     ++ before_insert (table_name T) (table_fields T)
                     ++ flat_insert (table_omit T) (table_overrides T)
                          (table_fields T)
                     ++ nl :: t "        ")
                    ++ circular_update (table_schema T) (table_name T)
                    ++ (nl :: t "      }" ++ [nl])
                    ++ tables_text half_declaration Ts ++ tail).
    { unfold half_declaration. rewrite declaration_split.
      unfold after_insert. norm_app. reflexivity. }
    rewrite E, (update_step rf T _ _ P (Hget T (or_introl eq_refl))).
    + rewrite (IH Ps (fun T0 H0 => Hget T0 (or_intror H0))
                 (nl :: t "      }" ++ [nl]) eq_refl).
      unfold flat_declaration. rewrite declaration_split.
      unfold after_insert. norm_app. reflexivity.
    + free_pieces.
      now rewrite HF, (before_insert_no_angle _ _ _ Pt),
        (flat_insert_no_angle _ _ (table_omit T) _ _ Pt Pv).
Qed.

(** *** The three passes and the normaliser *)

Section Document.
Variables before section rest : text.
Variable Ts : list table.
Hypothesis before_angle : free_of "<" before = true.
Hypothesis before_row : free_of "R" before = true.
Hypothesis first_ok : forall T, hd_error Ts = Some T -> table_name T <> t "Row".
Hypothesis tables_ok : forallb plain Ts = true.
Hypothesis fields_distinct :
  Forall (fun T => NoDup (map fst (table_fields T))) Ts.
Hypothesis names_distinct : NoDup (map table_name Ts).
Hypothesis section_ok : section = t "Functions:" \/ section = t "Views:".
Hypothesis rest_angle : free_of "<" rest = true.
Hypothesis rest_row : matches_nowhere row_pattern (section ++ rest) = true.

Lemma tail_no_angle : free_of "<" (section_end section ++ rest) = true.
Proof.
  unfold section_end. free_pieces. rewrite rest_angle.
  now destruct section_ok as [-> | ->].
Qed.

(** Steps 1 and 2 of [main] on the section: every table gets its flat
    Insert and Update blocks, built from its own Row fields. *)
Lemma flatten_section :
  value (flatten
           (before ++ tables_text circular_declaration Ts
              ++ section_end section ++ rest))
  = before ++ tables_text flat_declaration Ts ++ section_end section ++ rest.
Proof.
  unfold flatten. rewrite !value_bind.
  rewrite (collect_rows_section before section rest Ts before_row first_ok
             tables_ok fields_distinct rest_row names_distinct).
  rewrite (insert_pass_tables (rows_of Ts) _ Ts tail_no_angle tables_ok
             (rows_of_get Ts names_distinct) before before_angle).
  exact (update_pass_tables (rows_of Ts) _ Ts tail_no_angle tables_ok
           (rows_of_get Ts names_distinct) before before_angle).
Qed.

(** The converted section differs from the original one as soon as there
    is a table. *)
Lemma section_changed :
  Ts <> [] ->
  before ++ tables_text marked_declaration Ts ++ section_end section ++ rest
  <> before ++ tables_text circular_declaration Ts ++ section_end section
       ++ rest.
Proof.
  intros N H. destruct Ts as [|T Ts']; [congruence|].
  apply app_inv_head in H. cbn [tables_text] in H.
  unfold marked_declaration, circular_declaration in H.
  rewrite !declaration_split in H. rewrite <- !app_assoc in H.
  apply app_inv_head in H. apply app_inv_head in H.
  unfold flat_insert, circular_insert in H. discriminate H.
Qed.

End Document.

(** X17.  A Tables section as the doc string of the script shows it (in
    every table a Row block of well-formed declarations with distinct
    names, a circular Insert declaration with any exclusion list and any
    overrides, and a circular Update declaration; table names distinct)
    closed by [Functions:] or [Views:] comes out of [main]'s three steps
    with every Row block as it was, every Insert declaration replaced by
    one line per Row field of its own table, every Update declaration by
    the all-optional lines, and one marker after the Update block of every
    table; the text before and after the section is unchanged.  The text
    before holds no [<], [U] or [R] and the first table is not called
    [Row]; the text after holds no [<] and none of the patterns for Row
    blocks and boundaries matches in it.  With at least one table, [main]
    writes that text to the file. *)
Theorem section_converted
    (before : text) (Ts : list table) (section rest : text) (fuel : nat) :
  free_of "<" before = true ->
  free_of "U" before = true ->
  free_of "R" before = true ->
  (forall T, hd_error Ts = Some T -> table_name T <> t "Row") ->
  forallb plain Ts = true ->
  Forall (fun T => NoDup (map fst (table_fields T))) Ts ->
  NoDup (map table_name Ts) ->
  section = t "Functions:" \/ section = t "Views:" ->
  free_of "<" rest = true ->
  matches_nowhere row_pattern (section ++ rest) = true ->
  matches_nowhere relationships_pattern rest = true ->
  matches_nowhere last_table_pattern rest = true ->
  3 <= fuel ->
  let document : text :=
    before ++ tables_text circular_declaration Ts ++ section_end section
      ++ rest in
  let result : text :=
    before ++ tables_text marked_declaration Ts ++ section_end section
      ++ rest in
  exists out,
    transform fuel document = Some (result, out)
    /\ (Ts <> [] ->
        forall files,
          dict_get files path = Some document ->
          exists out',
            main fuel files
            = Some (Finished (dict_set files path result) [path] out')).
Proof.
  intros Ba Bu Br H1 Ps Fs Ns Hs Ra Rr R1 R2 Hf document result.
  pose proof (flatten_section before section rest Ts Ba Br H1 Ps Fs Ns Hs Ra Rr)
    as Fl.
  fold document in Fl.
  destruct (normalize_section section rest Hs R1 R2 before Ts fuel Bu Ps Hf)
    as [_ Hn].
  fold result in Hn.
  assert (Htr : exists out, transform fuel document = Some (result, out)).
  { unfold transform. destruct (flatten document) as [x o].
    cbn [value fst] in Fl. subst x. rewrite Hn. eauto. }
  destruct Htr as [out Htr]. exists out. split; [exact Htr|].
  intros N files Hfile. unfold main. rewrite Hfile, Htr.
  assert (D : eqb result document = false).
  { apply eqb_neq. now apply section_changed. }
  rewrite D. cbn [negb]. eauto.
Qed.

Lemma section_converted_witness :
  exists out,
    transform 3
      (t "    Tables: {" ++ nl
         :: tables_text circular_declaration
              [ mkTable (t "public") (t "campaigns") campaigns_fields
                  (t "'id' | 'created_at'") (t " name?: Name ");
                mkTable (t "genesis") (t "leads")
                  [(t "email", t "string | null")] (t "'email'") [] ]
         ++ section_end (t "Views:") ++ t " {}")
    = Some
        (t "    Tables: {" ++ nl
           :: tables_text marked_declaration
                [ mkTable (t "public") (t "campaigns") campaigns_fields
                    (t "'id' | 'created_at'") (t " name?: Name ");
                  mkTable (t "genesis") (t "leads")
                    [(t "email", t "string | null")] (t "'email'") [] ]
           ++ section_end (t "Views:") ++ t " {}", out).
Proof.
  destruct (section_converted (t "    Tables: {" ++ [nl])
              [ mkTable (t "public") (t "campaigns") campaigns_fields
                  (t "'id' | 'created_at'") (t " name?: Name ");
                mkTable (t "genesis") (t "leads")
                  [(t "email", t "string | null")] (t "'email'") [] ]
              (t "Views:") (t " {}") 3)
    as [out [H _]].
  - reflexivity.
  - reflexivity.
  - reflexivity.
  - intros T E. injection E as <-. discriminate.
  - reflexivity.
  - repeat constructor; simpl; intuition discriminate.
  - repeat constructor; simpl; intuition discriminate.
  - now right.
  - reflexivity.
  - reflexivity.
  - reflexivity.
  - reflexivity.
  - lia.
  - exists out. exact H.
Defined.

End WholeSection.
(** ** fix-database-types.py: the Row fields of a table *)

Module FixRowsFacts.
Import Text Out Re Convert Boundary Spec Shapes Tables.
Import TextFacts ReFacts CredsFacts Greedy Normalizer.
Import DictFacts StripFacts GroupFacts FirstPass Declarations EndToEnd.

Lemma search_past (r : regex) (P s : text) :
  (forall p1 p2, P = p1 ++ p2 -> p2 <> [] -> match_at r (p2 ++ s) = None) ->
  FixRows.search r (P ++ s) = FixRows.search r s.
Proof.
  induction P as [|c P IH]; intros H; [reflexivity|].
  change ((c :: P) ++ s) with (c :: P ++ s). cbn [FixRows.search].
  change (c :: P ++ s) with ((c :: P) ++ s).
  rewrite (H [] (c :: P) eq_refl) by discriminate.
  apply IH. intros p1 p2 -> N. now apply (H (c :: p1)).
Qed.

Lemma search_here (r : regex) (s : text) (m : Match) :
  match_at r s = Some m -> FixRows.search r s = Some m.
Proof. intros H. destruct s; simpl; now rewrite H. Qed.

Lemma search_none (r : regex) (s : text) :
  (forall a b, s = a ++ b -> match_at r b = None) ->
  FixRows.search r s = None.
Proof.
  induction s as [|c s IH]; intros H.
  - simpl. now rewrite (H [] [] eq_refl).
  - cbn [FixRows.search]. rewrite (H [] (c :: s) eq_refl).
    apply IH. intros a b ->. now apply (H (c :: a)).
Qed.

(** The block of a table at the start of the text. *)
Lemma row_block_match (table ws body rest : text) :
  forallb is_space ws = true ->
  body <> [] -> forallb not_brace body = true ->
  match_at (FixRows.row_block_pattern table)
    (table ++ t ": {" ++ ws ++ t "Row: {" ++ body ++ t "}" ++ rest)
  = Some (mkMatch (table ++ t ": {" ++ ws ++ t "Row: {" ++ body ++ t "}")
            [(1, body)] rest).
Proof.
  intros W Nb Wb. unfold match_at, FixRows.row_block_pattern. cbn [cat].
  rewrite step_lit, step_lit.
  rewrite step_star by side space_not_R.
  rewrite step_lit.
  rewrite step_group_plus by side not_brace_true.
  rewrite step_lit_last. f_equal. f_equal. apply consumed_eq.
  now rewrite <- !app_assoc.
Qed.

(** Before the first colon of the text the pattern of a name of word
    characters matches only where the name ends at the colon. *)
Lemma row_block_before_colon (table P rest : text) :
  forallb is_word table = true -> free_of ":" P = true ->
  forall p1 p2, P = p1 ++ p2 -> p2 <> [] ->
    match_at (FixRows.row_block_pattern table)
      (p2 ++ table ++ ":" :: rest) = None.
Proof.
  intros Wt FP p1 p2 E N. unfold match_at, FixRows.row_block_pattern.
  cbn [cat]. rewrite run_Seq, run_Lit.
  destruct (strip_prefix table (p2 ++ table ++ ":" :: rest)) as [s1|] eqn:S;
    [|reflexivity].
  rewrite run_Seq, run_Lit.
  destruct (strip_prefix (t ": {") s1) as [s2|] eqn:S2; [exfalso|reflexivity].
  apply strip_prefix_Some in S, S2. subst s1.
  change (t ": {" ++ s2) with (":" :: t " {" ++ s2) in S.
  rewrite app_assoc in S.
  apply (unique_split (fun x => negb (ceqb ":" x))) in S as [S _].
  - apply (f_equal (@length ascii)) in S. rewrite length_app in S.
    destruct p2; [contradiction | simpl in S; lia].
  - rewrite E, free_of_app in FP. apply andb_true_iff in FP as [_ FP].
    change (free_of ":" (p2 ++ table) = true). rewrite free_of_app, FP.
    now apply word_chars_free_of.
  - now apply (word_chars_free_of ":").
  - reflexivity.
Qed.

(** A text without the name followed by [: {] has no block of the table. *)
Lemma row_block_absent (table content : text) :
  contains (table ++ t ": {") content = false ->
  forall a b, content = a ++ b ->
    match_at (FixRows.row_block_pattern table) b = None.
Proof.
  intros C a b ->. unfold match_at, FixRows.row_block_pattern. cbn [cat].
  rewrite run_Seq, run_Lit.
  destruct (strip_prefix table b) as [s1|] eqn:S; [|reflexivity].
  rewrite run_Seq, run_Lit.
  destruct (strip_prefix (t ": {") s1) as [s2|] eqn:S2; [exfalso|reflexivity].
  apply strip_prefix_Some in S, S2. subst s1 b.
  assert (K : contains (table ++ t ": {") (a ++ (table ++ t ": {") ++ s2)
              = true) by (apply contains_true; eauto).
  rewrite <- app_assoc in K. congruence.
Qed.

(** The field loop on declarations written one per line. *)
Lemma fix_field_no_match (c : ascii) (s : text) :
  is_word c = false -> match_at FixRows.field_pattern (c :: s) = None.
Proof.
  intros H. unfold match_at, FixRows.field_pattern. cbn [cat].
  rewrite run_Seq, run_Grp. simpl. now rewrite H.
Qed.

Lemma fix_finditer_skip (a s : text) :
  forallb (fun c => negb (is_word c)) a = true ->
  finditer FixRows.field_pattern (a ++ s) = finditer FixRows.field_pattern s.
Proof.
  induction a as [|c a IH]; simpl; [reflexivity|]. intros H.
  apply andb_true_iff in H as [Hc Ha]. apply negb_true_iff in Hc.
  rewrite finditer_no_match by now apply fix_field_no_match. auto.
Qed.

Lemma fix_field_line_match (name typ rest : text) :
  well_formed (name, typ) = true ->
  match_at FixRows.field_pattern (name ++ t ": " ++ typ ++ nl :: rest)
  = Some (mkMatch (name ++ t ": " ++ typ) [(2, typ); (1, name)] (nl :: rest)).
Proof.
  intros W. apply well_formed_spec in W as (Nn & Wn & Nt & F1 & F2 & St).
  unfold match_at, FixRows.field_pattern. cbn [cat].
  rewrite step_group_plus by side word_not_colon.
  change (t ": " ++ typ ++ nl :: rest)
    with (t ":" ++ [" "] ++ typ ++ nl :: rest).
  rewrite step_lit.
  destruct typ as [|t0 typ']; [contradiction|].
  set (typ := t0 :: typ') in *.
  assert (Ht0 : is_space t0 = false) by now apply (strip_fixed_head t0 typ').
  assert (Q : forallb (other_than2 ";" nl) typ = true).
  { unfold free_of in F1, F2. rewrite forallb_forall in *.
    intros c Hc. unfold other_than2. now rewrite (F1 c Hc), (F2 c Hc). }
  apply (step_star_first is_space _ [" "] (typ ++ nl :: rest));
    [reflexivity | exact Ht0 |].
  rewrite run_Grp. apply plus_first.
  - destruct (take_while_app _ typ (nl :: rest) Q) as [E _]; [reflexivity|].
    rewrite E. discriminate.
  - destruct (take_while_app _ typ (nl :: rest) Q) as [_ E]; [reflexivity|].
    rewrite E, consumed_app. f_equal. f_equal. apply consumed_eq.
    now rewrite <- !app_assoc.
Qed.

Lemma fix_add_field_line (d : dict text) (name typ w rest : text) :
  well_formed (name, typ) = true ->
  FixRows.add_field d (mkMatch w [(2, typ); (1, name)] rest)
  = dict_set d name typ.
Proof.
  intros W. apply well_formed_spec in W as (Nn & Wn & Nt & F1 & F2 & St).
  unfold FixRows.add_field. cbn [group groups lookup Nat.eqb].
  now rewrite (word_chars_strip _ Wn), St.
Qed.

Lemma fix_fields_loop (ws : text) (fs : dict text) :
  forallb is_space ws = true ->
  forallb well_formed fs = true ->
  forall d : dict text,
    fold_left FixRows.add_field
      (finditer FixRows.field_pattern (row_text fs ++ nl :: ws)) d
    = fold_left (fun d f => dict_set d (fst f) (snd f)) fs d.
Proof.
  intros Hws.
  assert (Hend : finditer FixRows.field_pattern (nl :: ws) = []).
  { rewrite <- (app_nil_r (nl :: ws)). rewrite fix_finditer_skip; [reflexivity|].
    apply (spaces_nonword (nl :: ws)). simpl. exact Hws. }
  induction fs as [|[name typ] fs IH]; intros W d.
  - simpl. now rewrite Hend.
  - simpl in W. apply andb_true_iff in W as [Wf W].
    assert (E : row_text ((name, typ) :: fs) ++ nl :: ws
                = t "          " ++ name ++ t ": " ++ typ
                    ++ nl :: match fs with
                             | [] => ws
                             | _ => row_text fs ++ nl :: ws
                             end).
    { unfold row_text, row_line. destruct fs as [|f fs]; cbn [map join fst snd].
      - now rewrite <- !app_assoc.
      - rewrite <- !app_assoc. reflexivity. }
    rewrite E, fix_finditer_skip by reflexivity.
    rewrite (finditer_match FixRows.field_pattern _ _ eq_refl
               (fix_field_line_match name typ _ Wf)).
    cbn [rest fold_left]. rewrite (fix_add_field_line _ _ _ _ _ Wf).
    destruct fs as [|f fs].
    + now rewrite Hend.
    + rewrite finditer_no_match by (now apply fix_field_no_match).
      now rewrite (IH W).
Qed.

(** X11.  When the first colon of the text is the one after the table
    name, [parse_row_fields] returns the declarations of the Row block
    that follows, in their order (well-formed declarations with distinct
    names, one per line, types without a closing brace), also when the
    name is only the end of a longer identifier.  It returns the empty
    dictionary for a text that nowhere has the name followed by [: {]. *)
Theorem parse_row_fields_finds_block
    (before table rest : text) (fields : dict text) :
  forallb is_word table = true ->
  free_of ":" before = true ->
  forallb well_formed fields = true ->
  NoDup (map fst fields) ->
  forallb (fun f => free_of "}" (snd f)) fields = true ->
  FixRows.parse_row_fields
    (before ++ table ++ t ": {" ++ nl :: t "        " ++ row_block fields
       ++ rest) table
  = fields
  /\ forall content,
       contains (table ++ t ": {") content = false ->
       FixRows.parse_row_fields content table = [].
Proof.
  intros Wt Fb Wf ND Pf. split.
  - unfold FixRows.parse_row_fields.
    change (table ++ t ": {" ++ nl :: t "        " ++ row_block fields ++ rest)
      with (table ++ ":" :: t " {" ++ nl :: t "        " ++ row_block fields
              ++ rest).
    rewrite (search_past _ before _
               (row_block_before_colon table before _ Wt Fb)).
    assert (Fr : free_of "}" (row_text fields) = true).
    { apply (row_text_free "}" eq_refl eq_refl fields).
      - intros f Hf. rewrite forallb_forall in Wf. specialize (Wf f Hf).
        destruct f as [n ty]. now apply well_formed_spec in Wf as (_ & H & _).
      - intros f Hf. rewrite forallb_forall in Pf. now apply Pf. }
    assert (E : table ++ ":" :: t " {" ++ nl :: t "        "
                  ++ row_block fields ++ rest
                = table ++ t ": {" ++ (nl :: t "        ") ++ t "Row: {"
                    ++ (nl :: row_text fields ++ nl :: t "        ")
                    ++ t "}" ++ rest).
    { unfold row_block. norm_app. reflexivity. }
    rewrite E.
    rewrite (search_here _ _ _
               (row_block_match table (nl :: t "        ")
                  (nl :: row_text fields ++ nl :: t "        ") rest
                  eq_refl ltac:(discriminate)
                  ltac:(change (free_of "}" (nl :: row_text fields
                                               ++ nl :: t "        ") = true);
                        free_pieces; now rewrite Fr))).
    cbn [group groups lookup Nat.eqb].
    change (nl :: row_text fields ++ nl :: t "        ")
      with ([nl] ++ row_text fields ++ nl :: t "        ").
    rewrite fix_finditer_skip by reflexivity.
    rewrite (fix_fields_loop (t "        ") fields eq_refl Wf).
    now apply (dict_build fields []).
  - intros content C. unfold FixRows.parse_row_fields.
    now rewrite (search_none _ _ (row_block_absent table content C)).
Qed.

Lemma parse_row_fields_finds_block_witness :
  FixRows.parse_row_fields
    (t "      my_" ++ t "campaigns" ++ t ": {" ++ nl :: t "        "
       ++ row_block campaigns_fields ++ nl :: t "      }")
    (t "campaigns")
  = campaigns_fields.
Proof.
  apply (parse_row_fields_finds_block (t "      my_") (t "campaigns")
           (nl :: t "      }") campaigns_fields); try reflexivity.
  repeat constructor; simpl; intuition discriminate.
Defined.

End FixRowsFacts.
(** ** strip_code_blocks.py *)

Module StripBlocksFacts.
Import Text StripBlocks Fences TextFacts.

Lemma step_open (st : state) (line : text) :
  in_code_block st = false -> opens line = true ->
  step st line
  = mkState (result st) true (set_mem (language line) remove_langs) [line].
Proof. intros H O. unfold step, opens in *. now rewrite H, O. Qed.

Lemma step_line (st : state) (line : text) :
  in_code_block st = false -> opens line = false ->
  step st line
  = mkState (result st ++ [line]) false (skip_block st) (code_buffer st).
Proof. intros H O. unfold step, opens in *. now rewrite H, O. Qed.

Lemma step_close (st : state) (line : text) :
  in_code_block st = true -> closes line = true ->
  step st line
  = mkState (if skip_block st then result st
             else result st ++ code_buffer st ++ [line])
      false false [].
Proof.
  intros H C. unfold step, closes in *. rewrite H, C. simpl.
  now destruct (skip_block st).
Qed.

Lemma step_inside (st : state) (line : text) :
  in_code_block st = true -> closes line = false ->
  step st line
  = mkState (result st) true (skip_block st) (code_buffer st ++ [line]).
Proof. intros H C. unfold step, closes in *. now rewrite H, C. Qed.

(** Inside a block, lines that do not close it go to the buffer. *)
Lemma run_inside (body : list text) :
  forall st,
    in_code_block st = true ->
    forallb (fun l => negb (closes l)) body = true ->
    fold_left step body st
    = mkState (result st) true (skip_block st) (code_buffer st ++ body).
Proof.
  induction body as [|l body IH]; intros st H B.
  - simpl. rewrite app_nil_r. destruct st. simpl in H. now subst.
  - simpl in B. apply andb_true_iff in B as [Bl B].
    apply negb_true_iff in Bl. simpl.
    rewrite (step_inside st l H Bl), IH by trivial. simpl.
    now rewrite <- app_assoc.
Qed.

Lemma subsequence_refl {A} (l : list A) : subsequence l l.
Proof.
  induction l; [constructor | now apply subsequence_keep].
Qed.

Lemma subsequence_app {A} (a a' b b' : list A) :
  subsequence a a' -> subsequence b b' -> subsequence (a ++ b) (a' ++ b').
Proof.
  intros Ha Hb. induction Ha; simpl.
  - assumption.
  - now apply subsequence_skip.
  - now apply subsequence_keep.
Qed.

Lemma subsequence_nil_l {A} (l : list A) : subsequence [] l.
Proof.
  induction l; [constructor | now apply subsequence_skip].
Qed.

Lemma subsequence_prefix {A} (a b l : list A) :
  subsequence (a ++ b) l -> subsequence a l.
Proof.
  remember (a ++ b) as ab eqn:E. intros H. revert a b E.
  induction H as [|x s l H IH|x s l H IH]; intros a b E.
  - symmetry in E. apply app_eq_nil in E as [-> _]. constructor.
  - apply subsequence_skip. now apply (IH a b).
  - destruct a as [|y a]; [apply subsequence_nil_l|].
    simpl in E. injection E as <- E. apply subsequence_keep.
    now apply (IH a b).
Qed.

Lemma subsequence_length {A} (a b : list A) :
  subsequence a b -> length a <= length b.
Proof. induction 1; simpl; lia. Qed.

(** What has been kept, and what waits in the buffer, comes from the
    lines read so far, in their order. *)
Lemma run_subsequence (lines : list text) :
  forall (seen : list text) (st : state),
    subsequence (result st ++ code_buffer st) seen ->
    (in_code_block st = false -> code_buffer st = []) ->
    let st' := fold_left step lines st in
    subsequence (result st' ++ code_buffer st') (seen ++ lines).
Proof.
  induction lines as [|l lines IH]; intros seen st S B.
  - simpl. now rewrite app_nil_r.
  - cbv zeta. simpl.
    replace (seen ++ l :: lines) with ((seen ++ [l]) ++ lines)
      by (now rewrite <- app_assoc).
    apply IH.
    + destruct (in_code_block st) eqn:I.
      * destruct (closes l) eqn:C.
        -- rewrite (step_close st l I C). simpl. rewrite app_nil_r.
           destruct (skip_block st).
           ++ rewrite <- (app_nil_r (result st)).
              apply subsequence_app; [|apply subsequence_nil_l].
              now apply subsequence_prefix in S.
           ++ rewrite app_assoc. apply subsequence_app; [exact S|].
              apply subsequence_refl.
        -- rewrite (step_inside st l I C). simpl. rewrite app_assoc.
           apply subsequence_app; [exact S | apply subsequence_refl].
      * rewrite (B eq_refl), app_nil_r in S. destruct (opens l) eqn:O.
        -- rewrite (step_open st l I O). simpl.
           apply subsequence_app; [exact S | apply subsequence_refl].
        -- rewrite (step_line st l I O). simpl. rewrite (B eq_refl), app_nil_r.
           apply subsequence_app; [exact S | apply subsequence_refl].
    + destruct (in_code_block st) eqn:I.
      * destruct (closes l) eqn:C.
        -- now rewrite (step_close st l I C).
        -- rewrite (step_inside st l I C). discriminate.
      * destruct (opens l) eqn:O.
        -- rewrite (step_open st l I O). discriminate.
        -- rewrite (step_line st l I O). simpl. auto.
Qed.

(** Outside a block, lines that open none are kept. *)
Lemma run_plain (lines : list text) :
  forall st,
    in_code_block st = false ->
    forallb (fun l => negb (opens l)) lines = true ->
    result (fold_left step lines st) = result st ++ lines.
Proof.
  induction lines as [|l lines IH]; intros st I H.
  - simpl. now rewrite app_nil_r.
  - simpl in H. apply andb_true_iff in H as [Hl H].
    apply negb_true_iff in Hl. simpl. rewrite (step_line st l I Hl).
    rewrite IH by trivial. simpl. now rewrite <- app_assoc.
Qed.

(** X12.  The list written back is the list read with some lines left
    out: no line is added, changed or moved, so the count the script
    prints as removed is not negative.  A document without a line that
    opens a block is written back as it is. *)
Theorem strip_keeps_order (lines : list text) :
  subsequence (strip_code_blocks lines) lines
  /\ length (strip_code_blocks lines) <= length lines
  /\ (forallb (fun l => negb (opens l)) lines = true ->
      strip_code_blocks lines = lines).
Proof.
  assert (S : subsequence (strip_code_blocks lines) lines).
  { pose proof (run_subsequence lines [] start subsequence_nil
                  (fun _ => eq_refl)) as H.
    cbv zeta in H. simpl in H. now apply subsequence_prefix in H. }
  split; [exact S|]. split; [now apply subsequence_length|].
  intros H. unfold strip_code_blocks.
  now rewrite (run_plain lines start eq_refl H).
Qed.

(** *** Whole blocks *)

(** Two runs that differ by lines kept earlier stay that way. *)
Lemma run_shift (kept : list text) (lines : list text) :
  forall st1 st2,
    result st2 = kept ++ result st1 ->
    in_code_block st2 = in_code_block st1 ->
    (in_code_block st1 = true ->
     skip_block st2 = skip_block st1 /\ code_buffer st2 = code_buffer st1) ->
    result (fold_left step lines st2)
    = kept ++ result (fold_left step lines st1)
    /\ in_code_block (fold_left step lines st2)
       = in_code_block (fold_left step lines st1).
Proof.
  induction lines as [|l lines IH]; intros st1 st2 R I B; [auto|].
  simpl. apply IH.
  - destruct (in_code_block st1) eqn:I1.
    + destruct (B eq_refl) as [Bs Bc]. destruct (closes l) eqn:C.
      * rewrite (step_close st1 l I1 C), (step_close st2 l I C). simpl.
        rewrite Bs, Bc, R. destruct (skip_block st1); [reflexivity|].
        now rewrite <- app_assoc.
      * now rewrite (step_inside st1 l I1 C), (step_inside st2 l I C).
    + destruct (opens l) eqn:O.
      * now rewrite (step_open st1 l I1 O), (step_open st2 l I O).
      * rewrite (step_line st1 l I1 O), (step_line st2 l I O). simpl.
        now rewrite R, <- app_assoc.
  - destruct (in_code_block st1) eqn:I1.
    + destruct (closes l) eqn:C.
      * now rewrite (step_close st1 l I1 C), (step_close st2 l I C).
      * now rewrite (step_inside st1 l I1 C), (step_inside st2 l I C).
    + destruct (opens l) eqn:O.
      * now rewrite (step_open st1 l I1 O), (step_open st2 l I O).
      * now rewrite (step_line st1 l I1 O), (step_line st2 l I O).
  - destruct (in_code_block st1) eqn:I1.
    + destruct (B eq_refl) as [Bs Bc]. destruct (closes l) eqn:C.
      * rewrite (step_close st1 l I1 C). discriminate.
      * rewrite (step_inside st1 l I1 C), (step_inside st2 l I C). simpl.
        intros _. now rewrite Bs, Bc.
    + destruct (opens l) eqn:O.
      * now rewrite (step_open st1 l I1 O), (step_open st2 l I O).
      * rewrite (step_line st1 l I1 O). discriminate.
Qed.

(** From a state outside a block the run is the run from the start, after
    what was kept. *)
Lemma run_outside (lines : list text) (st : state) :
  in_code_block st = false ->
  result (fold_left step lines st) = result st ++ strip_code_blocks lines
  /\ in_code_block (fold_left step lines st)
     = in_code_block (fold_left step lines start).
Proof.
  intros I. apply (run_shift (result st) lines start st).
  - now rewrite app_nil_r.
  - exact I.
  - discriminate.
Qed.

(** A block from its opening line to the line that closes it. *)
Lemma run_block (st : state) (open : text) (body : list text) (close : text) :
  in_code_block st = false ->
  opens open = true ->
  forallb (fun l => negb (closes l)) body = true ->
  closes close = true ->
  fold_left step (open :: body ++ [close]) st
  = mkState (if set_mem (language open) remove_langs then result st
             else result st ++ open :: body ++ [close])
      false false [].
Proof.
  intros I O B C. simpl. rewrite fold_left_app. simpl.
  rewrite (step_open st open I O), run_inside by trivial. simpl.
  now rewrite step_close by trivial.
Qed.

(** X13.  A closed block is removed exactly when the language on its
    opening line (stripped, lower-cased) is one of [remove_langs], and is
    kept whole, fences included, otherwise; what comes before it and what
    comes after it are treated as on their own. *)
Theorem strip_blocks_by_language
    (before : list text) (open : text) (body : list text) (close : text)
    (rest : list text) :
  in_code_block (fold_left step before start) = false ->
  opens open = true ->
  forallb (fun l => negb (closes l)) body = true ->
  closes close = true ->
  strip_code_blocks (before ++ open :: body ++ close :: rest)
  = strip_code_blocks before
      ++ (if set_mem (language open) remove_langs then []
          else open :: body ++ [close])
      ++ strip_code_blocks rest.
Proof.
  intros I O B C. unfold strip_code_blocks at 1.
  replace (before ++ open :: body ++ close :: rest)
    with (before ++ (open :: body ++ [close]) ++ rest)
    by (simpl; now rewrite <- app_assoc).
  rewrite !fold_left_app, (run_block _ open body close I O B C).
  set (st := mkState _ false false []).
  destruct (run_outside rest st eq_refl) as [R _]. rewrite R. unfold st.
  cbn [result].
  change (result (fold_left step before start))
    with (strip_code_blocks before).
  destruct (set_mem (language open) remove_langs).
  - now rewrite app_nil_l.
  - now rewrite <- app_assoc.
Qed.

Lemma strip_blocks_by_language_witness :
  strip_code_blocks
    [ t "# Codex"; t "```TypeScript "; t "let x = 1"; t "```";
      t "``` "; t "+--+"; t "  ```  "; t "end" ]
  = [ t "# Codex"; t "``` "; t "+--+"; t "  ```  "; t "end" ].
Proof.
  pose proof (strip_blocks_by_language [t "# Codex"] (t "```TypeScript ")
                [t "let x = 1"] (t "```")
                [t "``` "; t "+--+"; t "  ```  "; t "end"]
                eq_refl eq_refl eq_refl eq_refl) as H.
  exact H.
Defined.

(** X14.  A block that is never closed is lost whatever its language:
    from its opening line to the end of the file nothing is written
    back. *)
Theorem unclosed_block_dropped
    (before : list text) (open : text) (body : list text) :
  in_code_block (fold_left step before start) = false ->
  opens open = true ->
  forallb (fun l => negb (closes l)) body = true ->
  strip_code_blocks (before ++ open :: body) = strip_code_blocks before.
Proof.
  intros I O B. unfold strip_code_blocks. rewrite fold_left_app. simpl.
  now rewrite (step_open _ open I O), run_inside.
Qed.

Lemma unclosed_block_dropped_witness :
  strip_code_blocks [ t "# Codex"; t "```"; t "+--+"; t "|  |"; t "+--+" ]
  = [ t "# Codex" ].
Proof.
  exact (unclosed_block_dropped [t "# Codex"] (t "```")
           [t "+--+"; t "|  |"; t "+--+"] eq_refl eq_refl eq_refl).
Defined.

(** *** A second run *)

Lemma settled_app (a b : list text) :
  settled a -> settled b -> settled (a ++ b).
Proof.
  intros Ha Hb. induction Ha as [|l r O _ IH|o body c r O L B C _ IH].
  - exact Hb.
  - simpl. now apply settled_line.
  - simpl. rewrite <- app_assoc. simpl. now apply settled_block.
Qed.

(** A settled document is written back as it is. *)
Lemma run_settled (lines : list text) :
  settled lines ->
  forall st, in_code_block st = false ->
    result (fold_left step lines st) = result st ++ lines.
Proof.
  induction 1 as [|l r O _ IH|o body c r O L B C _ IH]; intros st I.
  - simpl. now rewrite app_nil_r.
  - simpl. rewrite (step_line st l I O), IH by reflexivity. simpl.
    now rewrite <- app_assoc.
  - replace (o :: body ++ c :: r) with ((o :: body ++ [c]) ++ r)
      by (simpl; now rewrite <- app_assoc).
    rewrite fold_left_app, (run_block st o body c I O B C), L.
    rewrite IH by reflexivity. simpl. rewrite <- !app_assoc. simpl.
    now rewrite <- app_assoc.
Qed.

(** What has been kept is settled, and the buffer holds a block from its
    opening line on. *)
Lemma run_invariant (lines : list text) :
  forall st,
    settled (result st) ->
    (in_code_block st = true ->
     exists open body,
       code_buffer st = open :: body /\ opens open = true
       /\ skip_block st = set_mem (language open) remove_langs
       /\ forallb (fun l => negb (closes l)) body = true) ->
    settled (result (fold_left step lines st)).
Proof.
  induction lines as [|l lines IH]; intros st S B; [exact S|].
  simpl. apply IH.
  - destruct (in_code_block st) eqn:I.
    + destruct (B eq_refl) as (o & body & Eb & Oo & Es & Bb).
      destruct (closes l) eqn:C.
      * rewrite (step_close st l I C). simpl.
        destruct (skip_block st) eqn:K; [exact S|].
        apply settled_app; [exact S|]. rewrite Eb. simpl.
        apply settled_block; trivial; [congruence | constructor].
      * now rewrite (step_inside st l I C).
    + destruct (opens l) eqn:O.
      * now rewrite (step_open st l I O).
      * rewrite (step_line st l I O). simpl.
        apply settled_app; [exact S|]. apply settled_line; [exact O|constructor].
  - destruct (in_code_block st) eqn:I.
    + destruct (B eq_refl) as (o & body & Eb & Oo & Es & Bb).
      destruct (closes l) eqn:C.
      * rewrite (step_close st l I C). discriminate.
      * rewrite (step_inside st l I C). simpl. intros _.
        exists o, (body ++ [l]). rewrite Eb. repeat split; trivial.
        rewrite forallb_app, Bb. simpl. now rewrite C.
    + destruct (opens l) eqn:O.
      * rewrite (step_open st l I O). simpl. intros _.
        exists l, []. auto.
      * rewrite (step_line st l I O). discriminate.
Qed.

(** X15.  What the script writes back is settled: lines outside blocks
    and whole blocks whose language is not in [remove_langs].  Run on
    its own output the script changes nothing. *)
Theorem strip_twice_is_strip (lines : list text) :
  settled (strip_code_blocks lines)
  /\ strip_code_blocks (strip_code_blocks lines) = strip_code_blocks lines.
Proof.
  assert (S : settled (strip_code_blocks lines)).
  { apply (run_invariant lines start); [constructor | discriminate]. }
  split; [exact S|].
  exact (run_settled _ S start eq_refl).
Qed.

End StripBlocksFacts.
Module ReplaceFacts.
Import Text Out TextFacts Occurrence.

Lemma replace_from_skip (needle by_ : text) (k : nat) (s : text) :
  replace_from needle by_ k s = replace needle by_ (skipn k s).
Proof.
  revert k; induction s as [|c s IH]; intros [|k]; try reflexivity.
  simpl. apply IH.
Qed.

Lemma count_from_skip (needle : text) (k : nat) (s : text) :
  count_from needle k s = count needle (skipn k s).
Proof.
  revert k; induction s as [|c s IH]; intros [|k]; try reflexivity.
  simpl. apply IH.
Qed.

Lemma skipn_needle (c : ascii) (needle s rest : text) :
  needle <> [] -> c :: s = needle ++ rest -> skipn (length needle - 1) s = rest.
Proof.
  intros N E. destruct needle as [|x needle]; [contradiction|].
  simpl in E. injection E as _ ->. simpl. rewrite Nat.sub_0_r.
  now rewrite skipn_app, skipn_all, Nat.sub_diag.
Qed.

(** The equations of [replace] and [count] for a needle that is not
    empty. *)
Lemma replace_hit (needle by_ rest : text) :
  needle <> [] ->
  replace needle by_ (needle ++ rest) = by_ ++ replace needle by_ rest.
Proof.
  intros N. destruct (needle ++ rest) as [|c s] eqn:E.
  - destruct needle; [contradiction | discriminate].
  - unfold replace at 1. simpl.
    assert (H : startswith needle (c :: s) = true)
      by (apply startswith_true; eauto).
    rewrite H, replace_from_skip. f_equal. f_equal.
    now apply (skipn_needle c).
Qed.

Lemma replace_miss (needle by_ : text) (c : ascii) (s : text) :
  startswith needle (c :: s) = false ->
  replace needle by_ (c :: s) = c :: replace needle by_ s.
Proof. intros H. unfold replace. simpl. now rewrite H. Qed.

Lemma count_hit (needle rest : text) :
  needle <> [] -> count needle (needle ++ rest) = S (count needle rest).
Proof.
  intros N. destruct (needle ++ rest) as [|c s] eqn:E.
  - destruct needle; [contradiction | discriminate].
  - unfold count at 1. simpl.
    assert (H : startswith needle (c :: s) = true)
      by (apply startswith_true; eauto).
    rewrite H, count_from_skip. f_equal. f_equal.
    now apply (skipn_needle c).
Qed.

Lemma count_miss (needle : text) (c : ascii) (s : text) :
  startswith needle (c :: s) = false -> count needle (c :: s) = count needle s.
Proof. intros H. unfold count. simpl. now rewrite H. Qed.

Lemma startswith_nil (needle : text) :
  needle <> [] -> startswith needle [] = false.
Proof. destruct needle; [contradiction | reflexivity]. Qed.

(** [needle in s] is false exactly when no suffix of [s] starts with the
    needle. *)
Lemma contains_false (needle s : text) :
  contains needle s = false <->
  forall a b, s = a ++ b -> startswith needle b = false.
Proof.
  split.
  - intros H a b ->. destruct (startswith needle b) eqn:E; [|reflexivity].
    apply startswith_true in E as [s' ->].
    assert (C : contains needle (a ++ needle ++ s') = true)
      by (apply contains_true; eauto).
    congruence.
  - intros H. destruct (contains needle s) eqn:E; [|reflexivity].
    apply contains_true in E as (a & b & ->).
    assert (S : startswith needle (needle ++ b) = true)
      by (apply startswith_true; eauto).
    rewrite (H a (needle ++ b) eq_refl) in S. discriminate.
Qed.

Lemma contains_cons_false (needle : text) (c : ascii) (s : text) :
  contains needle (c :: s) = false ->
  startswith needle (c :: s) = false /\ contains needle s = false.
Proof. simpl. intros H. now apply orb_false_iff in H. Qed.

(** The count is zero exactly when the needle does not occur. *)
Lemma count_zero (needle s : text) :
  needle <> [] -> (count needle s = 0 <-> contains needle s = false).
Proof.
  intros N. remember (length s) as n eqn:L.
  revert s L; induction n as [n IH] using lt_wf_ind; intros s L.
  destruct s as [|c s].
  - simpl. rewrite (startswith_nil _ N). split; reflexivity.
  - destruct (startswith needle (c :: s)) eqn:E.
    + split.
      * apply startswith_true in E as [rest E]. rewrite E.
        rewrite (count_hit _ _ N). discriminate.
      * simpl. rewrite E. discriminate.
    + rewrite (count_miss _ _ _ E). simpl contains. rewrite E. simpl.
      apply (IH (length s)); [subst n; simpl; lia | reflexivity].
Qed.

(** Replacing a needle that does not occur changes nothing. *)
Lemma replace_absent (needle by_ s : text) :
  contains needle s = false -> replace needle by_ s = s.
Proof.
  induction s as [|c s IH]; intros H; [reflexivity|].
  apply contains_cons_false in H as [H1 H2].
  rewrite (replace_miss _ _ _ _ H1). f_equal. auto.
Qed.

Lemma compatible_app (l m rest : text) :
  startswith m (l ++ rest) = true -> l <> [] \/ m <> [] ->
  compatible l m = true \/ l = [].
Proof.
  revert m; induction l as [|x l IH]; intros m H _; [now right|].
  left. unfold compatible. destruct m as [|y m]; [apply orb_true_r|].
  apply startswith_true in H as [s' H]. simpl in H. injection H as <- H.
  destruct l as [|x' l].
  - apply orb_true_iff. left. apply startswith_true. now exists m.
  - assert (S : startswith m ((x' :: l) ++ rest) = true)
      by (apply startswith_true; eauto).
    destruct (IH m S) as [C|C]; [left; discriminate| |discriminate].
    unfold compatible in C. apply orb_true_iff in C as [C|C];
      apply startswith_true in C as [z C]; apply orb_true_iff.
    + left. apply startswith_true. exists z. simpl. now rewrite C.
    + right. apply startswith_true. exists z. simpl. now rewrite C.
Qed.

Lemma apart_suffix (m by_ : text) (k : nat) :
  apart m by_ = true -> k < length m -> compatible (skipn k m) by_ = false.
Proof.
  intros A Hk. unfold apart in A. apply andb_true_iff in A as [A _].
  rewrite forallb_forall in A. apply negb_true_iff. apply A.
  apply in_seq. lia.
Qed.

Lemma apart_inside (m by_ : text) (j : nat) :
  apart m by_ = true -> 1 <= j < length by_ ->
  compatible (skipn j by_) m = false.
Proof.
  intros A Hj. unfold apart in A. apply andb_true_iff in A as [_ A].
  rewrite forallb_forall in A. apply negb_true_iff. apply A.
  apply in_seq. lia.
Qed.

Lemma compatible_sym (x y : text) : compatible x y = compatible y x.
Proof. unfold compatible. apply orb_comm. Qed.

Section Clears.
Variables m needle by_ : text.
Hypothesis needle_not_empty : needle <> [].
Hypothesis m_apart : apart m by_ = true.

(** An occurrence of a suffix of [m] read in the result was in the
    subject: it cannot run into a copy of [by_]. *)
Lemma pull_occurrence (m0 m' : text) :
  m = m0 ++ m' ->
  forall s, startswith m' (replace needle by_ s) = true ->
            startswith m' s = true.
Proof.
  revert m0; induction m' as [|x m' IH]; intros m0 E s H; [reflexivity|].
  destruct s as [|c s]; [exact H|].
  destruct (startswith needle (c :: s)) eqn:Sn.
  - exfalso. apply startswith_true in Sn as [rest Sn]. rewrite Sn in H.
    rewrite (replace_hit _ _ _ needle_not_empty) in H.
    assert (K : compatible (skipn (length m0) m) by_ = false).
    { apply apart_suffix; [assumption|]. rewrite E, length_app. simpl. lia. }
    rewrite E, skipn_app, skipn_all, Nat.sub_diag in K. simpl in K.
    destruct (compatible_app by_ (x :: m') _ H) as [C|C];
      [right; discriminate| |].
    + rewrite compatible_sym in K. congruence.
    + rewrite C in K. unfold compatible in K. simpl in K. discriminate.
  - rewrite (replace_miss _ _ _ _ Sn) in H.
    apply startswith_true in H as [z H]. simpl in H. injection H as -> H.
    assert (S : startswith m' (replace needle by_ s) = true)
      by (apply startswith_true; eauto).
    apply (IH (m0 ++ [x])) in S; [|now rewrite <- app_assoc].
    apply startswith_true in S as [z' ->].
    apply startswith_true. now exists z'.
Qed.

(** Replacing [needle] by [by_] leaves no occurrence of [m], when [m]
    occurred only where the needle did. *)
Lemma replace_no_occurrence (s : text) :
  m <> [] ->
  (forall a b, s = a ++ b -> startswith m b = true ->
               startswith needle b = true) ->
  forall a' b', replace needle by_ s = a' ++ b' -> startswith m b' = false.
Proof.
  intros Hm. remember (length s) as n eqn:L.
  revert s L; induction n as [n IH] using lt_wf_ind; intros s L Hs a' b' E.
  destruct s as [|c s].
  - simpl in E. symmetry in E. apply app_eq_nil in E as [_ ->].
    now apply startswith_nil.
  - destruct (startswith needle (c :: s)) eqn:Sn.
    + apply startswith_true in Sn as [rest Sn]. rewrite Sn in E.
      rewrite (replace_hit _ _ _ needle_not_empty) in E.
      assert (Lr : length rest < n).
      { subst n. rewrite Sn, length_app.
        destruct needle; [contradiction | simpl; lia]. }
      assert (Hr : forall a b, rest = a ++ b -> startswith m b = true ->
                               startswith needle b = true).
      { intros a b -> Hb. apply (Hs (needle ++ a)); [|assumption].
        now rewrite Sn, <- app_assoc. }
      symmetry in E. apply app_eq_app in E as [l [[E1 E2]|[E1 E2]]].
      * (* the suffix starts after the copy of [by_] *)
        apply (IH _ Lr rest eq_refl Hr l b'). exact E2.
      * (* the suffix starts inside the copy of [by_] *)
        destruct (startswith m b') eqn:Sm; [exfalso|reflexivity].
        rewrite E2 in Sm.
        destruct l as [|x l].
        -- simpl in Sm.
           rewrite (IH _ Lr rest eq_refl Hr [] _ eq_refl) in Sm. discriminate.
        -- destruct (compatible_app (x :: l) m _ Sm) as [C|C];
             [left; discriminate| |discriminate].
           destruct a' as [|y a'].
           ++ simpl in E1. rewrite <- E1 in C.
              pose proof (apart_suffix m by_ 0 m_apart) as K. simpl in K.
              rewrite compatible_sym in K. rewrite K in C; [discriminate|].
              destruct m; [contradiction | simpl; lia].
           ++ assert (K : compatible (skipn (length (y :: a')) by_) m = false).
              { apply apart_inside; [assumption|].
                rewrite E1, length_app. simpl. lia. }
              rewrite E1, skipn_app, skipn_all, Nat.sub_diag in K.
              simpl in K. congruence.
    + rewrite (replace_miss _ _ _ _ Sn) in E.
      destruct a' as [|y a'].
      * simpl in E. subst b'.
        destruct (startswith m (c :: replace needle by_ s)) eqn:Sm;
          [exfalso|reflexivity].
        rewrite <- (replace_miss _ _ _ _ Sn) in Sm.
        apply (pull_occurrence [] m eq_refl) in Sm.
        apply (Hs [] (c :: s) eq_refl) in Sm. congruence.
      * simpl in E. injection E as _ E.
        apply (IH (length s)) with (s := s) (a' := a'); trivial.
        -- subst n. simpl. lia.
        -- intros a b -> Hb. apply (Hs (c :: a)); [reflexivity | assumption].
Qed.
End Clears.

(** After [s.replace(needle, by_)] the needle is gone. *)
Lemma replace_clears_needle (needle by_ s : text) :
  needle <> [] -> apart needle by_ = true ->
  contains needle (replace needle by_ s) = false.
Proof.
  intros N A. apply contains_false.
  apply (replace_no_occurrence needle needle by_ N A s N). auto.
Qed.

(** A string that did not occur does not appear by the replacement of
    another one. *)
Lemma replace_keeps_absent (m needle by_ s : text) :
  m <> [] -> needle <> [] -> apart m by_ = true ->
  contains m s = false ->
  contains m (replace needle by_ s) = false.
Proof.
  intros M N A C. apply contains_false.
  apply (replace_no_occurrence m needle by_ N A s M).
  intros a b E Hb. rewrite (proj1 (contains_false m s) C a b E) in Hb.
  discriminate.
Qed.

End ReplaceFacts.
(** ** The credential script: what it leaves behind *)

Module Credentials.
Import Text Out Creds Spec Occurrence TextFacts CredsFacts DictFacts.
Import ReplaceFacts.

Lemma credential_keys_apart : keys_apart CREDENTIAL_ID_MAP = true.
Proof. vm_compute. reflexivity. Qed.

Lemma keys_apart_In (entries : list (text * text)) (e e' : text * text) :
  keys_apart entries = true -> In e entries -> In e' entries ->
  fst e <> [] /\ apart (fst e) (snd e') = true.
Proof.
  intros K He He'. unfold keys_apart in K. rewrite forallb_forall in K.
  specialize (K e He). apply andb_true_iff in K as [N A].
  rewrite forallb_forall in A. split; [|auto].
  apply negb_true_iff in N. now apply eqb_neq in N.
Qed.

(** One turn of the loop over the table, whether or not it prints. *)
Lemma replace_id_value (dir file content : text) (n : nat) (e : text * text) :
  fst e <> [] ->
  value (replace_id dir file (content, n) e)
  = (replace (fst e) (snd e) content, n + count (fst e) content).
Proof.
  intros N. destruct e as [old_id placeholder]. simpl in *.
  destruct (count old_id content) as [|k] eqn:E.
  - apply (count_zero _ _ N) in E. rewrite (replace_absent _ _ _ E).
    now rewrite Nat.add_0_r.
  - reflexivity.
Qed.

Section Loop.
Variables dir file : text.
Variable table : list (text * text).
Hypothesis table_apart : keys_apart table = true.

Lemma loop_clears (entries : list (text * text)) :
  forall (done : list (text * text)) (content : text) (n : nat),
    table = done ++ entries ->
    (forall e, In e done -> contains (fst e) content = false) ->
    forall e, In e table ->
      contains (fst e)
        (fst (value (for_each entries (replace_id dir file) (content, n))))
      = false.
Proof.
  induction entries as [|x xs IH]; intros done content n E H e He.
  - simpl. apply H. rewrite E, app_nil_r in He. exact He.
  - rewrite value_for_each_cons.
    assert (Hx : In x table) by (rewrite E; apply in_elt).
    destruct (keys_apart_In _ x x table_apart Hx Hx) as [Nx Ax].
    rewrite (replace_id_value _ _ _ _ _ Nx).
    apply (IH (done ++ [x])); [now rewrite <- app_assoc| |exact He].
    intros e' He'. apply in_app_iff in He' as [He'|[<-|[]]].
    + assert (Ht : In e' table) by (rewrite E; apply in_or_app; now left).
      destruct (keys_apart_In _ e' x table_apart Ht Hx) as [Ne Ae].
      apply replace_keeps_absent; auto.
    + now apply replace_clears_needle.
Qed.

Lemma loop_counts (entries : list (text * text)) :
  forall (content : text) (n : nat),
    (forall e, In e entries -> In e table) ->
    let r := value (for_each entries (replace_id dir file) (content, n)) in
    n <= snd r
    /\ (snd r = n <->
        forall e, In e entries -> contains (fst e) content = false)
    /\ (snd r = n -> fst r = content).
Proof.
  induction entries as [|x xs IH]; intros content n Sub.
  - simpl. split; [lia|]. split; [|reflexivity]. split; [intros _ e []|reflexivity].
  - cbv zeta. rewrite value_for_each_cons.
    assert (Hx : In x table) by (apply Sub; now left).
    destruct (keys_apart_In _ x x table_apart Hx Hx) as [Nx _].
    rewrite (replace_id_value _ _ _ _ _ Nx).
    destruct (IH (replace (fst x) (snd x) content) (n + count (fst x) content))
      as (Hle & Hiff & Hsame); [intros e He; apply Sub; now right|].
    cbv zeta in Hle, Hiff, Hsame.
    set (r := value (for_each xs (replace_id dir file) _)) in *.
    split; [lia|].
    assert (Hzero : snd r = n -> count (fst x) content = 0) by lia.
    split; [split|].
    + intros Hr e [<-|He].
      * apply (count_zero _ _ Nx). auto.
      * specialize (Hzero Hr). assert (Hr' : snd r = n + count (fst x) content) by lia.
        apply (proj1 Hiff Hr') in He.
        apply (count_zero _ _ Nx) in Hzero.
        now rewrite (replace_absent _ _ _ Hzero) in He.
    + intros H.
      assert (Cx : contains (fst x) content = false) by (apply H; now left).
      assert (Zx : count (fst x) content = 0) by now apply (count_zero _ _ Nx).
      rewrite Zx, Nat.add_0_r in Hiff. apply Hiff.
      intros e He. rewrite (replace_absent _ _ _ Cx). apply H. now right.
    + intros Hr. specialize (Hzero Hr).
      rewrite Hsame by lia.
      apply replace_absent. now apply (count_zero _ _ Nx).
Qed.
End Loop.

Lemma ids_cleared (dir file content id : text) :
  In id (map fst CREDENTIAL_ID_MAP) ->
  contains id (fst (value (replace_ids dir file content))) = false.
Proof.
  intros H. apply in_map_iff in H as (e & <- & He).
  apply (loop_clears dir file CREDENTIAL_ID_MAP credential_keys_apart
           CREDENTIAL_ID_MAP [] content 0 eq_refl); [intros ? []|exact He].
Qed.

Lemma ids_counted (dir file content : text) :
  snd (value (replace_ids dir file content)) = 0 <->
  forall id, In id (map fst CREDENTIAL_ID_MAP) -> contains id content = false.
Proof.
  destruct (loop_counts dir file CREDENTIAL_ID_MAP credential_keys_apart
              CREDENTIAL_ID_MAP content 0 (fun e H => H))
    as (_ & Hiff & _).
  cbv zeta in Hiff. fold (replace_ids dir file content) in Hiff.
  rewrite Hiff. split.
  - intros H id Hid. apply in_map_iff in Hid as (e & <- & He). auto.
  - intros H e He. apply H. now apply in_map.
Qed.

(** X1.  After the loop over [CREDENTIAL_ID_MAP], the text contains none
    of the credential IDs of the table, whatever the content was. *)
Theorem no_credential_left (dir file content id : text) :
  In id (map fst CREDENTIAL_ID_MAP) ->
  contains id (fst (value (replace_ids dir file content))) = false.
Proof. apply ids_cleared. Qed.

Lemma no_credential_left_witness :
  contains (t "6DunH8n5TZY3tjwT")
    (fst (value (replace_ids sample_dir (t "good.json")
                   (t "{'a': '6DunH8n5TZ6DunH8n5TZY3tjwT', 'b': 'kThf5Npwf1zJFn9l'}"))))
  = false.
Proof.
  apply (no_credential_left sample_dir (t "good.json")
           (t "{'a': '6DunH8n5TZ6DunH8n5TZY3tjwT', 'b': 'kThf5Npwf1zJFn9l'}")
           (t "6DunH8n5TZY3tjwT")).
  vm_compute. tauto.
Defined.

(** X2.  [file_replacements] is zero exactly when the content holds none
    of the credential IDs, and exactly when the loop returns the content
    as it was. *)
Theorem replacements_zero_iff_untouched (dir file content : text) :
  let r := value (replace_ids dir file content) in
  (snd r = 0 <->
   forall id, In id (map fst CREDENTIAL_ID_MAP) -> contains id content = false)
  /\ (snd r = 0 <-> fst r = content).
Proof.
  cbv zeta.
  destruct (loop_counts dir file CREDENTIAL_ID_MAP credential_keys_apart
              CREDENTIAL_ID_MAP content 0 (fun e H => H))
    as (_ & Hiff & Hsame).
  cbv zeta in Hiff, Hsame. fold (replace_ids dir file content) in Hiff, Hsame.
  pose proof (ids_counted dir file content) as Hids.
  split; [exact Hids|]. split; [exact Hsame|].
  intros E. apply Hids. intros id Hid. rewrite <- E.
  now apply ids_cleared.
Qed.

Lemma files_of_keys (f : filesystem) (dir name : text) :
  In name (map fst (files_of f dir)) -> In dir (map fst f).
Proof.
  unfold files_of. destruct (dict_get f dir) as [files|] eqn:E; [|intros []].
  intros _. eapply dict_get_In. eassumption.
Qed.

Lemma files_of_write (f : filesystem) (dir name content : text) :
  files_of (write_file f dir name content) dir
  = dict_set (files_of f dir) name content.
Proof. unfold write_file, files_of at 1. now rewrite dict_get_set_same. Qed.

Lemma files_of_write_other_dir (f : filesystem) (dir d name content : text) :
  d <> dir -> files_of (write_file f dir name content) d = files_of f d.
Proof.
  intros N. unfold files_of. now rewrite write_other_dir.
Qed.

Section Script.
Variable BASE_DIR : text.
Variable json_error : text -> option text.

Lemma kept_refl (dirs : list text) (st : state) : Frame.kept dirs st st.
Proof. unfold Frame.kept. repeat split; auto. Qed.

Lemma kept_trans (dirs : list text) (a b c : state) :
  Frame.kept dirs a b -> Frame.kept dirs b c -> Frame.kept dirs a c.
Proof.
  intros (A1 & A2 & A3 & A4 & A5) (B1 & B2 & B3 & B4 & B5).
  unfold Frame.kept. split; [congruence|]. split; [intros d; congruence|].
  split; [intros d H; rewrite B3, A3; auto|].
  split; [intros d n H; rewrite B4, A4; auto|].
  intros d n H. apply B5 in H as [H|(H1 & H2 & H3)]; [auto|].
  right. rewrite A2 in H3. auto.
Qed.

Lemma process_file_kept (dirs : list text) (dir : text) (st : state)
    (name : text) :
  In dir dirs ->
  Frame.kept dirs st (value (process_file json_error dir st name)).
Proof.
  intros Hdir.
  destruct (dict_get (files_of (fs st) dir) name) as [content|] eqn:E.
  - rewrite (process_file_value _ _ _ _ _ E).
    destruct (rewritten_text json_error dir name content) as [c'|] eqn:R;
      [|apply kept_refl].
    assert (Hj : endswith (t ".json") name = true).
    { apply (rewritten_text_Some BASE_DIR json_error dir name content). congruence. }
    assert (Hn : In name (map fst (files_of (fs st) dir)))
      by (eapply dict_get_In; eassumption).
    unfold Frame.kept. simpl. split; [|split; [|split; [|split]]].
    + unfold write_file. apply dict_set_keys.
      eapply files_of_keys. eassumption.
    + intros d. destruct (text_eq_dec d dir) as [->|N].
      * rewrite files_of_write. now apply dict_set_keys.
      * now rewrite files_of_write_other_dir.
    + intros d H. apply write_other_dir. intros ->. contradiction.
    + intros d n H. destruct (text_eq_dec d dir) as [->|N].
      * apply files_of_write_other. intros ->.
        exact (eq_true_false_abs _ Hj H).
      * now rewrite files_of_write_other_dir.
    + intros d n H. apply in_app_iff in H as [H|[H|[]]]; [auto|].
      injection H as <- <-. auto.
  - rewrite (process_file_absent _ _ _ _ E). apply kept_refl.
Qed.

Lemma files_loop_kept (dirs : list text) (dir : text) (names : list text) :
  In dir dirs ->
  forall st, Frame.kept dirs st
               (value (for_each names (process_file json_error dir) st)).
Proof.
  intros Hdir. induction names as [|x xs IH]; intros st; [apply kept_refl|].
  rewrite value_for_each_cons.
  eapply kept_trans; [apply process_file_kept; exact Hdir | apply IH].
Qed.

Lemma process_dir_kept (dirs : list text) (dir : text) (st : state) :
  In dir dirs -> Frame.kept dirs st (value (process_dir json_error st dir)).
Proof.
  intros Hdir. unfold process_dir. destruct (dict_get (fs st) dir).
  - now apply files_loop_kept.
  - apply kept_refl.
Qed.

Lemma dirs_loop_kept (dirs some : list text) :
  (forall d, In d some -> In d dirs) ->
  forall st, Frame.kept dirs st
               (value (for_each some (process_dir json_error) st)).
Proof.
  induction some as [|x xs IH]; intros Sub st; [apply kept_refl|].
  rewrite value_for_each_cons.
  eapply kept_trans; [apply process_dir_kept; apply Sub; now left|].
  apply IH. intros d H. apply Sub. now right.
Qed.

Lemma script_value (f : filesystem) :
  value (script BASE_DIR json_error f)
  = value (for_each (TEMPLATE_DIRS BASE_DIR) (process_dir json_error)
             (mkState f [] 0)).
Proof. unfold script. now rewrite !value_bind. Qed.

Lemma script_kept (f : filesystem) :
  Frame.kept (TEMPLATE_DIRS BASE_DIR) (mkState f [] 0)
    (value (script BASE_DIR json_error f)).
Proof. rewrite script_value. apply dirs_loop_kept. auto. Qed.

(** X3.  The script creates and deletes nothing: the directories and the
    names of their files are those it found.  It opens for writing only
    files that were there, whose name ends in [.json], in a template
    directory; directories outside [TEMPLATE_DIRS] and files with another
    extension keep their content. *)
Theorem script_touches_only_template_json (f : filesystem) :
  let st := value (script BASE_DIR json_error f) in
  map fst (fs st) = map fst f
  /\ (forall d, map fst (files_of (fs st) d) = map fst (files_of f d))
  /\ (forall d, ~ In d (TEMPLATE_DIRS BASE_DIR) ->
        dict_get (fs st) d = dict_get f d)
  /\ (forall d n, endswith (t ".json") n = false ->
        dict_get (files_of (fs st) d) n = dict_get (files_of f d) n)
  /\ (forall d n, In (d, n) (writes st) ->
        In d (TEMPLATE_DIRS BASE_DIR) /\ endswith (t ".json") n = true
        /\ In n (map fst (files_of f d))).
Proof.
  destruct (script_kept f) as (H1 & H2 & H3 & H4 & H5). simpl in *.
  repeat (split; [assumption|]).
  intros d n H. apply H5 in H as [[]|H]. exact H.
Qed.

(** A loop over files none of which is to be rewritten does nothing. *)
Lemma files_loop_idle (dir : text) (names : list text) (st : state) :
  (forall n c, In n names -> dict_get (files_of (fs st) dir) n = Some c ->
               rewritten_text json_error dir n c = None) ->
  value (for_each names (process_file json_error dir) st) = st.
Proof.
  induction names as [|x xs IH]; intros H; [reflexivity|].
  rewrite value_for_each_cons.
  assert (E : value (process_file json_error dir st x) = st).
  { destruct (dict_get (files_of (fs st) dir) x) as [c|] eqn:E.
    - rewrite (process_file_value _ _ _ _ _ E).
      now rewrite (H x c (or_introl eq_refl) E).
    - now apply process_file_absent. }
  rewrite E. apply IH. intros n c Hn. apply H. now right.
Qed.

Lemma process_dir_idle (dir : text) (st : state) :
  (forall n c, dict_get (files_of (fs st) dir) n = Some c ->
               rewritten_text json_error dir n c = None) ->
  value (process_dir json_error st dir) = st.
Proof.
  intros H. unfold process_dir. destruct (dict_get (fs st) dir); [|reflexivity].
  apply files_loop_idle. intros n c _. apply H.
Qed.

(** What the script leaves in a file of a template directory. *)
Lemma script_file_outcome
    (f : filesystem) (dir : text) (files : dict text) (name content : text) :
  In dir (TEMPLATE_DIRS BASE_DIR) ->
  dict_get f dir = Some files ->
  NoDup (map fst files) ->
  dict_get files name = Some content ->
  dict_get (files_of (fs (value (script BASE_DIR json_error f))) dir) name
  = Some (match rewritten_text json_error dir name content with
          | Some c' => c'
          | None => content
          end).
Proof.
  intros Hdir Hf ND Hc.
  set (d1 := path_join (PROJECT_ROOT BASE_DIR) (t "base-cold-email")) in *.
  set (d2 := path_join (PROJECT_ROOT BASE_DIR) (t "cold-email-system")) in *.
  assert (Hne : d1 <> d2) by apply template_dirs_distinct.
  set (st0 := mkState f [] 0).
  set (st1 := value (process_dir json_error st0 d1)).
  set (st2 := value (process_dir json_error st1 d2)).
  assert (Est : value (script BASE_DIR json_error f) = st2).
  { rewrite script_value. unfold TEMPLATE_DIRS. fold d1 d2.
    rewrite !value_for_each_cons. reflexivity. }
  rewrite Est. change (In dir [d1; d2]) in Hdir.
  destruct Hdir as [<-|[<-|[]]].
  - destruct (process_dir_same BASE_DIR json_error d1 st0 files Hf ND name content Hc)
      as [H1 _].
    destruct (process_dir_other BASE_DIR json_error d2 st1) as [O1 _].
    fold st1 in H1. fold st2 in O1.
    unfold files_of. rewrite (O1 d1 Hne). exact H1.
  - destruct (process_dir_other BASE_DIR json_error d1 st0) as [O1 _].
    fold st1 in O1.
    assert (Hf1 : dict_get (fs st1) d2 = Some files).
    { rewrite O1 by congruence. exact Hf. }
    destruct (process_dir_same BASE_DIR json_error d2 st1 files Hf1 ND name content Hc)
      as [H1 _].
    exact H1.
Qed.

(** A text without credential IDs is not rewritten. *)
Lemma rewritten_text_clean (dir name content : text) :
  (forall id, In id (map fst CREDENTIAL_ID_MAP) ->
              contains id content = false) ->
  rewritten_text json_error dir name content = None.
Proof.
  intros H. apply (ids_counted dir name content) in H.
  unfold rewritten_text. destruct (endswith (t ".json") name); [|reflexivity].
  destruct (value (replace_ids dir name content)) as [c n]. simpl in H.
  now subst n.
Qed.

(** X4.  Run on the files it has left, the script opens no file and
    leaves every file as it is: what it rewrote holds no credential ID any
    more, and what it refused to rewrite it refuses again. *)
Theorem second_run_changes_nothing (f : filesystem) :
  (forall dir files, In dir (TEMPLATE_DIRS BASE_DIR) ->
     dict_get f dir = Some files -> NoDup (map fst files)) ->
  let st := value (script BASE_DIR json_error f) in
  value (script BASE_DIR json_error (fs st)) = mkState (fs st) [] 0.
Proof.
  intros ND st.
  assert (Hidle : forall dir, In dir (TEMPLATE_DIRS BASE_DIR) ->
            forall n c, dict_get (files_of (fs st) dir) n = Some c ->
                        rewritten_text json_error dir n c = None).
  { intros dir Hdir n c1 H1.
    destruct (script_kept f) as (_ & K & _). fold st in K. simpl in K.
    assert (Hn : In n (map fst (files_of f dir))).
    { rewrite <- K. eapply dict_get_In. eassumption. }
    destruct (dict_get f dir) as [files|] eqn:Hf;
      [|unfold files_of in Hn; rewrite Hf in Hn; destruct Hn].
    assert (Ef : files_of f dir = files) by (unfold files_of; now rewrite Hf).
    rewrite Ef in Hn. apply In_dict_get in Hn as [c Hc].
    pose proof (script_file_outcome f dir files n c Hdir Hf
                  (ND dir files Hdir Hf) Hc) as Ho.
    fold st in Ho. rewrite H1 in Ho. injection Ho as ->.
    destruct (rewritten_text json_error dir n c) as [c'|] eqn:R; [|exact R].
    apply rewritten_text_value in R. subst c'.
    apply rewritten_text_clean. intros id Hid. now apply ids_cleared. }
  rewrite script_value. unfold TEMPLATE_DIRS in *.
  rewrite !value_for_each_cons.
  rewrite (process_dir_idle _ (mkState (fs st) [] 0))
    by (apply Hidle; now left).
  apply process_dir_idle. apply Hidle. right. now left.
Qed.

End Script.

Lemma second_run_changes_nothing_witness :
  let st := value (script (t "/repo/scripts") sample_json_error sample_fs) in
  value (script (t "/repo/scripts") sample_json_error (fs st))
  = mkState (fs st) [] 0.
Proof.
  apply (second_run_changes_nothing (t "/repo/scripts") sample_json_error
           sample_fs).
  intros dir files Hdir Hf.
  destruct Hdir as [<-|[<-|[]]]; vm_compute in Hf; [|discriminate].
  injection Hf as <-. repeat constructor; simpl; intuition discriminate.
Defined.

End Credentials.
